(** * Animated: a shallow embedding of [src/Animated.js]

    Definitions, in the order of their dependencies:

    - [WithChildren]: the class [AnimatedWithChildren] (child list,
      [addChild], [removeChild]);
    - [Driver], [TimingAnimation], [DecayAnimation], [SpringAnimation],
      [Animation]: the three drivers and what is common to them;
    - [Graph]: the object graph, [_flush] and the class [AnimatedValue]
      ([setValue], [animate], [_updateValue]);
    - [Composite]: the combinators [sequence] and [parallel];
    - [Frames], [ValueCalls], [SequenceState]: what is read off the calls of
      a driver, of a value and of a sequence;
    - [Event]: the handler made by [event];
    - [Vec2]: the class [AnimatedVec2];
    - [Wiring]: [attach] and [detach] over the classes of the graph;
    - [Stopping]: [stopAnimation] of an AnimatedValue;
    - [Examples]: the data of the examples.

    The properties follow, in the same order.

    JavaScript numbers are IEEE 754 binary64 values and are embedded as
    Rocq's primitive [float]; [===] on numbers is [PrimFloat.eqb], [<],
    [<=] are [PrimFloat.ltb], [PrimFloat.leb].  Object identity is a
    natural number ([node_id]).  Calls that leave the modelled object
    (virtual methods, callbacks of the client, the host's scheduler) are
    recorded, in program order, in the list of calls each operation
    returns; a callback is taken not to call back into the object that
    calls it. *)

From Stdlib Require Import ZArith Bool Floats Uint63.
From stdpp Require Import gmap list sorting.

Set Warnings "-inexact-float".

(** Object identity of a node of the dependency graph. *)
Abbreviation node_id := nat.

(** ** AnimatedWithChildren (source lines 40-70) *)

Module WithChildren.

(** What [addChild] / [removeChild] call on [this] or on the console.
    [attach()] and [detach()] are the subclass's: they add this node to, or
    remove it from, the child lists of the nodes it reads from, and leave
    its own child list alone. *)
Inductive call :=
| CallAttach   (* this.attach() *)
| CallDetach   (* this.detach() *)
| CallWarn.    (* console.warn('Trying to remove a child ...') *)

Definition is_attach (c : call) : bool :=
  match c with CallAttach => true | _ => false end.
Definition is_detach (c : call) : bool :=
  match c with CallDetach => true | _ => false end.

Definition attach_calls (l : list call) : nat := length (filter is_attach l).
Definition detach_calls (l : list call) : nat := length (filter is_detach l).

Record AnimatedWithChildren := mkAWC { _children : list node_id }.

(** [constructor() { super(); this._children = []; }] *)
Definition constructor : AnimatedWithChildren := mkAWC [].

(** [Array.prototype.indexOf]: index of the first element identical to
    [x]; [None] stands for [-1]. *)
Fixpoint indexOf (l : list node_id) (x : node_id) : option nat :=
  match l with
  | [] => None
  | y :: l' => if Nat.eqb y x then Some 0 else S <$> indexOf l' x
  end.

(** [addChild(child)]: attach on the first child, then push. *)
Definition addChild (self : AnimatedWithChildren) (child : node_id)
  : AnimatedWithChildren * list call :=
  let calls := if Nat.eqb (length (_children self)) 0 then [CallAttach] else [] in
  (mkAWC (_children self ++ [child]), calls).

(** [removeChild(child)]: warn and return when absent; otherwise
    [splice(index, 1)] and detach when the list became empty. *)
Definition removeChild (self : AnimatedWithChildren) (child : node_id)
  : AnimatedWithChildren * list call :=
  match indexOf (_children self) child with
  | None => (self, [CallWarn])
  | Some index =>
      let children' := delete index (_children self) in
      (mkAWC children',
       if Nat.eqb (length children') 0 then [CallDetach] else [])
  end.

(** [getChildren()] *)
Definition getChildren (self : AnimatedWithChildren) : list node_id :=
  _children self.

(** A client's sequence of operations on one node. *)
Inductive op :=
| OpAdd (child : node_id)
| OpRemove (child : node_id).

Definition step (self : AnimatedWithChildren) (o : op)
  : AnimatedWithChildren * list call :=
  match o with
  | OpAdd c => addChild self c
  | OpRemove c => removeChild self c
  end.

Fixpoint run (self : AnimatedWithChildren) (ops : list op)
  : AnimatedWithChildren * list call :=
  match ops with
  | [] => (self, [])
  | o :: ops' =>
      let '(s1, c1) := step self o in
      let '(s2, c2) := run s1 ops' in
      (s2, c1 ++ c2)
  end.

(** No [OpAdd] in [ops] adds a child that is in the list at that moment. *)
Fixpoint adds_fresh (self : AnimatedWithChildren) (ops : list op) : Prop :=
  match ops with
  | [] => True
  | o :: ops' =>
      match o with
      | OpAdd c => c ∉ _children self
      | OpRemove _ => True
      end ∧ adds_fresh (fst (step self o)) ops'
  end.

(** 1 when the node has a child (it is attached), 0 otherwise. *)
Definition attached (self : AnimatedWithChildren) : nat :=
  match _children self with [] => 0 | _ => 1 end.

End WithChildren.

(** ** Drivers: TimingAnimation, DecayAnimation, SpringAnimation
    (source lines 107-505)

    [Date.now()] returns an integral number of milliseconds; a reading of
    the clock is a [Z], converted to a number where the source does
    arithmetic on it.  A field the constructor leaves [undefined] is an
    [option] (time stamps, [_onEnd]) or, for a number only ever used in
    arithmetic, [nan] (which is what [undefined] converts to there).
    [_onUpdate] is the fixed sink of the [OnUpdate] calls and
    [_animationFrame], [_timeout] are the handles of the host's scheduler,
    visible here as the calls that request and cancel them. *)

Module Driver.

(** ToNumber of a clock reading (exact below 2^53 in absolute value). *)
Definition of_Z (z : Z) : float :=
  if (z <? 0)%Z then PrimFloat.opp (PrimFloat.of_uint63 (Uint63.of_Z (- z)))
  else PrimFloat.of_uint63 (Uint63.of_Z z).

(** ToNumber of a time stamp that may still be [undefined]. *)
Definition time_num (t : option Z) : float :=
  match t with
  | Some z => of_Z z
  | None => nan
  end.

(** ToBoolean of a number: [0], [-0] and [NaN] are falsy. *)
Definition truthy (x : float) : bool :=
  negb (PrimFloat.eqb x 0) && negb (PrimFloat.is_nan x).

(** [value || defaultValue] on an optional number. *)
Definition or_default (value : option float) (defaultValue : float) : float :=
  match value with
  | Some v => if truthy v then v else defaultValue
  | None => defaultValue
  end.

(** [withDefault(value, defaultValue)]; [None] is [undefined] or [null]. *)
Definition withDefault {T : Type} (value : option T) (defaultValue : T) : T :=
  match value with
  | None => defaultValue
  | Some v => v
  end.

(** What a driver calls outside itself, in program order; [H] is the type
    of the completion callbacks handed to [start]. *)
Inductive call (H : Type) :=
| OnUpdate (value : float)            (* this._onUpdate(value) *)
| OnEnd (onEnd : H) (finished : bool) (* onEnd(finished) *)
| RequestAnimationFrame               (* window.requestAnimationFrame(this.onUpdate.bind(this)) *)
| CancelAnimationFrame                (* window.cancelAnimationFrame(this._animationFrame) *)
| SetTimeout (delay : float)          (* setTimeout(start, this._delay) *)
| ClearTimeout.                       (* clearTimeout(this._timeout) *)

Arguments OnUpdate {H} value.
Arguments OnEnd {H} onEnd finished.
Arguments RequestAnimationFrame {H}.
Arguments CancelAnimationFrame {H}.
Arguments SetTimeout {H} delay.
Arguments ClearTimeout {H}.

(** [var onEnd = this._onEnd; this._onEnd = null; onEnd && onEnd(finished);]
    gives the calls made; the caller stores [None] in [_onEnd]. *)
Definition fire {H : Type} (onEnd : option H) (finished : bool) : list (call H) :=
  match onEnd with
  | Some h => [OnEnd h finished]
  | None => []
  end.

Definition is_OnEnd {H : Type} (c : call H) : bool :=
  match c with OnEnd _ _ => true | _ => false end.

(** Number of completion callbacks fired in a list of calls. *)
Definition ends {H : Type} (l : list (call H)) : nat := length (filter is_OnEnd l).

End Driver.

(** *** TimingAnimation (source lines 107-185) *)

Module TimingAnimation.
Import Driver.

Section WithHandler.
Context {H : Type}.

(** The configuration; [None] is a property that is not given. *)
Record TimingAnimationConfig := mkConfig {
  toValue : float;
  easing : option (float -> float);
  duration : option float;
  delay : option float
}.

Record TimingAnimation := mk {
  _startTime : option Z;
  _fromValue : float;
  _toValue : float;
  _duration : float;
  _delay : float;
  _easing : float -> float;
  _onEnd : option H
}.

(** [Easing.inOut(Easing.ease)], defined outside the source file. *)
Variable Easing_inOut_ease : float -> float.

Definition constructor (config : TimingAnimationConfig) : TimingAnimation :=
  {| _startTime := None;
     _fromValue := nan;
     _toValue := toValue config;
     _easing := withDefault (easing config) Easing_inOut_ease;
     _duration := withDefault (duration config) 500%float;
     _delay := or_default (delay config) 0%float;
     _onEnd := None |}.

Definition set_startTime (self : TimingAnimation) (t : option Z) : TimingAnimation :=
  mk t (_fromValue self) (_toValue self) (_duration self) (_delay self)
     (_easing self) (_onEnd self).

Definition set_onEnd (self : TimingAnimation) (onEnd : option H) : TimingAnimation :=
  mk (_startTime self) (_fromValue self) (_toValue self) (_duration self)
     (_delay self) (_easing self) onEnd.

(** The closure [start] inside the method [start], run at once or by the
    timer after [_delay], at clock reading [now]. *)
Definition start_closure (self : TimingAnimation) (now : Z)
  : TimingAnimation * list (call H) :=
  (set_startTime self (Some now), [RequestAnimationFrame]).

Definition start (self : TimingAnimation) (fromValue : float)
  (onEnd : option H) (now : Z) : TimingAnimation * list (call H) :=
  let self1 :=
    mk (_startTime self) fromValue (_toValue self) (_duration self)
       (_delay self) (_easing self) onEnd in
  if truthy (_delay self1) then (self1, [SetTimeout (_delay self1)])
  else start_closure self1 now.

(** [onUpdate()], run by the frame callback at clock reading [now]. *)
Definition onUpdate (self : TimingAnimation) (now : Z)
  : TimingAnimation * list (call H) :=
  if PrimFloat.ltb (time_num (_startTime self) + _duration self)%float (of_Z now)
  then
    (set_onEnd self None,
     OnUpdate (_fromValue self
               + _easing self 1 * (_toValue self - _fromValue self))%float
     :: fire (_onEnd self) true)
  else
    (self,
     [OnUpdate (_fromValue self
                + _easing self ((of_Z now - time_num (_startTime self))
                                / _duration self)
                  * (_toValue self - _fromValue self))%float;
      RequestAnimationFrame]).

Definition stop (self : TimingAnimation) : TimingAnimation * list (call H) :=
  (set_onEnd self None,
   ClearTimeout :: CancelAnimationFrame :: fire (_onEnd self) false).

End WithHandler.

Arguments TimingAnimation H : clear implicits.

End TimingAnimation.

(** *** DecayAnimation (source lines 187-249) *)

Module DecayAnimation.
Import Driver.

Section WithHandler.
Context {H : Type}.

Record DecayAnimationConfig := mkConfig {
  velocity : float;
  deceleration : option float
}.

Record DecayAnimation := mk {
  _startTime : option Z;
  _lastValue : float;
  _fromValue : float;
  _deceleration : float;
  _velocity : float;
  _onEnd : option H
}.

(** [Math.exp], supplied by the host. *)
Variable Math_exp : float -> float.

Definition constructor (config : DecayAnimationConfig) : DecayAnimation :=
  {| _startTime := None;
     _lastValue := nan;
     _fromValue := nan;
     _deceleration := or_default (deceleration config) 0.998%float;
     _velocity := velocity config;
     _onEnd := None |}.

Definition set_onEnd (self : DecayAnimation) (onEnd : option H) : DecayAnimation :=
  mk (_startTime self) (_lastValue self) (_fromValue self) (_deceleration self)
     (_velocity self) onEnd.

Definition set_lastValue (self : DecayAnimation) (v : float) : DecayAnimation :=
  mk (_startTime self) v (_fromValue self) (_deceleration self)
     (_velocity self) (_onEnd self).

Definition start (self : DecayAnimation) (fromValue : float)
  (onEnd : option H) (now : Z) : DecayAnimation * list (call H) :=
  (mk (Some now) fromValue fromValue (_deceleration self) (_velocity self) onEnd,
   [RequestAnimationFrame]).

Definition onUpdate (self : DecayAnimation) (now : Z)
  : DecayAnimation * list (call H) :=
  let value :=
    (_fromValue self
     + (_velocity self / (1 - _deceleration self))
       * (1 - Math_exp (PrimFloat.opp (1 - _deceleration self)
                        * (of_Z now - time_num (_startTime self)))))%float in
  if PrimFloat.ltb (PrimFloat.abs (_lastValue self - value)%float) 0.1%float
  then (set_onEnd self None, OnUpdate value :: fire (_onEnd self) true)
  else (set_lastValue self value, [OnUpdate value; RequestAnimationFrame]).

Definition stop (self : DecayAnimation) : DecayAnimation * list (call H) :=
  (set_onEnd self None, CancelAnimationFrame :: fire (_onEnd self) false).

End WithHandler.

Arguments DecayAnimation H : clear implicits.

End DecayAnimation.

(** *** SpringAnimation (source lines 251-505) *)

Module SpringAnimation.
Import Driver.

Definition tensionFromOrigamiValue (oValue : float) : float :=
  ((oValue - 30.0) * 3.62 + 194.0)%float.

Definition frictionFromOrigamiValue (oValue : float) : float :=
  ((oValue - 8.0) * 3.0 + 25.0)%float.

(** The object [{tension, friction}] the two conversions return. *)
Record SpringConfig := mkSpringConfig {
  sc_tension : float;
  sc_friction : float
}.

Definition fromOrigamiTensionAndFriction (tension friction : float) : SpringConfig :=
  {| sc_tension := tensionFromOrigamiValue tension;
     sc_friction := frictionFromOrigamiValue friction |}.

Section BouncinessAndSpeed.

(** [Math.pow], supplied by the host. *)
Variable Math_pow : float -> float -> float.

Definition normalize (value startValue endValue : float) : float :=
  ((value - startValue) / (endValue - startValue))%float.

Definition projectNormal (n start end_ : float) : float :=
  (start + (n * (end_ - start)))%float.

Definition linearInterpolation (t start end_ : float) : float :=
  (t * end_ + (1.0 - t) * start)%float.

Definition quadraticOutInterpolation (t start end_ : float) : float :=
  linearInterpolation (2 * t - t * t)%float start end_.

Definition b3Friction1 (x : float) : float :=
  ((0.0007 * Math_pow x 3) - (0.031 * Math_pow x 2) + 0.64 * x + 1.28)%float.

Definition b3Friction2 (x : float) : float :=
  ((0.000044 * Math_pow x 3) - (0.006 * Math_pow x 2) + 0.36 * x + 2)%float.

Definition b3Friction3 (x : float) : float :=
  ((0.00000045 * Math_pow x 3) - (0.000332 * Math_pow x 2) + 0.1078 * x + 5.84)%float.

Definition b3Nobounce (tension : float) : float :=
  if PrimFloat.leb tension 18 then b3Friction1 tension
  else if PrimFloat.ltb 18 tension && PrimFloat.leb tension 44
       then b3Friction2 tension
       else b3Friction3 tension.

Definition fromBouncinessAndSpeed (bounciness speed : float) : SpringConfig :=
  let b := normalize (bounciness / 1.7)%float 0 20.0 in
  let b := projectNormal b 0.0 0.8 in
  let s := normalize (speed / 1.7)%float 0 20.0 in
  let bouncyTension := projectNormal s 0.5 200 in
  let bouncyFriction :=
    quadraticOutInterpolation b (b3Nobounce bouncyTension) 0.01 in
  {| sc_tension := tensionFromOrigamiValue bouncyTension;
     sc_friction := frictionFromOrigamiValue bouncyFriction |}.

End BouncinessAndSpeed.

Section WithHandler.
Context {H : Type}.

(** A property of the configuration that the constructor compares with
    [undefined]: not given (or given as [undefined]), [null], or a number. *)
Inductive parameter :=
| Undefined
| Null
| Number (value : float).

(** [x !== undefined] *)
Definition defined (x : parameter) : bool :=
  match x with
  | Undefined => false
  | _ => true
  end.

(** The property as [withDefault] takes it, for which [undefined] and
    [null] are the same. *)
Definition given (x : parameter) : option float :=
  match x with
  | Number value => Some value
  | _ => None
  end.

Record SpringAnimationConfig := mkConfig {
  toValue : float;
  overshootClamping : option bool;
  restDisplacementThreshold : option float;
  restSpeedThreshold : option float;
  velocity : option float;
  bounciness : parameter;
  speed : parameter;
  tension : parameter;
  friction : parameter
}.

Record SpringAnimation := mk {
  _overshootClamping : bool;
  _restDisplacementThreshold : float;
  _restSpeedThreshold : float;
  _lastVelocity : float;
  _tempVelocity : float;
  _startPosition : float;
  _lastPosition : float;
  _tempPosition : float;
  _toValue : float;
  _tension : float;
  _friction : float;
  _lastTime : option Z;
  _onEnd : option H;
  _active : bool
}.

Variable Math_pow : float -> float -> float.

(** The constructor; [None] is the exception [invariant] throws when
    [bounciness] or [speed] is not [undefined] and [tension] or [friction]
    is not [undefined] either. *)
Definition constructor (config : SpringAnimationConfig) : option SpringAnimation :=
  let springConfig :=
    if defined (bounciness config) || defined (speed config)
    then
      if negb (defined (tension config)) && negb (defined (friction config))
      then Some (fromBouncinessAndSpeed Math_pow
                   (withDefault (given (bounciness config)) 8%float)
                   (withDefault (given (speed config)) 12%float))
      else None
    else
      Some (fromOrigamiTensionAndFriction
              (withDefault (given (tension config)) 40%float)
              (withDefault (given (friction config)) 7%float)) in
  match springConfig with
  | None => None
  | Some springConfig =>
      Some {| _overshootClamping := withDefault (overshootClamping config) false;
              _restDisplacementThreshold :=
                withDefault (restDisplacementThreshold config) 0.001%float;
              _restSpeedThreshold := withDefault (restSpeedThreshold config) 0.001%float;
              _lastVelocity := withDefault (velocity config) 0%float;
              _tempVelocity := withDefault (velocity config) 0%float;
              _startPosition := nan;
              _lastPosition := nan;
              _tempPosition := nan;
              _toValue := toValue config;
              _tension := sc_tension springConfig;
              _friction := sc_friction springConfig;
              _lastTime := None;
              _onEnd := None;
              _active := false |}
  end.

Definition set_onEnd (self : SpringAnimation) (onEnd : option H) : SpringAnimation :=
  mk (_overshootClamping self) (_restDisplacementThreshold self)
     (_restSpeedThreshold self) (_lastVelocity self) (_tempVelocity self)
     (_startPosition self) (_lastPosition self) (_tempPosition self)
     (_toValue self) (_tension self) (_friction self) (_lastTime self)
     onEnd (_active self).

Definition set_active (self : SpringAnimation) (active : bool) : SpringAnimation :=
  mk (_overshootClamping self) (_restDisplacementThreshold self)
     (_restSpeedThreshold self) (_lastVelocity self) (_tempVelocity self)
     (_startPosition self) (_lastPosition self) (_tempPosition self)
     (_toValue self) (_tension self) (_friction self) (_lastTime self)
     (_onEnd self) active.

(** The integrator's variables [position], [velocity], [tempPosition],
    [tempVelocity]. *)
Record Integration := mkIntegration {
  position : float;
  velocity' : float;
  tempPosition : float;
  tempVelocity : float
}.

(** One pass through the body of the [for] loop of [onUpdate]: a
    Runge-Kutta step of [TIMESTEP_MSEC / 1000] seconds. *)
Definition rk4_step (self : SpringAnimation) (st : Integration) : Integration :=
  let position := position st in
  let velocity := velocity' st in
  let tempPosition := tempPosition st in
  let tempVelocity := tempVelocity st in
  let step := (4 / 1000)%float in
  let aVelocity := velocity in
  let aAcceleration :=
    (_tension self * (_toValue self - tempPosition) - _friction self * tempVelocity)%float in
  let tempPosition := (position + aVelocity * step / 2)%float in
  let tempVelocity := (velocity + aAcceleration * step / 2)%float in
  let bVelocity := tempVelocity in
  let bAcceleration :=
    (_tension self * (_toValue self - tempPosition) - _friction self * tempVelocity)%float in
  let tempPosition := (position + bVelocity * step / 2)%float in
  let tempVelocity := (velocity + bAcceleration * step / 2)%float in
  let cVelocity := tempVelocity in
  let cAcceleration :=
    (_tension self * (_toValue self - tempPosition) - _friction self * tempVelocity)%float in
  let tempPosition := (position + cVelocity * step)%float in
  let tempVelocity := (velocity + cAcceleration * step)%float in
  let dVelocity := tempVelocity in
  let dAcceleration :=
    (_tension self * (_toValue self - tempPosition) - _friction self * tempVelocity)%float in
  let dxdt := ((aVelocity + 2 * (bVelocity + cVelocity) + dVelocity) / 6)%float in
  let dvdt :=
    ((aAcceleration + 2 * (bAcceleration + cAcceleration) + dAcceleration) / 6)%float in
  {| position := (position + dxdt * step)%float;
     velocity' := (velocity + dvdt * step)%float;
     tempPosition := tempPosition;
     tempVelocity := tempVelocity |}.

(** [Math.floor((now - this._lastTime) / TIMESTEP_MSEC)] as the number of
    passes of the loop [for (i = 0; i < numSteps; ++i)]: none when the
    quotient is negative or, [_lastTime] being [undefined], [NaN]. *)
Definition numSteps (self : SpringAnimation) (now : Z) : nat :=
  match _lastTime self with
  | Some lastTime => Z.to_nat ((now - lastTime) / 4)
  | None => 0
  end.

Definition integrate (self : SpringAnimation) (now : Z) : Integration :=
  Nat.iter (numSteps self now) (rk4_step self)
    {| position := _lastPosition self;
       velocity' := _lastVelocity self;
       tempPosition := _lastPosition self;
       tempVelocity := _lastVelocity self |}.

(** [isOvershooting], [isVelocity], [isDisplacement] of [onUpdate]. *)
Definition isOvershooting (self : SpringAnimation) (position : float) : bool :=
  if _overshootClamping self && negb (PrimFloat.eqb (_tension self) 0)
  then
    if PrimFloat.ltb (_startPosition self) (_toValue self)
    then PrimFloat.ltb (_toValue self) position
    else PrimFloat.ltb position (_toValue self)
  else false.

Definition isVelocity (self : SpringAnimation) (velocity : float) : bool :=
  PrimFloat.leb (PrimFloat.abs velocity) (_restSpeedThreshold self).

Definition isDisplacement (self : SpringAnimation) (position : float) : bool :=
  if negb (PrimFloat.eqb (_tension self) 0)
  then PrimFloat.leb (PrimFloat.abs (_toValue self - position)%float)
         (_restDisplacementThreshold self)
  else true.

(** [onUpdate()] at clock reading [now]. *)
Definition onUpdate (self : SpringAnimation) (now : Z)
  : SpringAnimation * list (call H) :=
  if negb (_active self) then (self, [])
  else
    let st := integrate self now in
    let self1 :=
      mk (_overshootClamping self) (_restDisplacementThreshold self)
         (_restSpeedThreshold self) (velocity' st) (tempVelocity st)
         (_startPosition self) (position st) (tempPosition st)
         (_toValue self) (_tension self) (_friction self) (Some now)
         (_onEnd self) (_active self) in
    if isOvershooting self1 (position st)
       || (isVelocity self1 (velocity' st) && isDisplacement self1 (position st))
    then (set_onEnd self1 None, OnUpdate (position st) :: fire (_onEnd self1) true)
    else (self1, [OnUpdate (position st); RequestAnimationFrame]).

(** [start(fromValue, onUpdate, onEnd, previousAnimation)];
    [previousAnimation] is [Some] when it is an instance of
    [SpringAnimation]; [now] and [now'] are the readings of the clock in
    [start] and in the call of [onUpdate] that ends it. *)
Definition start (self : SpringAnimation) (fromValue : float)
  (onEnd : option H) (previousAnimation : option SpringAnimation)
  (now now' : Z) : SpringAnimation * list (call H) :=
  let self1 :=
    match previousAnimation with
    | Some previous =>
        mk (_overshootClamping self) (_restDisplacementThreshold self)
           (_restSpeedThreshold self) (_lastVelocity previous)
           (_tempVelocity previous) fromValue (_lastPosition previous)
           (_tempPosition previous) (_toValue self) (_tension self)
           (_friction self) (_lastTime previous) onEnd true
    | None =>
        mk (_overshootClamping self) (_restDisplacementThreshold self)
           (_restSpeedThreshold self) (_lastVelocity self)
           (_tempVelocity self) fromValue fromValue fromValue
           (_toValue self) (_tension self) (_friction self) (Some now)
           onEnd true
    end in
  onUpdate self1 now'.

Definition stop (self : SpringAnimation) : SpringAnimation * list (call H) :=
  (set_onEnd (set_active self false) None,
   CancelAnimationFrame :: fire (_onEnd self) false).

End WithHandler.

Arguments SpringAnimation H : clear implicits.

End SpringAnimation.

(** *** Animation: an instance of one of the three drivers *)

Module Animation.
Import Driver.

Section WithHandler.
Context {H : Type}.

Inductive Animation :=
| Timing (a : TimingAnimation.TimingAnimation H)
| Decay (a : DecayAnimation.DecayAnimation H)
| Spring (a : SpringAnimation.SpringAnimation H).

Definition _onEnd (a : Animation) : option H :=
  match a with
  | Timing t => TimingAnimation._onEnd t
  | Decay d => DecayAnimation._onEnd d
  | Spring s => SpringAnimation._onEnd s
  end.

(** [start(fromValue, onUpdate, onEnd, previousAnimation)];
    [previousAnimation] counts for a SpringAnimation started after a
    SpringAnimation; [now], [now'] are the readings of the clock. *)
Definition start (a : Animation) (fromValue : float) (onEnd : option H)
  (previousAnimation : option Animation) (now now' : Z)
  : Animation * list (call H) :=
  match a with
  | Timing t =>
      let '(t', cs) := TimingAnimation.start t fromValue onEnd now in
      (Timing t', cs)
  | Decay d =>
      let '(d', cs) := DecayAnimation.start d fromValue onEnd now in
      (Decay d', cs)
  | Spring s =>
      let previous :=
        match previousAnimation with
        | Some (Spring p) => Some p
        | _ => None
        end in
      let '(s', cs) := SpringAnimation.start s fromValue onEnd previous now now' in
      (Spring s', cs)
  end.

Definition stop (a : Animation) : Animation * list (call H) :=
  match a with
  | Timing t => let '(t', cs) := TimingAnimation.stop t in (Timing t', cs)
  | Decay d => let '(d', cs) := DecayAnimation.stop d in (Decay d', cs)
  | Spring s => let '(s', cs) := SpringAnimation.stop s in (Spring s', cs)
  end.

Variable Math_exp : float -> float.

(** [onUpdate()], run by the frame callback at clock reading [now]. *)
Definition onUpdate (a : Animation) (now : Z) : Animation * list (call H) :=
  match a with
  | Timing t => let '(t', cs) := TimingAnimation.onUpdate t now in (Timing t', cs)
  | Decay d => let '(d', cs) := DecayAnimation.onUpdate Math_exp d now in (Decay d', cs)
  | Spring s => let '(s', cs) := SpringAnimation.onUpdate s now in (Spring s', cs)
  end.

(** What happens to a started driver: the host runs a frame callback or
    the timer of a delayed TimingAnimation, or the owner calls [stop]. *)
Inductive op :=
| Frame (now : Z)
| Timer (now : Z)
| StopCall.

Definition step (a : Animation) (o : op) : Animation * list (call H) :=
  match o with
  | Frame now => onUpdate a now
  | Timer now =>
      match a with
      | Timing t =>
          let '(t', cs) := TimingAnimation.start_closure t now in (Timing t', cs)
      | _ => (a, [])
      end
  | StopCall => stop a
  end.

Fixpoint run (a : Animation) (ops : list op) : Animation * list (call H) :=
  match ops with
  | [] => (a, [])
  | o :: ops' =>
      let '(a1, c1) := step a o in
      let '(a2, c2) := run a1 ops' in
      (a2, c1 ++ c2)
  end.

(** A step from [a] to [a'] with calls [cs] either leaves [_onEnd] alone
    and calls no completion callback, or clears it and calls what it held. *)
Definition fires (a a' : Animation) (cs : list (call H)) : Prop :=
  (_onEnd a' = _onEnd a ∧ filter is_OnEnd cs = []) ∨
  (_onEnd a' = None ∧ ∃ finished, filter is_OnEnd cs = fire (_onEnd a) finished).

(** The state of the completion callback [h] after the calls [tr]: still
    held and never called, or called once and dropped. *)
Definition pending_or_fired (h : H) (a : Animation) (tr : list (call H)) : Prop :=
  (_onEnd a = Some h ∧ filter is_OnEnd tr = []) ∨
  (_onEnd a = None ∧ ∃ finished, filter is_OnEnd tr = [OnEnd h finished]).

End WithHandler.

Arguments Animation H : clear implicits.

End Animation.

(** ** The object graph, [_flush] and AnimatedValue
    (source lines 72-105 and 507-605) *)

Module Graph.
Import Driver.

(** Identity of a function value supplied by the client. *)
Definition fn := nat.

(** The completion closure [animate] hands to [start],
    [(finished) => { this._animation = null; callback && callback(finished); }],
    is determined by the [callback] it captures. *)
Definition onEndClosure := option fn.

(** The drivers an AnimatedValue runs. *)
Definition Animation := Animation.Animation onEndClosure.

(** [class AnimatedValue extends AnimatedWithChildren] *)
Record AnimatedValue := mkValue {
  _children : list node_id;
  _value : float;
  _offset : float;
  _animation : option Animation;
  _listeners : gmap nat fn
}.

(** The objects of the graph, by what [_flush] can tell apart. *)
Inductive node :=
| NValue (v : AnimatedValue)
    (* AnimatedValue *)
| NWithChildren (c : WithChildren.AnimatedWithChildren)
    (* AnimatedVec2, AnimatedInterpolation, AnimatedTransform, AnimatedStyle *)
| NTerminal.
    (* AnimatedProps, AnimatedTracking: they extend Animated and have update() *)

Abbreviation heap := (gmap node_id node).

(** ['update' in theNode] *)
Definition has_update (nd : node) : bool :=
  match nd with
  | NTerminal => true
  | _ => false
  end.

(** [theNode.getChildren()] *)
Definition getChildren (nd : node) : list node_id :=
  match nd with
  | NValue v => _children v
  | NWithChildren c => WithChildren.getChildren c
  | NTerminal => []
  end.

(** [Set.prototype.add] on a set kept in insertion order. *)
Definition Set_add (x : node_id) (s : list node_id) : list node_id :=
  if bool_decide (x ∈ s) then s else s ++ [x].

(** [findAnimatedStyles(theNode)] acting on the set [animatedStyles];
    [fuel] bounds the depth of the recursion, and [None] is a depth
    beyond it (or a reference to no object). *)
Fixpoint findAnimatedStyles (fuel : nat) (h : heap)
  (animatedStyles : list node_id) (theNode : node_id) : option (list node_id) :=
  match fuel with
  | 0 => None
  | S fuel' =>
      match h !! theNode with
      | None => None
      | Some nd =>
          if has_update nd then Some (Set_add theNode animatedStyles)
          else
            foldl (fun acc child =>
                     match acc with
                     | Some s => findAnimatedStyles fuel' h s child
                     | None => None
                     end)
                  (Some animatedStyles) (getChildren nd)
      end
  end.

(** The loop [theNode.getChildren().forEach(findAnimatedStyles)]. *)
Definition forEach_child (fuel : nat) (h : heap) (acc : option (list node_id))
  (children : list node_id) : option (list node_id) :=
  foldl (fun acc child =>
           match acc with
           | Some s => findAnimatedStyles fuel h s child
           | None => None
           end) acc children.

(** [_flush(node)]: the nodes whose [update()] it calls, in order. *)
Definition _flush (fuel : nat) (h : heap) (node : node_id) : option (list node_id) :=
  findAnimatedStyles fuel h [] node.

(** [t] is a node with [update()] found from [n] by going down through
    the children of nodes without [update()]. *)
Inductive reaches (h : heap) : node_id -> node_id -> Prop :=
| reaches_here n nd :
    h !! n = Some nd -> has_update nd = true -> reaches h n n
| reaches_child n nd c t :
    h !! n = Some nd -> has_update nd = false -> c ∈ getChildren nd ->
    reaches h c t -> reaches h n t.

(** The graph below the nodes without [update()] is closed and acyclic:
    [rank] decreases along every edge [_flush] follows. *)
Definition ranked (h : heap) (rank : node_id -> nat) : Prop :=
  ∀ n nd c, h !! n = Some nd -> has_update nd = false -> c ∈ getChildren nd ->
            is_Some (h !! c) ∧ rank c < rank n.

(** [ranked], decided. *)
Definition rankedb (h : heap) (rank : node_id -> nat) : bool :=
  forallb (fun '(n, nd) =>
             has_update nd
             || forallb (fun c => bool_decide (is_Some (h !! c)) && (rank c <? rank n))
                        (getChildren nd))
          (map_to_list h).

(** What the methods of an AnimatedValue call outside the value. *)
Inductive call :=
| Flush (node : node_id) (updates : list node_id)
    (* one run of _flush(node), calling update() on each of [updates] *)
| Listener (key : nat) (callback : fn) (value : float)
    (* this._listeners[key]({value: value}) *)
| OnEndClosure (callback : option fn) (finished : bool)
    (* the completion closure of animate runs; it calls callback(finished)
       when a callback was given *)
| Host (c : Driver.call onEndClosure).
    (* a call of the scheduler made by the driver *)

Definition is_Flush (c : call) : bool :=
  match c with Flush _ _ => true | _ => false end.
Definition is_Listener (c : call) : bool :=
  match c with Listener _ _ _ => true | _ => false end.

Definition is_Listener_of (key : nat) (c : call) : bool :=
  match c with Listener k _ _ => Nat.eqb k key | _ => false end.

(** The calls of the listener registered under [key]. *)
Definition calls_of_listener (key : nat) (out : list call) : list call :=
  filter (is_Listener_of key) out.

Definition constructor (value : float) : AnimatedValue :=
  {| _children := []; _value := value; _offset := 0%float;
     _animation := None; _listeners := ∅ |}.

Definition getValue (self : AnimatedValue) : float :=
  (_value self + _offset self)%float.

Definition getOffset (self : AnimatedValue) : float := _offset self.

Definition setOffset (self : AnimatedValue) (offset : float) : AnimatedValue :=
  mkValue (_children self) (_value self) offset (_animation self) (_listeners self).

(** [addListener(callback)]; [_uniqueId] is the counter of the module. *)
Definition addListener (self : AnimatedValue) (_uniqueId : nat) (callback : fn)
  : AnimatedValue * nat * nat :=
  let id := _uniqueId in
  (mkValue (_children self) (_value self) (_offset self) (_animation self)
     (<[id := callback]> (_listeners self)),
   id, S _uniqueId).

Definition removeListener (self : AnimatedValue) (id : nat) : AnimatedValue :=
  mkValue (_children self) (_value self) (_offset self) (_animation self)
    (delete id (_listeners self)).

Definition set_animation (self : AnimatedValue) (a : option Animation) : AnimatedValue :=
  mkValue (_children self) (_value self) (_offset self) a (_listeners self).

Definition set_value (self : AnimatedValue) (v : float) : AnimatedValue :=
  mkValue (_children self) v (_offset self) (_animation self) (_listeners self).

(** The value object stored at [id]. *)
Definition value_at (h : heap) (id : node_id) : option AnimatedValue :=
  match h !! id with
  | Some (NValue v) => Some v
  | _ => None
  end.

(** The entries of [_listeners] in the order in which [for (var key in
    this._listeners)] visits them: integer keys, ascending. *)
Definition key_le (kv1 kv2 : nat * fn) : Prop := kv1.1 ≤ kv2.1.

#[global] Instance key_le_dec : RelDecision key_le :=
  fun kv1 kv2 => decide (kv1.1 ≤ kv2.1).

Definition entries (m : gmap nat fn) : list (nat * fn) :=
  merge_sort key_le (map_to_list m).

(** [for (var key in this._listeners) this._listeners[key]({value: this.getValue()})] *)
Definition notify (self : AnimatedValue) : list call :=
  (fun kv => Listener kv.1 kv.2 (getValue self)) <$> entries (_listeners self).

(** [_updateValue(value)] on the value stored at [id]. *)
Definition _updateValue (fuel : nat) (h : heap) (id : node_id) (value : float)
  : option (heap * list call) :=
  self ← value_at h id;
  if PrimFloat.eqb value (_value self) then Some (h, [])
  else
    let self' := set_value self value in
    let h' := <[id := NValue self']> h in
    updates ← _flush fuel h' id;
    Some (h', Flush id updates :: notify self').

(** The effect, on the value stored at [id], of the calls its driver
    makes: [OnUpdate] is the closure [(value) => this._updateValue(value)],
    [OnEnd] the completion closure, the rest goes to the host. *)
Fixpoint driver_calls (fuel : nat) (h : heap) (id : node_id)
  (cs : list (Driver.call onEndClosure)) : option (heap * list call) :=
  match cs with
  | [] => Some (h, [])
  | c :: cs' =>
      '(h1, out1) ←
        match c with
        | OnUpdate value => _updateValue fuel h id value
        | OnEnd callback finished =>
            self ← value_at h id;
            Some (<[id := NValue (set_animation self None)]> h,
                  [OnEndClosure callback finished])
        | _ => Some (h, [Host c])
        end;
      '(h2, out2) ← driver_calls fuel h1 id cs';
      Some (h2, out1 ++ out2)
  end.

(** [setValue(value)] on the value stored at [id]. *)
Definition setValue (fuel : nat) (h : heap) (id : node_id) (value : float)
  : option (heap * list call) :=
  self ← value_at h id;
  '(h1, out1) ←
    match _animation self with
    | Some a =>
        let '(a', cs) := Animation.stop a in
        '(h1, out1) ← driver_calls fuel (<[id := NValue (set_animation self (Some a'))]> h) id cs;
        self1 ← value_at h1 id;
        Some (<[id := NValue (set_animation self1 None)]> h1, out1)
    | None => Some (h, [])
    end;
  '(h2, out2) ← _updateValue fuel h1 id value;
  Some (h2, out1 ++ out2).

(** [animate(animation, callback)] on the value stored at [id]; [now] and
    [now'] are the readings of the clock the driver takes in [start]. *)
Definition animate (fuel : nat) (h : heap) (id : node_id)
  (animation : Animation) (callback : option fn) (now now' : Z)
  : option (heap * list call) :=
  self ← value_at h id;
  '(h1, out1, previousAnimation) ←
    match _animation self with
    | Some a =>
        let '(a', cs) := Animation.stop a in
        '(h1, out1) ← driver_calls fuel (<[id := NValue (set_animation self (Some a'))]> h) id cs;
        Some (h1, out1, Some a')
    | None => Some (h, [], None)
    end;
  self1 ← value_at h1 id;
  let '(a1, cs) :=
    Animation.start animation (_value self1) (Some callback) previousAnimation now now' in
  '(h2, out2) ← driver_calls fuel (<[id := NValue (set_animation self1 (Some a1))]> h1) id cs;
  Some (h2, out1 ++ out2).

End Graph.

(** ** Combinators: sequence and parallel (source lines 1131-1206)

    The animations handed to a combinator are objects [{start, stop}] of
    the client.  They are taken to honour the contract of the drivers
    above: [start] is called on an animation that was not started; an
    animation reports completion at most once, either during [start],
    later on its own, or with [false] when [stop] reaches it while it
    runs; [stop] on an animation that does not run does nothing. *)

Module Composite.

Definition fn := nat.

Inductive status := Idle | Running | Ended.

(** A CompositeAnimation: [sync] is the flag it reports during [start]
    when it completes there. *)
Record animation := mkAnimation {
  sync : option bool;
  state : status
}.

(** [animation.start(handler)]: the flag reported during the call, if any;
    [None] when the animation was started before. *)
Definition animation_start (a : animation) : option (animation * option bool) :=
  match state a with
  | Idle =>
      match sync a with
      | Some finished => Some (mkAnimation (sync a) Ended, Some finished)
      | None => Some (mkAnimation (sync a) Running, None)
      end
  | _ => None
  end.

(** [animation.stop()]: whether the animation reports completion (with
    [false]) during the call. *)
Definition animation_stop (a : animation) : animation * bool :=
  match state a with
  | Running => (mkAnimation (sync a) Ended, true)
  | _ => (a, false)
  end.

(** The calls between a combinator, its animations and its client. *)
Inductive call :=
| Start (i : nat)                    (* animations[i].start(handler) *)
| Stop (i : nat)                     (* animations[i].stop() *)
| Done (i : nat) (finished : bool)   (* animations[i] calls its handler *)
| Callback (f : fn) (finished : bool). (* callback(finished) *)

(** [callback && callback(finished)] *)
Definition call_callback (callback : option fn) (finished : bool) : list call :=
  match callback with
  | Some f => [Callback f finished]
  | None => []
  end.

(** *** sequence *)

Record sequence := mkSequence {
  seq_animations : list animation;
  current : nat;
  seq_callback : option fn
}.

Definition sequence_new (animations : list animation) : sequence :=
  mkSequence animations 0 None.

(** [animations[current].start(onComplete)], with what the animation does
    during the call. *)
Definition start_current
  (onComplete : sequence -> bool -> option (sequence * list call))
  (s : sequence) : option (sequence * list call) :=
  a ← seq_animations s !! current s;
  '(a', reported) ← animation_start a;
  let s1 := mkSequence (<[current s := a']> (seq_animations s)) (current s)
              (seq_callback s) in
  match reported with
  | None => Some (s1, [Start (current s)])
  | Some finished =>
      '(s2, cs) ← onComplete s1 finished;
      Some (s2, Start (current s) :: Done (current s) finished :: cs)
  end.

(** The closure [onComplete] of [start]; [fuel] bounds the nesting of the
    calls, [None] is a nesting beyond it. *)
Fixpoint onComplete (fuel : nat) (s : sequence) (finished : bool)
  : option (sequence * list call) :=
  match fuel with
  | 0 => None
  | S fuel' =>
      if negb finished then Some (s, call_callback (seq_callback s) finished)
      else
        let s1 := mkSequence (seq_animations s) (S (current s)) (seq_callback s) in
        if Nat.eqb (current s1) (length (seq_animations s1))
        then Some (s1, call_callback (seq_callback s1) true)
        else start_current (onComplete fuel') s1
  end.

(** [start(callback)] *)
Definition sequence_start (fuel : nat) (s : sequence) (callback : option fn)
  : option (sequence * list call) :=
  let s1 := mkSequence (seq_animations s) (current s) callback in
  if Nat.eqb (length (seq_animations s1)) 0
  then Some (s1, call_callback callback true)
  else start_current (onComplete fuel) s1.

(** [animations[i]] reports completion to the handler it was given. *)
Definition report (handler : sequence -> bool -> option (sequence * list call))
  (s : sequence) (i : nat) (finished : bool) : option (sequence * list call) :=
  '(s1, cs) ← handler s finished;
  Some (s1, Done i finished :: cs).

(** [stop()] *)
Definition sequence_stop (fuel : nat) (s : sequence)
  : option (sequence * list call) :=
  if Nat.ltb (current s) (length (seq_animations s))
  then
    a ← seq_animations s !! current s;
    let '(a', reported) := animation_stop a in
    let s1 := mkSequence (<[current s := a']> (seq_animations s)) (current s)
                (seq_callback s) in
    '(s2, cs) ← (if reported then report (onComplete fuel) s1 (current s) false
                 else Some (s1, []));
    Some (s2, Stop (current s) :: cs)
  else Some (s, []).

(** A running animation [i] completes on its own with flag [finished];
    nothing happens when [i] is not running. *)
Definition sequence_finish (fuel : nat) (s : sequence) (i : nat) (finished : bool)
  : option (sequence * list call) :=
  match seq_animations s !! i with
  | Some (mkAnimation sync_i Running) =>
      report (onComplete fuel)
        (mkSequence (<[i := mkAnimation sync_i Ended]> (seq_animations s))
           (current s) (seq_callback s)) i finished
  | _ => Some (s, [])
  end.

(** What happens to a started combinator: the client calls [stop], or a
    running animation completes on its own. *)
Inductive event :=
| EvStop
| EvFinish (i : nat) (finished : bool).

Definition sequence_step (fuel : nat) (s : sequence) (e : event)
  : option (sequence * list call) :=
  match e with
  | EvStop => sequence_stop fuel s
  | EvFinish i finished => sequence_finish fuel s i finished
  end.

Fixpoint sequence_events (fuel : nat) (s : sequence) (events : list event)
  : option (sequence * list call) :=
  match events with
  | [] => Some (s, [])
  | e :: events' =>
      '(s1, out1) ← sequence_step fuel s e;
      '(s2, out2) ← sequence_events fuel s1 events';
      Some (s2, out1 ++ out2)
  end.

(** An animation that was not started, with its [sync] flag. *)
Definition fresh (sync : option bool) : animation := mkAnimation sync Idle.

(** [sequence(animations).start(callback)] followed by [events]. *)
Definition sequence_run (fuel : nat) (syncs : list (option bool))
  (callback : option fn) (events : list event) : option (sequence * list call) :=
  '(s1, out1) ← sequence_start fuel (sequence_new (fresh <$> syncs)) callback;
  '(s2, out2) ← sequence_events fuel s1 events;
  Some (s2, out1 ++ out2).

(** *** parallel *)

Record parallel := mkParallel {
  par_animations : list animation;
  doneCount : nat;
  hasBeenStopped : bool;
  par_callback : option fn
}.

Definition parallel_new (animations : list animation) : parallel :=
  mkParallel animations 0 false None.

Definition set_animation (s : parallel) (i : nat) (a : animation) : parallel :=
  mkParallel (<[i := a]> (par_animations s)) (doneCount s) (hasBeenStopped s)
    (par_callback s).

(** [animations.forEach((animation, idx) => body)] over the [n] animations. *)
Definition forEach (n : nat)
  (body : parallel -> nat -> option (parallel * list call)) (s : parallel)
  : option (parallel * list call) :=
  foldl (fun acc idx =>
           '(s1, out1) ← acc;
           '(s2, out2) ← body s1 idx;
           Some (s2, out1 ++ out2))
        (Some (s, [])) (seq 0 n).

(** [animations[idx].stop()], with the report it may cause. *)
Definition stop_one (handler : parallel -> bool -> option (parallel * list call))
  (s : parallel) (idx : nat) : option (parallel * list call) :=
  a ← par_animations s !! idx;
  let '(a', reported) := animation_stop a in
  let s1 := set_animation s idx a' in
  if reported then
    '(s2, cs) ← handler s1 false;
    Some (s2, Stop idx :: Done idx false :: cs)
  else Some (s1, [Stop idx]).

(** The handler [finished => {...}] given to every animation, and
    [result.stop()], which it may call; [fuel] bounds the nesting of the
    calls, [None] is a nesting beyond it. *)
Fixpoint handler (fuel : nat) (s : parallel) (finished : bool)
  : option (parallel * list call) :=
  match fuel with
  | 0 => None
  | S fuel' =>
      let s1 := mkParallel (par_animations s) (S (doneCount s))
                  (hasBeenStopped s) (par_callback s) in
      if Nat.eqb (doneCount s1) (length (par_animations s1))
      then Some (s1, call_callback (par_callback s1) finished)
      else if negb finished && negb (hasBeenStopped s1)
           then parallel_stop fuel' s1
           else Some (s1, [])
  end
with parallel_stop (fuel : nat) (s : parallel) : option (parallel * list call) :=
  match fuel with
  | 0 => None
  | S fuel' =>
      let s1 := mkParallel (par_animations s) (doneCount s) true (par_callback s) in
      forEach (length (par_animations s1)) (stop_one (handler fuel')) s1
  end.

(** [animations[idx].start(handler)], with the report it may make at once. *)
Definition start_one (fuel : nat) (s : parallel) (idx : nat)
  : option (parallel * list call) :=
  a ← par_animations s !! idx;
  '(a', reported) ← animation_start a;
  let s1 := set_animation s idx a' in
  match reported with
  | None => Some (s1, [Start idx])
  | Some finished =>
      '(s2, cs) ← handler fuel s1 finished;
      Some (s2, Start idx :: Done idx finished :: cs)
  end.

(** [start(callback)] *)
Definition parallel_start (fuel : nat) (s : parallel) (callback : option fn)
  : option (parallel * list call) :=
  let s1 := mkParallel (par_animations s) (doneCount s) (hasBeenStopped s) callback in
  if Nat.eqb (doneCount s1) (length (par_animations s1))
  then Some (s1, call_callback callback true)
  else forEach (length (par_animations s1)) (start_one fuel) s1.

(** A running animation [i] completes on its own with flag [finished];
    nothing happens when [i] is not running. *)
Definition parallel_finish (fuel : nat) (s : parallel) (i : nat) (finished : bool)
  : option (parallel * list call) :=
  match par_animations s !! i with
  | Some (mkAnimation sync_i Running) =>
      '(s1, cs) ← handler fuel (set_animation s i (mkAnimation sync_i Ended)) finished;
      Some (s1, Done i finished :: cs)
  | _ => Some (s, [])
  end.

Definition parallel_step (fuel : nat) (s : parallel) (e : event)
  : option (parallel * list call) :=
  match e with
  | EvStop => parallel_stop fuel s
  | EvFinish i finished => parallel_finish fuel s i finished
  end.

Fixpoint parallel_events (fuel : nat) (s : parallel) (events : list event)
  : option (parallel * list call) :=
  match events with
  | [] => Some (s, [])
  | e :: events' =>
      '(s1, out1) ← parallel_step fuel s e;
      '(s2, out2) ← parallel_events fuel s1 events';
      Some (s2, out1 ++ out2)
  end.

(** [parallel(animations).start(callback)] followed by [events]. *)
Definition parallel_run (fuel : nat) (syncs : list (option bool))
  (callback : option fn) (events : list event) : option (parallel * list call) :=
  '(s1, out1) ← parallel_start fuel (parallel_new (fresh <$> syncs)) callback;
  '(s2, out2) ← parallel_events fuel s1 events;
  Some (s2, out1 ++ out2).

(** *** Reading the calls of a run *)

(** The animations started, those that reported completion, those whose
    [stop()] was called, and the flags the callback was called with, in a
    list of calls, in order. *)
Definition starts (tr : list call) : list nat :=
  omap (fun c => match c with Start i => Some i | _ => None end) tr.

Definition dones (tr : list call) : list nat :=
  omap (fun c => match c with Done i _ => Some i | _ => None end) tr.

Definition stops (tr : list call) : list nat :=
  omap (fun c => match c with Stop i => Some i | _ => None end) tr.

Definition callbacks (tr : list call) : list bool :=
  omap (fun c => match c with Callback _ finished => Some finished | _ => None end) tr.

(** The calls of a sequence in which animations [0 .. k-1] completed with
    [true] and animation [k] was started. *)
Fixpoint started_upto (k : nat) : list call :=
  match k with
  | 0 => [Start 0]
  | S j => started_upto j ++ [Done j true; Start k]
  end.

(** Animations [0 .. ended-1] have ended, animation [ended] runs when
    [running], the others were not started. *)
Definition status_at (ended : nat) (running : bool) (i : nat) : status :=
  if i <? ended then Ended
  else if (i =? ended) && running then Running
  else Idle.

Definition shaped (syncs : list (option bool)) (ended : nat) (running : bool)
  (animations : list animation) : Prop :=
  ∀ i, animations !! i
       = (fun sync_i => mkAnimation sync_i (status_at ended running i)) <$> syncs !! i.

(** How a sequence of [n] animations ends after animation [k] was started:
    animation [k] reports [false], on its own or because [stop()] reached
    it, or it is the last one and reports [true]. *)
Inductive ending (n : nat) (f : fn) (k : nat) : list call -> Prop :=
| ending_abort : ending n f k [Done k false; Callback f false]
| ending_stop : ending n f k [Stop k; Done k false; Callback f false]
| ending_last : S k = n -> ending n f k [Done k true; Callback f true].

(** A started sequence whose animation [current] runs, after the calls [tr]. *)
Definition alive (syncs : list (option bool)) (f : fn) (s : sequence)
  (tr : list call) : Prop :=
  seq_callback s = Some f ∧ current s < length syncs ∧
  shaped syncs (current s) true (seq_animations s) ∧
  tr = started_upto (current s).

(** A started sequence in which no animation runs any more. *)
Definition dead (syncs : list (option bool)) (f : fn) (s : sequence)
  (tr : list call) : Prop :=
  seq_callback s = Some f ∧
  (∃ ended, shaped syncs ended false (seq_animations s)) ∧
  ∃ k e m, k < length syncs ∧ ending (length syncs) f k e ∧
           tr = started_upto k ++ e ++ replicate m (Stop k) ∧
           (current s = k ∨ (current s = length syncs ∧ m = 0)).

(** The calls of a run of a sequence, whether it still runs or has ended. *)
Definition run_calls (syncs : list (option bool)) (f : fn) (tr : list call) : Prop :=
  ∃ k, k < length syncs ∧
       (tr = started_upto k ∨
        ∃ e m, ending (length syncs) f k e ∧
               tr = started_upto k ++ e ++ replicate m (Stop k)).

(** A started [parallel] after the calls [tr]: [doneCount] counts the
    reports, one per ended animation; the callback was called if and only
    if all have reported, right after the last report and with its flag;
    and as long as [stop()] did not run, a report of [false] was the last
    report. *)
Definition par_inv (syncs : list (option bool)) (f : fn) (s : parallel)
  (tr : list call) : Prop :=
  par_callback s = Some f ∧
  sync <$> par_animations s = syncs ∧
  doneCount s = length (dones tr) ∧
  NoDup (dones tr) ∧
  (∀ i, i ∈ dones tr → i < length syncs) ∧
  (∀ i a, par_animations s !! i = Some a → state a = Ended ↔ i ∈ dones tr) ∧
  (doneCount s < length syncs → callbacks tr = []) ∧
  (doneCount s = length syncs →
   ∃ t0 j b rest, tr = t0 ++ Done j b :: Callback f b :: rest ∧
                  callbacks t0 = [] ∧ callbacks rest = [] ∧ dones rest = []) ∧
  (hasBeenStopped s = false →
   ∀ t1 j t2, tr = t1 ++ Done j false :: t2 → length (dones t1) + 1 = length syncs).

(** Animations that were not started stay so. *)
Definition keeps_idle (s s' : parallel) : Prop :=
  ∀ i a, par_animations s !! i = Some a → state a = Idle →
         par_animations s' !! i = Some a.

(** A started [parallel] after the calls [tr] of a run; [ext] tells
    whether the client called [stop()] in it. *)
Definition par_run_inv (syncs : list (option bool)) (f : fn) (ext : bool)
  (s : parallel) (tr : list call) : Prop :=
  par_inv syncs f s tr ∧ starts tr = seq 0 (length syncs) ∧
  (ext = false → stops tr = if hasBeenStopped s then seq 0 (length syncs) else []).

End Composite.

(** ** Frames of a driver *)

Module Frames.

(** Each clock reading of [nows] is less than [TIMESTEP_MSEC] (4 ms) after
    the reading before it, the first one after [t]. *)
Fixpoint within_timestep (t : Z) (nows : list Z) : Prop :=
  match nows with
  | [] => True
  | now :: nows' => (now < t + 4)%Z ∧ within_timestep now nows'
  end.

(** The frame callbacks the host runs at the clock readings [nows]. *)
Definition frames (nows : list Z) : list Animation.op := Animation.Frame <$> nows.

Definition is_Request {H : Type} (c : Driver.call H) : bool :=
  match c with Driver.RequestAnimationFrame => true | _ => false end.

(** Number of frames requested in a list of calls. *)
Definition requests {H : Type} (l : list (Driver.call H)) : nat :=
  length (filter is_Request l).

(** The values the calls give to [onUpdate], in order. *)
Definition updates {H : Type} (l : list (Driver.call H)) : list float :=
  omap (fun c => match c with
                 | Driver.OnUpdate value => Some value
                 | _ => None
                 end) l.

(** The calls of frames that each give a value to [onUpdate] and request
    the next frame, nothing else. *)
Fixpoint emitting {H : Type} (values : list float) : list (Driver.call H) :=
  match values with
  | [] => []
  | value :: values' =>
      Driver.OnUpdate value :: Driver.RequestAnimationFrame :: emitting values'
  end.

(** Every value the calls give to [onUpdate] is [NaN]. *)
Definition updates_nan {H : Type} (l : list (Driver.call H)) : Prop :=
  Forall (fun c => match c with
                   | Driver.OnUpdate value => PrimFloat.is_nan value = true
                   | _ => True
                   end) l.

End Frames.

(** ** Reading the calls of an AnimatedValue *)

Module ValueCalls.
Import Graph.

Definition is_OnEndClosure (c : call) : bool :=
  match c with OnEndClosure _ _ => true | _ => false end.

(** The runs of completion closures in a list of calls, in order. *)
Definition closures (out : list call) : list call := filter is_OnEndClosure out.

(** The completion closures that the calls [cs] of a driver run. *)
Definition closure_calls (cs : list (Driver.call onEndClosure)) : list call :=
  omap (fun c => match c with
                 | Driver.OnEnd callback finished => Some (OnEndClosure callback finished)
                 | _ => None
                 end) cs.

Definition not_Listener_of (key : nat) (c : call) : bool := negb (is_Listener_of key c).

End ValueCalls.

(** ** Reading the state of a sequence *)

Module SequenceState.
Import Composite.

(** From [s] to [s'] with the calls [out], in a sequence of [n] animations
    with the callback [f]: [current] does not decrease and stays within the
    bounds of the list, and it reaches the length of the list when, and
    only when, the callback is called with [true]. *)
Definition advances (f : fn) (n : nat) (s s' : sequence) (out : list call) : Prop :=
  seq_callback s' = Some f ∧ length (seq_animations s') = n ∧
  current s ≤ current s' ∧ current s' ≤ n ∧
  (true ∈ callbacks out → current s' = n) ∧
  (current s' = n → current s = n ∨ true ∈ callbacks out).

(** After the calls [tr]: the callback was called with [true] if and only
    if [current] is the length of the list. *)
Definition completed_iff (f : fn) (n : nat) (s : sequence) (tr : list call) : Prop :=
  seq_callback s = Some f ∧ length (seq_animations s) = n ∧ current s ≤ n ∧
  (true ∈ callbacks tr ↔ current s = n).

End SequenceState.

(** ** event (source lines 1225-1307)

    [event(argMapping, config)] returns a handler.  The arguments the
    handler is called with, and the mapping, are told apart by what the
    handler tests: [instanceof] and [typeof].  [setValue] on a mapped value
    is recorded as a call; so are the listener and the host's timer. *)

Module Event.
Import Driver.
Import String.StringSyntax.

Definition fn := nat.

#[local] Set Warnings "-register-all".

(** An argument of the handler, or a part of one. *)
Inductive Evt :=
| ENumber (x : float)                           (* typeof is 'number' *)
| EObject (fields : list (String.string * Evt)) (* an object and its properties *)
| ENull                                         (* null, whose typeof is 'object' *)
| EOther.                                       (* undefined, a string, a boolean, a function *)

(** A mapping, or a part of one; the properties of an object are in the
    order in which [for (var key in recMapping)] visits them. *)
Inductive Mapping :=
| MValue (value : node_id)                          (* instanceof AnimatedValue *)
| MInterpolation (node : node_id)                   (* instanceof AnimatedInterpolation *)
| MObject (fields : list (String.string * Mapping)) (* another object *)
| MNull                                             (* null *)
| MOther.                                           (* typeof is not 'object' *)

(** [recEvt[key]]: the property, or [undefined]. *)
Fixpoint property (fields : list (String.string * Evt)) (key : String.string) : Evt :=
  match fields with
  | [] => EOther
  | (k, e) :: fields' => if String.eqb k key then e else property fields' key
  end.

Inductive call :=
| SetValue (value : node_id) (x : float)  (* recMapping.setValue(recEvt) *)
| Listener (callback : fn) (args : list Evt)
    (* config.listener.apply(null, lastArgs) *)
| SetTimeout (delay : float)              (* setTimeout(cb, delay) *)
| ClearTimeout                            (* clearTimeout(timer) *)
| Throw.                                  (* the handler ends with an exception *)

(** The loop [for (var key in recMapping) traverse(recMapping[key],
    recEvt[key], key)] over the properties [fields] of [recMapping], for an
    object [recEvt] with the properties [evt_fields]: it ends at the first
    call that throws. *)
Definition for_in (traverse : Mapping → Evt → list call * bool)
  (evt_fields : list (String.string * Evt))
  : list (String.string * Mapping) → list call * bool :=
  fix each (fields : list (String.string * Mapping)) : list call * bool :=
    match fields with
    | [] => ([], true)
    | (key, m) :: fields' =>
        let '(cs, ok) := traverse m (property evt_fields key) in
        if ok then let '(cs', ok') := each fields' in (cs ++ cs', ok')
        else (cs, false)
    end.

(** [traverse(recMapping, recEvt, key)]: the calls made, and whether it
    returned ([true]) or threw ([false]).  An AnimatedInterpolation has no
    [setValue]: the call throws when the invariant before it does not. *)
Fixpoint traverse (recMapping : Mapping) (recEvt : Evt) : list call * bool :=
  match recMapping with
  | MValue value =>
      match recEvt with
      | ENumber x => ([SetValue value x], true)
      | _ => ([], false)
      end
  | MInterpolation _ => ([], false)
  | MOther => ([], false)
  | MNull =>
      match recEvt with
      | EObject _ | ENull => ([], true)
      | _ => ([], false)
      end
  | MObject fields =>
      match recEvt with
      | EObject evt_fields => for_in traverse evt_fields fields
      | ENull =>
          match fields with
          | [] => ([], true)
          | _ :: _ => ([], false)
          end
      | _ => ([], false)
      end
  end.

(** [argMapping.forEach((mapping, idx) => traverse(mapping, lastArgs[idx], null))],
    from index [idx] on. *)
Fixpoint forEach_mapping (idx : nat) (argMapping : list Mapping) (lastArgs : list Evt)
  : list call * bool :=
  match argMapping with
  | [] => ([], true)
  | mapping :: argMapping' =>
      let '(cs, ok) := traverse mapping (nth idx lastArgs EOther) in
      if ok
      then let '(cs', ok') := forEach_mapping (S idx) argMapping' lastArgs in
           (cs ++ cs', ok')
      else (cs, false)
  end.

(** The part of [config] the handler reads. *)
Record Config := mkConfig {
  listener : option fn;
  updatePeriod : option float
}.

(** The variables of the closure; [timer] tells whether it holds the
    handle of a timer (which is truthy) or [undefined] or [null]. *)
Record state := mkState {
  lastUpdate : Z;
  timer : bool;
  isEnabled : bool;
  lastArgs : list Evt
}.

(** The closure right after [event(argMapping, config)]; [lastArgs] is
    not read before the handler has set it. *)
Definition init : state :=
  {| lastUpdate := 0; timer := false; isEnabled := true; lastArgs := [] |}.

(** The closure [cb], at clock reading [now]. *)
Definition cb (callback : fn) (s : state) (now : Z) : state * list call :=
  (mkState now false (isEnabled s) (lastArgs s), [Listener callback (lastArgs s)]).

(** The handler, called with [args] at clock reading [now]. *)
Definition handler (argMapping : list Mapping) (config : option Config)
  (s : state) (args : list Evt) (now : Z) : state * list call :=
  let s1 := mkState (lastUpdate s) (timer s) (isEnabled s) args in
  if negb (isEnabled s1)
  then (mkState (lastUpdate s1) false (isEnabled s1) (lastArgs s1), [ClearTimeout])
  else
    let '(cs, ok) := forEach_mapping 0 argMapping args in
    if negb ok then (s1, cs ++ [Throw])
    else
      match config with
      | Some c =>
          match listener c with
          | Some callback =>
              if timer s1 then (s1, cs)
              else
                match updatePeriod c with
                | Some period =>
                    if truthy period
                    then (mkState (lastUpdate s1) true (isEnabled s1) (lastArgs s1),
                          cs ++ [SetTimeout (period - of_Z now + of_Z (lastUpdate s1))%float])
                    else let '(s2, cs2) := cb callback s1 now in (s2, cs ++ cs2)
                | None => let '(s2, cs2) := cb callback s1 now in (s2, cs ++ cs2)
                end
          | None => (s1, cs)
          end
      | None => (s1, cs)
      end.

(** What happens to the handler: it is called, the host runs the timer,
    or the client calls [enable] or [disable] of the object given to
    [config.ref]. *)
Inductive op :=
| Call (args : list Evt) (now : Z)
| Fire (now : Z)
| Enable
| Disable.

Definition step (argMapping : list Mapping) (config : option Config)
  (s : state) (o : op) : state * list call :=
  match o with
  | Call args now => handler argMapping config s args now
  | Fire now =>
      match config with
      | Some c =>
          match listener c with
          | Some callback => if timer s then cb callback s now else (s, [])
          | None => (s, [])
          end
      | None => (s, [])
      end
  | Enable => (mkState (lastUpdate s) (timer s) true (lastArgs s), [])
  | Disable => (mkState (lastUpdate s) false false (lastArgs s), [ClearTimeout])
  end.

Fixpoint run (argMapping : list Mapping) (config : option Config)
  (s : state) (ops : list op) : state * list call :=
  match ops with
  | [] => (s, [])
  | o :: ops' =>
      let '(s1, c1) := step argMapping config s o in
      let '(s2, c2) := run argMapping config s1 ops' in
      (s2, c1 ++ c2)
  end.

(** *** Reading a mapping and the calls *)

(** The mapped values of a mapping, each with the names of the properties
    that lead to it, in the order of the traversal. *)
Definition paths_in (paths : Mapping → list (list String.string * node_id))
  : list (String.string * Mapping) → list (list String.string * node_id) :=
  fix each (fields : list (String.string * Mapping)) :=
    match fields with
    | [] => []
    | (key, m) :: fields' =>
        ((fun '(path, value) => (key :: path, value)) <$> paths m) ++ each fields'
    end.

Fixpoint paths (m : Mapping) : list (list String.string * node_id) :=
  match m with
  | MValue value => [([], value)]
  | MObject fields => paths_in paths fields
  | _ => []
  end.

(** The part of an argument found by following property names. *)
Fixpoint follow (e : Evt) (path : list String.string) : Evt :=
  match path with
  | [] => e
  | key :: path' =>
      match e with
      | EObject fields => follow (property fields key) path'
      | _ => EOther
      end
  end.

(** The call [setValue] on [value] with the number at [path] in [e]. *)
Definition sets (e : Evt) (c : call) (pv : list String.string * node_id) : Prop :=
  ∃ x, follow e pv.1 = ENumber x ∧ c = SetValue pv.2 x.

(** What [traverse] tests of the part of the argument that it is called
    with, for a part of the mapping. *)
Inductive check :=
| CValue (value : node_id)  (* an AnimatedValue: the part is a number *)
| CObject (empty : bool)
    (* another object: the part is an object or, when the mapping has no
       property to read from it, [null] *)
| CNull                     (* null: the part is an object or [null] *)
| CBad.                     (* an AnimatedInterpolation, or not an object: throws *)

(** The tests of [traverse] on a mapping, each with the names of the
    properties that lead to the part it tests, in the order in which the
    traversal comes to them. *)
Definition checks_in (checks : Mapping → list (list String.string * check))
  : list (String.string * Mapping) → list (list String.string * check) :=
  fix each (fields : list (String.string * Mapping)) :=
    match fields with
    | [] => []
    | (key, m) :: fields' =>
        ((fun '(path, ck) => (key :: path, ck)) <$> checks m) ++ each fields'
    end.

Fixpoint checks (m : Mapping) : list (list String.string * check) :=
  match m with
  | MValue value => [([], CValue value)]
  | MInterpolation _ => [([], CBad)]
  | MObject fields =>
      ([], CObject match fields with [] => true | _ :: _ => false end)
      :: checks_in checks fields
  | MNull => [([], CNull)]
  | MOther => [([], CBad)]
  end.

(** Whether the argument [e] passes a test. *)
Definition passes (e : Evt) (pc : list String.string * check) : bool :=
  match pc.2, follow e pc.1 with
  | CValue _, ENumber _ => true
  | CObject _, EObject _ => true
  | CObject empty, ENull => empty
  | CNull, (EObject _ | ENull) => true
  | _, _ => false
  end.

(** The tests before the first one that [e] does not pass. *)
Fixpoint passed (e : Evt) (pcs : list (list String.string * check))
  : list (list String.string * check) :=
  match pcs with
  | [] => []
  | pc :: pcs' => if passes e pc then pc :: passed e pcs' else []
  end.

(** The mapped values among tests. *)
Definition mapped (pcs : list (list String.string * check))
  : list (list String.string * node_id) :=
  omap (fun pc => match pc.2 with
                  | CValue value => Some (pc.1, value)
                  | _ => None
                  end) pcs.

Definition is_SetValue (c : call) : bool :=
  match c with SetValue _ _ => true | _ => false end.
Definition is_Listener (c : call) : bool :=
  match c with Listener _ _ => true | _ => false end.
Definition is_SetTimeout (c : call) : bool :=
  match c with SetTimeout _ => true | _ => false end.

(** The calls of the handler in a list of operations, with their
    arguments: all of them are calls. *)
Definition calls_only (ops : list op) : Prop :=
  Forall (fun o => match o with Call _ _ => True | _ => False end) ops.

(** The arguments of the last call of the handler in [ops], [args] when
    there is none. *)
Fixpoint last_args (args : list Evt) (ops : list op) : list Evt :=
  match ops with
  | [] => args
  | Call args' _ :: ops' => last_args args' ops'
  | _ :: ops' => last_args args ops'
  end.

End Event.

(** ** AnimatedVec2 (source lines 607-680)

    The two coordinates of an AnimatedVec2 are AnimatedValues of the graph;
    [setValue] and [setOffset] read nothing else of the object. *)

Module Vec2.
Import Graph.

Record AnimatedVec2 := mkVec2 {
  x : node_id;
  y : node_id
}.

(** [setValue(value) { this.x.setValue(value.x); this.y.setValue(value.y); }] *)
Definition setValue (fuel : nat) (h : heap) (self : AnimatedVec2)
  (value : float * float) : option (heap * list call) :=
  '(h1, out1) ← Graph.setValue fuel h (x self) value.1;
  '(h2, out2) ← Graph.setValue fuel h1 (y self) value.2;
  Some (h2, out1 ++ out2).

(** [setOffset(offset) { this.x.setOffset(offset.x); this.y.setOffset(offset.y); }] *)
Definition setOffset (h : heap) (self : AnimatedVec2) (offset : float * float)
  : option heap :=
  vx ← value_at h (x self);
  let h1 := <[x self := NValue (Graph.setOffset vx offset.1)]> h in
  vy ← value_at h1 (y self);
  Some (<[y self := NValue (Graph.setOffset vy offset.2)]> h1).

(** The flushes [flushes] that [setValue(v)] on the value [self], stored at
    [id] in the graph [h], makes: none when [v] is the stored value, and
    otherwise one, which calls [update()] once on each node with [update()]
    found below the value. *)
Definition flushes_of (h : heap) (id : node_id) (self : AnimatedValue) (v : float)
  (flushes : list call) : Prop :=
  if PrimFloat.eqb v (_value self) then flushes = []
  else ∃ updates, flushes = [Flush id updates] ∧ NoDup updates ∧
                  ∀ t, t ∈ updates ↔ reaches h id t.

End Vec2.

(** ** Wiring the graph: attach and detach (source lines 17-25, 48-65,
    525-527, 576-584, 725-732, 774-794, 836-852, 899-915, 940-975,
    1018-1026)

    A node reads other nodes: an AnimatedInterpolation or an
    AnimatedTracking its [_parent], an AnimatedTransform, an AnimatedStyle
    and an AnimatedProps the values of their properties that are instances
    of [Animated].  [attach()] adds the node to the child list of each node
    it reads, [detach()] removes it from them; [addChild] and [removeChild]
    pass this on when a child list gets its first child or loses its last
    one.  The calls that leave the graph (the console, the driver of a
    value, the listener table of a parent) are recorded. *)

Module Wiring.

(** The classes of the nodes. *)
Inductive kind :=
| KValue | KVec2 | KInterpolation | KTransform | KStyle
    (* extend AnimatedWithChildren *)
| KProps | KTracking.
    (* extend Animated: [addChild], [removeChild] do nothing *)

Record node := mkNode {
  node_kind : kind;
  inputs : list node_id;
    (* the instances of Animated the node reads, in the order in which
       [attach] and [detach] visit them (with repetitions) *)
  children : list node_id;    (* _children *)
  _active : bool;             (* AnimatedTracking._active *)
  _tracking : option node_id  (* AnimatedValue._tracking *)
}.

Abbreviation heap := (gmap node_id node).

Definition set_children (nd : node) (l : list node_id) : node :=
  mkNode (node_kind nd) (inputs nd) l (_active nd) (_tracking nd).

Definition set_active (nd : node) (active : bool) : node :=
  mkNode (node_kind nd) (inputs nd) (children nd) active (_tracking nd).

(** Whether the class has the child list of AnimatedWithChildren. *)
Definition has_child_list (k : kind) : bool :=
  match k with
  | KProps | KTracking => false
  | _ => true
  end.

Inductive call :=
| Warn (node child : node_id)
    (* console.warn('Trying to remove a child that doesn't exist') *)
| StopDriver (value : node_id)
    (* this._animation && this._animation.stop(), in stopAnimation *)
| RemoveListener (parent : node_id).
    (* this._parent.removeListener(this._parentListener) *)

Definition is_Warn (c : call) : bool :=
  match c with
  | Warn _ _ => true
  | _ => false
  end.

(** The calls without the warnings. *)
Definition no_Warn (cs : list call) : Prop := Forall (fun c => is_Warn c = false) cs.

(** A loop over the nodes a node reads. *)
Definition forEach_input (body : heap → node_id → option (heap * list call))
  (h : heap) (ps : list node_id) : option (heap * list call) :=
  foldl (fun acc p =>
           '(h1, c1) ← acc;
           '(h2, c2) ← body h1 p;
           Some (h2, c1 ++ c2))
        (Some (h, [])) ps.

(** [n.attach()] and [p.addChild(child)]; [fuel] bounds the nesting of the
    calls, [None] is a nesting beyond it or a reference to no object. *)
Fixpoint attach (fuel : nat) (h : heap) (n : node_id) {struct fuel}
  : option (heap * list call) :=
  match fuel with
  | 0 => None
  | S fuel' =>
      nd ← h !! n;
      match node_kind nd with
      | KValue | KVec2 => Some (h, [])
      | KTracking =>
          forEach_input (fun h1 p => addChild fuel' h1 p n)
            (<[n := set_active nd true]> h) (inputs nd)
      | _ => forEach_input (fun h1 p => addChild fuel' h1 p n) h (inputs nd)
      end
  end
with addChild (fuel : nat) (h : heap) (p child : node_id) {struct fuel}
  : option (heap * list call) :=
  match fuel with
  | 0 => None
  | S fuel' =>
      nd ← h !! p;
      if has_child_list (node_kind nd)
      then
        '(h1, c1) ← (if length (children nd) =? 0 then attach fuel' h p
                     else Some (h, []));
        nd1 ← h1 !! p;
        Some (<[p := set_children nd1 (children nd1 ++ [child])]> h1, c1)
      else Some (h, [])
  end.

(** [n.detach()] and [p.removeChild(child)].  The [detach()] of an
    AnimatedValue is [stopAnimation()]: it detaches the tracking of the
    value, if there is one, and stops its driver. *)
Fixpoint detach (fuel : nat) (h : heap) (n : node_id) {struct fuel}
  : option (heap * list call) :=
  match fuel with
  | 0 => None
  | S fuel' =>
      nd ← h !! n;
      match node_kind nd with
      | KValue =>
          '(h1, c1) ← match _tracking nd with
                      | Some t => detach fuel' h t
                      | None => Some (h, [])
                      end;
          Some (h1, c1 ++ [StopDriver n])
      | KVec2 => Some (h, [])
      | KInterpolation =>
          '(h1, c1) ← forEach_input (fun h1 p => removeChild fuel' h1 p n) h (inputs nd);
          Some (h1, c1 ++ (RemoveListener <$> inputs nd))
      | KTracking =>
          '(h1, c1) ← forEach_input (fun h1 p => removeChild fuel' h1 p n) h (inputs nd);
          nd1 ← h1 !! n;
          Some (<[n := set_active nd1 false]> h1, c1)
      | _ => forEach_input (fun h1 p => removeChild fuel' h1 p n) h (inputs nd)
      end
  end
with removeChild (fuel : nat) (h : heap) (p child : node_id) {struct fuel}
  : option (heap * list call) :=
  match fuel with
  | 0 => None
  | S fuel' =>
      nd ← h !! p;
      if has_child_list (node_kind nd)
      then
        match WithChildren.indexOf (children nd) child with
        | None => Some (h, [Warn p child])
        | Some index =>
            let children' := delete index (children nd) in
            let h1 := <[p := set_children nd children']> h in
            if length children' =? 0 then detach fuel' h1 p else Some (h1, [])
        end
      else Some (h, [])
  end.

(** [v.stopTracking()]: [this._tracking && this._tracking.detach()]; the
    field [_tracking] is left as it is. *)
Definition stopTracking (fuel : nat) (h : heap) (v : node_id)
  : option (heap * list call) :=
  nd ← h !! v;
  match _tracking nd with
  | Some t => detach fuel h t
  | None => Some (h, [])
  end.

(** [attachProps(nextProps)] of an animated component: the constructor of
    the new AnimatedProps attaches it, then the old AnimatedProps, if there
    is one, is detached.  The objects that the constructor creates are
    nodes of [h] that are in no child list and have no child. *)
Definition attachProps (fuel : nat) (h : heap) (oldPropsAnimated : option node_id)
  (propsAnimated : node_id) : option (heap * list call) :=
  '(h1, c1) ← attach fuel h propsAnimated;
  match oldPropsAnimated with
  | Some old => '(h2, c2) ← detach fuel h1 old; Some (h2, c1 ++ c2)
  | None => Some (h1, c1)
  end.

(** *** The state of the wiring *)

(** The nodes [attach] adds a node to: none for the classes that inherit
    the empty [attach] of [Animated]. *)
Definition targets (nd : node) : list node_id :=
  match node_kind nd with
  | KValue | KVec2 => []
  | _ => inputs nd
  end.

(** The child list of a node of the graph. *)
Definition children_of (h : heap) (q : node_id) : list node_id :=
  match h !! q with
  | Some nd => children nd
  | None => []
  end.

(** How often [x] is in a list. *)
Definition occ (x : node_id) (l : list node_id) : nat :=
  length (filter (fun y => y = x) l).

(** The graph is closed and acyclic: what a node is added to exists, has a
    child list and is of lower rank. *)
Definition ranked (h : heap) (rank : node_id → nat) : Prop :=
  ∀ m nd p, h !! m = Some nd → p ∈ targets nd →
            rank p < rank m ∧
            ∃ ndp, h !! p = Some ndp ∧ has_child_list (node_kind ndp) = true.

(** No value of the graph tracks another node. *)
Definition no_tracking (h : heap) : Prop :=
  ∀ v nd, h !! v = Some nd → _tracking nd = None.

(** [m] is in the child list of each node it is added to, as often as it
    reads that node, and in no other child list. *)
Definition wired_node (h : heap) (m : node_id) (nd : node) : Prop :=
  ∀ q, occ m (children_of h q) = occ q (targets nd).

(** [m] is in no child list. *)
Definition unwired_node (h : heap) (m : node_id) : Prop :=
  ∀ q, occ m (children_of h q) = 0.

(** The state of [m] that its own child list asks for: wired when it has a
    child, not wired when it has none. *)
Definition consistent_node (h : heap) (m : node_id) (nd : node) : Prop :=
  match children nd with
  | [] => unwired_node h m
  | _ :: _ => wired_node h m nd
  end.

(** Every node with a child list is in the state its child list asks for,
    and the nodes without a child list have no children. *)
Definition wired (h : heap) : Prop :=
  ∀ m nd, h !! m = Some nd →
          if has_child_list (node_kind nd) then consistent_node h m nd
          else children nd = [].

(** The same, for the nodes of rank below [k] only. *)
Definition wired_below (rank : node_id → nat) (k : nat) (h : heap) : Prop :=
  ∀ m nd, h !! m = Some nd → rank m < k →
          if has_child_list (node_kind nd) then consistent_node h m nd
          else children nd = [].

(** A node without its child list. *)
Definition strip (nd : node) : node := set_children nd [].

(** [h'] has the nodes of [h], with the same fields but for the child
    lists. *)
Definition same_skeleton (h h' : heap) : Prop :=
  ∀ x, strip <$> h' !! x = strip <$> h !! x.

(** [x] is a node with a child list. *)
Definition has_list (h : heap) (x : node_id) : Prop :=
  ∃ nd, h !! x = Some nd ∧ has_child_list (node_kind nd) = true.

(** From [h] to [h'], only nodes with a child list and of rank below [k],
    and [c], have entered or left child lists, and only child lists of
    nodes of rank below [k] have changed. *)
Definition touches_below (rank : node_id → nat) (k : nat) (c : node_id)
  (h h' : heap) : Prop :=
  same_skeleton h h' ∧
  (∀ x, k ≤ rank x → children_of h' x = children_of h x) ∧
  (∀ x q, x ≠ c → k ≤ rank x ∨ ¬ has_list h x →
          occ x (children_of h' q) = occ x (children_of h q)).

(** Every child list of [h'] is the one of [h] with more children at its
    end. *)
Definition appended (h h' : heap) : Prop :=
  ∀ q, ∃ A, children_of h' q = children_of h q ++ A.

(** What [detach] and [removeChild] never write: the class of a node, the
    nodes it reads and the tracking of a value. *)
Definition constants (nd : node) : kind * list node_id * option node_id :=
  (node_kind nd, inputs nd, _tracking nd).

(** [h'] has the nodes of [h] with these fields, and no child that [h] has
    not. *)
Definition shrinks (h h' : heap) : Prop :=
  ∀ x, constants <$> h' !! x = constants <$> h !! x ∧
       ∀ c, c ∈ children_of h' x → c ∈ children_of h x.

(** [m] reads [p]: [attach] adds [m] to the child list of [p]. *)
Definition reads (h : heap) (m p : node_id) : Prop :=
  ∃ nd, h !! m = Some nd ∧ p ∈ targets nd.

(** [v] is an AnimatedValue. *)
Definition is_value (h : heap) (v : node_id) : Prop :=
  ∃ nd, h !! v = Some nd ∧ node_kind nd = KValue.

(** [c] is in the child list of [p]. *)
Definition is_child (h : heap) (p c : node_id) : Prop := c ∈ children_of h p.

(** *** The state of the wiring, decided *)

Definition rankedb (h : heap) (rank : node_id → nat) : bool :=
  forallb (fun '(m, nd) =>
             forallb (fun p => (rank p <? rank m)
                               && match h !! p with
                                  | Some ndp => has_child_list (node_kind ndp)
                                  | None => false
                                  end)
                     (targets nd))
          (map_to_list h).

Definition no_trackingb (h : heap) : bool :=
  forallb (fun '(_, nd) => bool_decide (_tracking nd = None)) (map_to_list h).

Definition unwired_nodeb (h : heap) (m : node_id) : bool :=
  forallb (fun '(_, ndq) => occ m (children ndq) =? 0) (map_to_list h).

Definition wired_nodeb (h : heap) (m : node_id) (nd : node) : bool :=
  forallb (fun '(q, ndq) => occ m (children ndq) =? occ q (targets nd)) (map_to_list h)
  && forallb (fun p => bool_decide (is_Some (h !! p))) (targets nd).

Definition wiredb (h : heap) : bool :=
  forallb (fun '(m, nd) =>
             if has_child_list (node_kind nd)
             then match children nd with
                  | [] => unwired_nodeb h m
                  | _ :: _ => wired_nodeb h m nd
                  end
             else bool_decide (children nd = []))
          (map_to_list h).

End Wiring.

(** ** AnimatedValue: stopAnimation (source lines 576-584, 1093-1095,
    1109-1111, 1125-1127)

    [stop()] of the composite that [timing], [spring] and [decay] return is
    [value.stopAnimation()], without a callback.  The value has no
    tracking: [_tracking] is [undefined] and [stopTracking()] does
    nothing. *)

Module Stopping.
Import Graph.

(** [stopAnimation()] on the value stored at [id]:
    [this._animation && this._animation.stop()].  The driver slot is not
    written here; the completion closure of [animate] empties it when the
    driver calls it. *)
Definition stopAnimation (fuel : nat) (h : heap) (id : node_id)
  : option (heap * list call) :=
  self ← value_at h id;
  match _animation self with
  | Some a =>
      let '(a', cs) := Animation.stop a in
      driver_calls fuel (<[id := NValue (set_animation self (Some a'))]> h) id cs
  | None => Some (h, [])
  end.

End Stopping.

(** ** Example data *)

Module Examples.

(** The driver of the example of the specification: from 0 to 100 in 1000
    ms with the identity for easing, started at clock reading 5000 with the
    completion callback 7. *)
Definition timing_config : TimingAnimation.TimingAnimationConfig :=
  TimingAnimation.mkConfig 100%float (Some (fun x => x)) (Some 1000%float) None.

Definition timing_example : TimingAnimation.TimingAnimation nat :=
  (TimingAnimation.start
     (TimingAnimation.constructor (fun x => x) timing_config)
     0%float (Some 7) 5000).1.

(** The same from 1e16 to 1. *)
Definition timing_far_example : TimingAnimation.TimingAnimation nat :=
  (TimingAnimation.start
     (TimingAnimation.constructor (fun x => x)
        (TimingAnimation.mkConfig 1%float (Some (fun x => x)) (Some 1000%float) None))
     1e16%float (Some 7) 5000).1.

(** The configured tension that converts to [_tension = 0]. *)
Definition zero_tension : float := (- 194 / 3.62 + 30)%float.

(** A spring with [_tension = 0], friction 10, initial velocity 5 and the
    target 100, started at position 0 at clock reading 1000. *)
Definition spring_example : option (SpringAnimation.SpringAnimation nat) :=
  s ← SpringAnimation.constructor (fun x _ => x)
        (SpringAnimation.mkConfig 100%float None None None (Some 5%float)
           SpringAnimation.Undefined SpringAnimation.Undefined
           (SpringAnimation.Number zero_tension) (SpringAnimation.Number 10%float));
  Some (SpringAnimation.start s 0%float (Some 7) None 1000 1000).1.

(** The configuration of the claim: tension 0, friction 10, initial
    velocity 0, target 100. *)
Definition spring_tension_0_config : SpringAnimation.SpringAnimationConfig :=
  SpringAnimation.mkConfig 100%float None None None (Some 0%float)
    SpringAnimation.Undefined SpringAnimation.Undefined
    (SpringAnimation.Number 0%float) (SpringAnimation.Number 10%float).

(** A value (node 0, stored value 1, offset 2, two listeners) that two
    interpolations (nodes 1 and 2) read, the first through two of its child
    entries; two terminal nodes (3 and 4) below them, node 3 below both. *)
Definition example_value : Graph.AnimatedValue :=
  {| Graph._children := [1; 2; 1]; Graph._value := 1; Graph._offset := 2;
     Graph._animation := None; Graph._listeners := <[12 := 4]> {[ 1 := 9 ]} |}.

Definition example_heap : Graph.heap :=
  list_to_map [(0, Graph.NValue example_value);
               (1, Graph.NWithChildren (WithChildren.mkAWC [3]));
               (2, Graph.NWithChildren (WithChildren.mkAWC [3; 4]));
               (3, Graph.NTerminal); (4, Graph.NTerminal)].

Definition example_rank (n : node_id) : nat := 5 - n.

(** The same graph after [animate] started a TimingAnimation on the value,
    with the client's callback 8. *)
Definition animated_heap : option Graph.heap :=
  fst <$> Graph.animate 6 example_heap 0
            (Animation.Timing (TimingAnimation.constructor (fun x => x) timing_config))
            (Some 8) 5000 5000.

(** A spring from 0 to 100 with the default tension and friction and the
    initial velocity 5, running since clock reading 1000 with the completion
    callback 7. *)
Definition running_spring : SpringAnimation.SpringAnimation nat :=
  SpringAnimation.mk false 0.001%float 0.001%float 5%float 5%float
    0%float 0%float 0%float 100%float
    (SpringAnimation.tensionFromOrigamiValue 40%float)
    (SpringAnimation.frictionFromOrigamiValue 7%float)
    (Some 1000%Z) (Some 7) true.

(** The same spring with no target: [toValue] is [NaN]. *)
Definition aimless_spring : SpringAnimation.SpringAnimation nat :=
  SpringAnimation.mk false 0.001%float 0.001%float 5%float 5%float
    0%float 0%float 0%float nan
    (SpringAnimation.tensionFromOrigamiValue 40%float)
    (SpringAnimation.frictionFromOrigamiValue 7%float)
    (Some 1000%Z) (Some 7) true.

(** A spring that ran before: at position 40 with velocity 3 at clock
    reading 2000. *)
Definition previous_spring : SpringAnimation.SpringAnimation nat :=
  SpringAnimation.mk false 0.001%float 0.001%float 3%float 3%float
    0%float 40%float 40%float 50%float
    (SpringAnimation.tensionFromOrigamiValue 40%float)
    (SpringAnimation.frictionFromOrigamiValue 7%float)
    (Some 2000%Z) None false.

(** A decay without a velocity, started from 0 at clock reading 1000 with
    the completion callback 7. *)
Definition aimless_decay : DecayAnimation.DecayAnimation nat :=
  (DecayAnimation.start
     (DecayAnimation.constructor (DecayAnimation.mkConfig nan None))
     0%float (Some 7) 1000).1.

(** The coordinates of an AnimatedVec2 (the values 0 and 1, both with the
    stored value 1), and a node with [update()] (node 2) that reads both. *)
Definition coordinate : Graph.AnimatedValue :=
  {| Graph._children := [2]; Graph._value := 1; Graph._offset := 0;
     Graph._animation := None; Graph._listeners := ∅ |}.

Definition vec2_heap : Graph.heap :=
  list_to_map [(0, Graph.NValue coordinate); (1, Graph.NValue coordinate);
               (2, Graph.NTerminal)].

(** A component: the props 5 read the style 4 and the value 1, the style
    reads the transform 3 and the value 0, the transform reads the
    interpolation 2 of the value 0, and the value 1. *)
Definition wiring_heap : Wiring.heap :=
  <[0 := Wiring.mkNode Wiring.KValue [] [] false None]>
  (<[1 := Wiring.mkNode Wiring.KValue [] [] false None]>
  (<[2 := Wiring.mkNode Wiring.KInterpolation [0] [] false None]>
  (<[3 := Wiring.mkNode Wiring.KTransform [2; 1] [] false None]>
  (<[4 := Wiring.mkNode Wiring.KStyle [3; 0] [] false None]>
  (<[5 := Wiring.mkNode Wiring.KProps [4; 1] [] false None]> ∅))))).

Definition wiring_rank (n : node_id) : nat := n.

(** The same graph with the props attached. *)
Definition wiring_heap_attached : Wiring.heap :=
  <[0 := Wiring.mkNode Wiring.KValue [] [2; 4] false None]>
  (<[1 := Wiring.mkNode Wiring.KValue [] [3; 5] false None]>
  (<[2 := Wiring.mkNode Wiring.KInterpolation [0] [3] false None]>
  (<[3 := Wiring.mkNode Wiring.KTransform [2; 1] [4] false None]>
  (<[4 := Wiring.mkNode Wiring.KStyle [3; 0] [5] false None]>
  (<[5 := Wiring.mkNode Wiring.KProps [4; 1] [] false None]> ∅))))).

(** The same component before it gets new props: the new props 9 read the
    new style 8 and the value 1, the new style reads the new transform 7
    and the value 0, the new transform reads the interpolation 2 and the
    value 1. *)
Definition wiring_heap_rerender : Wiring.heap :=
  <[7 := Wiring.mkNode Wiring.KTransform [2; 1] [] false None]>
  (<[8 := Wiring.mkNode Wiring.KStyle [7; 0] [] false None]>
  (<[9 := Wiring.mkNode Wiring.KProps [8; 1] [] false None]>
     wiring_heap_attached)).

(** A value (node 0) that tracks the value 1: the tracking is node 2, the
    only child of the value 1. *)
Definition tracking_heap : Wiring.heap :=
  <[0 := Wiring.mkNode Wiring.KValue [] [] false (Some 2)]>
  (<[1 := Wiring.mkNode Wiring.KValue [] [2] false None]>
  (<[2 := Wiring.mkNode Wiring.KTracking [1] [] true None]> ∅)).

Import String.StringSyntax.
#[local] Open Scope string_scope.

(** The mapping of the comment in the source,
    [{nativeEvent: {contentOffset: {x: this._scrollX}}}], with node 1 for
    [_scrollX], and an event for it. *)
Definition scroll_mapping : Event.Mapping :=
  Event.MObject
    [("nativeEvent",
      Event.MObject
        [("contentOffset", Event.MObject [("x", Event.MValue 1)])])].

Definition scroll_event (x : float) : Event.Evt :=
  Event.EObject
    [("target", Event.EOther);
     ("nativeEvent",
      Event.EObject
        [("contentOffset",
          Event.EObject [("x", Event.ENumber x); ("y", Event.ENumber 0)])])].

End Examples.

(** * Properties *)

(** ** AnimatedWithChildren: attach/detach counting and the child list *)

Section WithChildrenFacts.
Import WithChildren.

Lemma indexOf_None l x : indexOf l x = None ↔ x ∉ l.
Proof.
  induction l as [|y l IH]; simpl.
  - split; [intros _; apply not_elem_of_nil | done].
  - destruct (Nat.eqb_spec y x) as [->|Hne].
    + split; [done | intros []; left].
    + rewrite not_elem_of_cons, <- IH.
      destruct (indexOf l x); simpl; intuition congruence.
Qed.

(** [indexOf] finds the first occurrence: the list splits around it. *)
Lemma indexOf_Some l x i :
  indexOf l x = Some i →
  ∃ l1 l2, l = l1 ++ x :: l2 ∧ (x ∉ l1) ∧ length l1 = i ∧ delete i l = l1 ++ l2.
Proof.
  revert i; induction l as [|y l IH]; intros i; simpl; [done|].
  destruct (Nat.eqb_spec y x) as [->|Hne].
  - intros [= <-]. exists [], l. split_and!; try done. apply not_elem_of_nil.
  - destruct (indexOf l x) as [j|] eqn:Hj; simpl; [|done].
    intros [= <-]. destruct (IH j eq_refl) as (l1 & l2 & -> & Hn & Hlen & Hdel).
    exists (y :: l1), l2. split_and!; simpl; try done.
    + rewrite not_elem_of_cons. split; [congruence | done].
    + by rewrite Hlen.
    + by rewrite Hdel.
Qed.

Lemma attach_calls_app c1 c2 :
  attach_calls (c1 ++ c2) = attach_calls c1 + attach_calls c2.
Proof. unfold attach_calls. by rewrite filter_app, length_app. Qed.

Lemma detach_calls_app c1 c2 :
  detach_calls (c1 ++ c2) = detach_calls c1 + detach_calls c2.
Proof. unfold detach_calls. by rewrite filter_app, length_app. Qed.

(** What a step does, by cases on the child list before it. *)
Lemma step_cases self o self' calls :
  step self o = (self', calls) →
  (∃ c, o = OpAdd c ∧ _children self' = _children self ++ [c] ∧
        calls = if decide (_children self = []) then [CallAttach] else [])
  ∨ (∃ c, o = OpRemove c ∧ (c ∉ _children self) ∧ self' = self ∧ calls = [CallWarn])
  ∨ (∃ c l1 l2, o = OpRemove c ∧ _children self = l1 ++ c :: l2 ∧ (c ∉ l1) ∧
        _children self' = l1 ++ l2 ∧
        calls = if decide (l1 ++ l2 = []) then [CallDetach] else []).
Proof.
  destruct self as [l]. destruct o as [c|c]; simpl.
  - unfold addChild; simpl. intros [= <- <-]. left. exists c. split_and!; try done.
    by destruct l.
  - unfold removeChild; simpl. destruct (indexOf l c) as [i|] eqn:Hi.
    + destruct (indexOf_Some _ _ _ Hi) as (l1 & l2 & -> & Hn & _ & ->).
      intros [= <- <-]. right; right. exists c, l1, l2. split_and!; try done.
      by destruct (l1 ++ l2).
    + intros [= <- <-]. right; left. exists c. by rewrite <- indexOf_None.
Qed.

Lemma step_transitions self o self' calls :
  step self o = (self', calls) →
  (attach_calls calls = 1 ↔
     length (_children self) = 0 ∧ length (_children self') = 1) ∧
  (detach_calls calls = 1 ↔
     length (_children self) = 1 ∧ length (_children self') = 0) ∧
  attach_calls calls ≤ 1 ∧ detach_calls calls ≤ 1.
Proof.
  intros Hs. destruct (step_cases _ _ _ _ Hs)
    as [(c & -> & -> & ->)|[(c & -> & Hn & -> & ->)|(c & l1 & l2 & -> & -> & Hn & -> & ->)]].
  - rewrite length_app; simpl. case_decide as E.
    + rewrite E; unfold attach_calls, detach_calls; simpl. intuition lia.
    + destruct (_children self); [done|].
      unfold attach_calls, detach_calls; simpl. intuition lia.
  - unfold attach_calls, detach_calls; simpl. intuition lia.
  - rewrite !length_app; simpl. case_decide as E.
    + apply app_eq_nil in E as [-> ->].
      unfold attach_calls, detach_calls; simpl. intuition lia.
    + unfold attach_calls, detach_calls; simpl.
      destruct l1, l2; try done; simpl; rewrite ?length_app; simpl; intuition lia.
Qed.

Lemma step_balance self o self' calls :
  step self o = (self', calls) →
  attach_calls calls + attached self = detach_calls calls + attached self'.
Proof.
  intros Hs. unfold attached. destruct (step_cases _ _ _ _ Hs)
    as [(c & -> & -> & ->)|[(c & -> & Hn & -> & ->)|(c & l1 & l2 & -> & -> & Hn & -> & ->)]].
  - case_decide as E.
    + rewrite E; done.
    + destruct (_children self); [done|]; done.
  - done.
  - case_decide as E.
    + rewrite E. by destruct l1.
    + destruct l1, l2; try done.
Qed.

Lemma run_balance ops : ∀ self self' calls,
  run self ops = (self', calls) →
  attach_calls calls + attached self = detach_calls calls + attached self'.
Proof.
  induction ops as [|o ops IH]; intros self self' calls; simpl.
  - intros [= <- <-]. done.
  - destruct (step self o) as [s1 c1] eqn:H1.
    destruct (run s1 ops) as [s2 c2] eqn:H2. intros [= <- <-].
    rewrite attach_calls_app, detach_calls_app.
    apply IH in H2. apply step_balance in H1. lia.
Qed.

(** C5. A node calls its own [attach()] exactly in the steps that take its
    child count from 0 to 1 and its own [detach()] exactly in the steps that
    take it from 1 to 0, at most once per step; so over any sequence of
    [addChild]/[removeChild] on a new node that leaves no child, [attach()]
    and [detach()] were called equally often. *)
Theorem attach_detach_counting :
  (∀ self o self' calls,
     step self o = (self', calls) →
     (attach_calls calls = 1 ↔
        length (_children self) = 0 ∧ length (_children self') = 1) ∧
     (detach_calls calls = 1 ↔
        length (_children self) = 1 ∧ length (_children self') = 0) ∧
     attach_calls calls ≤ 1 ∧ detach_calls calls ≤ 1) ∧
  (∀ ops self' calls,
     run constructor ops = (self', calls) →
     _children self' = [] →
     attach_calls calls = detach_calls calls).
Proof.
  split; [apply step_transitions|].
  intros ops self' calls Hrun Hnil. apply run_balance in Hrun.
  unfold attached in Hrun. rewrite Hnil in Hrun. simpl in Hrun. lia.
Qed.

Lemma attach_detach_counting_witness :
  run constructor
    [OpAdd 1; OpAdd 2; OpRemove 1; OpRemove 5; OpRemove 2; OpAdd 3; OpRemove 3]
  = (constructor, [CallAttach; CallWarn; CallDetach; CallAttach; CallDetach]) ∧
  attach_calls [CallAttach; CallWarn; CallDetach; CallAttach; CallDetach]
  = detach_calls [CallAttach; CallWarn; CallDetach; CallAttach; CallDetach].
Proof.
  split; [reflexivity|].
  apply (proj2 attach_detach_counting
           [OpAdd 1; OpAdd 2; OpRemove 1; OpRemove 5; OpRemove 2; OpAdd 3; OpRemove 3]
           constructor _ eq_refl eq_refl).
Defined.

Lemma run_NoDup ops : ∀ self,
  NoDup (_children self) → adds_fresh self ops →
  NoDup (_children (run self ops).1).
Proof.
  induction ops as [|o ops IH]; intros self Hnd Hf; simpl; [done|].
  destruct Hf as [Ho Hf].
  destruct (step self o) as [s1 c1] eqn:H1. simpl in Hf.
  destruct (run s1 ops) as [s2 c2] eqn:H2. simpl.
  replace s2 with (run s1 ops).1 by by rewrite H2.
  apply IH; [|done].
  destruct (step_cases _ _ _ _ H1)
    as [(c & -> & -> & _)|[(c & -> & Hn & -> & _)|(c & l1 & l2 & -> & E & Hn & -> & _)]].
  - apply NoDup_app. split_and!; [done| |apply NoDup_singleton].
    intros x Hx ->%list_elem_of_singleton. done.
  - done.
  - rewrite E in Hnd. apply NoDup_app in Hnd as (H1' & H2' & H3'%NoDup_cons).
    apply NoDup_app. split_and!; [done| |apply H3'].
    intros x Hx Hx2. apply (H2' x Hx). by right.
Qed.

(** C6, as the code has it.  The child list is kept in insertion order:
    [addChild] appends its argument (whether or not it is in the list
    already), [removeChild] deletes the first occurrence of its argument and
    keeps the order of the rest.  So the list is free of duplicates after any
    sequence of [addChild]/[removeChild] on a new node in which no [addChild]
    adds a child that is in the list at that moment. *)
Theorem children_insertion_order :
  (∀ self c, _children (addChild self c).1 = _children self ++ [c]) ∧
  (∀ self c,
     ((c ∉ _children self) ∧ (removeChild self c).1 = self) ∨
     (∃ l1 l2, _children self = l1 ++ c :: l2 ∧ (c ∉ l1) ∧
               _children (removeChild self c).1 = l1 ++ l2)) ∧
  (∀ ops, adds_fresh constructor ops →
          NoDup (_children (run constructor ops).1)).
Proof.
  split_and!.
  - done.
  - intros self c. destruct (removeChild self c) as [s' cs] eqn:E. simpl.
    destruct (step_cases self (OpRemove c) s' cs E)
      as [(c' & [=] & _)|[(c' & [= <-] & Hn & -> & _)|(c' & l1 & l2 & [= <-] & E' & Hn & -> & _)]].
    + by left.
    + right. by exists l1, l2.
  - intros ops Hf. apply run_NoDup; [apply NoDup_nil_2 | done].
Qed.

Lemma children_insertion_order_witness :
  adds_fresh constructor [OpAdd 4; OpAdd 9; OpRemove 4; OpAdd 4] ∧
  _children (run constructor [OpAdd 4; OpAdd 9; OpRemove 4; OpAdd 4]).1 = [9; 4] ∧
  NoDup (_children (run constructor [OpAdd 4; OpAdd 9; OpRemove 4; OpAdd 4]).1).
Proof.
  assert (Hf : adds_fresh constructor [OpAdd 4; OpAdd 9; OpRemove 4; OpAdd 4]).
  { simpl. rewrite !list_elem_of_In. simpl. intuition lia. }
  split_and!; [exact Hf | reflexivity |].
  exact (proj2 (proj2 children_insertion_order) _ Hf).
Defined.

(** C6 fails as stated: adding the same child twice gives two entries. *)
Lemma children_duplicate_counterexample :
  _children (run constructor [OpAdd 7; OpAdd 7]).1 = [7; 7] ∧
  ¬ (∀ ops, NoDup (_children (run constructor ops).1)).
Proof.
  split; [reflexivity|].
  intros Hall. specialize (Hall [OpAdd 7; OpAdd 7]). simpl in Hall.
  apply NoDup_cons in Hall as [Hin _]. apply Hin. left.
Qed.

End WithChildrenFacts.

(** ** _flush: every node with [update()] below the changed value, once *)

Section FlushFacts.
Import Graph.

Lemma Set_add_elem x s t : t ∈ Set_add x s ↔ t ∈ s ∨ t = x.
Proof.
  unfold Set_add. case_bool_decide as Hx.
  - split; [by left | intros [?| ->]; done].
  - rewrite elem_of_app, list_elem_of_singleton. done.
Qed.

Lemma Set_add_NoDup x s : NoDup s → NoDup (Set_add x s).
Proof.
  intros Hs. unfold Set_add. case_bool_decide as Hx; [done|].
  apply NoDup_app. split_and!; [done| |apply NoDup_singleton].
  intros y Hy ->%list_elem_of_singleton. done.
Qed.

Lemma forEach_child_None fuel h children : forEach_child fuel h None children = None.
Proof. induction children; simpl; [done|]. apply IHchildren. Qed.

Lemma findAnimatedStyles_S fuel h s n :
  findAnimatedStyles (S fuel) h s n
  = match h !! n with
    | None => None
    | Some nd =>
        if has_update nd then Some (Set_add n s)
        else forEach_child fuel h (Some s) (getChildren nd)
    end.
Proof. reflexivity. Qed.

Lemma forEach_child_cons fuel h s c children :
  forEach_child fuel h (Some s) (c :: children)
  = forEach_child fuel h (findAnimatedStyles fuel h s c) children.
Proof. reflexivity. Qed.

(** What was collected: the set before, and what is found from the node. *)
Lemma findAnimatedStyles_sound fuel h : ∀ s n s',
  findAnimatedStyles fuel h s n = Some s' →
  (NoDup s → NoDup s') ∧ (∀ t, t ∈ s' ↔ t ∈ s ∨ reaches h n t).
Proof.
  induction fuel as [|fuel IH]; intros s n s'; [done|].
  rewrite findAnimatedStyles_S. destruct (h !! n) as [nd|] eqn:Hn; [|done].
  destruct (has_update nd) eqn:Hu.
  - intros [= <-]. split; [apply Set_add_NoDup|].
    intros t. rewrite Set_add_elem. split; intros [?|Ht]; try by left.
    + subst. right. by eapply reaches_here.
    + inversion Ht; subst; [by right | congruence].
  - assert (Hloop : ∀ children s0 s1,
       forEach_child fuel h (Some s0) children = Some s1 →
       (NoDup s0 → NoDup s1) ∧
       (∀ t, t ∈ s1 ↔ t ∈ s0 ∨ ∃ c, c ∈ children ∧ reaches h c t)).
    { induction children as [|c children IHc]; intros s0 s1.
      - intros [= <-]. split; [done|]. intros t. split; [by left|].
        intros [?|(c & Hc & _)]; [done|]. by apply elem_of_nil in Hc.
      - rewrite forEach_child_cons.
        destruct (findAnimatedStyles fuel h s0 c) as [s2|] eqn:Hc;
          [|by rewrite forEach_child_None].
        intros Hrest. destruct (IH _ _ _ Hc) as [Hnd2 Hin2].
        destruct (IHc _ _ Hrest) as [Hnd1 Hin1]. split; [tauto|].
        intros t. rewrite Hin1, Hin2. split.
        + intros [[?|?]|(c' & ? & ?)]; [by left| |].
          * right. exists c. split; [left | done].
          * right. exists c'. split; [by right | done].
        + intros [?|(c' & [->|?]%elem_of_cons & ?)].
          * by left; left.
          * by left; right.
          * right. by exists c'. }
    intros Hs'. destruct (Hloop _ _ _ Hs') as [Hnd Hin]. split; [done|].
    intros t. rewrite Hin. split; intros [?|Ht]; try by left.
    + destruct Ht as (c & Hc & Ht). right. by eapply reaches_child.
    + right. inversion Ht; subst; [congruence|].
      match goal with H1 : h !! n = Some ?nd' |- _ =>
        assert (nd' = nd) as -> by congruence end.
      by eexists.
Qed.

(** More fuel does not change a result. *)
Lemma findAnimatedStyles_mono fuel h : ∀ s n s',
  findAnimatedStyles fuel h s n = Some s' →
  findAnimatedStyles (S fuel) h s n = Some s'.
Proof.
  induction fuel as [|fuel IH]; intros s n s'; [done|].
  rewrite (findAnimatedStyles_S (S fuel)), findAnimatedStyles_S.
  destruct (h !! n) as [nd|]; [|done]. destruct (has_update nd); [done|].
  generalize (getChildren nd). intros children. revert s.
  induction children as [|c children IHc]; intros s; [done|].
  rewrite !forEach_child_cons.
  destruct (findAnimatedStyles fuel h s c) as [s2|] eqn:Hc;
    [|by rewrite forEach_child_None].
  rewrite (IH _ _ _ Hc). apply IHc.
Qed.

Lemma findAnimatedStyles_le fuel fuel' h s n s' :
  fuel ≤ fuel' →
  findAnimatedStyles fuel h s n = Some s' →
  findAnimatedStyles fuel' h s n = Some s'.
Proof.
  induction 1 as [|fuel' _ IH]; [done|].
  intros Hs. by apply findAnimatedStyles_mono, IH.
Qed.

(** On a ranked graph the recursion is no deeper than the rank. *)
Lemma findAnimatedStyles_total h rank :
  ranked h rank →
  ∀ fuel s n, is_Some (h !! n) → rank n < fuel →
              is_Some (findAnimatedStyles fuel h s n).
Proof.
  intros Hr. induction fuel as [|fuel IH]; intros s n [nd Hn] Hlt; [lia|].
  rewrite findAnimatedStyles_S, Hn. destruct (has_update nd) eqn:Hu; [done|].
  assert (Hch : ∀ c, c ∈ getChildren nd → is_Some (h !! c) ∧ rank c < fuel).
  { intros c Hc. destruct (Hr _ _ _ Hn Hu Hc). split; [done | lia]. }
  revert s Hch. generalize (getChildren nd). intros children.
  induction children as [|c children IHc]; intros s Hch; [done|].
  rewrite forEach_child_cons.
  destruct (IH s c) as [s2 ->]; [apply Hch; left .. |].
  apply IHc. intros c' Hc'. apply Hch. by right.
Qed.

(** [_flush] on a ranked graph. *)
Lemma _flush_spec h rank n :
  ranked h rank →
  is_Some (h !! n) →
  ∃ updates,
    (∀ fuel, rank n < fuel → _flush fuel h n = Some updates) ∧
    NoDup updates ∧
    (∀ t, t ∈ updates ↔ reaches h n t).
Proof.
  intros Hr Hn.
  destruct (findAnimatedStyles_total h rank Hr (S (rank n)) [] n Hn) as [us Hus];
    [lia|].
  exists us. destruct (findAnimatedStyles_sound _ _ _ _ _ Hus) as [Hnd Hin].
  split_and!.
  - intros fuel Hlt. unfold _flush.
    apply (findAnimatedStyles_le (S (rank n))); [lia | done].
  - apply Hnd, NoDup_nil_2.
  - intros t. rewrite Hin. split; [intros [Ht|?]; [by apply elem_of_nil in Ht | done] | by right].
Qed.

Lemma rankedb_ranked h rank : rankedb h rank = true → ranked h rank.
Proof.
  unfold rankedb. rewrite forallb_forall. intros Hb n nd c Hn Hu Hc.
  apply elem_of_map_to_list, list_elem_of_In in Hn. specialize (Hb _ Hn). simpl in Hb.
  rewrite Hu in Hb. simpl in Hb. rewrite forallb_forall in Hb.
  apply list_elem_of_In in Hc. specialize (Hb _ Hc).
  apply andb_true_iff in Hb as [H1 H2]. apply bool_decide_eq_true in H1.
  apply Nat.ltb_lt in H2. done.
Qed.

(** C4. On a graph whose edges below the nodes without [update()] are
    acyclic (as they are by construction: a child is created after the
    nodes it depends on), whatever the child lists hold after any
    [addChild]/[removeChild], one [_flush] from a node calls [update()] on
    exactly the nodes with [update()] found below it, each once, however
    many paths lead there. *)
Theorem flush_updates_each_terminal_once h rank n :
  ranked h rank →
  is_Some (h !! n) →
  ∃ updates,
    (∀ fuel, rank n < fuel → _flush fuel h n = Some updates) ∧
    NoDup updates ∧
    (∀ t, t ∈ updates ↔ reaches h n t).
Proof. apply _flush_spec. Qed.

Lemma flush_updates_each_terminal_once_witness :
  ∃ updates,
    _flush 6 Examples.example_heap 0 = Some updates ∧ updates = [3; 4] ∧
    NoDup updates ∧ reaches Examples.example_heap 0 3.
Proof.
  destruct (flush_updates_each_terminal_once Examples.example_heap
              Examples.example_rank 0) as (updates & Hrun & Hnd & Hin).
  - apply rankedb_ranked. vm_compute. reflexivity.
  - vm_compute. eauto.
  - exists updates. specialize (Hrun 6 ltac:(vm_compute; lia)).
    assert (updates = [3; 4]) as ->.
    { vm_compute in Hrun. by injection Hrun as <-. }
    split_and!; try done. apply Hin. left.
Defined.

End FlushFacts.

(** ** Drivers: the completion callback *)

Section DriverFacts.
Import Driver.
Context {H : Type}.
Variable Math_exp : float -> float.

Lemma ends_app (c1 c2 : list (call H)) : ends (c1 ++ c2) = ends c1 + ends c2.
Proof. unfold ends. by rewrite filter_app, length_app. Qed.

Lemma filter_OnEnd_fire (onEnd : option H) finished :
  filter is_OnEnd (fire onEnd finished) = fire onEnd finished.
Proof. by destruct onEnd. Qed.

Lemma spring_onUpdate_fires (s : SpringAnimation.SpringAnimation H) now :
  Animation.fires (Animation.Spring s)
        (Animation.Spring (SpringAnimation.onUpdate s now).1)
        (SpringAnimation.onUpdate s now).2.
Proof.
  unfold SpringAnimation.onUpdate.
  destruct (negb (SpringAnimation._active s)); [by left|].
  match goal with |- context [if ?c then _ else _] => destruct c end; simpl.
  - right. split; [done|]. exists true. cbn. apply filter_OnEnd_fire.
  - by left.
Qed.

Lemma step_fires (a : Animation.Animation H) (o : Animation.op) :
  Animation.fires a (Animation.step Math_exp a o).1 (Animation.step Math_exp a o).2.
Proof.
  destruct o as [now|now|]; simpl.
  - destruct a as [t|d|s]; simpl.
    + unfold TimingAnimation.onUpdate.
      match goal with |- context [if ?c then _ else _] => destruct c end; simpl.
      * right. split; [done|]. exists true. cbn. apply filter_OnEnd_fire.
      * by left.
    + unfold DecayAnimation.onUpdate.
      match goal with |- context [if ?c then _ else _] => destruct c end; simpl.
      * right. split; [done|]. exists true. cbn. apply filter_OnEnd_fire.
      * by left.
    + pose proof (spring_onUpdate_fires s now) as Hs.
      by destruct (SpringAnimation.onUpdate s now).
  - destruct a as [t|d|s]; simpl; by left.
  - destruct a as [t|d|s]; simpl; right; (split; [done|]); exists false; cbn;
      apply filter_OnEnd_fire.
Qed.

Lemma start_pending_or_fired (a0 : Animation.Animation H) fromValue (h : H) previous now now' :
  Animation.pending_or_fired h
    (Animation.start a0 fromValue (Some h) previous now now').1
    (Animation.start a0 fromValue (Some h) previous now now').2.
Proof.
  destruct a0 as [t|d|s]; simpl.
  - unfold TimingAnimation.start; simpl.
    destruct (truthy _); simpl; by left.
  - by left.
  - unfold SpringAnimation.start.
    match goal with |- context [SpringAnimation.onUpdate ?s1 _] =>
      pose proof (spring_onUpdate_fires s1 now') as Hs;
      assert (Hh : SpringAnimation._onEnd s1 = Some h) by (by destruct previous as [[]|])
    end.
    destruct (SpringAnimation.onUpdate _ now') as [s' cs].
    unfold Animation.fires, Animation.pending_or_fired in *. simpl in *. rewrite Hh in Hs.
    destruct Hs as [[Hs' Hcs]|[Hs' [b Hcs]]].
    + by left.
    + right. split; [done|]. by exists b.
Qed.

Lemma step_pending_or_fired (h : H) (a : Animation.Animation H) tr o :
  Animation.pending_or_fired h a tr →
  Animation.pending_or_fired h (Animation.step Math_exp a o).1
    (tr ++ (Animation.step Math_exp a o).2).
Proof.
  intros Hinv. pose proof (step_fires a o) as Hf.
  destruct (Animation.step Math_exp a o) as [a' cs]. simpl in *.
  unfold Animation.pending_or_fired. rewrite filter_app.
  destruct Hinv as [[Ha Htr]|[Ha [b Htr]]], Hf as [[-> Hcs]|[-> [b' Hcs]]];
    rewrite Ha in *; rewrite Htr, Hcs; simpl.
  - by left.
  - right. split; [done|]. by exists b'.
  - right. split; [done|]. by exists b.
  - right. split; [done|]. by exists b.
Qed.

Lemma run_pending_or_fired (h : H) ops : ∀ (a : Animation.Animation H) tr,
  Animation.pending_or_fired h a tr →
  Animation.pending_or_fired h (Animation.run Math_exp a ops).1
    (tr ++ (Animation.run Math_exp a ops).2).
Proof.
  induction ops as [|o ops IH]; intros a tr Hinv; simpl.
  - by rewrite app_nil_r.
  - pose proof (step_pending_or_fired h a tr o Hinv) as Hstep.
    destruct (Animation.step Math_exp a o) as [a1 c1]. simpl in Hstep.
    specialize (IH a1 _ Hstep).
    destruct (Animation.run Math_exp a1 ops) as [a2 c2]. simpl in *.
    by rewrite app_assoc.
Qed.

(** Once the completion callback was dropped, none is called. *)
Lemma run_after_end ops : ∀ (a : Animation.Animation H),
  Animation._onEnd a = None → ends (Animation.run Math_exp a ops).2 = 0.
Proof.
  induction ops as [|o ops IH]; intros a Ha; [done|]. simpl.
  pose proof (step_fires a o) as Hf.
  destruct (Animation.step Math_exp a o) as [a1 c1]. simpl in Hf.
  assert (Animation._onEnd a1 = None ∧ filter is_OnEnd c1 = []) as [Ha1 Hc1].
  { destruct Hf as [[-> ?]|[-> [b Hb]]]; rewrite Ha in *; done. }
  specialize (IH a1 Ha1). destruct (Animation.run Math_exp a1 ops) as [a2 c2].
  simpl in *. rewrite ends_app, IH. unfold ends. by rewrite Hc1.
Qed.

(** C9. Whatever driver is started with a completion callback [h], and
    whatever frames, timers and calls of [stop] follow, [h] is called at
    most once; and a call of [stop] calls [h] with [false] (and nothing
    else of the client) when [h] was not called before, and calls nothing
    when it was: after natural completion or after an earlier [stop]. *)
Theorem stop_completes_with_false_at_most_once
  (a0 : Animation.Animation H) (fromValue : float) (h : H) (previous : option (Animation.Animation H))
  (now now' : Z) (ops : list Animation.op) :
  let '(a1, c1) := Animation.start a0 fromValue (Some h) previous now now' in
  let '(a2, c2) := Animation.run Math_exp a1 ops in
  let '(a3, c3) := Animation.stop a2 in
  ends (c1 ++ c2) ≤ 1 ∧
  (ends (c1 ++ c2) = 0 → filter is_OnEnd c3 = [OnEnd h false]) ∧
  (ends (c1 ++ c2) = 1 → filter is_OnEnd c3 = []) ∧
  ends (c1 ++ c2 ++ c3) = 1.
Proof.
  pose proof (start_pending_or_fired a0 fromValue h previous now now') as Hstart.
  destruct (Animation.start a0 fromValue (Some h) previous now now') as [a1 c1].
  simpl in Hstart.
  pose proof (run_pending_or_fired h ops a1 c1 Hstart) as Hrun.
  destruct (Animation.run Math_exp a1 ops) as [a2 c2]. simpl in Hrun.
  pose proof (step_fires a2 Animation.StopCall) as Hstop. simpl in Hstop.
  assert (Hstop' : Animation._onEnd (Animation.stop a2).1 = None ∧
            filter is_OnEnd (Animation.stop a2).2 = fire (Animation._onEnd a2) false).
  { destruct a2 as [t|d|s]; simpl; split; try done; cbn; apply filter_OnEnd_fire. }
  destruct (Animation.stop a2) as [a3 c3]. simpl in *.
  destruct Hstop' as [_ Hc3].
  unfold Animation.pending_or_fired in Hrun.
  rewrite app_assoc, (ends_app (c1 ++ c2) c3). unfold ends. rewrite Hc3.
  destruct Hrun as [[Ha Htr]|[Ha [b Htr]]]; rewrite Ha, Htr; simpl;
    split_and!; intros; try done; lia.
Qed.

End DriverFacts.

(** ** TimingAnimation and SpringAnimation: when a tick completes *)

Section FloatFacts.

(** [<] on numbers is asymmetric. *)
Lemma ltb_asym (x y : float) : PrimFloat.ltb x y = true → PrimFloat.ltb y x = false.
Proof.
  rewrite !FloatAxioms.ltb_spec. unfold SFltb.
  destruct (Prim2SF x) as [sx|sx| |sx mx ex], (Prim2SF y) as [sy|sy| |sy my ey];
    simpl; try done; try (by destruct sx); try (by destruct sy);
    try (by destruct sx, sy).
  destruct sx, sy; try done; rewrite (Z.compare_antisym ex ey);
    destruct (ex ?= ey)%Z; simpl; try done;
    change (Pos.compare_cont Eq my mx) with (Pos.compare my mx);
    change (Pos.compare_cont Eq mx my) with (Pos.compare mx my);
    rewrite (Pos.compare_antisym mx my);
    destruct (Pos.compare mx my); simpl; done.
Qed.

End FloatFacts.

Section TimingFacts.
Import Driver.
Context {H : Type}.
Variable Math_exp : float -> float.

(** C3, as the code has it.  A tick of a TimingAnimation whose completion
    callback [h] is pending compares the clock with
    [_startTime + _duration].  Before that time (elapsed time below the
    duration) it emits [from + easing((now - startTime) / duration) *
    (to - from)] and requests the next frame.  After that time (elapsed time
    beyond the duration) it emits the value at fraction 1,
    [from + easing(1) * (to - from)], calls [h] with [true] and requests no
    frame; and whatever happens to the driver afterwards, no completion
    callback is called again. *)
Theorem timing_tick (self : TimingAnimation.TimingAnimation H) (h : H) (now : Z) :
  TimingAnimation._onEnd self = Some h →
  let from := TimingAnimation._fromValue self in
  let to := TimingAnimation._toValue self in
  let easing := TimingAnimation._easing self in
  let startTime := time_num (TimingAnimation._startTime self) in
  let duration := TimingAnimation._duration self in
  (PrimFloat.ltb (of_Z now) (startTime + duration) = true →
   TimingAnimation.onUpdate self now
   = (self,
      [OnUpdate (from + easing ((of_Z now - startTime) / duration) * (to - from))%float;
       RequestAnimationFrame])) ∧
  (PrimFloat.ltb (startTime + duration) (of_Z now) = true →
   TimingAnimation.onUpdate self now
   = (TimingAnimation.set_onEnd self None,
      [OnUpdate (from + easing 1 * (to - from))%float; OnEnd h true]) ∧
   ∀ ops,
     ends (Animation.run Math_exp
             (Animation.Timing (TimingAnimation.onUpdate self now).1) ops).2 = 0).
Proof.
  intros Hh. simpl. unfold TimingAnimation.onUpdate. split.
  - intros Hlt%ltb_asym. by rewrite Hlt.
  - intros ->. rewrite Hh. split; [done|]. intros ops. simpl.
    by apply run_after_end.
Qed.

End TimingFacts.

Lemma timing_tick_witness :
  (TimingAnimation.onUpdate Examples.timing_example 5500).2
  = [Driver.OnUpdate 50%float; Driver.RequestAnimationFrame] ∧
  (TimingAnimation.onUpdate Examples.timing_example 6001).2
  = [Driver.OnUpdate 100%float; Driver.OnEnd 7 true].
Proof.
  split.
  - rewrite (proj1 (timing_tick (fun x => x) Examples.timing_example 7 5500 eq_refl)
               eq_refl).
    vm_compute. reflexivity.
  - rewrite (proj1 (proj2 (timing_tick (fun x => x) Examples.timing_example 7 6001 eq_refl)
                      eq_refl)).
    vm_compute. reflexivity.
Defined.

(** C3 fails as stated at elapsed time equal to the duration: the tick emits
    the final value, requests another frame and calls no completion
    callback.  (And the value at fraction 1 is [from + 1 * (to - from)] in
    binary64 arithmetic, which is not [to] for every pair: from 1e16 to 1 it
    is 0.) *)
Lemma timing_boundary_counterexample :
  (TimingAnimation.onUpdate Examples.timing_example 6000).2
  = [Driver.OnUpdate 100%float; Driver.RequestAnimationFrame] ∧
  Driver.ends (TimingAnimation.onUpdate Examples.timing_example 6000).2 = 0 ∧
  (TimingAnimation.onUpdate Examples.timing_far_example 6001).2
  = [Driver.OnUpdate 0%float; Driver.OnEnd 7 true].
Proof. vm_compute. done. Qed.

Section SpringFacts.
Import Driver.
Context {H : Type}.

(** C1, as the code has it.  The displacement condition is skipped when the
    field [_tension] is zero, and [_tension] is not the configured tension
    but its conversion [(tension - 30) * 3.62 + 194].  For a running
    SpringAnimation whose [_tension] is zero, whatever the friction, the
    velocity and the target: the displacement condition holds at every
    position, overshoot clamping never applies, and a tick emits the
    integrated position and then calls the pending completion callback with
    [true] exactly when the integrated speed is at most the rest-speed
    threshold, requesting the next frame otherwise. *)
Theorem spring_zero_tension_rest
  (self : SpringAnimation.SpringAnimation H) (h : H) (now : Z) :
  PrimFloat.eqb (SpringAnimation._tension self) 0 = true →
  SpringAnimation._active self = true →
  SpringAnimation._onEnd self = Some h →
  let st := SpringAnimation.integrate self now in
  (∀ position, SpringAnimation.isDisplacement self position = true) ∧
  (∀ position, SpringAnimation.isOvershooting self position = false) ∧
  (SpringAnimation.onUpdate self now).2
  = OnUpdate (SpringAnimation.position st)
    :: (if PrimFloat.leb (PrimFloat.abs (SpringAnimation.velocity' st))
             (SpringAnimation._restSpeedThreshold self)
        then [OnEnd h true] else [RequestAnimationFrame]).
Proof.
  intros Ht Ha Hh. simpl. split_and!.
  - intros p. unfold SpringAnimation.isDisplacement. by rewrite Ht.
  - intros p. unfold SpringAnimation.isOvershooting. rewrite Ht.
    by rewrite andb_false_r.
  - unfold SpringAnimation.onUpdate. rewrite Ha. simpl.
    unfold SpringAnimation.isOvershooting, SpringAnimation.isDisplacement,
      SpringAnimation.isVelocity. simpl. rewrite Ht, andb_false_r. simpl.
    rewrite andb_true_r.
    destruct (PrimFloat.leb _ _); simpl; by rewrite ?Hh.
Qed.

End SpringFacts.

Lemma spring_zero_tension_rest_witness :
  ∃ s, Examples.spring_example = Some s ∧
       SpringAnimation._tension s = 0%float ∧
       (SpringAnimation.onUpdate s 1100).2
       = [Driver.OnUpdate 0.15402823049543046%float; Driver.RequestAnimationFrame] ∧
       (SpringAnimation.onUpdate s 1300).2
       = [Driver.OnUpdate 0.16128048191898953%float; Driver.OnEnd 7 true].
Proof.
  eexists. split; [vm_compute; reflexivity|]. split; [vm_compute; reflexivity|].
  split.
  - match goal with |- (SpringAnimation.onUpdate ?s _).2 = _ =>
      rewrite (proj2 (proj2 (spring_zero_tension_rest s 7 1100 eq_refl eq_refl eq_refl)))
    end. vm_compute. reflexivity.
  - match goal with |- (SpringAnimation.onUpdate ?s _).2 = _ =>
      rewrite (proj2 (proj2 (spring_zero_tension_rest s 7 1300 eq_refl eq_refl eq_refl)))
    end. vm_compute. reflexivity.
Defined.

(** C1 fails as stated: a spring configured with tension 0 (friction 10,
    velocity 0, target 100) has [_tension = 85.4], so at position 0 with
    speed 0, below the rest-speed threshold, it does not complete. *)
Lemma spring_tension_config_counterexample :
  ∃ s, SpringAnimation.constructor (fun x _ => x) Examples.spring_tension_0_config
       = Some s ∧
       PrimFloat.eqb (SpringAnimation._tension (H:=nat) s) 0 = false ∧
       SpringAnimation.isVelocity
         (SpringAnimation.start s 0%float (Some 7) None 1000 1000).1
         (SpringAnimation._lastVelocity
            (SpringAnimation.start s 0%float (Some 7) None 1000 1000).1) = true ∧
       SpringAnimation.isDisplacement
         (SpringAnimation.start s 0%float (Some 7) None 1000 1000).1
         (SpringAnimation._lastPosition
            (SpringAnimation.start s 0%float (Some 7) None 1000 1000).1) = false ∧
       (SpringAnimation.start s 0%float (Some 7) None 1000 1000).2
       = [Driver.OnUpdate 0%float; Driver.RequestAnimationFrame].
Proof. eexists. vm_compute. done. Qed.

(** ** AnimatedValue: setValue *)

Section ValueFacts.
Import Graph.

Lemma value_at_insert h id self :
  value_at (<[id := NValue self]> h) id = Some self.
Proof. unfold value_at. by rewrite lookup_insert_eq. Qed.

Lemma value_at_lookup h id self :
  value_at h id = Some self → h !! id = Some (NValue self).
Proof.
  unfold value_at. destruct (h !! id) as [[]|]; try done. by intros [= ->].
Qed.

(** Writing a field that is not the child list keeps the graph ranked. *)
Lemma ranked_insert h rank id nd nd' :
  h !! id = Some nd →
  has_update nd' = has_update nd → getChildren nd' = getChildren nd →
  ranked h rank → ranked (<[id := nd']> h) rank.
Proof.
  intros Hid Hu Hc Hr n x c Hn Hx Hin.
  assert (Hsome : ∀ c, is_Some (h !! c) → is_Some (<[id := nd']> h !! c)).
  { intros c'. rewrite lookup_insert_is_Some. destruct (decide (id = c')); auto. }
  destruct (decide (id = n)) as [->|Hne].
  - rewrite lookup_insert_eq in Hn. injection Hn as <-.
    rewrite Hu in Hx. rewrite Hc in Hin.
    destruct (Hr _ _ _ Hid Hx Hin). split; [by apply Hsome | done].
  - rewrite lookup_insert_ne in Hn by done.
    destruct (Hr _ _ _ Hn Hx Hin). split; [by apply Hsome | done].
Qed.

Lemma calls_of_listener_absent key x (l : list (nat * fn)) :
  key ∉ l.*1 →
  calls_of_listener key ((fun kv => Listener kv.1 kv.2 x) <$> l) = [].
Proof.
  unfold calls_of_listener. induction l as [|[k f] l IH]; [done|].
  rewrite !fmap_cons, not_elem_of_cons, filter_cons. intros [Hne Hl].
  cbn [fst snd is_Listener_of].
  destruct (Nat.eqb_spec k key) as [->|_]; [done|].
  rewrite decide_False by (by intros []). by apply IH.
Qed.

Lemma calls_of_listener_present key f x (l : list (nat * fn)) :
  NoDup l.*1 → (key, f) ∈ l →
  calls_of_listener key ((fun kv => Listener kv.1 kv.2 x) <$> l)
  = [Listener key f x].
Proof.
  induction l as [|[k g] l IH]; [by intros _ ?%elem_of_nil|].
  rewrite !fmap_cons, NoDup_cons, elem_of_cons. intros [Hk Hnd] Hin.
  unfold calls_of_listener. rewrite filter_cons. cbn [fst snd is_Listener_of].
  destruct Hin as [[= <- <-]|Hin].
  - rewrite Nat.eqb_refl, decide_True by done. f_equal.
    by apply calls_of_listener_absent.
  - destruct (Nat.eqb_spec k key) as [->|_].
    + exfalso. apply Hk. apply list_elem_of_fmap. by exists (key, f).
    + rewrite decide_False by (by intros []). by apply IH.
Qed.

Lemma entries_elem (m : gmap nat fn) key f : (key, f) ∈ entries m ↔ m !! key = Some f.
Proof.
  unfold entries. rewrite merge_sort_Permutation. apply elem_of_map_to_list.
Qed.

Lemma entries_NoDup (m : gmap nat fn) : NoDup (entries m).*1.
Proof.
  unfold entries. rewrite merge_sort_Permutation. apply NoDup_fst_map_to_list.
Qed.

Lemma calls_of_listener_notify self key :
  calls_of_listener key (notify self)
  = match _listeners self !! key with
    | Some f => [Listener key f (getValue self)]
    | None => []
    end.
Proof.
  unfold notify. destruct (_listeners self !! key) as [f|] eqn:Hkey.
  - apply calls_of_listener_present; [apply entries_NoDup|].
    by apply entries_elem.
  - apply calls_of_listener_absent.
    intros ([k f] & Hk & Hin)%list_elem_of_fmap. simpl in Hk. subst k.
    apply entries_elem in Hin. congruence.
Qed.

Lemma filter_Flush_notify self : filter is_Flush (notify self) = [].
Proof.
  unfold notify. induction (entries _) as [|kv l IH]; [done|].
  rewrite fmap_cons, filter_cons. cbn [is_Flush].
  by rewrite decide_False by (by intros []).
Qed.

Lemma filter_Listener_notify self : filter is_Listener (notify self) = notify self.
Proof.
  unfold notify. induction (entries _) as [|kv l IH]; [done|].
  rewrite fmap_cons, filter_cons. cbn [is_Listener].
  by rewrite decide_True, IH by done.
Qed.

(** [_updateValue] on a ranked graph. *)
Lemma _updateValue_spec fuel h rank id self v :
  value_at h id = Some self → ranked h rank → rank id < fuel →
  if PrimFloat.eqb v (_value self)
  then _updateValue fuel h id v = Some (h, [])
  else
    let h' := <[id := NValue (set_value self v)]> h in
    ∃ updates,
      _updateValue fuel h id v
      = Some (h', Flush id updates :: notify (set_value self v)) ∧
      NoDup updates ∧ (∀ t, t ∈ updates ↔ reaches h' id t).
Proof.
  intros Hv Hr Hlt. unfold _updateValue. rewrite Hv. simpl.
  destruct (PrimFloat.eqb v (_value self)); [done|].
  apply value_at_lookup in Hv.
  assert (Hr' : ranked (<[id := NValue (set_value self v)]> h) rank)
    by by eapply ranked_insert.
  destruct (_flush_spec _ rank id Hr')
    as (us & Hus & Hnd & Hin); [by rewrite lookup_insert_eq|].
  exists us. rewrite (Hus fuel Hlt). done.
Qed.

(** What [stop()] calls, whatever the driver: the host, then the completion
    callback if one is pending. *)
Lemma Animation_stop_calls (a : Animation) :
  ∃ hostcalls,
    (Animation.stop a).2 = hostcalls ++ Driver.fire (Animation._onEnd a) false ∧
    Forall (fun c => Driver.is_OnEnd c = false) hostcalls ∧
    Forall (fun c => match c with Driver.OnUpdate _ => False | _ => True end) hostcalls.
Proof.
  destruct a as [t|d|s]; simpl.
  - exists [Driver.ClearTimeout; Driver.CancelAnimationFrame]. split; [done|].
    split; repeat constructor.
  - exists [Driver.CancelAnimationFrame]. split; [done|]. split; repeat constructor.
  - exists [Driver.CancelAnimationFrame]. split; [done|]. split; repeat constructor.
Qed.

Lemma driver_calls_host fuel h id hostcalls rest :
  Forall (fun c => Driver.is_OnEnd c = false) hostcalls →
  Forall (fun c => match c with Driver.OnUpdate _ => False | _ => True end) hostcalls →
  driver_calls fuel h id (hostcalls ++ rest)
  = '(h2, out2) ← driver_calls fuel h id rest; Some (h2, (Host <$> hostcalls) ++ out2).
Proof.
  induction hostcalls as [|c cs IH]; intros H1 H2; simpl.
  - by destruct (driver_calls fuel h id rest) as [[]|].
  - apply Forall_cons in H1 as [Hc1 H1]. apply Forall_cons in H2 as [Hc2 H2].
    destruct c; try done; simpl; rewrite IH by done;
      by destruct (driver_calls fuel h id rest) as [[]|].
Qed.

Lemma filter_Host (p : call → bool) hostcalls :
  (∀ c, p (Host c) = false) → filter p (Host <$> hostcalls) = [].
Proof.
  intros Hp. induction hostcalls as [|c cs IH]; [done|].
  rewrite fmap_cons, filter_cons, Hp, decide_False by (by intros []). done.
Qed.

Lemma filter_stop_calls (p : call → bool) hostcalls (onEnd : option onEndClosure) :
  (∀ c, p (Host c) = false) → (∀ f b, p (OnEndClosure f b) = false) →
  filter p ((Host <$> hostcalls)
            ++ match onEnd with
               | Some f => [OnEndClosure f false]
               | None => []
               end) = [].
Proof.
  intros Hp Hq. rewrite filter_app, filter_Host by done.
  destruct onEnd; [|done].
  rewrite filter_cons, Hq, decide_False by (by intros []). done.
Qed.

(** The part of [setValue] that stops the driver. *)
Lemma setValue_stop fuel h id self a v :
  value_at h id = Some self → _animation self = Some a →
  ∃ hostcalls,
    Forall (fun c => Driver.is_OnEnd c = false) hostcalls ∧
    (Animation.stop a).2 = hostcalls ++ Driver.fire (Animation._onEnd a) false ∧
    setValue fuel h id v
    = '(h2, out2) ← _updateValue fuel (<[id := NValue (set_animation self None)]> h) id v;
      Some (h2, ((Host <$> hostcalls)
                 ++ match Animation._onEnd a with
                    | Some onEnd => [OnEndClosure onEnd false]
                    | None => []
                    end) ++ out2).
Proof.
  intros Hv Ha. destruct (Animation_stop_calls a) as (hostcalls & Hcs & H1 & H2).
  exists hostcalls. split; [done|]. split; [done|].
  unfold setValue. rewrite Hv. simpl. rewrite Ha.
  destruct (Animation.stop a) as [a' cs]. simpl in Hcs. subst cs.
  rewrite driver_calls_host by done.
  destruct (Animation._onEnd a) as [onEnd|]; simpl.
  - rewrite value_at_insert. simpl. rewrite value_at_insert. simpl.
    by rewrite !insert_insert_eq.
  - rewrite value_at_insert. simpl. by rewrite !insert_insert_eq, !app_nil_r.
Qed.

(** C2, as the code has it.  [setValue(v)] compares [v] with the stored
    value, not with the resolved value (stored value plus offset).  On a
    graph that is acyclic below the value: when [v === _value], no flush
    runs and no listener is called; otherwise exactly one flush runs, from
    this value, calling [update()] once on each node with [update()] found
    below it, and after it every registered listener is called exactly once,
    with the resolved value after the write, [v + _offset]. *)
Theorem setValue_flushes_unless_stored_value fuel h rank id self v :
  value_at h id = Some self → ranked h rank → rank id < fuel →
  ∃ h' out,
    setValue fuel h id v = Some (h', out) ∧
    if PrimFloat.eqb v (_value self)
    then filter is_Flush out = [] ∧ filter is_Listener out = []
    else
      (∃ updates,
         filter is_Flush out = [Flush id updates] ∧
         NoDup updates ∧ (∀ t, t ∈ updates ↔ reaches h' id t)) ∧
      (∀ key,
         calls_of_listener key out
         = match _listeners self !! key with
           | Some f => [Listener key f (v + _offset self)%float]
           | None => []
           end) ∧
      (∀ c, c ∈ filter is_Listener out →
            ∃ key f, _listeners self !! key = Some f ∧
                     c = Listener key f (v + _offset self)%float).
Proof.
  intros Hv Hr Hlt.
  assert (Hgen : ∀ h0 self0 pre,
    value_at h0 id = Some self0 → ranked h0 rank →
    _value self0 = _value self → _offset self0 = _offset self →
    _listeners self0 = _listeners self →
    filter is_Flush pre = [] → filter is_Listener pre = [] →
    (∀ key, calls_of_listener key pre = []) →
    ∃ h' out,
      ('(h2, out2) ← _updateValue fuel h0 id v; Some (h2, pre ++ out2)) = Some (h', out) ∧
      if PrimFloat.eqb v (_value self)
      then filter is_Flush out = [] ∧ filter is_Listener out = []
      else
        (∃ updates,
           filter is_Flush out = [Flush id updates] ∧
           NoDup updates ∧ (∀ t, t ∈ updates ↔ reaches h' id t)) ∧
        (∀ key,
           calls_of_listener key out
           = match _listeners self !! key with
             | Some f => [Listener key f (v + _offset self)%float]
             | None => []
             end) ∧
        (∀ c, c ∈ filter is_Listener out →
              ∃ key f, _listeners self !! key = Some f ∧
                       c = Listener key f (v + _offset self)%float)).
  { intros h0 self0 pre Hv0 Hr0 Eval Eoff Elis Hpf Hpl Hpk.
    pose proof (_updateValue_spec fuel h0 rank id self0 v Hv0 Hr0 Hlt) as Hup.
    rewrite Eval in Hup. destruct (PrimFloat.eqb v (_value self)).
    - rewrite Hup. simpl. eexists _, _. split; [done|]. by rewrite app_nil_r.
    - destruct Hup as (us & -> & Hnd & Hin). simpl. eexists _, _. split; [done|].
      split_and!.
      + exists us. rewrite filter_app, Hpf, filter_cons, filter_Flush_notify.
        split_and!; done.
      + intros key. unfold calls_of_listener in *.
        rewrite filter_app, Hpk, filter_cons. cbn [is_Listener_of app].
        rewrite decide_False by (by intros []).
        pose proof (calls_of_listener_notify (set_value self0 v) key) as Hn.
        unfold calls_of_listener in Hn. rewrite Hn.
        unfold getValue. cbn [_listeners _value _offset set_value].
        by rewrite Elis, Eoff.
      + intros c. rewrite filter_app, Hpl, filter_cons. cbn [is_Listener app].
        rewrite decide_False by (by intros []). rewrite filter_Listener_notify.
        unfold notify. intros ([key f] & -> & Hkv)%list_elem_of_fmap.
        apply entries_elem in Hkv. cbn [_listeners set_value] in Hkv.
        exists key, f. unfold getValue. cbn [_value _offset set_value fst snd].
        by rewrite <- Elis, Eoff. }
  destruct (_animation self) as [a|] eqn:Ha.
  - destruct (setValue_stop fuel h id self a v Hv Ha) as (hostcalls & Hh & _ & ->).
    apply Hgen with (self0 := set_animation self None); try done.
    + apply value_at_insert.
    + eapply ranked_insert; [by apply value_at_lookup | done | done | done].
    + by apply filter_stop_calls.
    + by apply filter_stop_calls.
    + intros key. by apply filter_stop_calls.
  - unfold setValue. rewrite Hv. simpl. rewrite Ha. simpl.
    destruct (Hgen h self [] Hv Hr) as (h' & out & E & Hout); try done.
    exists h', out. split; [|done].
    destruct (_updateValue fuel h id v) as [[h2 out2]|]; simpl in *; done.
Qed.

(** C10. When a driver runs on the value (its completion closure is
    pending), [setValue(v)] with [v === _value] first stops the driver,
    which makes the completion closure run with [finished = false], and
    leaves the driver slot empty; nothing else is called but the host's
    scheduler: no flush, no listener. *)
Theorem setValue_same_value_stops_driver fuel h id self a onEnd v :
  value_at h id = Some self →
  _animation self = Some a →
  Animation._onEnd a = Some onEnd →
  PrimFloat.eqb v (_value self) = true →
  ∃ hostcalls,
    (Animation.stop a).2 = hostcalls ++ [Driver.OnEnd onEnd false] ∧
    Forall (fun c => Driver.is_OnEnd c = false) hostcalls ∧
    setValue fuel h id v
    = Some (<[id := NValue (set_animation self None)]> h,
            (Host <$> hostcalls) ++ [OnEndClosure onEnd false]).
Proof.
  intros Hv Ha Hend Heq.
  destruct (setValue_stop fuel h id self a v Hv Ha) as (hostcalls & Hh & Hcs & ->).
  rewrite Hend in *. exists hostcalls. split; [done|]. split; [done|].
  unfold _updateValue. rewrite value_at_insert. simpl. rewrite Heq. simpl.
  by rewrite app_nil_r.
Qed.

Lemma setValue_flushes_unless_stored_value_witness :
  ∃ h' updates,
    setValue 6 Examples.example_heap 0 7
    = Some (h', [Flush 0 updates; Listener 1 9 9%float; Listener 12 4 9%float]) ∧
    updates = [3; 4] ∧ NoDup updates.
Proof.
  destruct (setValue_flushes_unless_stored_value 6 Examples.example_heap
              Examples.example_rank 0 Examples.example_value 7)
    as (h' & out & Hrun & Hout).
  - vm_compute. reflexivity.
  - apply rankedb_ranked. vm_compute. reflexivity.
  - vm_compute. lia.
  - assert (Hne : PrimFloat.eqb 7 (_value Examples.example_value) = false)
      by (vm_compute; reflexivity).
    rewrite Hne in Hout. destruct Hout as ((updates & Hf & Hnd & _) & _ & _).
    assert (out = [Flush 0 [3; 4]; Listener 1 9 9%float; Listener 12 4 9%float]) as ->.
    { vm_compute in Hrun. by injection Hrun as _ <-. }
    injection Hf as <-. exists h', [3; 4]. done.
Defined.

(** C2 fails as stated: with stored value 1 and offset 2 the resolved value
    is 3; [setValue(3)] flushes and calls the listeners (with 3 + 2), and
    [setValue(1)], whose argument differs from the resolved value, does
    neither. *)
Lemma setValue_resolved_value_counterexample :
  getValue Examples.example_value = 3%float ∧
  snd <$> setValue 6 Examples.example_heap 0 3
  = Some [Flush 0 [3; 4]; Listener 1 9 5%float; Listener 12 4 5%float] ∧
  snd <$> setValue 6 Examples.example_heap 0 1 = Some [].
Proof. vm_compute. done. Qed.

Lemma setValue_same_value_stops_driver_witness :
  ∃ h self a,
    Examples.animated_heap = Some h ∧ value_at h 0 = Some self ∧
    _animation self = Some a ∧ _value self = 1%float ∧
    snd <$> setValue 0 h 0 1
    = Some [Host Driver.ClearTimeout; Host Driver.CancelAnimationFrame;
            OnEndClosure (Some 8) false] ∧
    (h' ← fst <$> setValue 0 h 0 1; self' ← value_at h' 0; Some (_animation self'))
    = Some None.
Proof.
  eexists _, _, _. split; [vm_compute; reflexivity|].
  split; [vm_compute; reflexivity|]. split; [reflexivity|]. split; [reflexivity|].
  match goal with |- context [setValue 0 ?h 0 1] =>
    destruct (setValue_same_value_stops_driver 0 h 0 _ _ (Some 8) 1
                ltac:(vm_compute; reflexivity) eq_refl eq_refl
                ltac:(vm_compute; reflexivity))
      as (hostcalls & Hstop & _ & Hrun)
  end.
  assert (hostcalls = [Driver.ClearTimeout; Driver.CancelAnimationFrame]) as ->.
  { vm_compute in Hstop. destruct hostcalls as [|? [|? [|? ?]]]; simplify_eq. done. }
  rewrite Hrun. split; [reflexivity|]. vm_compute. reflexivity.
Defined.

End ValueFacts.

(** ** sequence *)

Section SequenceFacts.
Import Composite.
Variable syncs : list (option bool).
Variable f : fn.
Let n := length syncs.

Lemma app_split_l {A} (l1 l2 t1 t2 : list A) x :
  l1 ++ l2 = t1 ++ x :: t2 → x ∉ l2 →
  ∃ t2', l1 = t1 ++ x :: t2' ∧ t2 = t2' ++ l2.
Proof.
  revert t1. induction l1 as [|a l1 IH]; intros t1 E Hx; simpl in E.
  - exfalso. apply Hx. rewrite E. apply elem_of_app. right. left.
  - destruct t1 as [|b t1]; simpl in E; injection E as -> E.
    + exists l1. by subst.
    + destruct (IH _ E Hx) as (t2' & -> & ->). by exists t2'.
Qed.

Lemma app_split_r {A} (l1 l2 t1 t2 : list A) x :
  l1 ++ l2 = t1 ++ x :: t2 → x ∉ l1 →
  ∃ t1', l2 = t1' ++ x :: t2 ∧ t1 = l1 ++ t1'.
Proof.
  revert t1. induction l1 as [|a l1 IH]; intros t1 E Hx; simpl in E.
  - by exists t1.
  - apply not_elem_of_cons in Hx as [Hxa Hx].
    destruct t1 as [|b t1]; simpl in E; injection E as -> E; [done|].
    destruct (IH _ E Hx) as (t1' & -> & ->). by exists t1'.
Qed.

Lemma starts_app t1 t2 : starts (t1 ++ t2) = starts t1 ++ starts t2.
Proof. apply omap_app. Qed.

Lemma callbacks_app t1 t2 : callbacks (t1 ++ t2) = callbacks t1 ++ callbacks t2.
Proof. apply omap_app. Qed.

Lemma starts_started_upto k : starts (started_upto k) = seq 0 (S k).
Proof.
  induction k as [|k IH]; [done|].
  cbn [started_upto]. rewrite starts_app, IH, (seq_S (S k)). done.
Qed.

Lemma callbacks_started_upto k : callbacks (started_upto k) = [].
Proof.
  induction k as [|k IH]; [done|].
  cbn [started_upto]. by rewrite callbacks_app, IH.
Qed.

Lemma elem_of_started_upto k c :
  c ∈ started_upto k →
  (∃ i, c = Start i ∧ i ≤ k) ∨ (∃ i, c = Done i true ∧ i < k).
Proof.
  induction k as [|k IH]; cbn [started_upto].
  - intros ->%list_elem_of_singleton. left. by exists 0.
  - rewrite elem_of_app. intros [Hc|Hc].
    + destruct (IH Hc) as [(i & -> & ?)|(i & -> & ?)]; [left|right]; exists i;
        split; [done | lia | done | lia].
    + apply elem_of_cons in Hc as [->|Hc]; [right; exists k; split; [done|lia]|].
      apply list_elem_of_singleton in Hc as ->. left. by exists (S k).
Qed.

(** In [started_upto k] every [Start (S i)] comes right after [Done i true]. *)
Lemma started_upto_order k t1 i t2 :
  started_upto k = t1 ++ Start (S i) :: t2 → ∃ t0, t1 = t0 ++ [Done i true].
Proof.
  revert t1 t2. induction k as [|k IH]; intros t1 t2; cbn [started_upto].
  - intros E. destruct t1 as [|? [|? ?]]; simplify_eq.
  - intros E. destruct (decide (i = k)) as [->|Hne].
    + destruct (app_split_r _ _ _ _ _ E) as (t1' & E' & ->).
      { intros [(j & [= <-] & ?)|(j & [=] & _)]%elem_of_started_upto. lia. }
      destruct t1' as [|? [|? [|? ?]]]; simpl in E'; simplify_eq.
      exists (started_upto k). done.
    + destruct (app_split_l _ _ _ _ _ E) as (t2' & E' & ->).
      { intros [[=]|[[= ?]|[]%elem_of_nil]%elem_of_cons]%elem_of_cons. done. }
      by eapply IH.
Qed.

Lemma shaped_length e r anims : shaped syncs e r anims → length anims = n.
Proof.
  intros Hs. unfold n.
  destruct (Nat.lt_trichotomy (length anims) (length syncs)) as [Hlt|[?|Hlt]]; [|done|].
  - specialize (Hs (length anims)). rewrite lookup_ge_None_2 in Hs by lia.
    destruct (lookup_lt_is_Some_2 syncs (length anims) Hlt) as [x Hx].
    by rewrite Hx in Hs.
  - specialize (Hs (length syncs)). rewrite (lookup_ge_None_2 syncs) in Hs by lia.
    destruct (lookup_lt_is_Some_2 anims (length syncs) Hlt) as [x Hx].
    by rewrite Hx in Hs.
Qed.

Lemma shaped_insert e r e' r' anims k sync_k :
  shaped syncs e r anims → syncs !! k = Some sync_k →
  (∀ i, i ≠ k → status_at e r i = status_at e' r' i) →
  shaped syncs e' r' (<[k := mkAnimation sync_k (status_at e' r' k)]> anims).
Proof.
  intros Hs Hk Hi i. destruct (decide (i = k)) as [->|Hne].
  - rewrite list_lookup_insert_eq, Hk; [done|].
    rewrite (shaped_length _ _ _ Hs). by eapply lookup_lt_Some.
  - rewrite list_lookup_insert_ne by done. rewrite Hs.
    destruct (syncs !! i); simpl; [|done]. by rewrite Hi.
Qed.

Lemma shaped_fresh : shaped syncs 0 false (fresh <$> syncs).
Proof.
  intros i. rewrite list_lookup_fmap. destruct (syncs !! i); [|done].
  unfold fresh, status_at. by destruct i.
Qed.

Lemma status_at_not_running e i : status_at e false i ≠ Running.
Proof.
  unfold status_at. destruct (i <? e); [done|]. by rewrite andb_false_r.
Qed.

Lemma status_at_running e i : status_at e true i = Running → i = e.
Proof.
  unfold status_at. destruct (i <? e); [done|].
  destruct (Nat.eqb_spec i e); done.
Qed.

Lemma status_at_self_idle k : status_at k false k = Idle.
Proof. unfold status_at. by rewrite Nat.ltb_irrefl, andb_false_r. Qed.

Lemma status_at_self_running k : status_at k true k = Running.
Proof. unfold status_at. by rewrite Nat.ltb_irrefl, Nat.eqb_refl. Qed.

Lemma status_at_self_ended k r : status_at (S k) r k = Ended.
Proof. unfold status_at. by rewrite (proj2 (Nat.ltb_lt k (S k))) by lia. Qed.

Lemma status_at_start k i : i ≠ k → status_at k false i = status_at k true i.
Proof.
  intros Hne. unfold status_at. destruct (i <? k); [done|].
  by rewrite (proj2 (Nat.eqb_neq i k)).
Qed.

Lemma status_at_end k r i : i ≠ k → status_at k r i = status_at (S k) false i.
Proof.
  intros Hne. unfold status_at.
  destruct (Nat.ltb_spec i k), (Nat.ltb_spec i (S k)); try lia; try done.
  rewrite (proj2 (Nat.eqb_neq i k)) by done.
  by rewrite andb_false_r.
Qed.

Lemma onComplete_false fuel s :
  onComplete (S fuel) s false = Some (s, call_callback (seq_callback s) false).
Proof. reflexivity. Qed.

Lemma onComplete_true_last fuel s :
  S (current s) = length (seq_animations s) →
  onComplete (S fuel) s true
  = Some (mkSequence (seq_animations s) (S (current s)) (seq_callback s),
          call_callback (seq_callback s) true).
Proof. intros E. cbn [onComplete negb current seq_animations]. by rewrite E, Nat.eqb_refl. Qed.

Lemma onComplete_true_next fuel s :
  S (current s) ≠ length (seq_animations s) →
  onComplete (S fuel) s true
  = start_current (onComplete fuel)
      (mkSequence (seq_animations s) (S (current s)) (seq_callback s)).
Proof.
  intros E. cbn [onComplete negb current seq_animations].
  by rewrite (proj2 (Nat.eqb_neq _ _) E).
Qed.

(** [onComplete] and [animations[current].start(onComplete)] take a
    sequence that is about to start animation [current] to one that runs
    or has ended. *)
Lemma start_current_spec fuel : ∀ s tr0,
  seq_callback s = Some f → current s < n →
  shaped syncs (current s) false (seq_animations s) →
  n - current s ≤ fuel →
  tr0 ++ [Start (current s)] = started_upto (current s) →
  ∃ s' out, start_current (onComplete fuel) s = Some (s', out) ∧
            (alive syncs f s' (tr0 ++ out) ∨ dead syncs f s' (tr0 ++ out)).
Proof.
  induction fuel as [|fuel IH]; intros [anims k cb] tr0;
    cbn [seq_callback current seq_animations]; intros -> Hk Hs Hfuel Htr;
    [lia|].
  destruct (lookup_lt_is_Some_2 syncs k Hk) as [sync_k Hsk].
  unfold start_current; cbn [seq_animations current seq_callback].
  rewrite Hs, Hsk. cbn [fmap option_fmap option_map mbind option_bind].
  rewrite status_at_self_idle. unfold animation_start. cbn [state sync].
  destruct sync_k as [[|]|]; cbn [mbind option_bind].
  - (* reports true during start *)
    assert (Hs1 : shaped syncs (S k) false (<[k := mkAnimation (Some true) Ended]> anims)).
    { rewrite <- (status_at_self_ended k false).
      eapply shaped_insert; [exact Hs | done | apply status_at_end]. }
    pose proof (shaped_length _ _ _ Hs1) as Hlen.
    destruct (decide (S k = n)) as [Hlast|Hmore].
    + rewrite onComplete_true_last by (cbn [current seq_animations]; congruence).
      cbn [mbind option_bind current seq_animations seq_callback call_callback].
      eexists _, _. split; [done|]. right. split; [done|]. split; [by exists (S k)|].
      exists k, [Done k true; Callback f true], 0. split_and!; try done.
      * by constructor.
      * cbn [replicate]. rewrite app_nil_r, <- Htr, <- app_assoc. done.
      * right. done.
    + rewrite onComplete_true_next by (cbn [current seq_animations]; congruence).
      cbn [current seq_animations seq_callback].
      destruct (IH (mkSequence (<[k := mkAnimation (Some true) Ended]> anims) (S k) (Some f))
                   (tr0 ++ [Start k; Done k true])) as (s' & out & -> & Hinv);
        cbn [seq_animations current seq_callback]; try done; try lia.
      { cbn [started_upto]. rewrite <- Htr, <- !app_assoc. done. }
      cbn [mbind option_bind]. eexists _, _. split; [done|].
      rewrite <- !app_assoc in Hinv. exact Hinv.
  - (* reports false during start *)
    rewrite onComplete_false.
    cbn [mbind option_bind current seq_animations seq_callback call_callback].
    eexists _, _. split; [done|]. right. split; [done|]. split.
    { exists (S k). rewrite <- (status_at_self_ended k false).
      eapply shaped_insert; [exact Hs | done | apply status_at_end]. }
    exists k, [Done k false; Callback f false], 0. split_and!; try done.
    + constructor.
    + cbn [replicate]. rewrite app_nil_r, <- Htr, <- app_assoc. done.
    + by left.
  - (* runs *)
    eexists _, _. split; [done|]. left. split_and!; try done.
    rewrite <- (status_at_self_running k).
    eapply shaped_insert; [exact Hs | done | apply status_at_start].
Qed.

Lemma shaped_lookup e r anims i sync_i :
  shaped syncs e r anims → syncs !! i = Some sync_i →
  anims !! i = Some (mkAnimation sync_i (status_at e r i)).
Proof. intros Hs Hi. by rewrite Hs, Hi. Qed.

Lemma shaped_lookup_None e r anims i :
  shaped syncs e r anims → syncs !! i = None → anims !! i = None.
Proof. intros Hs Hi. by rewrite Hs, Hi. Qed.

(** Nothing but [stop()] has an effect on a sequence that has ended, and
    [stop()] only reaches an animation that has ended. *)
Lemma step_dead fuel s tr e :
  dead syncs f s tr →
  ∃ s' out, sequence_step fuel s e = Some (s', out) ∧ dead syncs f s' (tr ++ out).
Proof.
  destruct s as [anims c cb]. intros (Hcb & [ended Hs] & Htr).
  cbn [seq_callback seq_animations current] in *. subst cb.
  pose proof (shaped_length _ _ _ Hs) as Hlen.
  destruct e as [|i b]; cbn [sequence_step].
  - unfold sequence_stop. cbn [seq_callback seq_animations current]. rewrite Hlen.
    destruct (Nat.ltb_spec c n) as [Hc|Hc].
    + destruct (lookup_lt_is_Some_2 syncs c Hc) as [sync_c Hsc].
      rewrite (shaped_lookup _ _ _ _ _ Hs Hsc). cbn [mbind option_bind].
      unfold animation_stop. cbn [state].
      pose proof (status_at_not_running ended c) as Hnr.
      assert (Hid : <[c := mkAnimation sync_c (status_at ended false c)]> anims = anims).
      { apply list_insert_id. by apply shaped_lookup. }
      destruct (status_at ended false c) eqn:Est; [| done |];
        cbn [mbind option_bind]; rewrite Hid;
        (eexists _, _; split; [done|]; split; [done|]; split; [by exists ended|]);
        destruct Htr as (k & e & m & Hk & He & -> & [Hck|[Hck ->]]);
        cbn [current] in Hck; try (unfold n in Hc; lia); subst c;
        exists k, e, (S m); (split_and!; try done; try by left);
        rewrite <- !app_assoc; do 2 f_equal;
        by rewrite replicate_S_end.
    + eexists _, _. split; [done|]. rewrite app_nil_r. split; [done|].
      split; [by exists ended | done].
  - unfold sequence_finish. cbn [seq_callback seq_animations current].
    destruct (syncs !! i) as [sync_i|] eqn:Hsi.
    + rewrite (shaped_lookup _ _ _ _ _ Hs Hsi).
      pose proof (status_at_not_running ended i) as Hnr.
      destruct (status_at ended false i); [| done |];
        (eexists _, _; split; [done|]; rewrite app_nil_r; split; [done|];
         split; [by exists ended | done]).
    + rewrite (shaped_lookup_None _ _ _ _ Hs Hsi).
      eexists _, _. split; [done|]. rewrite app_nil_r. split; [done|].
      split; [by exists ended | done].
Qed.

(** A step of a running sequence: it runs on, or it has ended. *)
Lemma step_alive fuel s tr e :
  n ≤ fuel → alive syncs f s tr →
  ∃ s' out, sequence_step fuel s e = Some (s', out) ∧
            (alive syncs f s' (tr ++ out) ∨ dead syncs f s' (tr ++ out)).
Proof.
  destruct s as [anims k cb]. intros Hfuel (Hcb & Hk & Hs & ->).
  cbn [seq_callback seq_animations current] in *. subst cb. fold n in Hk.
  pose proof (shaped_length _ _ _ Hs) as Hlen.
  destruct (lookup_lt_is_Some_2 syncs k Hk) as [sync_k Hsk].
  pose proof (shaped_lookup _ _ _ _ _ Hs Hsk) as Hlk.
  rewrite status_at_self_running in Hlk.
  destruct fuel as [|fuel]; [lia|].
  assert (Hs1 : shaped syncs (S k) false (<[k := mkAnimation sync_k Ended]> anims)).
  { rewrite <- (status_at_self_ended k false).
    eapply shaped_insert; [exact Hs | done | apply status_at_end]. }
  assert (Hdead : ∀ e0, ending n f k e0 →
            dead syncs f (mkSequence (<[k := mkAnimation sync_k Ended]> anims) k (Some f))
              (started_upto k ++ e0)).
  { intros e0 He0. split; [done|]. split; [by exists (S k)|].
    exists k, e0, 0. split_and!; try done; [|by left].
    cbn [replicate]. by rewrite app_nil_r. }
  destruct e as [|i b]; cbn [sequence_step].
  - unfold sequence_stop. cbn [seq_callback seq_animations current].
    rewrite Hlen, (proj2 (Nat.ltb_lt k n) Hk), Hlk. cbn [mbind option_bind].
    unfold animation_stop, report. cbn [state sync]. rewrite onComplete_false.
    cbn [mbind option_bind seq_callback call_callback current].
    eexists _, _. split; [done|]. right. apply Hdead. constructor.
  - unfold sequence_finish. cbn [seq_callback seq_animations current].
    destruct (decide (i = k)) as [->|Hne].
    + rewrite Hlk. unfold report. destruct b.
      * destruct (decide (S k = n)) as [Hlast|Hmore].
        -- rewrite onComplete_true_last by (cbn [current seq_animations]; rewrite length_insert; congruence).
           cbn [mbind option_bind seq_callback call_callback current seq_animations].
           eexists _, _. split; [done|]. right. split; [done|].
           split; [by exists (S k)|].
           exists k, [Done k true; Callback f true], 0. split_and!; try done.
           ++ by constructor.
           ++ right. done.
        -- rewrite onComplete_true_next by (cbn [current seq_animations]; rewrite length_insert; congruence).
           cbn [current seq_animations seq_callback].
           destruct (start_current_spec fuel
                       (mkSequence (<[k := mkAnimation sync_k Ended]> anims) (S k) (Some f))
                       (started_upto k ++ [Done k true]))
             as (s' & out & -> & Hinv);
             cbn [seq_animations current seq_callback]; try done; try lia.
           { cbn [started_upto]. by rewrite <- !app_assoc. }
           cbn [mbind option_bind]. eexists _, _. split; [done|].
           rewrite <- !app_assoc in Hinv. exact Hinv.
      * rewrite onComplete_false.
        cbn [mbind option_bind seq_callback call_callback current].
        eexists _, _. split; [done|]. right. apply Hdead. constructor.
    + assert (Hnot : ∀ a, anims !! i = Some a → state a ≠ Running).
      { intros a Ha Hrun. destruct (syncs !! i) as [sync_i|] eqn:Hsi.
        - rewrite (shaped_lookup _ _ _ _ _ Hs Hsi) in Ha. injection Ha as <-.
          cbn [state] in Hrun. by apply status_at_running in Hrun.
        - by rewrite (shaped_lookup_None _ _ _ _ Hs Hsi) in Ha. }
      destruct (anims !! i) as [[sync_i st_i]|] eqn:Hi.
      * specialize (Hnot _ eq_refl). cbn [state] in Hnot.
        destruct st_i; [| done |];
          (eexists _, _; split; [done|]; left; rewrite app_nil_r; done).
      * eexists _, _. split; [done|]. left. rewrite app_nil_r. done.
Qed.

(** Every run of a sequence of at least one animation: it runs or has
    ended, and its calls have the matching shape. *)
Lemma sequence_events_spec fuel events : ∀ s tr,
  n ≤ fuel → alive syncs f s tr ∨ dead syncs f s tr →
  ∃ s' out, sequence_events fuel s events = Some (s', out) ∧
            (alive syncs f s' (tr ++ out) ∨ dead syncs f s' (tr ++ out)).
Proof.
  induction events as [|e events IH]; intros s tr Hfuel Hinv.
  - eexists _, _. split; [done|]. by rewrite app_nil_r.
  - cbn [sequence_events].
    assert (∃ s1 out1, sequence_step fuel s e = Some (s1, out1) ∧
              (alive syncs f s1 (tr ++ out1) ∨ dead syncs f s1 (tr ++ out1)))
      as (s1 & out1 & -> & Hinv1).
    { destruct Hinv as [Ha|Hd].
      - by apply step_alive.
      - destruct (step_dead fuel s tr e Hd) as (s1 & out1 & ? & ?). eauto. }
    cbn [mbind option_bind].
    destruct (IH s1 _ Hfuel Hinv1) as (s2 & out2 & -> & Hinv2).
    cbn [mbind option_bind]. eexists _, _. split; [done|]. by rewrite app_assoc.
Qed.

Lemma sequence_run_spec fuel events :
  n ≤ fuel → n ≠ 0 →
  ∃ s tr, sequence_run fuel syncs (Some f) events = Some (s, tr) ∧
          (alive syncs f s tr ∨ dead syncs f s tr).
Proof.
  intros Hfuel Hn. unfold sequence_run, sequence_start, sequence_new.
  cbn [seq_animations current seq_callback]. rewrite length_fmap. fold n.
  rewrite (proj2 (Nat.eqb_neq n 0) Hn).
  destruct (start_current_spec fuel (mkSequence (fresh <$> syncs) 0 (Some f)) [])
    as (s1 & out1 & -> & Hinv1); cbn [seq_animations current seq_callback];
    try done; try lia.
  { apply shaped_fresh. }
  cbn [mbind option_bind].
  destruct (sequence_events_spec fuel events s1 _ Hfuel Hinv1) as (s2 & out2 & -> & Hinv2).
  cbn [mbind option_bind]. eauto.
Qed.

Lemma starts_stops m k : starts (replicate m (Stop k)) = [].
Proof. induction m as [|m IH]; [done|]. by cbn [replicate starts omap]. Qed.

Lemma callbacks_stops m k : callbacks (replicate m (Stop k)) = [].
Proof. induction m as [|m IH]; [done|]. by cbn [replicate callbacks omap]. Qed.

Lemma starts_ending k e : ending n f k e → starts e = [].
Proof. by intros []. Qed.

Lemma callbacks_ending k e : ending n f k e → length (callbacks e) = 1.
Proof. by intros []. Qed.

Lemma run_calls_of s tr : alive syncs f s tr ∨ dead syncs f s tr → run_calls syncs f tr.
Proof.
  unfold run_calls.
  intros [(_ & Hk & _ & ->)|(_ & _ & k & e & m & Hk & He & -> & _)].
  - exists (current s). split; [done|]. by left.
  - exists k. split; [done|]. right. by exists e, m.
Qed.

Lemma run_calls_starts tr :
  run_calls syncs f tr →
  starts tr = seq 0 (length (starts tr)) ∧ ∃ tr', tr = Start 0 :: tr'.
Proof.
  assert (Hhd : ∀ k, ∃ tr', started_upto k = Start 0 :: tr').
  { induction k as [|k [tr' IH]]; [by exists []|].
    cbn [started_upto]. rewrite IH. by eexists. }
  intros (k & Hk & [->|(e & m & He & ->)]).
  - rewrite starts_started_upto, length_seq. split; [done | apply Hhd].
  - rewrite !starts_app, starts_started_upto, (starts_ending _ _ He), starts_stops.
    rewrite !app_nil_r, length_seq. split; [done|].
    destruct (Hhd k) as [tr' ->]. by eexists.
Qed.

Lemma run_calls_callbacks tr : run_calls syncs f tr → length (callbacks tr) ≤ 1.
Proof.
  intros (k & Hk & [->|(e & m & He & ->)]).
  - rewrite callbacks_started_upto. simpl. lia.
  - rewrite !callbacks_app, callbacks_started_upto, callbacks_stops, app_nil_r.
    cbn [app]. by rewrite (callbacks_ending _ _ He).
Qed.

Lemma run_calls_order tr t1 i t2 :
  run_calls syncs f tr → tr = t1 ++ Start (S i) :: t2 → ∃ t0, t1 = t0 ++ [Done i true].
Proof.
  intros (k & Hk & [->|(e & m & He & ->)]) E.
  - by eapply started_upto_order.
  - rewrite app_assoc in E.
    destruct (app_split_l _ _ _ _ _ E) as (ta & Ea & _).
    { by intros [[=] _]%elem_of_replicate. }
    destruct (app_split_l _ _ _ _ _ Ea) as (tb & Eb & _).
    { destruct He; intros Hin; repeat (apply elem_of_cons in Hin as [[=]|Hin]);
        by apply elem_of_nil in Hin. }
    by eapply started_upto_order.
Qed.

Lemma run_calls_abort tr t1 i t2 :
  run_calls syncs f tr → tr = t1 ++ Done i false :: t2 →
  ∃ t3, t2 = Callback f false :: t3 ∧
        callbacks t1 = [] ∧ callbacks t3 = [] ∧ starts t3 = [].
Proof.
  assert (Hnot : ∀ k, Done i false ∉ started_upto k).
  { by intros k [(j & [=] & _)|(j & [=] & _)]%elem_of_started_upto. }
  intros (k & Hk & [->|(e & m & He & ->)]) E.
  - exfalso. apply (Hnot k). rewrite E. apply elem_of_app. right. left.
  - destruct (app_split_r _ _ _ _ _ E (Hnot k)) as (ta & Ea & ->).
    destruct (app_split_l _ _ _ _ _ Ea) as (tb & Eb & ->).
    { by intros [[=] _]%elem_of_replicate. }
    exists (replicate m (Stop k)).
    rewrite callbacks_app, callbacks_started_upto, callbacks_stops, starts_stops.
    destruct He; destruct ta as [|? [|? [|? [|? ?]]]]; simpl in Eb; simplify_eq; done.
Qed.

Lemma run_calls_last tr t1 t2 :
  run_calls syncs f tr → tr = t1 ++ Done (n - 1) true :: t2 →
  ∃ t3, t2 = Callback f true :: t3.
Proof.
  intros (k & Hk & [->|(e & m & He & ->)]) E.
  - exfalso. assert (Hin : Done (n - 1) true ∈ started_upto k).
    { rewrite E. apply elem_of_app. right. left. }
    apply elem_of_started_upto in Hin as [(j & [=] & _)|(j & [= <-] & ?)]. lia.
  - destruct (app_split_r _ _ _ _ _ E) as (ta & Ea & ->).
    { intros [(j & [=] & _)|(j & [= <-] & ?)]%elem_of_started_upto. lia. }
    destruct (app_split_l _ _ _ _ _ Ea) as (tb & Eb & ->).
    { by intros [[=] _]%elem_of_replicate. }
    destruct He; destruct ta as [|? [|? [|? [|? ?]]]]; simpl in Eb; simplify_eq.
    by eexists.
Qed.

(** When an animation runs, it is [animations[current]], the sequence has
    not ended, and [stop()] stops it. *)
Lemma running_is_current fuel s tr i sync_i :
  n ≤ fuel → alive syncs f s tr ∨ dead syncs f s tr →
  seq_animations s !! i = Some (mkAnimation sync_i Running) →
  i = current s ∧
  ∃ s', sequence_stop fuel s = Some (s', [Stop i; Done i false; Callback f false]).
Proof.
  intros Hfuel [Ha|(_ & [ended Hs] & _)] Hi.
  - assert (i = current s) as ->.
    { destruct Ha as (_ & _ & Hs & _).
      destruct (syncs !! i) as [sy|] eqn:Hsi.
      - rewrite (shaped_lookup _ _ _ _ _ Hs Hsi) in Hi. injection Hi as _ Hi.
        by apply status_at_running in Hi.
      - by rewrite (shaped_lookup_None _ _ _ _ Hs Hsi) in Hi. }
    split; [done|].
    destruct (step_alive fuel s tr EvStop Hfuel Ha) as (s' & out & Hstep & _).
    cbn [sequence_step] in Hstep. exists s'. rewrite Hstep. do 2 f_equal.
    revert Hstep. unfold sequence_stop. destruct Ha as (Hcb & Hk & Hs & _).
    rewrite (shaped_length _ _ _ Hs). unfold n.
    rewrite (proj2 (Nat.ltb_lt _ _) Hk), Hi.
    cbn [mbind option_bind]. unfold animation_stop, report. cbn [state sync].
    destruct fuel as [|fuel]; [unfold n in *; lia|]. rewrite onComplete_false.
    cbn [mbind option_bind seq_callback call_callback current]. rewrite Hcb.
    by intros [= _ <-].
  - exfalso. destruct (syncs !! i) as [sy|] eqn:Hsi.
    + rewrite (shaped_lookup _ _ _ _ _ Hs Hsi) in Hi. injection Hi as _ Hi.
      by apply status_at_not_running in Hi.
    + by rewrite (shaped_lookup_None _ _ _ _ Hs Hsi) in Hi.
Qed.

End SequenceFacts.

Section SequenceNext.
Import Composite.
Variable syncs : list (option bool).
Variable f : fn.

(** In [started_upto k] every [Done i true] comes right before
    [Start (S i)]. *)
Lemma started_upto_next k t1 i t2 :
  started_upto k = t1 ++ Done i true :: t2 → ∃ t3, t2 = Start (S i) :: t3.
Proof.
  revert t1 t2. induction k as [|k IH]; intros t1 t2; cbn [started_upto].
  - intros E. destruct t1 as [|? [|? ?]]; simplify_eq.
  - intros E. destruct (decide (i = k)) as [->|Hne].
    + destruct (app_split_r _ _ _ _ _ E) as (t1' & E' & ->).
      { intros Hin. apply (elem_of_started_upto syncs) in Hin as [(j & Hj & _)|(j & Hj & Hlt)];
          simplify_eq. lia. }
      destruct t1' as [|? [|? [|? ?]]]; simpl in E'; simplify_eq.
      by exists [].
    + destruct (app_split_l _ _ _ _ _ E) as (t2' & E' & ->).
      { intros [[= ?]|[[=]|[]%elem_of_nil]%elem_of_cons]%elem_of_cons. done. }
      destruct (IH _ _ E') as [t3 ->]. by eexists.
Qed.

Lemma not_Done_true_stops m k i : Done i true ∉ replicate m (Stop k).
Proof. by intros [[=] _]%elem_of_replicate. Qed.

(** In a run of a sequence, a report of [true] by an animation that is not
    the last one is followed at once by the start of the next one. *)
Lemma run_calls_next tr t1 i t2 :
  run_calls syncs f tr → tr = t1 ++ Done i true :: t2 → S i < length syncs →
  ∃ t3, t2 = Start (S i) :: t3.
Proof.
  intros (k & Hk & [->|(e & m & He & ->)]) E Hi.
  - by eapply started_upto_next.
  - rewrite app_assoc in E.
    destruct (app_split_l _ _ _ _ _ E) as (ta & Ea & ->).
    { by intros [[=] _]%elem_of_replicate. }
    assert (Hne : Done i true ∉ e).
    { destruct He as [| |Hlast]; intros Hin;
        repeat (apply elem_of_cons in Hin as [Hin|Hin]; [simplify_eq|]);
        try (by apply elem_of_nil in Hin). lia. }
    destruct (app_split_l _ _ _ _ _ Ea Hne) as (tb & Eb & ->).
    destruct (started_upto_next _ _ _ _ Eb) as [t3 ->]. by eexists.
Qed.

(** In a run of a sequence, the callback is called right after a report,
    with the flag of that report, and with [true] only after the report of
    the last animation. *)
Lemma run_calls_callback tr t1 g b t2 :
  run_calls syncs f tr → tr = t1 ++ Callback g b :: t2 →
  g = f ∧ ∃ t0 i, t1 = t0 ++ [Done i b] ∧ (b = true → S i = length syncs).
Proof.
  assert (Hnot : ∀ k, Callback g b ∉ started_upto k).
  { intros k Hin; apply (elem_of_started_upto syncs) in Hin as [(j & Hj & _)|(j & Hj & _)]; simplify_eq. }
  intros (k & Hk & [->|(e & m & He & ->)]) E.
  - exfalso. apply (Hnot k). rewrite E. apply elem_of_app. right. left.
  - destruct (app_split_r _ _ _ _ _ E (Hnot k)) as (ta & Ea & ->).
    destruct (app_split_l _ _ _ _ _ Ea) as (tb & Eb & ->).
    { by intros [[=] _]%elem_of_replicate. }
    destruct He as [| |Hlast]; destruct ta as [|? [|? [|? [|? ?]]]];
      simpl in Eb; simplify_eq; (split; [done|]).
    + exists (started_upto k), k. done.
    + exists (started_upto k ++ [Stop k]), k. by rewrite <- app_assoc.
    + exists (started_upto k), k. done.
Qed.

End SequenceNext.

Section SequenceClaim.
Import Composite.

(** C7. [sequence(animations).start(callback)] followed by any calls of
    [stop()] and completions of running animations (with enough fuel for
    the nesting of the calls, which the number of animations bounds):
    - the animations are started in the order 0, 1, 2, ..., the first at
      once, and each later one right after its predecessor reported [true];
      a report of [true] by an animation that is not the last one is
      followed at once by the start of the next one;
    - when an animation reports [false], the callback is called with
      [false] right then, it is called neither before nor after that, and
      no animation is started afterwards;
    - when the last animation reports [true], the callback is called with
      [true]; the callback is called at most once in all, right after a
      report and with its flag, and with [true] only after the report of
      the last animation;
    - an empty sequence calls the callback with [true] in [start] and
      nothing else ever;
    - whenever an animation runs, it is [animations[current]], and [stop()]
      calls its [stop()] (upon which it reports [false]);
    - in all, the calls of a sequence that is not empty are: the start of
      animation 0, then for each animation in turn its report of [true]
      and the start of the next one, up to some animation [k]; and, when
      the sequence has ended, the end ([k] reports [false], by itself or
      upon a [stop()] of the sequence, or [k] is the last animation and
      reports [true]; then the callback with that flag) and after it
      nothing but calls of [stop()] on animation [k] ([run_calls]). *)
Theorem sequence_runs_in_order
  (syncs : list (option bool)) (f : fn) (events : list event) (fuel : nat) :
  length syncs ≤ fuel →
  ∃ s tr,
    sequence_run fuel syncs (Some f) events = Some (s, tr) ∧
    starts tr = seq 0 (length (starts tr)) ∧
    (syncs ≠ [] → ∃ tr', tr = Start 0 :: tr') ∧
    (∀ t1 i t2, tr = t1 ++ Start (S i) :: t2 → ∃ t0, t1 = t0 ++ [Done i true]) ∧
    (∀ t1 i t2, tr = t1 ++ Done i false :: t2 →
       ∃ t3, t2 = Callback f false :: t3 ∧
             callbacks t1 = [] ∧ callbacks t3 = [] ∧ starts t3 = []) ∧
    (∀ t1 t2, tr = t1 ++ Done (length syncs - 1) true :: t2 →
       ∃ t3, t2 = Callback f true :: t3) ∧
    length (callbacks tr) ≤ 1 ∧
    (syncs = [] → tr = [Callback f true]) ∧
    (∀ i sync_i,
       seq_animations s !! i = Some (mkAnimation sync_i Running) →
       i = current s ∧
       ∃ s', sequence_stop fuel s
             = Some (s', [Stop i; Done i false; Callback f false])) ∧
    (∀ t1 i t2, tr = t1 ++ Done i true :: t2 → S i < length syncs →
       ∃ t3, t2 = Start (S i) :: t3) ∧
    (syncs ≠ [] →
     ∀ t1 g b t2, tr = t1 ++ Callback g b :: t2 →
       g = f ∧ ∃ t0 i, t1 = t0 ++ [Done i b] ∧ (b = true → S i = length syncs)) ∧
    (syncs ≠ [] → run_calls syncs f tr).
Proof.
  intros Hfuel. destruct (decide (syncs = [])) as [->|Hne].
  - assert (Hev : ∀ s, seq_animations s = [] →
              sequence_events fuel s events = Some (s, [])).
    { induction events as [|e events IH]; intros s Hs; [done|].
      cbn [sequence_events].
      assert (sequence_step fuel s e = Some (s, [])) as ->.
      { destruct e as [|i b]; cbn [sequence_step].
        - unfold sequence_stop. rewrite Hs. cbn [length]. by destruct (current s).
        - unfold sequence_finish. by rewrite Hs. }
      cbn [mbind option_bind]. by rewrite IH. }
    unfold sequence_run, sequence_start, sequence_new. cbn.
    rewrite Hev by done. cbn. eexists _, _. split; [done|].
    split_and!; try done.
    + intros t1 i t2 E. destruct t1 as [|? [|? ?]]; simplify_eq.
    + intros t1 i t2 E. destruct t1 as [|? [|? ?]]; simplify_eq.
    + intros t1 t2 E. destruct t1 as [|? [|? ?]]; simplify_eq.
    + intros t1 i t2 E. destruct t1 as [|? [|? ?]]; simplify_eq.
  - assert (Hn : length syncs ≠ 0) by by destruct syncs.
    destruct (sequence_run_spec syncs f fuel events Hfuel Hn) as (s & tr & Hrun & Hinv).
    exists s, tr. split; [done|].
    pose proof (run_calls_of syncs f s tr Hinv) as Hcalls.
    destruct (run_calls_starts syncs f tr Hcalls) as [Hst Hhd].
    split_and!; try done.
    + intros. by eapply run_calls_order.
    + intros. by eapply run_calls_abort.
    + intros. by eapply run_calls_last.
    + by eapply run_calls_callbacks.
    + intros i sync_i Hi. by eapply running_is_current.
    + intros. by eapply run_calls_next.
    + intros _ t1 g b t2 E. by eapply run_calls_callback.
Qed.

Lemma sequence_runs_in_order_witness :
  ∃ s tr,
    sequence_run 3 [Some true; None; None] (Some 1)
      [EvFinish 1 true; EvStop; EvStop] = Some (s, tr) ∧
    tr = [Start 0; Done 0 true; Start 1; Done 1 true; Start 2;
          Stop 2; Done 2 false; Callback 1 false; Stop 2] ∧
    length (callbacks tr) ≤ 1.
Proof.
  destruct (sequence_runs_in_order [Some true; None; None] 1
              [EvFinish 1 true; EvStop; EvStop] 3) as (s & tr & Hrun & H); [simpl; lia|].
  exists s, tr. split; [done|]. split; [|apply H].
  vm_compute in Hrun. by injection Hrun as _ <-.
Defined.

End SequenceClaim.

(** ** parallel *)

Section ParallelFacts.
Import Composite.
Variable syncs : list (option bool).
Variable f : fn.
Let n := length syncs.

Lemma dones_app t1 t2 : dones (t1 ++ t2) = dones t1 ++ dones t2.
Proof. apply omap_app. Qed.

Lemma stops_app t1 t2 : stops (t1 ++ t2) = stops t1 ++ stops t2.
Proof. apply omap_app. Qed.

Lemma not_Done_in out j b : dones out = [] → Done j b ∉ out.
Proof.
  intros Hd Hin. assert (j ∈ dones out) as Hj; [|by rewrite Hd in Hj; apply elem_of_nil in Hj].
  apply list_elem_of_omap. by exists (Done j b).
Qed.


Lemma par_inv_length s tr : par_inv syncs f s tr → length (par_animations s) = n.
Proof. unfold n. intros (_ & <- & _). by rewrite length_fmap. Qed.

Lemma par_inv_sync s tr i a :
  par_inv syncs f s tr → par_animations s !! i = Some a → syncs !! i = Some (sync a).
Proof. intros (_ & <- & _) Hi. by rewrite list_lookup_fmap, Hi. Qed.

Lemma par_inv_le s tr : par_inv syncs f s tr → doneCount s ≤ n.
Proof.
  intros (_ & _ & -> & Hnd & Hlt & _).
  assert (Hsub : dones tr ⊆+ seq 0 n).
  { apply NoDup_submseteq; [done|]. intros i Hi. apply elem_of_seq.
    specialize (Hlt i Hi). unfold n. lia. }
  apply submseteq_length in Hsub. by rewrite length_seq in Hsub.
Qed.

(** Calls that are neither reports nor the callback change nothing. *)
Lemma par_inv_app s tr out :
  par_inv syncs f s tr → dones out = [] → callbacks out = [] →
  par_inv syncs f s (tr ++ out).
Proof.
  intros (H1 & H2 & H3 & H4 & H5 & H6 & H7 & H8 & H9) Hd Hc.
  unfold par_inv. rewrite dones_app, callbacks_app, Hd, Hc, !app_nil_r.
  split_and!; try done.
  - intros Hn. destruct (H8 Hn) as (t0 & j & b & rest & -> & ? & ? & ?).
    exists t0, j, b, (rest ++ out). rewrite <- !app_assoc.
    split_and!; try done.
    + by rewrite callbacks_app, Hc, app_nil_r.
    + by rewrite dones_app, Hd, app_nil_r.
  - intros Hs t1 j t2 E.
    destruct (app_split_l _ _ _ _ _ E (not_Done_in _ _ _ Hd)) as (t2' & E' & _).
    by eapply H9.
Qed.

(** Setting [hasBeenStopped], or changing an animation that has not ended
    into one that has not ended, keeps the invariant. *)
Lemma par_inv_stopped s tr :
  par_inv syncs f s tr →
  par_inv syncs f (mkParallel (par_animations s) (doneCount s) true (par_callback s)) tr.
Proof.
  intros (H1 & H2 & H3 & H4 & H5 & H6 & H7 & H8 & H9).
  unfold par_inv. cbn [par_callback par_animations doneCount hasBeenStopped].
  split_and!; done.
Qed.

Lemma par_inv_set s tr i a st :
  par_inv syncs f s tr → par_animations s !! i = Some a →
  state a ≠ Ended → st ≠ Ended →
  par_inv syncs f (set_animation s i (mkAnimation (sync a) st)) tr.
Proof.
  intros (H1 & H2 & H3 & H4 & H5 & H6 & H7 & H8 & H9) Hi Ha Hst.
  unfold par_inv, set_animation.
  cbn [par_callback par_animations doneCount hasBeenStopped].
  split_and!; try done.
  - rewrite list_fmap_insert. cbn [sync]. rewrite list_insert_id; [done|].
    by rewrite list_lookup_fmap, Hi.
  - intros i' a' Hi'. destruct (decide (i' = i)) as [->|Hne].
    + rewrite list_lookup_insert_eq in Hi' by by eapply lookup_lt_Some.
      injection Hi' as <-. cbn [state]. rewrite <- (H6 i a Hi). tauto.
    + rewrite list_lookup_insert_ne in Hi' by done. by apply H6.
Qed.

Lemma app_eq_split {A} (l1 l2 t1 t2 : list A) x :
  l1 ++ l2 = t1 ++ x :: t2 →
  (∃ t2', l1 = t1 ++ x :: t2' ∧ t2 = t2' ++ l2) ∨
  (∃ t1', l2 = t1' ++ x :: t2 ∧ t1 = l1 ++ t1').
Proof.
  revert t1. induction l1 as [|a l1 IH]; intros t1 E; simpl in E.
  - right. by exists t1.
  - destruct t1 as [|b t1]; simpl in E; injection E as -> E.
    + left. exists l1. by subst.
    + destruct (IH _ E) as [(t2' & -> & ->)|(t1' & -> & ->)].
      * left. by exists t2'.
      * right. by exists t1'.
Qed.

(** The rule of the loop [animations.forEach(body)]. *)
Lemma forEach_rule (body : parallel → nat → option (parallel * list call))
  (I : nat → parallel → list call → Prop) m s :
  I 0 s [] →
  (∀ idx s1 out1, idx < m → I idx s1 out1 →
     ∃ s2 out2, body s1 idx = Some (s2, out2) ∧ I (S idx) s2 (out1 ++ out2)) →
  ∃ s' out, forEach m body s = Some (s', out) ∧ I m s' out.
Proof.
  intros H0 Hstep. unfold forEach.
  assert (Hgen : ∀ len start s1 out1,
            start + len = m → I start s1 out1 →
            ∃ s' out,
              foldl (fun acc idx =>
                       '(s1, out1) ← acc;
                       '(s2, out2) ← body s1 idx;
                       Some (s2, out1 ++ out2))
                    (Some (s1, out1)) (seq start len) = Some (s', out) ∧
              I m s' out).
  { induction len as [|len IH]; intros start s1 out1 Hm HI.
    - simpl. exists s1, out1. split; [done|].
      by replace m with start by lia.
    - cbn [seq foldl].
      destruct (Hstep start s1 out1) as (s2 & out2 & Hb & HI2); [lia | done |].
      cbn [mbind option_bind]. rewrite Hb. cbn [mbind option_bind].
      apply IH; [lia | done]. }
  by apply (Hgen m 0).
Qed.

Lemma handler_done fuel s b :
  S (doneCount s) = length (par_animations s) →
  handler (S fuel) s b
  = Some (mkParallel (par_animations s) (S (doneCount s)) (hasBeenStopped s)
            (par_callback s),
          call_callback (par_callback s) b).
Proof.
  intros E. cbn [handler doneCount par_animations par_callback].
  by rewrite E, Nat.eqb_refl.
Qed.

Lemma handler_quiet fuel s b :
  S (doneCount s) ≠ length (par_animations s) →
  b = true ∨ hasBeenStopped s = true →
  handler (S fuel) s b
  = Some (mkParallel (par_animations s) (S (doneCount s)) (hasBeenStopped s)
            (par_callback s), []).
Proof.
  intros E Hb. cbn [handler doneCount par_animations par_callback hasBeenStopped].
  rewrite (proj2 (Nat.eqb_neq _ _) E).
  by destruct Hb as [-> | ->]; rewrite ?andb_false_r.
Qed.

Lemma handler_stops fuel s :
  S (doneCount s) ≠ length (par_animations s) →
  hasBeenStopped s = false →
  handler (S fuel) s false
  = parallel_stop fuel
      (mkParallel (par_animations s) (S (doneCount s)) false (par_callback s)).
Proof.
  intros E Hb. cbn [handler doneCount par_animations par_callback hasBeenStopped].
  by rewrite (proj2 (Nat.eqb_neq _ _) E), Hb.
Qed.

Lemma parallel_stop_S fuel s :
  parallel_stop (S fuel) s
  = forEach (length (par_animations s)) (stop_one (handler fuel))
      (mkParallel (par_animations s) (doneCount s) true (par_callback s)).
Proof. reflexivity. Qed.

(** Animation [j], which had not ended, reports [b]: the invariant after
    the report is counted (and the callback called, if it was the last). *)
Lemma report_inv s0 tr0 j a b hs :
  par_inv syncs f s0 tr0 →
  par_animations s0 !! j = Some a → state a ≠ Ended →
  hs = hasBeenStopped s0 ∨ hs = true →
  b = true ∨ hs = true ∨ S (doneCount s0) = n →
  par_inv syncs f
    (mkParallel (<[j := mkAnimation (sync a) Ended]> (par_animations s0))
       (S (doneCount s0)) hs (par_callback s0))
    (tr0 ++ Done j b
         :: if decide (S (doneCount s0) = n) then [Callback f b] else []).
Proof.
  intros Hinv Hj Ha Hhs Hb.
  pose proof (par_inv_le _ _ Hinv) as Hle.
  pose proof (par_inv_length _ _ Hinv) as Hlen.
  destruct Hinv as (H1 & H2 & H3 & H4 & H5 & H6 & H7 & H8 & H9).
  assert (Hjn : j ∉ dones tr0) by (by rewrite <- (H6 j a Hj)).
  assert (Hjlt : j < length syncs).
  { fold n. rewrite <- Hlen. by eapply lookup_lt_Some. }
  set (X := if decide (S (doneCount s0) = n) then [Callback f b] else []).
  assert (HdX : dones X = []) by (unfold X; by case_decide).
  assert (Hd : dones (tr0 ++ Done j b :: X) = dones tr0 ++ [j]).
  { change (Done j b :: X) with ([Done j b] ++ X).
    rewrite !dones_app, HdX, app_nil_r. done. }
  unfold par_inv. cbn [par_callback par_animations doneCount hasBeenStopped].
  rewrite Hd. split_and!.
  - done.
  - rewrite list_fmap_insert. cbn [sync]. rewrite list_insert_id; [done|].
    by rewrite list_lookup_fmap, Hj.
  - rewrite length_app. cbn [length]. lia.
  - apply NoDup_app. split_and!; [done| |apply NoDup_singleton].
    by intros i Hi ->%list_elem_of_singleton.
  - intros i [Hi| ->%list_elem_of_singleton]%elem_of_app; [by apply H5 | done].
  - intros i a' Hi. rewrite elem_of_app, list_elem_of_singleton.
    destruct (decide (i = j)) as [->|Hne].
    + rewrite list_lookup_insert_eq in Hi by by eapply lookup_lt_Some.
      injection Hi as <-. cbn [state]. tauto.
    + rewrite list_lookup_insert_ne in Hi by done. rewrite (H6 i a' Hi). tauto.
  - intros Hlt. unfold X. rewrite decide_False by (unfold n; lia).
    rewrite callbacks_app. cbn [callbacks omap]. rewrite app_nil_r.
    apply H7. lia.
  - intros Heq. unfold X. rewrite decide_True by done.
    exists tr0, j, b, []. split_and!; try done. apply H7. lia.
  - intros -> t1 j' t2 E.
    destruct Hhs as [Hhs|?]; [|done]. symmetry in Hhs.
    destruct (app_eq_split _ _ _ _ _ E) as [(t2' & E' & _)|(t1' & E' & ->)].
    + by eapply H9.
    + destruct t1' as [|c t1']; simpl in E'.
      * injection E' as -> -> _. destruct Hb as [?|[?|Hb]]; try done.
        rewrite app_nil_r. unfold n in Hb. lia.
      * exfalso. injection E' as _ E2. unfold X in E2.
        case_decide; [|by destruct t1'].
        destruct t1' as [|? [|? ?]]; simplify_eq.
Qed.

Lemma starts_Start i l : starts (Start i :: l) = i :: starts l.
Proof. done. Qed.
Lemma starts_Done i b l : starts (Done i b :: l) = starts l.
Proof. done. Qed.
Lemma stops_Start i l : stops (Start i :: l) = stops l.
Proof. done. Qed.
Lemma stops_Done i b l : stops (Done i b :: l) = stops l.
Proof. done. Qed.

Lemma starts_callback_or_nil (b : bool) (c : bool) :
  starts (if c then [Callback f b] else []) = [] ∧
  stops (if c then [Callback f b] else []) = [].
Proof. by destruct c. Qed.

(** The loop of [stop()], once [hasBeenStopped] is set: every animation is
    stopped once, in order; those that ran report [false]. *)
Lemma stop_loop fuel s tr :
  par_inv syncs f s tr → hasBeenStopped s = true → 1 ≤ fuel →
  ∃ s' out,
    forEach n (stop_one (handler fuel)) s = Some (s', out) ∧
    par_inv syncs f s' (tr ++ out) ∧ hasBeenStopped s' = true ∧
    keeps_idle s s' ∧ starts out = [] ∧ stops out = seq 0 n.
Proof.
  intros Hinv Hhs Hfuel. destruct fuel as [|fuel]; [lia|].
  destruct (forEach_rule (stop_one (handler (S fuel)))
              (fun idx s1 out1 =>
                 par_inv syncs f s1 (tr ++ out1) ∧ hasBeenStopped s1 = true ∧
                 keeps_idle s s1 ∧ starts out1 = [] ∧ stops out1 = seq 0 idx)
              n s) as (s' & out & Hrun & HI).
  - rewrite app_nil_r. split_and!; try done. by intros i a Hi _.
  - intros idx s1 out1 Hidx (Hinv1 & Hhs1 & Hidle & Hst & Hsp).
    pose proof (par_inv_length _ _ Hinv1) as Hlen.
    destruct (lookup_lt_is_Some_2 (par_animations s1) idx) as [[sy st] Ha]; [lia|].
    unfold stop_one. rewrite Ha. cbn [mbind option_bind].
    unfold animation_stop. cbn [state sync].
    assert (Hquiet : st ≠ Running →
      ∃ s2 out2,
        (let '(a', reported) := (mkAnimation sy st, false) in
         let s0 := set_animation s1 idx a' in
         if reported
         then '(s2, cs) ← handler (S fuel) s0 false;
              Some (s2, Stop idx :: Done idx false :: cs)
         else Some (s0, [Stop idx])) = Some (s2, out2) ∧
        par_inv syncs f s2 (tr ++ out1 ++ out2) ∧ hasBeenStopped s2 = true ∧
        keeps_idle s s2 ∧ starts (out1 ++ out2) = [] ∧
        stops (out1 ++ out2) = seq 0 (S idx)).
    { intros _. eexists _, _. split; [done|].
      assert (set_animation s1 idx (mkAnimation sy st) = s1) as ->.
      { destruct s1. unfold set_animation. cbn in *. by rewrite list_insert_id. }
      rewrite starts_app, stops_app, Hst, Hsp, seq_S. split_and!; try done.
      rewrite app_assoc. by apply par_inv_app. }
    destruct st; [by apply Hquiet | | by apply Hquiet].
    assert (Hinv2 : par_inv syncs f s1 ((tr ++ out1) ++ [Stop idx]))
      by by apply par_inv_app.
    pose proof (report_inv s1 _ idx (mkAnimation sy Running) false true
                  Hinv2 Ha ltac:(done) ltac:(by right) ltac:(by right; left)) as Hinv3.
    cbn [sync] in Hinv3.
    assert (handler (S fuel) (set_animation s1 idx (mkAnimation sy Ended)) false
            = Some (mkParallel (<[idx := mkAnimation sy Ended]> (par_animations s1))
                      (S (doneCount s1)) true (par_callback s1),
                    if decide (S (doneCount s1) = n) then [Callback f false] else []))
      as ->.
    { destruct Hinv1 as (Hcb & _). case_decide as Hd.
      - rewrite handler_done;
          cbn [set_animation par_animations doneCount hasBeenStopped par_callback].
        + by rewrite Hhs1, Hcb.
        + rewrite length_insert. lia.
      - rewrite handler_quiet;
          cbn [set_animation par_animations doneCount hasBeenStopped par_callback].
        + by rewrite Hhs1.
        + rewrite length_insert. lia.
        + by right. }
    cbn [mbind option_bind]. eexists _, _. split; [done|].
    destruct (starts_callback_or_nil false (bool_decide (S (doneCount s1) = n)))
      as [HX1 HX2].
    split_and!.
    + rewrite <- !app_assoc in Hinv3. exact Hinv3.
    + done.
    + intros i a Hi Hidle_a. specialize (Hidle i a Hi Hidle_a).
      cbn [par_animations]. rewrite list_lookup_insert_ne; [done|].
      intros ->. rewrite Ha in Hidle. injection Hidle as <-. done.
    + rewrite starts_app, Hst. cbn [app starts omap]. by case_decide.
    + rewrite stops_app, Hsp, seq_S. cbn [stops omap]. by case_decide.
  - exists s', out. by destruct HI as (? & ? & ? & ? & ?).
Qed.

(** [stop()]. *)
Lemma parallel_stop_spec fuel s tr :
  par_inv syncs f s tr → 2 ≤ fuel →
  ∃ s' out,
    parallel_stop fuel s = Some (s', out) ∧
    par_inv syncs f s' (tr ++ out) ∧ hasBeenStopped s' = true ∧
    keeps_idle s s' ∧ starts out = [] ∧ stops out = seq 0 n.
Proof.
  intros Hinv Hfuel. destruct fuel as [|fuel]; [lia|].
  rewrite parallel_stop_S, (par_inv_length _ _ Hinv).
  destruct (stop_loop fuel _ tr (par_inv_stopped _ _ Hinv)) as (s' & out & H);
    [done | lia |].
  exists s', out. done.
Qed.

(** Animation [j], which had not ended, reports [b] to the handler. *)
Lemma report_spec fuel s0 tr0 j a b :
  par_inv syncs f s0 tr0 →
  par_animations s0 !! j = Some a → state a ≠ Ended → 3 ≤ fuel →
  ∃ s' out,
    handler fuel (set_animation s0 j (mkAnimation (sync a) Ended)) b = Some (s', out) ∧
    par_inv syncs f s' (tr0 ++ Done j b :: out) ∧
    (∀ i a0, par_animations s0 !! i = Some a0 → state a0 = Idle → i ≠ j →
             par_animations s' !! i = Some a0) ∧
    starts out = [] ∧
    ((hasBeenStopped s' = hasBeenStopped s0 ∧ stops out = []) ∨
     (hasBeenStopped s0 = false ∧ hasBeenStopped s' = true ∧ stops out = seq 0 n)).
Proof.
  intros Hinv Hj Ha Hfuel. destruct fuel as [|fuel]; [lia|].
  pose proof (par_inv_length _ _ Hinv) as Hlen.
  assert (Hcb : par_callback s0 = Some f) by apply Hinv.
  assert (Hframe : ∀ i a0, par_animations s0 !! i = Some a0 → state a0 = Idle → i ≠ j →
            <[j := mkAnimation (sync a) Ended]> (par_animations s0) !! i = Some a0).
  { intros i a0 Hi _ Hne. by rewrite list_lookup_insert_ne. }
  destruct (decide (S (doneCount s0) = n)) as [Hd|Hd].
  - rewrite handler_done by
      (cbn [set_animation par_animations doneCount]; rewrite length_insert; lia).
    cbn [set_animation par_animations doneCount hasBeenStopped par_callback].
    rewrite Hcb. eexists _, _. split; [done|].
    pose proof (report_inv s0 tr0 j a b (hasBeenStopped s0) Hinv Hj Ha
                  ltac:(by left) ltac:(by right; right)) as Hinv'.
    rewrite decide_True in Hinv' by done. rewrite Hcb in Hinv'.
    split_and!; try done. by left.
  - destruct (decide (b = true ∨ hasBeenStopped s0 = true)) as [Hb|Hb].
    + rewrite handler_quiet;
        cbn [set_animation par_animations doneCount hasBeenStopped par_callback];
        [| rewrite length_insert; lia | done].
      eexists _, _. split; [done|].
      pose proof (report_inv s0 tr0 j a b (hasBeenStopped s0) Hinv Hj Ha
                    ltac:(by left) ltac:(tauto)) as Hinv'.
      rewrite decide_False in Hinv' by done.
      split_and!; try done. by left.
    + assert (b = false ∧ hasBeenStopped s0 = false) as [-> Hhs].
      { destruct b, (hasBeenStopped s0); tauto. }
      rewrite handler_stops;
        cbn [set_animation par_animations doneCount hasBeenStopped par_callback];
        [| rewrite length_insert; lia | done].
      destruct fuel as [|fuel]; [lia|]. rewrite parallel_stop_S.
      cbn [par_animations doneCount hasBeenStopped par_callback].
      rewrite length_insert, Hlen.
      pose proof (report_inv s0 tr0 j a false true Hinv Hj Ha
                    ltac:(by right) ltac:(by right; left)) as Hinv'.
      rewrite decide_False in Hinv' by done.
      destruct (stop_loop fuel _ _ Hinv') as (s' & out & -> & Hinv2 & Hhs2 & Hidle & Hst & Hsp);
        [done | lia |].
      exists s', out. split; [done|]. split_and!.
      * rewrite <- app_assoc in Hinv2. exact Hinv2.
      * intros i a0 Hi Ha0 Hne. apply Hidle; [|done]. by apply Hframe.
      * done.
      * right. done.
Qed.

Lemma par_inv_new :
  n ≠ 0 → par_inv syncs f (mkParallel (fresh <$> syncs) 0 false (Some f)) [].
Proof.
  intros Hn. unfold par_inv.
  cbn [par_callback par_animations doneCount hasBeenStopped dones callbacks omap length].
  split_and!; try done.
  - rewrite <- list_fmap_compose. by apply list_fmap_id.
  - apply NoDup_nil_2.
  - by intros i ?%elem_of_nil.
  - intros i a Hi. rewrite list_lookup_fmap in Hi.
    destruct (syncs !! i); [|done]. injection Hi as <-. cbn [fresh state].
    split; [done | by intros ?%elem_of_nil].
  - intros _ t1 j t2 E. by destruct t1.
Qed.

(** The loop of [start]: every animation is started, in order. *)
Lemma start_loop fuel :
  n ≠ 0 → 3 ≤ fuel →
  ∃ s' out,
    forEach n (start_one fuel) (mkParallel (fresh <$> syncs) 0 false (Some f))
    = Some (s', out) ∧
    par_run_inv syncs f false s' out.
Proof.
  intros Hn Hfuel.
  destruct (forEach_rule (start_one fuel)
              (fun idx s1 out1 =>
                 par_inv syncs f s1 out1 ∧ starts out1 = seq 0 idx ∧
                 (∀ i a, idx ≤ i → par_animations s1 !! i = Some a → state a = Idle) ∧
                 stops out1 = if hasBeenStopped s1 then seq 0 n else [])
              n (mkParallel (fresh <$> syncs) 0 false (Some f)))
    as (s' & out & Hrun & HI).
  - split_and!; try done; [by apply par_inv_new|].
    intros i a _ Hi. cbn [par_animations] in Hi. rewrite list_lookup_fmap in Hi.
    destruct (syncs !! i); [|done]. by injection Hi as <-.
  - intros idx s1 out1 Hidx (Hinv1 & Hst & Hidle & Hsp).
    pose proof (par_inv_length _ _ Hinv1) as Hlen.
    destruct (lookup_lt_is_Some_2 (par_animations s1) idx) as [[sy st] Ha]; [lia|].
    pose proof (Hidle idx _ ltac:(lia) Ha) as Hst_idle. cbn [state] in Hst_idle. subst st.
    unfold start_one. rewrite Ha. cbn [mbind option_bind].
    unfold animation_start. cbn [state sync].
    assert (Hinv2 : par_inv syncs f s1 (out1 ++ [Start idx])) by by apply par_inv_app.
    destruct sy as [b|]; cbn [mbind option_bind].
    + destruct (report_spec fuel s1 _ idx (mkAnimation (Some b) Idle) b Hinv2 Ha
                  ltac:(done) Hfuel)
        as (s2 & out2 & Hh & Hinv3 & Hframe & Hst2 & Hacc).
      cbn [sync] in Hh. rewrite Hh. cbn [mbind option_bind].
      eexists _, _. split; [done|]. split_and!.
      * rewrite <- app_assoc in Hinv3. exact Hinv3.
      * by rewrite starts_app, Hst, seq_S, starts_Start, starts_Done, Hst2.
      * intros i a Hi Hia.
        destruct (lookup_lt_is_Some_2 (par_animations s1) i) as [a1 Ha1].
        { rewrite Hlen, <- (par_inv_length _ _ Hinv3). by eapply lookup_lt_Some. }
        pose proof (Hidle i a1 ltac:(lia) Ha1) as Hidle1.
        rewrite (Hframe i a1 Ha1 Hidle1 ltac:(lia)) in Hia. by injection Hia as <-.
      * rewrite stops_app, Hsp, stops_Start, stops_Done.
        destruct Hacc as [[-> ->]|(-> & -> & ->)]; by rewrite ?app_nil_r.
    + eexists _, _. split; [done|]. split_and!.
      * change (mkAnimation None Running)
          with (mkAnimation (sync (mkAnimation None Idle)) Running).
        by apply par_inv_set.
      * by rewrite starts_app, Hst, seq_S.
      * intros i a Hi Hia. cbn [set_animation par_animations] in Hia.
        rewrite list_lookup_insert_ne in Hia by lia. eapply Hidle; [|done]. lia.
      * rewrite stops_app, Hsp. cbn [set_animation hasBeenStopped]. by rewrite app_nil_r.
  - exists s', out. split; [done|]. destruct HI as (? & ? & _ & ?). done.
Qed.

Lemma step_spec fuel ext s tr e :
  3 ≤ fuel → par_run_inv syncs f ext s tr → (e = EvStop → ext = true) →
  ∃ s' out, parallel_step fuel s e = Some (s', out) ∧ par_run_inv syncs f ext s' (tr ++ out).
Proof.
  intros Hfuel (Hinv & Hst & Hsp) Hext. destruct e as [|i b]; cbn [parallel_step].
  - destruct (parallel_stop_spec fuel s tr Hinv) as (s' & out & -> & Hinv' & _ & _ & Hst' & _);
      [lia|].
    exists s', out. split; [done|]. split_and!; [done| |].
    + by rewrite starts_app, Hst, Hst', app_nil_r.
    + intros ->. by specialize (Hext eq_refl).
  - unfold parallel_finish.
    assert (Hsame : ∃ s' out, Some (s, []) = Some (s', out) ∧
                              par_run_inv syncs f ext s' (tr ++ out)).
    { eexists _, _. split; [done|]. by rewrite app_nil_r. }
    destruct (par_animations s !! i) as [[sy st]|] eqn:Hi; [|done].
    destruct st; try done.
    destruct (report_spec fuel s tr i (mkAnimation sy Running) b Hinv Hi
                ltac:(done) Hfuel) as (s2 & out2 & Hh & Hinv3 & _ & Hst2 & Hacc).
    cbn [sync] in Hh. rewrite Hh. cbn [mbind option_bind].
    eexists _, _. split; [done|]. split_and!; [done| |].
    + by rewrite starts_app, Hst, starts_Done, Hst2, app_nil_r.
    + intros Hx. rewrite stops_app, (Hsp Hx), stops_Done.
      destruct Hacc as [[-> ->]|(-> & -> & ->)]; by rewrite ?app_nil_r.
Qed.

Lemma events_spec fuel ext events : ∀ s tr,
  3 ≤ fuel → par_run_inv syncs f ext s tr → (EvStop ∈ events → ext = true) →
  ∃ s' out, parallel_events fuel s events = Some (s', out) ∧
            par_run_inv syncs f ext s' (tr ++ out).
Proof.
  induction events as [|e events IH]; intros s tr Hfuel Hinv Hext.
  - eexists _, _. split; [done|]. by rewrite app_nil_r.
  - cbn [parallel_events].
    destruct (step_spec fuel ext s tr e Hfuel Hinv) as (s1 & out1 & -> & Hinv1).
    { intros ->. apply Hext. left. }
    cbn [mbind option_bind].
    destruct (IH s1 _ Hfuel Hinv1) as (s2 & out2 & -> & Hinv2).
    { intros Hin. apply Hext. by right. }
    cbn [mbind option_bind]. eexists _, _. split; [done|]. by rewrite app_assoc.
Qed.

Lemma run_spec fuel ext events :
  n ≠ 0 → 3 ≤ fuel → (EvStop ∈ events → ext = true) →
  ∃ s tr, parallel_run fuel syncs (Some f) events = Some (s, tr) ∧
          par_run_inv syncs f ext s tr.
Proof.
  intros Hn Hfuel Hext. unfold parallel_run, parallel_start, parallel_new.
  cbn [par_animations doneCount hasBeenStopped par_callback].
  rewrite length_fmap. fold n. rewrite (proj2 (Nat.eqb_neq 0 n)) by lia.
  destruct (start_loop fuel Hn Hfuel) as (s1 & out1 & -> & Hinv1).
  cbn [mbind option_bind].
  destruct (events_spec fuel ext events s1 out1 Hfuel)
    as (s2 & out2 & -> & Hinv2).
  - destruct Hinv1 as (? & ? & ?). split_and!; try done.
    intros Hx. auto.
  - done.
  - cbn [mbind option_bind]. eauto.
Qed.



End ParallelFacts.

Section ParallelClaim.
Import Composite.



End ParallelClaim.

(** ** AnimatedWithChildren: missing children, round trips, replacing a child *)

Section WithChildrenMore.
Import WithChildren.

Lemma indexOf_app_fresh l x : x ∉ l → indexOf (l ++ [x]) x = Some (length l).
Proof.
  induction l as [|y l IH]; simpl; intros Hn.
  - by rewrite Nat.eqb_refl.
  - apply not_elem_of_cons in Hn as [Hne Hn].
    destruct (Nat.eqb_spec y x) as [->|_]; [done|]. by rewrite IH.
Qed.

Lemma indexOf_app_l l l' x i : indexOf l x = Some i → indexOf (l ++ l') x = Some i.
Proof.
  revert i; induction l as [|y l IH]; intros i; simpl; [done|].
  destruct (Nat.eqb y x); [done|].
  destruct (indexOf l x) as [j|]; simpl; [|done].
  intros [= <-]. by rewrite (IH j).
Qed.

Lemma delete_length_app {A} (l : list A) x : delete (length l) (l ++ [x]) = l.
Proof. induction l as [|y l IH]; simpl; [done|]. by rewrite IH. Qed.

Lemma delete_app_lt {A} (l l' : list A) i :
  i < length l → delete i (l ++ l') = delete i l ++ l'.
Proof.
  revert i; induction l as [|y l IH]; intros i Hi; simpl in *; [lia|].
  destruct i as [|i]; simpl; [done|]. rewrite IH; [done|lia].
Qed.

(** X1.  [removeChild] of a child that is not in the list is the only case in
    which the console warning is given, and then nothing else happens: the
    node is unchanged and [detach()] is not called.  A call for a child that
    is in the list never warns and shortens the list by one. *)
Theorem removeChild_missing_child (self : AnimatedWithChildren) (child : node_id) :
  (child ∉ _children self → removeChild self child = (self, [CallWarn])) ∧
  (child ∈ _children self →
   (CallWarn ∉ (removeChild self child).2) ∧
   S (length (_children (removeChild self child).1)) = length (_children self)).
Proof.
  unfold removeChild. split.
  - intros Hn. apply indexOf_None in Hn. by rewrite Hn.
  - intros Hin. destruct (indexOf (_children self) child) as [i|] eqn:Hi.
    + destruct (indexOf_Some _ _ _ Hi) as (l1 & l2 & E & _ & _ & D).
      simpl. rewrite D, E, !length_app. simpl. split; [|lia].
      destruct (length l1 + length l2 =? 0).
      * by intros [=]%list_elem_of_singleton.
      * apply not_elem_of_nil.
    + by apply indexOf_None in Hi.
Qed.

Lemma removeChild_missing_child_witness :
  removeChild (mkAWC [4; 9]) 7 = (mkAWC [4; 9], [CallWarn]) ∧
  ((CallWarn ∉ (removeChild (mkAWC [4; 9]) 9).2) ∧
   S (length (_children (removeChild (mkAWC [4; 9]) 9).1)) = 2).
Proof.
  split.
  - apply (proj1 (removeChild_missing_child (mkAWC [4; 9]) 7)).
    simpl. rewrite list_elem_of_In. simpl. intuition lia.
  - apply (proj2 (removeChild_missing_child (mkAWC [4; 9]) 9)).
    simpl. rewrite list_elem_of_In. simpl. intuition lia.
Defined.

(** X2.  Adding a child that is not in the list and removing it again gives
    the node back as it was; [attach()] and then [detach()] are called when
    the list was empty, and nothing is called otherwise. *)
Theorem addChild_removeChild_round_trip (self : AnimatedWithChildren) (child : node_id) :
  child ∉ _children self →
  run self [OpAdd child; OpRemove child]
  = (self, if decide (_children self = []) then [CallAttach; CallDetach] else []).
Proof.
  intros Hn. destruct self as [l]. simpl in *.
  unfold removeChild, addChild. simpl.
  rewrite (indexOf_app_fresh l child Hn), delete_length_app.
  destruct l; simpl; done.
Qed.

Lemma addChild_removeChild_round_trip_witness :
  run (mkAWC [4; 9]) [OpAdd 7; OpRemove 7] = (mkAWC [4; 9], []) ∧
  run constructor [OpAdd 7; OpRemove 7] = (constructor, [CallAttach; CallDetach]).
Proof.
  split.
  - apply (addChild_removeChild_round_trip (mkAWC [4; 9]) 7).
    simpl. rewrite list_elem_of_In. simpl. intuition lia.
  - apply (addChild_removeChild_round_trip constructor 7). apply not_elem_of_nil.
Defined.

(** X3.  Replacing a child [old] by a child [new], as [attachProps] does for
    the nodes a component reads: adding the new child first and removing the
    old one afterwards calls neither [attach()] nor [detach()], whereas
    removing first and adding afterwards calls [detach()] and then
    [attach()] when [old] was the only child.  Both orders end with the
    same child list. *)
Theorem replace_child_add_first (self : AnimatedWithChildren) (old new : node_id) :
  old ∈ _children self →
  (run self [OpAdd new; OpRemove old]).2 = [] ∧
  (run self [OpRemove old; OpAdd new]).2
  = (if decide (_children self = [old]) then [CallDetach; CallAttach] else []) ∧
  (run self [OpAdd new; OpRemove old]).1 = (run self [OpRemove old; OpAdd new]).1.
Proof.
  intros Hin. destruct self as [l]. simpl in *.
  destruct (indexOf l old) as [i|] eqn:Hi; [|by apply indexOf_None in Hi].
  destruct (indexOf_Some _ _ _ Hi) as (l1 & l2 & E & Hn & Hlen & D).
  assert (Hlt : i < length l).
  { rewrite E, length_app. simpl. lia. }
  unfold removeChild, addChild. simpl.
  rewrite (indexOf_app_l l [new] old i Hi), Hi. simpl.
  rewrite (delete_app_lt l [new] i Hlt), D.
  assert (Hl : (length l =? 0) = false) by (apply Nat.eqb_neq; lia).
  rewrite Hl. simpl.
  assert (Hl' : (length ((l1 ++ l2) ++ [new]) =? 0) = false).
  { apply Nat.eqb_neq. rewrite length_app. simpl. lia. }
  rewrite Hl'. split_and!; [done| |done].
  rewrite E. destruct l1 as [|a l1]; simpl.
  - destruct l2 as [|b l2]; simpl.
    + by rewrite decide_True.
    + by rewrite decide_False.
  - rewrite decide_False; [done|]. intros [= -> El].
    by destruct l1.
Qed.

Lemma replace_child_add_first_witness :
  (run (mkAWC [3]) [OpAdd 5; OpRemove 3]).2 = [] ∧
  (run (mkAWC [3]) [OpRemove 3; OpAdd 5]).2 = [CallDetach; CallAttach] ∧
  (run (mkAWC [3]) [OpAdd 5; OpRemove 3]).1 = (run (mkAWC [3]) [OpRemove 3; OpAdd 5]).1.
Proof.
  apply (replace_child_add_first (mkAWC [3]) 3 5). simpl. left.
Defined.

End WithChildrenMore.

(** ** Drivers: delayed start, frames of a spring *)

Section TimingMore.
Import Driver.
Context {H : Type}.
Variable Math_exp : float -> float.
Variable Easing_inOut_ease : float -> float.

(** X4.  The delay of a TimingAnimation does not count toward its duration.
    With a delay that is a number other than [0] and [NaN], [start] only
    sets the timer; when the timer fires, at clock reading [t0], the first
    frame is requested, and a frame at a clock reading [now] that is not
    beyond [t0 + duration] emits the value at fraction
    [(now - t0) / duration].  Without such a delay [start] requests the
    first frame itself and the time is counted from the clock reading of
    [start]. *)
Theorem timing_delay_then_duration
  (config : TimingAnimation.TimingAnimationConfig) (fromValue : float)
  (onEnd : option H) (now0 t0 now : Z) :
  let self := TimingAnimation.constructor Easing_inOut_ease config in
  let from_to fraction :=
    (fromValue + TimingAnimation._easing self fraction
                 * (TimingAnimation.toValue config - fromValue))%float in
  (∀ d, TimingAnimation.delay config = Some d → truthy d = true →
        PrimFloat.ltb (of_Z t0 + TimingAnimation._duration self) (of_Z now) = false →
        (TimingAnimation.start self fromValue onEnd now0).2 = [SetTimeout d] ∧
        (Animation.run Math_exp
           (Animation.Timing (TimingAnimation.start self fromValue onEnd now0).1)
           [Animation.Timer t0; Animation.Frame now]).2
        = [RequestAnimationFrame;
           OnUpdate (from_to ((of_Z now - of_Z t0) / TimingAnimation._duration self)%float);
           RequestAnimationFrame]) ∧
  ((∀ d, TimingAnimation.delay config = Some d → truthy d = false) →
   PrimFloat.ltb (of_Z now0 + TimingAnimation._duration self) (of_Z now) = false →
   (TimingAnimation.start self fromValue onEnd now0).2 = [RequestAnimationFrame] ∧
   (Animation.run Math_exp
      (Animation.Timing (TimingAnimation.start self fromValue onEnd now0).1)
      [Animation.Frame now]).2
   = [OnUpdate (from_to ((of_Z now - of_Z now0) / TimingAnimation._duration self)%float);
      RequestAnimationFrame]).
Proof.
  simpl. split.
  - intros d Hd Ht Hlt. unfold TimingAnimation.start. simpl.
    rewrite Hd. simpl. rewrite !Ht. simpl. split; [done|].
    unfold TimingAnimation.onUpdate. simpl. by rewrite Hlt.
  - intros Hd Hlt. unfold TimingAnimation.start. simpl.
    assert (E : truthy (or_default (TimingAnimation.delay config) 0) = false).
    { destruct (TimingAnimation.delay config) as [d|]; simpl; [|done].
      by rewrite (Hd d eq_refl). }
    rewrite E. simpl. split; [done|].
    unfold TimingAnimation.onUpdate. simpl. by rewrite Hlt.
Qed.

End TimingMore.

Lemma timing_delay_then_duration_witness :
  (TimingAnimation.start
     (TimingAnimation.constructor (fun x => x)
        (TimingAnimation.mkConfig 100 (Some (fun x => x)) (Some 1000%float) (Some 300%float)))
     0%float (Some 7) 5000).2 = [Driver.SetTimeout 300%float] ∧
  (Animation.run (fun x => x)
     (Animation.Timing
        (TimingAnimation.start
           (TimingAnimation.constructor (fun x => x)
              (TimingAnimation.mkConfig 100 (Some (fun x => x)) (Some 1000%float)
                 (Some 300%float)))
           0%float (Some 7) 5000).1)
     [Animation.Timer 5310; Animation.Frame 5560]).2
  = [Driver.RequestAnimationFrame; Driver.OnUpdate 25%float; Driver.RequestAnimationFrame].
Proof.
  apply (proj1 (timing_delay_then_duration (fun x => x) (fun x => x)
                  (TimingAnimation.mkConfig 100 (Some (fun x => x)) (Some 1000%float)
                     (Some 300%float))
                  0%float (Some 7) 5000 5310 5560) 300%float eq_refl);
    vm_compute; reflexivity.
Defined.

Section SpringMore.
Import Driver Frames.
Context {H : Type}.
Variable Math_exp : float -> float.
Variable Math_pow : float -> float -> float.

Lemma last_cons_default {A} (l : list A) x d d' :
  List.last (x :: l) d = List.last (x :: l) d'.
Proof. revert x; induction l as [|y l IH]; intros x; [done|]. apply (IH y). Qed.

Lemma integrate_within_timestep (self : SpringAnimation.SpringAnimation H) t now :
  SpringAnimation._lastTime self = Some t → (now < t + 4)%Z →
  SpringAnimation.integrate self now
  = SpringAnimation.mkIntegration
      (SpringAnimation._lastPosition self) (SpringAnimation._lastVelocity self)
      (SpringAnimation._lastPosition self) (SpringAnimation._lastVelocity self).
Proof.
  intros Ht Hlt. unfold SpringAnimation.integrate, SpringAnimation.numSteps.
  rewrite Ht.
  assert (E : Z.to_nat ((now - t) / 4) = 0).
  { assert ((now - t) / 4 ≤ 0)%Z; [|lia].
    destruct (Z.le_gt_cases 0 (now - t)) as [Hge|Hneg].
    - rewrite Z.div_small; lia.
    - assert ((now - t) / 4 < 0)%Z; [|lia]. apply Z.div_lt_upper_bound; lia. }
  by rewrite E.
Qed.

Lemma updates_app (c1 c2 : list (call H)) : updates (c1 ++ c2) = updates c1 ++ updates c2.
Proof. apply omap_app. Qed.

Lemma updates_fire (onEnd : option H) finished : updates (fire onEnd finished) = [].
Proof. by destruct onEnd. Qed.

Lemma spring_tick_within_timestep (self : SpringAnimation.SpringAnimation H) t now :
  SpringAnimation._active self = true →
  SpringAnimation._lastTime self = Some t → (now < t + 4)%Z →
  let '(s', cs) := SpringAnimation.onUpdate self now in
  head cs = Some (OnUpdate (SpringAnimation._lastPosition self)) ∧
  updates cs = [SpringAnimation._lastPosition self] ∧
  (∀ v, OnUpdate v ∈ cs → v = SpringAnimation._lastPosition self) ∧
  SpringAnimation._active s' = true ∧
  SpringAnimation._lastTime s' = Some now ∧
  SpringAnimation._lastPosition s' = SpringAnimation._lastPosition self ∧
  SpringAnimation._lastVelocity s' = SpringAnimation._lastVelocity self.
Proof.
  intros Ha Ht Hlt. unfold SpringAnimation.onUpdate. rewrite Ha. simpl.
  rewrite (integrate_within_timestep self t now Ht Hlt). simpl.
  destruct (_ || _); simpl;
    (split; [done|]; split; [by rewrite ?updates_fire|]; split; [|done]); intros v Hv.
  - apply elem_of_cons in Hv as [[= ->]|Hv]; [done|].
    destruct (SpringAnimation._onEnd self); simpl in Hv.
    + by apply list_elem_of_singleton in Hv.
    + by apply elem_of_nil in Hv.
  - apply elem_of_cons in Hv as [[= ->]|Hv]; [done|].
    by apply list_elem_of_singleton in Hv.
Qed.

(** X5.  A SpringAnimation integrates in whole steps of 4 ms and restarts
    the count at every frame: as long as each frame comes less than 4 ms
    after the one before it, every frame gives one value to [onUpdate],
    the position the spring had before the first of these frames, and its
    position and velocity do not change, however many frames there are and
    however much time passes in total. *)
Theorem spring_frames_within_timestep
  (self : SpringAnimation.SpringAnimation H) (t : Z) (nows : list Z) :
  SpringAnimation._active self = true →
  SpringAnimation._lastTime self = Some t →
  within_timestep t nows →
  let '(a, cs) := Animation.run Math_exp (Animation.Spring self) (frames nows) in
  updates cs = replicate (length nows) (SpringAnimation._lastPosition self) ∧
  (∀ now, (now < t + 4)%Z →
     head (SpringAnimation.onUpdate self now).2
     = Some (OnUpdate (SpringAnimation._lastPosition self))) ∧
  (∀ v, OnUpdate v ∈ cs → v = SpringAnimation._lastPosition self) ∧
  ∃ s', a = Animation.Spring s' ∧
        SpringAnimation._lastPosition s' = SpringAnimation._lastPosition self ∧
        SpringAnimation._lastVelocity s' = SpringAnimation._lastVelocity self ∧
        SpringAnimation._lastTime s' = Some (List.last nows t).
Proof.
  assert (Hhead : ∀ (self : SpringAnimation.SpringAnimation H) t,
    SpringAnimation._active self = true → SpringAnimation._lastTime self = Some t →
    ∀ now, (now < t + 4)%Z →
      head (SpringAnimation.onUpdate self now).2
      = Some (OnUpdate (SpringAnimation._lastPosition self))).
  { intros self0 t0 Ha0 Ht0 now Hlt.
    pose proof (spring_tick_within_timestep self0 t0 now Ha0 Ht0 Hlt) as Hs.
    destruct (SpringAnimation.onUpdate self0 now) as [s1 c1]. apply Hs. }
  revert self t. induction nows as [|now nows IH]; intros self t Ha Ht Hw.
  - simpl. split; [done|]. split; [by apply Hhead|].
    split; [by intros v Hv%elem_of_nil|]. by exists self.
  - destruct Hw as [Hlt Hw].
    pose proof (spring_tick_within_timestep self t now Ha Ht Hlt) as Hs.
    change (frames (now :: nows)) with (Animation.Frame now :: frames nows).
    simpl. destruct (SpringAnimation.onUpdate self now) as [s1 c1].
    destruct Hs as (_ & Hu1 & Hv1 & Ha1 & Ht1 & Hp1 & Hvel1).
    specialize (IH s1 now Ha1 Ht1 Hw).
    destruct (Animation.run Math_exp (Animation.Spring s1) (frames nows)) as [a2 c2].
    destruct IH as (Hu2 & _ & Hv2 & s' & -> & Hp & Hvel & Hlast).
    split; [by rewrite updates_app, Hu1, Hu2, Hp1|].
    split; [by apply Hhead|].
    split.
    + intros v [Hv|Hv]%elem_of_app; [by apply Hv1|].
      rewrite <- Hp1. by apply Hv2.
    + exists s'. split_and!; [done|congruence|congruence|].
      rewrite Hlast. destruct nows as [|now2 nows]; [done|].
      f_equal. apply last_cons_default.
Qed.

(** X6.  After [stop()] a SpringAnimation is inactive: frame callbacks that
    still run (and timers) make no call at all, emit no value, request no
    frame, and leave the driver as [stop()] left it. *)
Theorem spring_stopped_ignores_frames
  (self : SpringAnimation.SpringAnimation H) (ops : list Animation.op) :
  Animation.StopCall ∉ ops →
  Animation.run Math_exp (Animation.Spring (SpringAnimation.stop self).1) ops
  = (Animation.Spring (SpringAnimation.stop self).1, []).
Proof.
  set (s0 := (SpringAnimation.stop self).1).
  assert (Hin : SpringAnimation._active s0 = false) by done.
  clearbody s0.
  induction ops as [|o ops IH]; intros Hn; [done|].
  apply not_elem_of_cons in Hn as [Ho Hn]. specialize (IH Hn).
  simpl. destruct o as [now|now|]; [| |done].
  - simpl. unfold SpringAnimation.onUpdate. rewrite Hin. simpl. by rewrite IH.
  - simpl. by rewrite IH.
Qed.

(** X7.  A SpringAnimation started after another SpringAnimation continues
    where that one was: it takes over the last position, the last velocity
    and the time stamp of the previous driver, so that the result of
    [start] depends neither on the velocity the new driver was configured
    with nor on the clock reading of [start]; and at a frame less than 4 ms
    after the previous driver's last one, the value emitted is the previous
    driver's position, not [fromValue].  Without a previous spring the
    first value is [fromValue]. *)
Theorem spring_start_continues_previous
  (self previous : SpringAnimation.SpringAnimation H) (fromValue : float)
  (onEnd : option H) (now now' : Z) :
  (∀ velocity tempVelocity now2,
     SpringAnimation.start
       (SpringAnimation.mk
          (SpringAnimation._overshootClamping self)
          (SpringAnimation._restDisplacementThreshold self)
          (SpringAnimation._restSpeedThreshold self) velocity tempVelocity
          (SpringAnimation._startPosition self) (SpringAnimation._lastPosition self)
          (SpringAnimation._tempPosition self) (SpringAnimation._toValue self)
          (SpringAnimation._tension self) (SpringAnimation._friction self)
          (SpringAnimation._lastTime self) (SpringAnimation._onEnd self)
          (SpringAnimation._active self))
       fromValue onEnd (Some previous) now2 now'
     = SpringAnimation.start self fromValue onEnd (Some previous) now now') ∧
  (∀ t, SpringAnimation._lastTime previous = Some t → (now' < t + 4)%Z →
        let '(s', cs) :=
          SpringAnimation.start self fromValue onEnd (Some previous) now now' in
        head cs = Some (OnUpdate (SpringAnimation._lastPosition previous)) ∧
        SpringAnimation._lastVelocity s' = SpringAnimation._lastVelocity previous ∧
        SpringAnimation._startPosition s' = fromValue) ∧
  ((now' < now + 4)%Z →
   let '(s', cs) := SpringAnimation.start self fromValue onEnd None now now' in
   head cs = Some (OnUpdate fromValue) ∧
   SpringAnimation._lastVelocity s' = SpringAnimation._lastVelocity self ∧
   SpringAnimation._startPosition s' = fromValue).
Proof.
  split_and!.
  - done.
  - intros t Ht Hlt. unfold SpringAnimation.start, SpringAnimation.onUpdate. simpl.
    erewrite integrate_within_timestep; [|exact Ht|exact Hlt]. simpl.
    by destruct (_ || _).
  - intros Hlt. unfold SpringAnimation.start, SpringAnimation.onUpdate. simpl.
    erewrite integrate_within_timestep; [|simpl; reflexivity|exact Hlt]. simpl.
    by destruct (_ || _).
Qed.

(** X8.  The constructor of SpringAnimation throws exactly when the
    configuration has [bounciness] or [speed] other than [undefined]
    together with [tension] or [friction] other than [undefined]; [null]
    counts as given here.  Otherwise the driver is built: from bounciness
    (default 8) and speed (default 12) when one of them is not
    [undefined], and from tension (default 40) and friction (default 7)
    when both are [undefined]; a parameter that is [null] takes its
    default like one that is [undefined]. *)
Theorem spring_constructor_parameters (config : SpringAnimation.SpringAnimationConfig) :
  (SpringAnimation.constructor (H:=H) Math_pow config = None ↔
   (SpringAnimation.bounciness config ≠ SpringAnimation.Undefined
    ∨ SpringAnimation.speed config ≠ SpringAnimation.Undefined) ∧
   (SpringAnimation.tension config ≠ SpringAnimation.Undefined
    ∨ SpringAnimation.friction config ≠ SpringAnimation.Undefined)) ∧
  (∀ self, SpringAnimation.constructor (H:=H) Math_pow config = Some self →
     SpringAnimation.mkSpringConfig
       (SpringAnimation._tension self) (SpringAnimation._friction self)
     = match SpringAnimation.bounciness config, SpringAnimation.speed config with
       | SpringAnimation.Undefined, SpringAnimation.Undefined =>
           SpringAnimation.fromOrigamiTensionAndFriction
             (withDefault (SpringAnimation.given (SpringAnimation.tension config))
                40%float)
             (withDefault (SpringAnimation.given (SpringAnimation.friction config))
                7%float)
       | _, _ =>
           SpringAnimation.fromBouncinessAndSpeed Math_pow
             (withDefault (SpringAnimation.given (SpringAnimation.bounciness config))
                8%float)
             (withDefault (SpringAnimation.given (SpringAnimation.speed config))
                12%float)
       end).
Proof.
  unfold SpringAnimation.constructor. split.
  - destruct config as [to oc rd rs v b s t f]; simpl.
    destruct b, s, t, f; simpl;
      (split; [try done; intros _; split; (by left) || (by right)
              |try done; intros [[?|?] [?|?]]; done]).
  - destruct config as [to oc rd rs v b s t f]; simpl.
    destruct b, s, t, f; simpl; try done; by intros self [= <-].
Qed.

End SpringMore.

Lemma spring_frames_within_timestep_witness :
  let '(a, cs) :=
    Animation.run (fun x => x) (Animation.Spring Examples.running_spring)
      (Frames.frames [1003; 1006; 1009]%Z) in
  Frames.updates cs = [0; 0; 0]%float ∧
  ∃ s', a = Animation.Spring s' ∧
        SpringAnimation._lastPosition s' = 0%float ∧
        SpringAnimation._lastVelocity s' = 5%float ∧
        SpringAnimation._lastTime s' = Some 1009%Z.
Proof.
  pose proof (spring_frames_within_timestep (fun x => x) Examples.running_spring 1000
                [1003; 1006; 1009]%Z eq_refl eq_refl ltac:(simpl; lia)) as Hw.
  destruct (Animation.run (fun x => x) (Animation.Spring Examples.running_spring)
              (Frames.frames [1003; 1006; 1009]%Z)) as [a cs].
  destruct Hw as (Hu & _ & _ & Hs). split; [exact Hu|exact Hs].
Defined.

Lemma spring_stopped_ignores_frames_witness :
  Animation.run (fun x => x)
    (Animation.Spring (SpringAnimation.stop Examples.running_spring).1)
    [Animation.Frame 1016; Animation.Timer 1020; Animation.Frame 1032]
  = (Animation.Spring (SpringAnimation.stop Examples.running_spring).1, []).
Proof.
  apply spring_stopped_ignores_frames.
  rewrite list_elem_of_In. simpl. intuition discriminate.
Defined.

Lemma spring_start_continues_previous_witness :
  let '(s', cs) :=
    SpringAnimation.start Examples.running_spring 40%float (Some 7)
      (Some Examples.previous_spring) 2001 2002 in
  head cs = Some (Driver.OnUpdate 40%float) ∧
  SpringAnimation._lastVelocity s' = 3%float ∧
  SpringAnimation._startPosition s' = 40%float.
Proof.
  apply (proj1 (proj2 (spring_start_continues_previous Examples.running_spring
                         Examples.previous_spring 40%float (Some 7) 2001 2002))
           2000%Z); [reflexivity | lia].
Defined.

Lemma spring_constructor_parameters_witness :
  SpringAnimation.constructor (H:=nat) (fun x _ => x)
    (SpringAnimation.mkConfig 100%float None None None None
       SpringAnimation.Null SpringAnimation.Undefined
       (SpringAnimation.Number 40%float) SpringAnimation.Undefined) = None.
Proof.
  apply (proj1 (spring_constructor_parameters (H:=nat) (fun x _ => x)
                  (SpringAnimation.mkConfig 100%float None None None None
                     SpringAnimation.Null SpringAnimation.Undefined
                     (SpringAnimation.Number 40%float) SpringAnimation.Undefined))).
  split; left; done.
Defined.

(** ** Numbers: [NaN] *)

Section NanFacts.

Lemma is_nan_Prim2SF (x : float) : PrimFloat.is_nan x = true → Prim2SF x = S754_nan.
Proof.
  unfold PrimFloat.is_nan. rewrite FloatAxioms.eqb_spec. unfold SFeqb.
  destruct (Prim2SF x) as [s|s| |s m e]; simpl; try done.
  - by destruct s.
  - rewrite Z.compare_refl.
    change (Pos.compare_cont Eq m m) with (Pos.compare m m).
    rewrite Pos.compare_refl. by destruct s.
Qed.

Lemma ltb_nan_l (x y : float) : PrimFloat.is_nan x = true → PrimFloat.ltb x y = false.
Proof.
  intros Hx%is_nan_Prim2SF. rewrite FloatAxioms.ltb_spec. unfold SFltb.
  by rewrite Hx.
Qed.

Lemma ltb_nan_r (x y : float) : PrimFloat.is_nan y = true → PrimFloat.ltb x y = false.
Proof.
  intros Hy%is_nan_Prim2SF. rewrite FloatAxioms.ltb_spec. unfold SFltb.
  rewrite Hy. by destruct (Prim2SF x).
Qed.

Lemma leb_abs_sub_nan (x y z : float) :
  PrimFloat.is_nan x = true → PrimFloat.leb (PrimFloat.abs (x - y)) z = false.
Proof.
  intros Hx%is_nan_Prim2SF.
  rewrite FloatAxioms.leb_spec, FloatAxioms.abs_spec, FloatAxioms.sub_spec.
  unfold SFleb. by rewrite Hx.
Qed.

End NanFacts.

Section SpringNan.
Import Driver Frames.
Context {H : Type}.
Variable Math_exp : float -> float.

Lemma spring_tick_nan_target (self : SpringAnimation.SpringAnimation H) now :
  PrimFloat.is_nan (SpringAnimation._toValue self) = true →
  PrimFloat.eqb (SpringAnimation._tension self) 0 = false →
  SpringAnimation._active self = true →
  let '(s', cs) := SpringAnimation.onUpdate self now in
  cs = [OnUpdate (SpringAnimation.position (SpringAnimation.integrate self now));
        RequestAnimationFrame] ∧
  SpringAnimation._toValue s' = SpringAnimation._toValue self ∧
  SpringAnimation._tension s' = SpringAnimation._tension self ∧
  SpringAnimation._active s' = true.
Proof.
  intros Hnan Ht Ha. unfold SpringAnimation.onUpdate. rewrite Ha. simpl.
  unfold SpringAnimation.isOvershooting, SpringAnimation.isDisplacement. simpl.
  rewrite Ht. simpl.
  rewrite (ltb_nan_r _ _ Hnan), (ltb_nan_r _ _ Hnan), (leb_abs_sub_nan _ _ _ Hnan).
  rewrite andb_false_r. simpl.
  by destruct (SpringAnimation._overshootClamping self).
Qed.

(** X9.  A SpringAnimation whose target is [NaN] (as when [toValue] is
    missing from the configuration) and whose [_tension] is not zero never
    comes to rest: whatever the clock readings, every frame gives a value
    to [onUpdate] and requests another frame, and does nothing else; the
    completion callback is never called by a frame, with or without
    overshoot clamping. *)
Theorem spring_nan_target_never_rests
  (self : SpringAnimation.SpringAnimation H) (nows : list Z) :
  PrimFloat.is_nan (SpringAnimation._toValue self) = true →
  PrimFloat.eqb (SpringAnimation._tension self) 0 = false →
  SpringAnimation._active self = true →
  let cs := (Animation.run Math_exp (Animation.Spring self) (frames nows)).2 in
  (∃ values, length values = length nows ∧ cs = emitting values) ∧
  ends cs = 0 ∧
  requests cs = length nows.
Proof.
  revert self. induction nows as [|now nows IH]; intros self Hnan Ht Ha.
  { split; [by exists []|done]. }
  pose proof (spring_tick_nan_target self now Hnan Ht Ha) as Hs.
  change (frames (now :: nows)) with (Animation.Frame now :: frames nows).
  simpl. destruct (SpringAnimation.onUpdate self now) as [s1 c1].
  destruct Hs as (-> & Hto & Hten & Ha1).
  rewrite <- Hto in Hnan. rewrite <- Hten in Ht.
  specialize (IH s1 Hnan Ht Ha1). simpl in IH.
  destruct (Animation.run Math_exp (Animation.Spring s1) (frames nows)) as [a2 c2].
  simpl in *. destruct IH as ((values & Hlen & ->) & IH1 & IH2).
  split.
  { eexists (_ :: values). split; [by rewrite length_cons, Hlen|done]. }
  unfold ends, requests in *.
  rewrite !(filter_cons _ (OnUpdate _)), !(filter_cons _ RequestAnimationFrame).
  rewrite !decide_False by (by intros []). rewrite decide_True by done.
  simpl. by rewrite IH1, IH2.
Qed.

End SpringNan.

Lemma spring_nan_target_never_rests_witness :
  Driver.ends
    (Animation.run (fun x => x) (Animation.Spring Examples.aimless_spring)
       (Frames.frames [1016; 1032; 1048]%Z)).2 = 0 ∧
  Frames.requests
    (Animation.run (fun x => x) (Animation.Spring Examples.aimless_spring)
       (Frames.frames [1016; 1032; 1048]%Z)).2 = 3.
Proof.
  apply (proj2 (spring_nan_target_never_rests (fun x => x) Examples.aimless_spring
                  [1016; 1032; 1048]%Z
                  ltac:(vm_compute; reflexivity) ltac:(vm_compute; reflexivity)
                  ltac:(vm_compute; reflexivity))).
Defined.

(** ** AnimatedValue: the listener table *)

Section ListenerFacts.
Import Graph ValueCalls.

#[local] Instance key_le_total : Total key_le.
Proof. intros [k1 f1] [k2 f2]. unfold key_le. simpl. lia. Qed.

#[local] Instance key_le_trans : Transitive key_le.
Proof. intros [k1 f1] [k2 f2] [k3 f3]. unfold key_le. simpl. lia. Qed.

Lemma entries_sorted (m : gmap nat fn) : StronglySorted key_le (entries m).
Proof. apply StronglySorted_merge_sort; apply _. Qed.

Lemma entries_NoDup_list (m : gmap nat fn) : NoDup (entries m).
Proof. eapply NoDup_fmap_1, entries_NoDup. Qed.

(** The list of the entries of [m] is the only one that is sorted by key. *)
Lemma entries_unique (m : gmap nat fn) (l : list (nat * fn)) :
  StronglySorted key_le l → NoDup l →
  (∀ key f, (key, f) ∈ l ↔ m !! key = Some f) →
  entries m = l.
Proof.
  intros Hs Hnd Hl. apply (StronglySorted_unique_strong key_le).
  - intros [k1 f1] [k2 f2] H1%entries_elem H2%Hl. unfold key_le. simpl.
    intros. assert (k1 = k2) as -> by lia. congruence.
  - apply entries_sorted.
  - done.
  - apply NoDup_Permutation; [apply entries_NoDup_list | done |].
    intros [k f]. by rewrite entries_elem, Hl.
Qed.

Lemma StronglySorted_filter {A} (R : relation A) (P : A → Prop)
  `{∀ x, Decision (P x)} (l : list A) :
  StronglySorted R l → StronglySorted R (filter P l).
Proof.
  induction 1 as [|x l Hl IH Hx]; [constructor|].
  rewrite filter_cons. destruct (decide (P x)); [|done].
  constructor; [done|]. rewrite Forall_forall in Hx. apply Forall_forall.
  intros y [_ Hy]%list_elem_of_filter. by apply Hx.
Qed.

Lemma entries_insert_last (m : gmap nat fn) (id : nat) (callback : fn) :
  (∀ key, is_Some (m !! key) → key < id) →
  entries (<[id := callback]> m) = entries m ++ [(id, callback)].
Proof.
  intros Hlt. apply entries_unique.
  - apply StronglySorted_app_2.
    + intros [k1 f1] [k2 f2] H1%entries_elem [= -> ->]%list_elem_of_singleton.
      unfold key_le. simpl. assert (k1 < id) by (apply Hlt; eauto). lia.
    + apply entries_sorted.
    + repeat constructor.
  - apply NoDup_app. split_and!; [apply entries_NoDup_list | | apply NoDup_singleton].
    intros [k f] H1%entries_elem [= -> ->]%list_elem_of_singleton.
    assert (id < id) by (apply Hlt; eauto). lia.
  - intros key f. rewrite elem_of_app, entries_elem, list_elem_of_singleton.
    destruct (decide (id = key)) as [->|Hne].
    + rewrite lookup_insert_eq. split.
      * intros [Hm|[= ->]]; [|done].
        assert (key < key) by (apply Hlt; eauto). lia.
      * intros [= ->]. by right.
    + rewrite lookup_insert_ne by done. split; [|by left].
      intros [Hm|[= -> _]]; done.
Qed.

Lemma entries_delete (m : gmap nat fn) (id : nat) :
  entries (delete id m) = filter (fun kv => kv.1 ≠ id) (entries m).
Proof.
  apply entries_unique.
  - apply StronglySorted_filter, entries_sorted.
  - apply NoDup_filter, entries_NoDup_list.
  - intros key f. rewrite list_elem_of_filter, entries_elem. simpl.
    destruct (decide (id = key)) as [->|Hne].
    + rewrite lookup_delete_eq. split; [by intros [? _]|done].
    + rewrite lookup_delete_ne by done. split; [by intros [_ ?]|done].
Qed.

(** X10.  Listeners are called in the order in which they were registered.
    [addListener] takes the identifier from the counter [_uniqueId], which
    is above every identifier in use; it returns that identifier and
    advances the counter, which stays above every identifier in use; and a
    notification after it calls the listeners that were registered before,
    in the same order as before, and then the new one. *)
Theorem addListener_is_called_last
  (self : AnimatedValue) (_uniqueId : nat) (callback : fn) :
  (∀ key, is_Some (_listeners self !! key) → key < _uniqueId) →
  let '(self', id, _uniqueId') := addListener self _uniqueId callback in
  id = _uniqueId ∧
  (∀ key, is_Some (_listeners self' !! key) → key < _uniqueId') ∧
  _listeners self' !! id = Some callback ∧
  notify self' = notify self ++ [Listener id callback (getValue self)].
Proof.
  intros Hlt. simpl. split_and!.
  - done.
  - intros key. destruct (decide (_uniqueId = key)) as [<-|Hne]; [lia|].
    rewrite lookup_insert_ne by done. intros Hk%Hlt. lia.
  - apply lookup_insert_eq.
  - unfold notify. simpl. rewrite entries_insert_last by done.
    by rewrite fmap_app.
Qed.

Lemma filter_fmap_Listener (x : float) (key : nat) (l : list (nat * fn)) :
  filter (not_Listener_of key) ((fun kv => Listener kv.1 kv.2 x) <$> l)
  = (fun kv => Listener kv.1 kv.2 x) <$> filter (fun kv => kv.1 ≠ key) l.
Proof.
  induction l as [|[k f] l IH]; [done|].
  rewrite fmap_cons, !filter_cons, IH. cbn [fst snd].
  destruct (decide (k = key)) as [->|Hne].
  - rewrite decide_False
      by (unfold not_Listener_of; simpl; rewrite Nat.eqb_refl; by intros []).
    by rewrite decide_False by naive_solver.
  - rewrite decide_True
      by (unfold not_Listener_of; simpl; apply Nat.eqb_neq in Hne; by rewrite Hne).
    by rewrite decide_True by done.
Qed.

(** X11.  [removeListener(id)] takes the listener registered under [id] out
    of the notifications and leaves the other listeners and their order as
    they were; for an identifier that is not registered it changes
    nothing; and removing a listener just added under an unused identifier
    gives the value back as it was. *)
Theorem removeListener_only_that_listener (self : AnimatedValue) (id : nat) :
  notify (removeListener self id) = filter (not_Listener_of id) (notify self) ∧
  calls_of_listener id (notify (removeListener self id)) = [] ∧
  (_listeners self !! id = None →
   removeListener self id = self ∧
   ∀ callback, removeListener (addListener self id callback).1.1 id = self).
Proof.
  split_and!.
  - unfold notify. simpl. by rewrite entries_delete, filter_fmap_Listener.
  - rewrite calls_of_listener_notify. simpl. by rewrite lookup_delete_eq.
  - intros Hid. destruct self as [cs v o a ls]. unfold removeListener. simpl in *.
    split.
    + by rewrite delete_id.
    + intros callback. by rewrite delete_insert_id.
Qed.

End ListenerFacts.

Lemma addListener_is_called_last_witness :
  Graph.notify (Graph.addListener Examples.example_value 13 5).1.1
  = [Graph.Listener 1 9 3%float; Graph.Listener 12 4 3%float;
     Graph.Listener 13 5 3%float].
Proof.
  pose proof (addListener_is_called_last Examples.example_value 13 5) as Hw.
  destruct Hw as (_ & _ & _ & Hn).
  - intros key [g Hg]. simpl in Hg.
    destruct (decide (12 = key)) as [<-|Hne]; [lia|].
    rewrite lookup_insert_ne in Hg by done.
    apply lookup_singleton_Some in Hg as [<- _]. lia.
  - etrans; [exact Hn|]. vm_compute. reflexivity.
Defined.

Lemma removeListener_only_that_listener_witness :
  Graph.removeListener Examples.example_value 5 = Examples.example_value ∧
  Graph.removeListener (Graph.addListener Examples.example_value 5 8).1.1 5
  = Examples.example_value.
Proof.
  destruct (removeListener_only_that_listener Examples.example_value 5)
    as (_ & _ & Hw).
  destruct Hw as [Hw1 Hw2]; [vm_compute; reflexivity|].
  split; [exact Hw1 | exact (Hw2 8)].
Defined.

(** ** AnimatedValue: animate *)

Section AnimateFacts.
Import Graph ValueCalls.

Lemma closures_app out1 out2 : closures (out1 ++ out2) = closures out1 ++ closures out2.
Proof. apply filter_app. Qed.

Lemma closures_Host hostcalls : closures (Host <$> hostcalls) = [].
Proof. by apply filter_Host. Qed.

Lemma closures_notify self : closures (notify self) = [].
Proof.
  unfold closures, notify. induction (entries _) as [|kv l IH]; [done|].
  rewrite fmap_cons, filter_cons. cbn [is_OnEndClosure].
  by rewrite decide_False by (by intros []).
Qed.

(** The calls of a driver, run on a ranked graph: the completion closures
    run are those of the driver's [OnEnd] calls, and the driver slot is
    emptied by the first of them. *)
Lemma driver_calls_spec fuel rank id cs : ∀ h self,
  value_at h id = Some self → ranked h rank → rank id < fuel →
  ∃ h' out self',
    driver_calls fuel h id cs = Some (h', out) ∧
    value_at h' id = Some self' ∧ ranked h' rank ∧
    closures out = closure_calls cs ∧
    _animation self'
    = (if decide (Driver.ends cs = 0) then _animation self else None) ∧
    _listeners self' = _listeners self ∧ _offset self' = _offset self.
Proof.
  induction cs as [|c cs IH]; intros h self Hv Hr Hlt.
  - exists h, [], self. by rewrite decide_True.
  - assert (Hstep : ∃ h1 out1 self1,
      match c with
      | Driver.OnUpdate value => _updateValue fuel h id value
      | Driver.OnEnd callback finished =>
          self ← value_at h id;
          Some (<[id := NValue (set_animation self None)]> h,
                [OnEndClosure callback finished])
      | _ => Some (h, [Host c])
      end = Some (h1, out1) ∧
      value_at h1 id = Some self1 ∧ ranked h1 rank ∧
      closures out1 = closure_calls [c] ∧
      _animation self1 = (if Driver.is_OnEnd c then None else _animation self) ∧
      _listeners self1 = _listeners self ∧ _offset self1 = _offset self).
    { destruct c as [value|callback finished| | | |].
      - pose proof (_updateValue_spec fuel h rank id self value Hv Hr Hlt) as Hup.
        destruct (PrimFloat.eqb value (_value self)).
        + exists h, [], self. done.
        + destruct Hup as (us & -> & _).
          eexists _, _, (set_value self value). split; [done|].
          split; [apply value_at_insert|].
          split; [eapply ranked_insert; [by apply value_at_lookup|done..]|].
          split; [|done]. unfold closures. rewrite filter_cons.
          rewrite decide_False by (by intros []). apply closures_notify.
      - rewrite Hv. simpl. eexists _, _, (set_animation self None). split; [done|].
        split; [apply value_at_insert|].
        split; [eapply ranked_insert; [by apply value_at_lookup|done..]|done].
      - exists h, [Host Driver.RequestAnimationFrame], self. done.
      - exists h, [Host Driver.CancelAnimationFrame], self. done.
      - exists h, [Host (Driver.SetTimeout delay)], self. done.
      - exists h, [Host Driver.ClearTimeout], self. done. }
    destruct Hstep as (h1 & out1 & self1 & E1 & Hv1 & Hr1 & Hc1 & Ha1 & Hl1 & Ho1).
    destruct (IH h1 self1 Hv1 Hr1 Hlt) as (h2 & out2 & self2 & E2 & Hv2 & Hr2 & Hc2 & Ha2 & Hl2 & Ho2).
    exists h2, (out1 ++ out2), self2. split.
    { cbn [driver_calls]. rewrite E1. simpl. by rewrite E2. }
    split; [done|]. split; [done|].
    split; [rewrite closures_app, Hc1, Hc2; unfold closure_calls; by destruct c|].
    split; [|split; congruence].
    rewrite Ha2, Ha1. unfold Driver.ends. rewrite filter_cons.
    destruct (Driver.is_OnEnd c) eqn:Ec.
    + rewrite (decide_True (P := Is_true true)) by done. simpl.
      by destruct (decide _).
    + rewrite (decide_False (P := Is_true false)) by (by intros []). done.
Qed.

Lemma closure_calls_app cs1 cs2 :
  closure_calls (cs1 ++ cs2) = closure_calls cs1 ++ closure_calls cs2.
Proof. apply omap_app. Qed.

(** What the [start] of a driver calls of its completion callback: nothing,
    or the callback with [true]. *)
Lemma start_closure_calls (animation : Animation) fromValue (callback : option fn)
  previous now now' :
  let cs :=
    (Animation.start animation fromValue (@Some (option fn) callback) previous
       now now').2 in
  (Driver.ends cs = 0 ∧ closure_calls cs = []) ∨
  (Driver.ends cs = 1 ∧ closure_calls cs = [OnEndClosure callback true]).
Proof.
  destruct animation as [t|d|s]; simpl.
  - unfold TimingAnimation.start; simpl. destruct (Driver.truthy _); simpl; by left.
  - by left.
  - unfold SpringAnimation.start.
    match goal with |- context [SpringAnimation.onUpdate ?s1 _] =>
      assert (Hh : SpringAnimation._onEnd s1 = Some callback)
        by (by destruct previous as [[]|]);
      assert (Ha : SpringAnimation._active s1 = true)
        by (by destruct previous as [[]|]);
      generalize dependent s1
    end.
    intros s1 Hh Ha. unfold SpringAnimation.onUpdate. rewrite Ha. simpl.
    destruct (_ || _); simpl.
    + right. by rewrite Hh.
    + by left.
Qed.

(** X12.  [animate] on a value whose driver is running: the running driver
    is stopped first, so that its completion closure runs with [false]
    before anything of the new driver is called; the new driver is then
    started from the stored value, with the stopped driver as its previous
    animation.  No other completion closure runs, except that of the new
    driver, with [true], when the new driver completes during its
    [start]; and the driver slot holds the new driver afterwards exactly
    when it did not. *)
Theorem animate_stops_running_driver
  fuel h rank id self (a : Animation) (onEnd : onEndClosure)
  (animation : Animation) (callback : option fn) (now now' : Z) :
  value_at h id = Some self → ranked h rank → rank id < fuel →
  _animation self = Some a → Animation._onEnd a = Some onEnd →
  let started :=
    Animation.start animation (_value self) (Some callback)
      (Some (Animation.stop a).1) now now' in
  ∃ hostcalls h' out self',
    (Animation.stop a).2 = hostcalls ++ [Driver.OnEnd onEnd false] ∧
    Forall (fun c => Driver.is_OnEnd c = false) hostcalls ∧
    animate fuel h id animation callback now now'
    = Some (h', (Host <$> hostcalls) ++ OnEndClosure onEnd false :: out) ∧
    value_at h' id = Some self' ∧
    closures out
    = (if decide (Driver.ends started.2 = 0) then []
       else [OnEndClosure callback true]) ∧
    _animation self'
    = (if decide (Driver.ends started.2 = 0) then Some started.1 else None).
Proof.
  intros Hv Hr Hlt Ha Hend started.
  destruct (Animation_stop_calls a) as (hostcalls & Hcs & H1 & H2).
  rewrite Hend in Hcs. simpl in Hcs.
  unfold animate. rewrite Hv. simpl. rewrite Ha.
  destruct (Animation.stop a) as [a' cs] eqn:Estop. simpl in Hcs. subst cs.
  rewrite driver_calls_host by done. simpl. rewrite value_at_insert. simpl.
  rewrite value_at_insert. simpl. rewrite !insert_insert_eq.
  subst started. simpl.
  pose proof (start_closure_calls animation (_value self) callback (Some a') now now')
    as Hstart.
  cbv zeta in Hstart.
  destruct (Animation.start animation (_value self) (@Some (option fn) callback)
              (Some a') now now') as [a1 cs1].
  cbn [fst snd] in Hstart.
  rewrite insert_insert_eq.
  match goal with |- context [driver_calls fuel ?hh id cs1] =>
    destruct (driver_calls_spec fuel rank id cs1 hh (set_animation self (Some a1)))
      as (h2 & out2 & self2 & E2 & Hv2 & _ & Hc2 & Ha2 & _)
  end.
  { apply value_at_insert. }
  { eapply ranked_insert; [by apply value_at_lookup|done..]. }
  { done. }
  exists hostcalls, h2, out2, self2. split; [done|]. split; [done|].
  rewrite E2. simpl. split; [by rewrite <- app_assoc|]. split; [done|].
  cbn [fst snd]. rewrite Hc2, Ha2.
  destruct Hstart as [[E1 E3]|[E1 E3]]; rewrite E1, E3; done.
Qed.

End AnimateFacts.

Lemma animate_stops_running_driver_witness :
  ∃ h,
    Examples.animated_heap = Some h ∧
    snd <$> Graph.animate 6 h 0
              (Animation.Decay
                 (DecayAnimation.constructor (DecayAnimation.mkConfig 1%float None)))
              (Some 9) 6000 6000
    = Some [Graph.Host Driver.ClearTimeout; Graph.Host Driver.CancelAnimationFrame;
            Graph.OnEndClosure (Some 8) false;
            Graph.Host Driver.RequestAnimationFrame].
Proof.
  eexists. split; [vm_compute; reflexivity|].
  match goal with |- context [Graph.animate 6 ?h 0 ?animation (Some 9) 6000 6000] =>
    destruct (animate_stops_running_driver 6 h Examples.example_rank 0 _ _ (Some 8)
                animation (Some 9) 6000 6000
                ltac:(vm_compute; reflexivity)
                ltac:(apply rankedb_ranked; vm_compute; reflexivity)
                ltac:(vm_compute; lia) eq_refl eq_refl)
      as (hostcalls & h' & out & self' & Hstop & _ & Hrun & _)
  end.
  assert (hostcalls = [Driver.ClearTimeout; Driver.CancelAnimationFrame]) as ->.
  { vm_compute in Hstop. destruct hostcalls as [|? [|? [|? ?]]]; simplify_eq. done. }
  rewrite Hrun in *. vm_compute in Hrun. injection Hrun as _ <-. reflexivity.
Defined.

(** ** parallel: starting again *)

Section ParallelMore.
Import Composite.

Lemma parallel_events_empty fuel events : ∀ s,
  1 ≤ fuel → par_animations s = [] →
  ∃ s', parallel_events fuel s events = Some (s', []) ∧
        par_animations s' = [] ∧ doneCount s' = doneCount s.
Proof.
  induction events as [|e events IH]; intros s Hfuel Hs; [by exists s|].
  cbn [parallel_events].
  assert (∃ s1, parallel_step fuel s e = Some (s1, []) ∧
                par_animations s1 = [] ∧ doneCount s1 = doneCount s)
    as (s1 & -> & Hs1 & Hd1).
  { destruct e as [|i b]; cbn [parallel_step].
    - destruct fuel as [|fuel']; [lia|]. rewrite parallel_stop_S, Hs.
      by eexists.
    - unfold parallel_finish. rewrite Hs. by exists s. }
  cbn [mbind option_bind]. destruct (IH s1 Hfuel Hs1) as (s2 & -> & Hs2 & Hd2).
  exists s2. split; [done|]. split; [done|]. congruence.
Qed.

(** X13.  Once every animation of a [parallel] has reported completion,
    with whatever flags, a further [start(g)] starts nothing: it calls [g]
    with [true] at once, even when the run it follows ended with [false]. *)
Theorem parallel_start_after_all_reported
  (syncs : list (option bool)) (f : fn) (events : list event) (fuel : nat)
  (g : option fn) :
  3 ≤ fuel →
  ∃ s tr,
    parallel_run fuel syncs (Some f) events = Some (s, tr) ∧
    ((∀ i, i < length syncs → i ∈ dones tr) →
     ∃ s', parallel_start fuel s g = Some (s', call_callback g true) ∧
           par_animations s' = par_animations s).
Proof.
  intros Hfuel. destruct (decide (syncs = [])) as [->|Hne].
  - unfold parallel_run, parallel_start, parallel_new. cbn.
    destruct (parallel_events_empty fuel events (mkParallel [] 0 false (Some f)))
      as (s' & -> & Hs' & Hd'); [lia|done|].
    cbn. eexists _, _. split; [done|]. intros _.
    cbn [par_animations doneCount]. rewrite Hs', Hd'. cbn. by eexists.
  - assert (Hn : length syncs ≠ 0) by by destruct syncs.
    destruct (run_spec syncs f fuel true events Hn Hfuel)
      as (s & tr & Hrun & Hinv & _); [done|].
    exists s, tr. split; [done|]. intros Hall.
    pose proof (par_inv_le _ _ _ _ Hinv) as Hle.
    pose proof (par_inv_length _ _ _ _ Hinv) as Hlen.
    destruct Hinv as (_ & _ & H3 & _).
    assert (Hsub : seq 0 (length syncs) ⊆+ dones tr).
    { apply NoDup_submseteq; [apply NoDup_seq|]. intros i Hi%elem_of_seq.
      apply Hall. lia. }
    apply submseteq_length in Hsub. rewrite length_seq in Hsub.
    unfold parallel_start. cbn [par_animations doneCount].
    rewrite Hlen, (proj2 (Nat.eqb_eq _ _)) by lia. by eexists.
Qed.

Lemma parallel_start_after_all_reported_witness :
  ∃ s tr,
    parallel_run 3 [None; None] (Some 1) [EvFinish 0 false; EvFinish 1 false]
    = Some (s, tr) ∧
    callbacks tr = [false] ∧
    snd <$> parallel_start 3 s (Some 2) = Some [Callback 2 true].
Proof.
  destruct (parallel_start_after_all_reported [None; None] 1
              [EvFinish 0 false; EvFinish 1 false] 3 (Some 2))
    as (s & tr & Hrun & Hagain); [lia|].
  exists s, tr. split; [done|].
  assert (Htr : tr = [Start 0; Start 1; Done 0 false; Stop 0; Stop 1; Done 1 false;
                      Callback 1 false]).
  { vm_compute in Hrun. by injection Hrun as _ <-. }
  split; [by rewrite Htr|].
  destruct Hagain as (s' & -> & _); [|done].
  intros i Hi. rewrite Htr. cbn.
  destruct i as [|[|i]]; [left | right; left | simpl in Hi; lia].
Defined.

End ParallelMore.

(** ** sequence: starting again *)

Section SequenceMore.
Import Composite SequenceState.
Variable f : fn.
Variable n : nat.

Lemma onComplete_advances fuel : ∀ s b s' out,
  seq_callback s = Some f → length (seq_animations s) = n → current s ≤ n →
  onComplete fuel s b = Some (s', out) → advances f n s s' out.
Proof.
  induction fuel as [|fuel IH]; intros [anims c cb] b s' out; [done|].
  cbn [seq_callback seq_animations current]. intros -> Hlen Hc.
  destruct b.
  - destruct (decide (S c = n)) as [Hlast|Hmore].
    + rewrite onComplete_true_last by (cbn [current seq_animations]; congruence).
      intros [= <- <-]. unfold advances.
      cbn [seq_callback seq_animations current call_callback callbacks omap].
      split_and!; try done; try lia.
      intros _. right. left.
    + rewrite onComplete_true_next by (cbn [current seq_animations]; congruence).
      unfold start_current. cbn [seq_callback seq_animations current].
      destruct (anims !! S c) as [a|] eqn:Ha; [|done].
      apply lookup_lt_Some in Ha as Hlt.
      cbn [mbind option_bind].
      destruct (animation_start a) as [[a' [b'|]]|]; cbn [mbind option_bind]; [| |done].
      * destruct (onComplete fuel (mkSequence (<[S c := a']> anims) (S c) (Some f)) b')
          as [[s2 cs]|] eqn:E2; [|done].
        cbn [mbind option_bind]. intros [= <- <-].
        apply IH in E2; cbn [seq_callback seq_animations current];
          [|done|by rewrite length_insert|lia].
        destruct E2 as (H1 & H2 & H3 & H4 & H5 & H6).
        cbn [current] in *. unfold advances. cbn [current].
        change (callbacks (Start (S c) :: Done (S c) b' :: cs)) with (callbacks cs).
        split_and!; try done; try lia.
        intros E. destruct (H6 E) as [?|?]; [lia|by right].
      * intros [= <- <-]. unfold advances.
        cbn [seq_callback seq_animations current callbacks omap].
        rewrite length_insert. split_and!; try done; try lia.
        by intros ?%elem_of_nil.
  - rewrite onComplete_false. intros [= <- <-]. unfold advances.
    cbn [seq_callback seq_animations current call_callback callbacks omap].
    split_and!; try done.
    + by intros [=]%list_elem_of_singleton.
    + by left.
Qed.

Lemma advances_refl s :
  seq_callback s = Some f → length (seq_animations s) = n → current s ≤ n →
  advances f n s s [].
Proof.
  intros. unfold advances. split_and!; try done.
  - by intros ?%elem_of_nil.
  - by left.
Qed.

Lemma sequence_step_advances fuel s e s' out :
  seq_callback s = Some f → length (seq_animations s) = n → current s ≤ n →
  sequence_step fuel s e = Some (s', out) → advances f n s s' out.
Proof.
  destruct s as [anims c cb]. cbn [seq_callback seq_animations current].
  intros -> Hlen Hc. destruct e as [|i b]; cbn [sequence_step].
  - unfold sequence_stop. cbn [seq_callback seq_animations current].
    destruct (c <? length anims); [|intros [= <- <-]; by apply advances_refl].
    destruct (anims !! c) as [a|]; [|done]. cbn [mbind option_bind].
    destruct (animation_stop a) as [a' [|]].
    + unfold report.
      destruct (onComplete fuel (mkSequence (<[c := a']> anims) c (Some f)) false)
        as [[s2 cs]|] eqn:E2; [|done].
      cbn [mbind option_bind]. intros [= <- <-].
      apply onComplete_advances in E2; cbn [seq_callback seq_animations current];
        [|done|by rewrite length_insert|done].
      exact E2.
    + cbn [mbind option_bind]. intros [= <- <-].
      apply (advances_refl (mkSequence (<[c := a']> anims) c (Some f)));
        cbn [seq_callback seq_animations current]; [done|by rewrite length_insert|done].
  - unfold sequence_finish. cbn [seq_callback seq_animations current].
    destruct (anims !! i) as [[sync_i [| |]]|];
      try (intros [= <- <-]; by apply advances_refl).
    unfold report.
    destruct (onComplete fuel _ b) as [[s2 cs]|] eqn:E2; [|done].
    cbn [mbind option_bind]. intros [= <- <-].
    apply onComplete_advances in E2; cbn [seq_callback seq_animations current];
      [|done|by rewrite length_insert|done].
    exact E2.
Qed.

Lemma completed_iff_advances s tr s' out :
  completed_iff f n s tr → advances f n s s' out → completed_iff f n s' (tr ++ out).
Proof.
  intros (H1 & H2 & H3 & H4) (A1 & A2 & A3 & A4 & A5 & A6).
  split_and!; try done. rewrite callbacks_app, elem_of_app. split.
  - intros [Htr|Hout]; [|by apply A5]. apply H4 in Htr. lia.
  - intros E. destruct (A6 E) as [?|?]; [left; by apply H4|by right].
Qed.

Lemma sequence_events_completed_iff fuel events : ∀ s tr s' out,
  completed_iff f n s tr → sequence_events fuel s events = Some (s', out) →
  completed_iff f n s' (tr ++ out).
Proof.
  induction events as [|e events IH]; intros s tr s' out Hinv.
  - intros [= <- <-]. by rewrite app_nil_r.
  - cbn [sequence_events].
    destruct (sequence_step fuel s e) as [[s1 out1]|] eqn:E1; [|done].
    cbn [mbind option_bind].
    destruct (sequence_events fuel s1 events) as [[s2 out2]|] eqn:E2; [|done].
    cbn [mbind option_bind]. intros [= <- <-].
    rewrite app_assoc. eapply IH; [|exact E2].
    eapply completed_iff_advances; [exact Hinv|].
    destruct Hinv as (H1 & H2 & H3 & _).
    by eapply sequence_step_advances.
Qed.

End SequenceMore.

Section SequenceAgain.
Import Composite.

Lemma sequence_events_empty fuel events : ∀ s,
  seq_animations s = [] →
  sequence_events fuel s events = Some (s, []).
Proof.
  induction events as [|e events IH]; intros s Hs; [done|].
  cbn [sequence_events].
  assert (sequence_step fuel s e = Some (s, [])) as ->.
  { destruct e as [|i b]; cbn [sequence_step].
    - unfold sequence_stop. rewrite Hs. by destruct (current s).
    - unfold sequence_finish. by rewrite Hs. }
  cbn [mbind option_bind]. by rewrite IH.
Qed.

(** X14.  A [sequence] of at least one animation cannot be started again
    once it has run to its end: after the callback was called with [true],
    [current] is the length of the list, so that a further [start] reads
    [animations[current]], which is [undefined], and throws, whatever the
    callback; [stop()] does nothing then.  An empty sequence calls the
    callback with [true] at every [start]. *)
Theorem sequence_start_after_completion
  (syncs : list (option bool)) (f : fn) (events : list event) (fuel : nat) :
  length syncs ≤ fuel →
  ∃ s tr,
    sequence_run fuel syncs (Some f) events = Some (s, tr) ∧
    (syncs ≠ [] → true ∈ callbacks tr →
     ∀ fuel' g, sequence_start fuel' s g = None ∧
                sequence_stop fuel' s = Some (s, [])) ∧
    (syncs = [] →
     ∀ fuel' g, snd <$> sequence_start fuel' s g = Some (call_callback g true)).
Proof.
  intros Hfuel. destruct (decide (syncs = [])) as [->|Hne].
  - unfold sequence_run, sequence_start, sequence_new. cbn.
    rewrite sequence_events_empty by done. cbn. eexists _, _.
    split; [done|]. split; [done|]. intros _ fuel' g. done.
  - assert (Hn : length syncs ≠ 0) by by destruct syncs.
    destruct (sequence_run_spec syncs f fuel events Hfuel Hn) as (s & tr & Hrun & _).
    exists s, tr. split; [done|]. split; [|done]. intros _ Htrue.
    assert (Hinv : SequenceState.completed_iff f (length syncs) s tr).
    { revert Hrun. unfold sequence_run, sequence_start, sequence_new.
      cbn [seq_animations current seq_callback]. rewrite length_fmap.
      rewrite (proj2 (Nat.eqb_neq _ 0) Hn).
      destruct (start_current _ _) as [[s1 out1]|] eqn:E1; [|done].
      cbn [mbind option_bind].
      destruct (sequence_events fuel s1 events) as [[s2 out2]|] eqn:E2; [|done].
      cbn [mbind option_bind]. intros [= <- <-].
      eapply sequence_events_completed_iff; [|exact E2].
      revert E1. unfold start_current. cbn [seq_animations current seq_callback].
      destruct (_ !! 0) as [a|] eqn:Ha; [|done]. cbn [mbind option_bind].
      destruct (animation_start a) as [[a' [b'|]]|]; cbn [mbind option_bind]; [| |done].
      - destruct (onComplete fuel _ b') as [[s3 cs]|] eqn:E3; [|done].
        cbn [mbind option_bind]. intros [= <- <-].
        apply (onComplete_advances f (length syncs)) in E3;
          cbn [seq_callback seq_animations current];
          [|done|by rewrite length_insert, length_fmap|lia].
        destruct E3 as (A1 & A2 & A3 & A4 & A5 & A6).
        change (callbacks (Start 0 :: Done 0 b' :: cs)) with (callbacks cs).
        split_and!; try done. split; [done|].
        intros E. destruct (A6 E) as [?|?]; [simpl in *; lia|done].
      - intros [= <- <-]. split_and!; cbn [seq_callback seq_animations current callbacks omap];
          [done|by rewrite length_insert, length_fmap|lia|].
        split; [by intros ?%elem_of_nil|lia]. }
    destruct Hinv as (H1 & H2 & H3 & H4). apply H4 in Htrue.
    intros fuel' g. split.
    + unfold sequence_start. cbn [seq_animations current seq_callback].
      rewrite H2, (proj2 (Nat.eqb_neq _ 0) Hn). unfold start_current.
      cbn [seq_animations current seq_callback].
      rewrite (lookup_ge_None_2 (seq_animations s) (current s)) by lia. done.
    + unfold sequence_stop. rewrite H2, Htrue, Nat.ltb_irrefl. done.
Qed.

Lemma sequence_start_after_completion_witness :
  ∃ s tr,
    sequence_run 2 [Some true; None] (Some 1) [EvFinish 1 true] = Some (s, tr) ∧
    tr = [Start 0; Done 0 true; Start 1; Done 1 true; Callback 1 true] ∧
    sequence_start 2 s (Some 2) = None ∧ sequence_stop 2 s = Some (s, []).
Proof.
  destruct (sequence_start_after_completion [Some true; None] 1 [EvFinish 1 true] 2)
    as (s & tr & Hrun & Hagain & _); [simpl; lia|].
  exists s, tr. split; [done|].
  assert (Htr : tr = [Start 0; Done 0 true; Start 1; Done 1 true; Callback 1 true]).
  { vm_compute in Hrun. by injection Hrun as _ <-. }
  split; [done|]. apply Hagain; [done|]. rewrite Htr. cbn. left.
Defined.

End SequenceAgain.

(** ** event: the traversal of the mapping and the listener *)

Section EventFacts.
Import Event.

(** Induction on a mapping, with the hypothesis for every property of an
    object. *)
Lemma Mapping_induction (P : Mapping → Prop) :
  (∀ value, P (MValue value)) → (∀ node, P (MInterpolation node)) →
  (∀ fields, Forall (fun kv => P kv.2) fields → P (MObject fields)) →
  P MNull → P MOther → ∀ m, P m.
Proof.
  intros HV HI HO HN HX. fix IH 1. intros [value|node|fields| |].
  - apply HV.
  - apply HI.
  - apply HO. induction fields as [|[key m] fields IHf]; constructor.
    + apply IH.
    + apply IHf.
  - apply HN.
  - apply HX.
Qed.

Lemma sets_property (fields : list (String.string * Evt)) key c path value :
  sets (property fields key) c (path, value) →
  sets (EObject fields) c (key :: path, value).
Proof. intros (x & Hx & ->). by exists x. Qed.

Lemma Forall2_take_app_l {A B} (R : A → B → Prop) (cs : list A) (l1 l2 : list B) :
  Forall2 R cs (take (length cs) l1) → Forall2 R cs (take (length cs) (l1 ++ l2)).
Proof.
  intros HF. pose proof (Forall2_length _ _ _ HF) as Hlen.
  rewrite length_take in Hlen. rewrite take_app_le by lia. done.
Qed.

Lemma Forall2_take_app_r {A B} (R : A → B → Prop) (cs cs' : list A) (l1 l2 : list B) :
  Forall2 R cs l1 → Forall2 R cs' (take (length cs') l2) →
  Forall2 R (cs ++ cs') (take (length (cs ++ cs')) (l1 ++ l2)).
Proof.
  intros H1 H2. pose proof (Forall2_length _ _ _ H1) as Hlen.
  rewrite length_app, Hlen, take_app_add. by apply Forall2_app.
Qed.

Lemma for_in_cons traverse evt_fields key m fields :
  for_in traverse evt_fields ((key, m) :: fields)
  = let '(cs, ok) := traverse m (property evt_fields key) in
    if ok then let '(cs', ok') := for_in traverse evt_fields fields in (cs ++ cs', ok')
    else (cs, false).
Proof. reflexivity. Qed.

Lemma paths_in_cons paths key m fields :
  paths_in paths ((key, m) :: fields)
  = ((fun '(path, value) => (key :: path, value)) <$> paths m) ++ paths_in paths fields.
Proof. reflexivity. Qed.

Lemma traverse_spec (m : Mapping) : ∀ e,
  Forall2 (sets e) (traverse m e).1 (take (length (traverse m e).1) (paths m)) ∧
  ((traverse m e).2 = true → length (traverse m e).1 = length (paths m)).
Proof.
  induction m as [value|node|fields IHf| |] using Mapping_induction; intros e.
  - destruct e as [x| | |]; simpl; try (split; [by constructor|done]).
    split; [|done]. constructor; [by exists x|constructor].
  - simpl. split; [constructor|done].
  - destruct e as [x|evt_fields| |]; try (simpl; split; [constructor|done]).
    + cbn [traverse paths].
      induction fields as [|[key m] fields IH]; [simpl; split; [constructor|done]|].
      apply Forall_cons in IHf as [Hm IHf]. specialize (IH IHf).
      rewrite for_in_cons, paths_in_cons.
      simpl in Hm. specialize (Hm (property evt_fields key)).
      destruct (traverse m (property evt_fields key)) as [cs ok]. simpl in Hm.
      destruct Hm as [Hcs Hok].
      assert (Hcs' : Forall2 (sets (EObject evt_fields)) cs
                (take (length cs) ((fun '(path, value) => (key :: path, value)) <$> paths m))).
      { rewrite <- fmap_take. apply Forall2_fmap_r.
        eapply Forall2_impl; [exact Hcs|]. intros c [path value].
        apply sets_property. }
      destruct ok.
      * destruct (for_in traverse evt_fields fields) as [cs' ok'].
        simpl in IH. destruct IH as [Hcs2 Hok2]. simpl. split.
        -- apply Forall2_take_app_r; [|done].
           rewrite take_ge in Hcs' by (rewrite length_fmap, Hok; done). done.
        -- intros ->. rewrite !length_app, length_fmap, Hok, Hok2; done.
      * simpl. split; [|done]. by apply Forall2_take_app_l.
    + destruct fields; simpl; (split; [constructor|done]).
  - destruct e; simpl; (split; [constructor|done]).
  - simpl. split; [constructor|done].
Qed.

Lemma checks_in_cons checks key m fields :
  checks_in checks ((key, m) :: fields)
  = ((fun '(path, ck) => (key :: path, ck)) <$> checks m) ++ checks_in checks fields.
Proof. reflexivity. Qed.

Lemma passed_app e l1 l2 :
  passed e (l1 ++ l2)
  = if forallb (passes e) l1 then l1 ++ passed e l2 else passed e l1.
Proof.
  induction l1 as [|pc l1 IH]; [done|]. simpl.
  destruct (passes e pc); [|done]. simpl. rewrite IH.
  by destruct (forallb (passes e) l1).
Qed.

Lemma passed_all e l : forallb (passes e) l = true → passed e l = l.
Proof.
  induction l as [|pc l IH]; [done|]. simpl. destruct (passes e pc); [|done].
  simpl. intros Hl. by rewrite IH.
Qed.

Lemma forallb_app_bool {A} (p : A → bool) l1 l2 :
  forallb p (l1 ++ l2) = forallb p l1 && forallb p l2.
Proof. induction l1 as [|x l1 IH]; [done|]. simpl. rewrite IH. by destruct (p x). Qed.

Lemma mapped_app l1 l2 : mapped (l1 ++ l2) = mapped l1 ++ mapped l2.
Proof. apply omap_app. Qed.

Lemma passes_property fields key path ck :
  passes (EObject fields) (key :: path, ck) = passes (property fields key) (path, ck).
Proof. reflexivity. Qed.

Lemma forallb_prefix fields key l :
  forallb (passes (EObject fields)) ((fun '(path, ck) => (key :: path, ck)) <$> l)
  = forallb (passes (property fields key)) l.
Proof.
  induction l as [|[path ck] l IH]; [done|]. rewrite fmap_cons. cbn [forallb].
  by rewrite IH, passes_property.
Qed.

Lemma passed_prefix fields key l :
  passed (EObject fields) ((fun '(path, ck) => (key :: path, ck)) <$> l)
  = (fun '(path, ck) => (key :: path, ck)) <$> passed (property fields key) l.
Proof.
  induction l as [|[path ck] l IH]; [done|]. rewrite fmap_cons. cbn [passed].
  rewrite passes_property. destruct (passes (property fields key) (path, ck)); [|done].
  by rewrite fmap_cons, IH.
Qed.

Lemma mapped_prefix key l :
  mapped ((fun '(path, ck) => (key :: path, ck)) <$> l)
  = (fun '(path, value) => (key :: path, value)) <$> mapped l.
Proof.
  induction l as [|[path ck] l IH]; [done|].
  rewrite fmap_cons. unfold mapped. simpl.
  destruct ck; simpl; [f_equal|..]; apply IH.
Qed.

Lemma mapped_checks (m : Mapping) : mapped (checks m) = paths m.
Proof.
  induction m as [value|node|fields IHf| |] using Mapping_induction; try done.
  change (mapped (checks_in checks fields) = paths_in paths fields).
  induction fields as [|[key m] fields IH]; [done|].
  apply Forall_cons in IHf as [Hm IHf].
  rewrite checks_in_cons, paths_in_cons, mapped_app, mapped_prefix, (IH IHf).
  simpl in Hm. by rewrite Hm.
Qed.

(** [traverse] stops at the first test that the argument does not pass:
    it returns when there is none, and it has set the values mapped before
    that test. *)
Lemma traverse_checks (m : Mapping) : ∀ e,
  (traverse m e).2 = forallb (passes e) (checks m) ∧
  Forall2 (sets e) (traverse m e).1 (mapped (passed e (checks m))).
Proof.
  induction m as [value|node|fields IHf| |] using Mapping_induction; intros e.
  - destruct e as [x| | |]; simpl; (split; [done|]); try constructor.
    + by exists x.
    + constructor.
  - simpl. split; [done|]. unfold passes. simpl. by destruct e; constructor.
  - destruct e as [x|evt_fields| |].
    + simpl. split; [done|constructor].
    + change ((for_in traverse evt_fields fields).2
              = forallb (passes (EObject evt_fields)) (checks_in checks fields) ∧
              Forall2 (sets (EObject evt_fields)) (for_in traverse evt_fields fields).1
                (mapped (passed (EObject evt_fields) (checks_in checks fields)))).
      induction fields as [|[key m] fields IH]; [simpl; split; [done|constructor]|].
      apply Forall_cons in IHf as [Hm IHf]. specialize (IH IHf).
      rewrite for_in_cons, checks_in_cons, forallb_app_bool, passed_app.
      rewrite forallb_prefix, passed_prefix.
      simpl in Hm. specialize (Hm (property evt_fields key)).
      destruct (traverse m (property evt_fields key)) as [cs ok]. simpl in Hm.
      destruct Hm as [Hok Hcs]. rewrite <- Hok.
      assert (Hcs' : Forall2 (sets (EObject evt_fields)) cs
                (mapped ((fun '(path, ck) => (key :: path, ck))
                           <$> passed (property evt_fields key) (checks m)))).
      { rewrite mapped_prefix. apply Forall2_fmap_r.
        eapply Forall2_impl; [exact Hcs|]. intros c [path value].
        apply sets_property. }
      destruct ok.
      * destruct (for_in traverse evt_fields fields) as [cs' ok'].
        cbn [fst snd] in IH. destruct IH as [Hok2 Hcs2]. cbn [fst snd andb].
        split; [done|]. rewrite mapped_app.
        rewrite passed_all in Hcs' by done. by apply Forall2_app.
      * cbn [fst snd andb]. done.
    + destruct fields; simpl; (split; [done|constructor]).
    + simpl. split; [done|constructor].
  - destruct e; simpl; (split; [done|constructor]).
  - simpl. split; [done|]. unfold passes. simpl. by destruct e; constructor.
Qed.

(** X15.  The traversal of a mapping against an argument of the handler
    tests the parts of the argument in the order of the mapping and stops
    at the first test that fails: it returns exactly when the argument
    passes every test (a number for each mapped value, an object for each
    object of the mapping; an AnimatedInterpolation or a part of the
    mapping that is not an object always fails), and it throws otherwise.
    Its calls are the [setValue] of the values mapped before the first
    failing test, in the order of the mapping, each with the number found
    in the argument under the same property names; properties of the
    argument that the mapping does not name are ignored.  So when the
    traversal returns, every mapped value was set exactly once. *)
Theorem traverse_sets_mapped_values (m : Mapping) (e : Evt) :
  let '(cs, ok) := traverse m e in
  ok = forallb (passes e) (checks m) ∧
  Forall2 (sets e) cs (mapped (passed e (checks m))) ∧
  mapped (checks m) = paths m ∧
  Forall2 (sets e) cs (take (length cs) (paths m)) ∧
  (ok = true → Forall2 (sets e) cs (paths m)).
Proof.
  pose proof (traverse_spec m e) as [H1 H2].
  pose proof (traverse_checks m e) as [H3 H4].
  destruct (traverse m e) as [cs ok]. simpl in *.
  split; [done|]. split; [done|]. split; [apply mapped_checks|]. split; [done|].
  intros Hok. rewrite take_ge in H1 by (rewrite H2; done). done.
Qed.

Lemma forEach_mapping_SetValue idx argMapping args :
  Forall (fun c => is_SetValue c = true) (forEach_mapping idx argMapping args).1.
Proof.
  revert idx. induction argMapping as [|m argMapping IH]; intros idx; [constructor|].
  simpl. pose proof (traverse_spec m (nth idx args EOther)) as [Hm _].
  destruct (traverse m (nth idx args EOther)) as [cs ok]. simpl in Hm.
  assert (Hcs : Forall (fun c => is_SetValue c = true) cs).
  { apply Forall_forall. intros c Hc.
    apply list_elem_of_lookup in Hc as [i Hi].
    destruct (Forall2_lookup_l _ _ _ _ _ Hm Hi) as (pv & _ & x & _ & ->). done. }
  destruct ok; [|done].
  specialize (IH (S idx)). destruct (forEach_mapping (S idx) argMapping args) as [cs' ok'].
  simpl in *. by apply Forall_app.
Qed.

Lemma filter_SetValue_only (p : call → bool) (cs : list call) :
  (∀ value x, p (SetValue value x) = false) →
  Forall (fun c => is_SetValue c = true) cs → filter p cs = [].
Proof.
  intros Hp. induction 1 as [|c cs Hc _ IH]; [done|].
  destruct c; try done. rewrite filter_cons, Hp.
  by rewrite decide_False by (by intros []).
Qed.

(** A call of the handler while a timer is pending and the handler is
    enabled: it schedules nothing and does not call the listener. *)
Lemma handler_pending argMapping callback period s args now :
  isEnabled s = true → timer s = true →
  let '(s', cs) :=
    handler argMapping (Some (mkConfig (Some callback) period)) s args now in
  filter is_Listener cs = [] ∧ filter is_SetTimeout cs = [] ∧
  isEnabled s' = true ∧ timer s' = true ∧ lastArgs s' = args.
Proof.
  intros He Ht. unfold handler. cbn [isEnabled timer lastArgs lastUpdate].
  rewrite He, Ht. cbn [negb].
  pose proof (forEach_mapping_SetValue 0 argMapping args) as Hcs.
  destruct (forEach_mapping 0 argMapping args) as [cs ok]. simpl in Hcs.
  destruct ok; cbn [negb listener]; cbn [isEnabled timer lastArgs].
  - split_and!; try done; by apply filter_SetValue_only.
  - rewrite !filter_app, !(filter_SetValue_only _ cs) by done. done.
Qed.

(** X16.  The listener of an [event] with an update period is throttled.
    A call of the handler that finds no timer pending sets one, for
    [updatePeriod - now + lastUpdate] ms, and does not call the listener;
    the calls that follow while the timer is pending set none and do not
    call the listener either; and when the timer fires the listener is
    called once, with the arguments of the latest call of the handler, not
    with those of the call that set the timer. *)
Theorem event_listener_is_throttled
  (argMapping : list Mapping) (callback : fn) (period : float) (s : state)
  (args : list Evt) (now : Z) (ops : list op) (fired : Z) :
  Driver.truthy period = true →
  isEnabled s = true → timer s = false →
  (forEach_mapping 0 argMapping args).2 = true →
  calls_only ops →
  let '(s', cs) :=
    run argMapping (Some (mkConfig (Some callback) (Some period))) s
      (Call args now :: ops ++ [Fire fired]) in
  filter is_SetTimeout cs
  = [SetTimeout (period - Driver.of_Z now + Driver.of_Z (lastUpdate s))%float] ∧
  filter is_Listener cs = [Listener callback (last_args args ops)] ∧
  timer s' = false ∧ lastUpdate s' = fired.
Proof.
  intros Hp He Ht Hok Hops. cbn [run step]. unfold handler.
  cbn [isEnabled timer lastArgs lastUpdate]. rewrite He, Ht. cbn [negb].
  pose proof (forEach_mapping_SetValue 0 argMapping args) as Hcs.
  destruct (forEach_mapping 0 argMapping args) as [cs0 ok]. simpl in Hcs, Hok.
  subst ok. cbn [negb listener updatePeriod]. rewrite Hp.
  cbn [isEnabled timer lastArgs lastUpdate].
  assert (Hrun : ∀ s1, isEnabled s1 = true → timer s1 = true →
    let '(s', cs) :=
      run argMapping (Some (mkConfig (Some callback) (Some period))) s1
        (ops ++ [Fire fired]) in
    filter is_SetTimeout cs = [] ∧
    filter is_Listener cs = [Listener callback (last_args (lastArgs s1) ops)] ∧
    timer s' = false ∧ lastUpdate s' = fired).
  { clear -Hops. induction ops as [|o ops IH]; intros s1 He1 Ht1.
    - simpl. rewrite Ht1. done.
    - apply Forall_cons in Hops as [Ho Hops]. destruct o as [args1 now1| | |]; try done.
      cbn [app run step last_args].
      pose proof (handler_pending argMapping callback (Some period) s1 args1 now1 He1 Ht1)
        as Hh.
      destruct (handler _ _ s1 args1 now1) as [s2 c2].
      destruct Hh as (H1 & H2 & H3 & H4 & H5).
      specialize (IH Hops s2 H3 H4).
      destruct (run _ _ s2 (ops ++ [Fire fired])) as [s3 c3].
      destruct IH as (I1 & I2 & I3 & I4).
      rewrite !filter_app, H1, H2, I1, I2, H5. done. }
  specialize (Hrun (mkState (lastUpdate s) true true args) eq_refl eq_refl).
  destruct (run _ _ _ (ops ++ [Fire fired])) as [s' cs].
  cbn [lastArgs] in Hrun. destruct Hrun as (R1 & R2 & R3 & R4).
  rewrite !filter_app, !(filter_SetValue_only _ cs0) by done.
  cbn [app]. rewrite !filter_cons. cbn [is_SetTimeout is_Listener].
  rewrite decide_True by done. rewrite decide_False by (by intros []).
  rewrite !filter_nil. cbn [app]. by rewrite R1, R2.
Qed.

(** X17.  After [disable()], and until [enable()], the handler does
    nothing but record its arguments: it sets no value, whatever the
    mapping and the arguments, it does not throw, it sets no timer and does
    not call the listener; and the listener call that was pending when
    [disable()] was called is not made. *)
Theorem event_disabled_does_nothing
  (argMapping : list Mapping) (config : option Config) (s : state) (ops : list op) :
  Enable ∉ ops →
  let '(s', cs) := run argMapping config s (Disable :: ops) in
  Forall (fun c => c = ClearTimeout) cs ∧
  isEnabled s' = false ∧ timer s' = false.
Proof.
  intros Hops. cbn [run step].
  assert (Hrun : ∀ s1, isEnabled s1 = false → timer s1 = false →
    let '(s', cs) := run argMapping config s1 ops in
    Forall (fun c => c = ClearTimeout) cs ∧ isEnabled s' = false ∧ timer s' = false).
  { clear s. induction ops as [|o ops IH]; intros s1 He Ht; [done|].
    apply not_elem_of_cons in Hops as [Ho Hops]. specialize (IH Hops).
    cbn [run].
    assert (Hstep : let '(s2, c2) := step argMapping config s1 o in
              Forall (fun c => c = ClearTimeout) c2 ∧
              isEnabled s2 = false ∧ timer s2 = false).
    { destruct o as [args now|now| |]; cbn [step]; [| |done|].
      - unfold handler. cbn [isEnabled]. rewrite He. cbn [negb].
        split; [by repeat constructor|done].
      - destruct config as [[[callback|] period]|]; cbn [listener]; try done.
        rewrite Ht. done.
      - split; [by repeat constructor|done]. }
    destruct (step argMapping config s1 o) as [s2 c2].
    destruct Hstep as (S1 & S2 & S3). specialize (IH s2 S2 S3).
    destruct (run argMapping config s2 ops) as [s3 c3].
    destruct IH as (I1 & I2 & I3). split; [by apply Forall_app|done]. }
  specialize (Hrun (mkState (lastUpdate s) false false (lastArgs s)) eq_refl eq_refl).
  destruct (run argMapping config _ ops) as [s' cs].
  destruct Hrun as (R1 & R2 & R3). split; [|done].
  by constructor.
Qed.

End EventFacts.

Lemma traverse_sets_mapped_values_witness :
  Event.traverse Examples.scroll_mapping (Examples.scroll_event 120)
  = ([Event.SetValue 1 120%float], true) ∧
  Forall2 (Event.sets (Examples.scroll_event 120)) [Event.SetValue 1 120%float]
    (Event.paths Examples.scroll_mapping) ∧
  (Event.traverse Examples.scroll_mapping Event.ENull).2
  = forallb (Event.passes Event.ENull) (Event.checks Examples.scroll_mapping).
Proof.
  pose proof (traverse_sets_mapped_values Examples.scroll_mapping
                (Examples.scroll_event 120)) as Hw.
  pose proof (traverse_sets_mapped_values Examples.scroll_mapping Event.ENull) as Hn.
  assert (E : Event.traverse Examples.scroll_mapping (Examples.scroll_event 120)
              = ([Event.SetValue 1 120%float], true)) by (vm_compute; reflexivity).
  rewrite E in Hw. split; [done|]. split; [by apply Hw|].
  destruct (Event.traverse Examples.scroll_mapping Event.ENull) as [cs ok].
  apply Hn.
Defined.

Lemma event_listener_is_throttled_witness :
  let '(s', cs) :=
    Event.run [Examples.scroll_mapping]
      (Some (Event.mkConfig (Some 3) (Some 100%float))) Event.init
      (Event.Call [Examples.scroll_event 10] 5000
       :: [Event.Call [Examples.scroll_event 20] 5030;
           Event.Call [Examples.scroll_event 30] 5060] ++ [Event.Fire 5100]) in
  filter Event.is_SetTimeout cs = [Event.SetTimeout (100 - 5000 + 0)%float] ∧
  filter Event.is_Listener cs = [Event.Listener 3 [Examples.scroll_event 30]] ∧
  Event.timer s' = false ∧ Event.lastUpdate s' = 5100%Z.
Proof.
  apply (event_listener_is_throttled [Examples.scroll_mapping] 3 100%float Event.init
           [Examples.scroll_event 10] 5000
           [Event.Call [Examples.scroll_event 20] 5030;
            Event.Call [Examples.scroll_event 30] 5060] 5100);
    [vm_compute; reflexivity | reflexivity | reflexivity | vm_compute; reflexivity
    | repeat constructor].
Defined.

Lemma event_disabled_does_nothing_witness :
  let '(s', cs) :=
    Event.run [Examples.scroll_mapping]
      (Some (Event.mkConfig (Some 3) (Some 100%float)))
      (Event.mkState 0 true true [])
      (Event.Disable
       :: [Event.Call [Examples.scroll_event 20] 5030; Event.Fire 5100;
           Event.Call [Event.ENumber 1] 5200]) in
  Forall (fun c => c = Event.ClearTimeout) cs ∧
  Event.isEnabled s' = false ∧ Event.timer s' = false.
Proof.
  apply (event_disabled_does_nothing [Examples.scroll_mapping]
           (Some (Event.mkConfig (Some 3) (Some 100%float)))
           (Event.mkState 0 true true [])
           [Event.Call [Examples.scroll_event 20] 5030; Event.Fire 5100;
            Event.Call [Event.ENumber 1] 5200]).
  rewrite list_elem_of_In. simpl. intuition discriminate.
Defined.

(** ** parallel: stop() before start() *)

Section ParallelStoppedFirst.
Import Composite.
Variable syncs : list (option bool).
Variable f : fn.

Lemma stops_fmap_Stop l : stops (Stop <$> l) = l.
Proof.
  induction l as [|i l IH]; [done|].
  rewrite fmap_cons.
  change (stops (Stop i :: (Stop <$> l))) with (i :: stops (Stop <$> l)).
  by rewrite IH.
Qed.

Lemma starts_fmap_Stop l : starts (Stop <$> l) = [].
Proof. by induction l. Qed.

Lemma dones_fmap_Stop l : dones (Stop <$> l) = [].
Proof. by induction l. Qed.

Lemma callbacks_fmap_Stop l : callbacks (Stop <$> l) = [].
Proof. by induction l. Qed.

(** [stop()] on a [parallel] that was not started: every animation has its
    [stop()] called, none reports, and only [hasBeenStopped] changes. *)
Lemma parallel_stop_new fuel :
  2 ≤ fuel →
  parallel_stop fuel (parallel_new (fresh <$> syncs))
  = Some (mkParallel (fresh <$> syncs) 0 true None, Stop <$> seq 0 (length syncs)).
Proof.
  intros Hfuel. destruct fuel as [|fuel]; [lia|]. rewrite parallel_stop_S.
  unfold parallel_new. cbn [par_animations doneCount par_callback]. rewrite length_fmap.
  destruct (forEach_rule syncs (stop_one (handler fuel))
              (fun idx s1 out1 =>
                 s1 = mkParallel (fresh <$> syncs) 0 true None ∧
                 out1 = Stop <$> seq 0 idx)
              (length syncs) (mkParallel (fresh <$> syncs) 0 true None))
    as (s' & out & -> & -> & ->); [done| |done].
  intros idx s1 out1 Hidx [-> ->].
  destruct (lookup_lt_is_Some_2 syncs idx Hidx) as [sy Hsy].
  unfold stop_one. cbn [par_animations]. rewrite list_lookup_fmap, Hsy.
  cbn [fmap option_fmap option_map mbind option_bind fresh animation_stop state].
  eexists _, _. split; [done|]. split.
  - unfold set_animation. cbn [par_animations doneCount hasBeenStopped par_callback].
    rewrite list_insert_id; [done|]. by rewrite list_lookup_fmap, Hsy.
  - by rewrite seq_S, fmap_app.
Qed.

(** The loop of [start] in a [parallel] that was stopped before. *)
Lemma start_loop_stopped fuel :
  length syncs ≠ 0 → 3 ≤ fuel →
  ∃ s' out,
    forEach (length syncs) (start_one fuel)
      (mkParallel (fresh <$> syncs) 0 true (Some f)) = Some (s', out) ∧
    par_inv syncs f s' ((Stop <$> seq 0 (length syncs)) ++ out) ∧
    hasBeenStopped s' = true ∧
    starts out = seq 0 (length syncs) ∧ stops out = [].
Proof.
  intros Hn Hfuel. set (tr0 := Stop <$> seq 0 (length syncs)).
  destruct (forEach_rule syncs (start_one fuel)
              (fun idx s1 out1 =>
                 par_inv syncs f s1 (tr0 ++ out1) ∧ hasBeenStopped s1 = true ∧
                 starts out1 = seq 0 idx ∧
                 (∀ i a, idx ≤ i → par_animations s1 !! i = Some a → state a = Idle) ∧
                 stops out1 = [])
              (length syncs) (mkParallel (fresh <$> syncs) 0 true (Some f)))
    as (s' & out & Hrun & HI).
  - split_and!; try done.
    + rewrite app_nil_r.
      pose proof (par_inv_stopped syncs f _ [] (par_inv_new syncs f Hn)) as H0.
      cbn [par_animations doneCount par_callback] in H0.
      apply (par_inv_app syncs f _ [] tr0 H0);
        [apply dones_fmap_Stop|apply callbacks_fmap_Stop].
    + intros i a _ Hi. cbn [par_animations] in Hi. rewrite list_lookup_fmap in Hi.
      destruct (syncs !! i); [|done]. by injection Hi as <-.
  - intros idx s1 out1 Hidx (Hinv1 & Hhs & Hst & Hidle & Hsp).
    pose proof (par_inv_length _ _ _ _ Hinv1) as Hlen.
    destruct (lookup_lt_is_Some_2 (par_animations s1) idx) as [[sy st] Ha]; [lia|].
    pose proof (Hidle idx _ ltac:(lia) Ha) as Hst_idle. cbn [state] in Hst_idle. subst st.
    unfold start_one. rewrite Ha. cbn [mbind option_bind].
    unfold animation_start. cbn [state sync].
    assert (Hinv2 : par_inv syncs f s1 ((tr0 ++ out1) ++ [Start idx]))
      by by apply par_inv_app.
    destruct sy as [b|]; cbn [mbind option_bind].
    + destruct (report_spec syncs f fuel s1 _ idx (mkAnimation (Some b) Idle) b Hinv2 Ha
                  ltac:(done) Hfuel)
        as (s2 & out2 & Hh & Hinv3 & Hframe & Hst2 & Hacc).
      cbn [sync] in Hh. rewrite Hh. cbn [mbind option_bind].
      assert (hasBeenStopped s2 = true ∧ stops out2 = []) as [Hhs2 Hsp2].
      { destruct Hacc as [[-> ->]|(E & _)]; [done|congruence]. }
      eexists _, _. split; [done|]. split_and!.
      * rewrite <- !app_assoc in Hinv3. exact Hinv3.
      * done.
      * by rewrite starts_app, Hst, seq_S, starts_Start, starts_Done, Hst2.
      * intros i a Hi Hia.
        destruct (lookup_lt_is_Some_2 (par_animations s1) i) as [a1 Ha1].
        { rewrite Hlen, <- (par_inv_length _ _ _ _ Hinv3). by eapply lookup_lt_Some. }
        pose proof (Hidle i a1 ltac:(lia) Ha1) as Hidle1.
        rewrite (Hframe i a1 Ha1 Hidle1 ltac:(lia)) in Hia. by injection Hia as <-.
      * by rewrite stops_app, Hsp, stops_Start, stops_Done, Hsp2.
    + eexists _, _. split; [done|]. split_and!.
      * rewrite app_assoc.
        change (mkAnimation None Running)
          with (mkAnimation (sync (mkAnimation None Idle)) Running).
        by apply par_inv_set.
      * done.
      * by rewrite starts_app, Hst, seq_S.
      * intros i a Hi Hia. cbn [set_animation par_animations] in Hia.
        rewrite list_lookup_insert_ne in Hia by lia. eapply Hidle; [|done]. lia.
      * by rewrite stops_app, Hsp.
  - exists s', out. split; [done|]. destruct HI as (? & ? & ? & _ & ?). done.
Qed.

End ParallelStoppedFirst.

Section ParallelStoppedFirstClaim.
Import Composite.

(** X18.  [stop()] called on a [parallel] before [start()] calls [stop()]
    on every animation and sets [hasBeenStopped] for good.  When the
    [parallel] is started afterwards, every animation is started, in order,
    and, unless the client calls [stop()] again, no animation has its
    [stop()] called any more: an animation that reports [false] before the
    others have finished no longer stops the others. *)
Theorem parallel_stopped_before_start
  (syncs : list (option bool)) (f : fn) (events : list event) (fuel : nat) :
  3 ≤ fuel → syncs ≠ [] → EvStop ∉ events →
  ∃ s0 s1 out1 s2 out2,
    parallel_stop fuel (parallel_new (fresh <$> syncs))
    = Some (s0, Stop <$> seq 0 (length syncs)) ∧
    parallel_start fuel s0 (Some f) = Some (s1, out1) ∧
    parallel_events fuel s1 events = Some (s2, out2) ∧
    starts (out1 ++ out2) = seq 0 (length syncs) ∧
    stops (out1 ++ out2) = [].
Proof.
  intros Hfuel Hne Hnostop.
  assert (Hn : length syncs ≠ 0) by by destruct syncs.
  destruct (start_loop_stopped syncs f fuel Hn Hfuel)
    as (s1 & out1 & Hstart & Hinv1 & Hhs1 & Hst1 & Hsp1).
  destruct (events_spec syncs f fuel false events s1
              ((Stop <$> seq 0 (length syncs)) ++ out1) Hfuel)
    as (s2 & out2 & Hev & Hinv2 & Hst2 & Hsp2).
  - split_and!; [done| |].
    + by rewrite starts_app, starts_fmap_Stop, Hst1.
    + intros _. by rewrite Hhs1, stops_app, stops_fmap_Stop, Hsp1, app_nil_r.
  - done.
  - exists (mkParallel (fresh <$> syncs) 0 true None), s1, out1, s2, out2.
    split; [apply parallel_stop_new; lia|]. split.
    { unfold parallel_start. cbn [par_animations doneCount hasBeenStopped par_callback].
      by rewrite length_fmap, (proj2 (Nat.eqb_neq 0 _)) by lia. }
    split; [done|].
    rewrite <- app_assoc, starts_app, starts_fmap_Stop in Hst2. split; [done|].
    specialize (Hsp2 eq_refl).
    rewrite <- app_assoc, stops_app, stops_fmap_Stop in Hsp2.
    destruct (hasBeenStopped s2).
    + rewrite <- (app_nil_r (seq 0 (length syncs))) in Hsp2 at 2.
      by apply app_inv_head in Hsp2.
    + destruct syncs; [done|]. done.
Qed.

Lemma parallel_stopped_before_start_witness :
  ∃ s0 s1 out1 s2 out2,
    parallel_stop 3 (parallel_new (fresh <$> [None; None]))
    = Some (s0, [Stop 0; Stop 1]) ∧
    parallel_start 3 s0 (Some 1) = Some (s1, out1) ∧
    parallel_events 3 s1 [EvFinish 0 false; EvFinish 1 true] = Some (s2, out2) ∧
    out1 ++ out2 = [Start 0; Start 1; Done 0 false; Done 1 true; Callback 1 true].
Proof.
  destruct (parallel_stopped_before_start [None; None] 1
              [EvFinish 0 false; EvFinish 1 true] 3)
    as (s0 & s1 & out1 & s2 & out2 & Hstop & Hstart & Hev & _); [lia|done| |].
  { rewrite list_elem_of_In. simpl. intuition discriminate. }
  exists s0, s1, out1, s2, out2. split_and!; try done.
  vm_compute in Hstop. injection Hstop as <-.
  vm_compute in Hstart. injection Hstart as <- <-.
  vm_compute in Hev. injection Hev as <- <-. reflexivity.
Defined.

End ParallelStoppedFirstClaim.

(** ** AnimatedVec2: one flush for each coordinate *)

Section Vec2Facts.
Import Graph.

(** Writing a field that is not the child list does not change what is
    found below a node. *)
Lemma reaches_insert h id nd nd' n t :
  h !! id = Some nd →
  has_update nd' = has_update nd → getChildren nd' = getChildren nd →
  reaches (<[id := nd']> h) n t ↔ reaches h n t.
Proof.
  intros Hid Hu Hc. split.
  - induction 1 as [n x Hn Hx|n x c t Hn Hx Hin _ IH].
    + destruct (decide (id = n)) as [->|Hne].
      * rewrite lookup_insert_eq in Hn. injection Hn as <-.
        eapply reaches_here; [done|congruence].
      * rewrite lookup_insert_ne in Hn by done. by eapply reaches_here.
    + destruct (decide (id = n)) as [->|Hne].
      * rewrite lookup_insert_eq in Hn. injection Hn as <-.
        eapply reaches_child; [done|congruence|by rewrite <- Hc|done].
      * rewrite lookup_insert_ne in Hn by done. by eapply reaches_child.
  - induction 1 as [n x Hn Hx|n x c t Hn Hx Hin _ IH].
    + destruct (decide (id = n)) as [->|Hne].
      * eapply reaches_here; [apply lookup_insert_eq|congruence].
      * eapply reaches_here; [by rewrite lookup_insert_ne|done].
    + destruct (decide (id = n)) as [->|Hne].
      * eapply reaches_child; [apply lookup_insert_eq|congruence| |done].
        rewrite Hc. congruence.
      * eapply reaches_child; [by rewrite lookup_insert_ne|done..].
Qed.

(** [setValue] on a ranked graph: it returns, it writes the value's node
    only and leaves its child list alone, and it flushes when the stored
    value changes. *)
Lemma setValue_spec fuel h rank id self v :
  value_at h id = Some self → ranked h rank → rank id < fuel →
  ∃ self' out,
    setValue fuel h id v = Some (<[id := NValue self']> h, out) ∧
    _children self' = _children self ∧
    Vec2.flushes_of h id self v (filter is_Flush out).
Proof.
  intros Hv Hr Hlt.
  assert (Hgen : ∀ self0 pre,
    _children self0 = _children self → _value self0 = _value self →
    filter is_Flush pre = [] →
    ∃ self' out,
      ('(h2, out2) ← _updateValue fuel (<[id := NValue self0]> h) id v;
       Some (h2, pre ++ out2)) = Some (<[id := NValue self']> h, out) ∧
      _children self' = _children self ∧
      Vec2.flushes_of h id self v (filter is_Flush out)).
  { intros self0 pre Hc0 Hv0 Hpre.
    assert (Hr0 : ranked (<[id := NValue self0]> h) rank).
    { eapply ranked_insert; [by apply value_at_lookup|done|done|done]. }
    pose proof (_updateValue_spec fuel _ rank id self0 v (value_at_insert h id self0)
                  Hr0 Hlt) as Hup.
    unfold Vec2.flushes_of. rewrite Hv0 in Hup.
    destruct (PrimFloat.eqb v (_value self)).
    - rewrite Hup. simpl. exists self0, pre. rewrite app_nil_r. done.
    - destruct Hup as (us & -> & Hnd & Hin). simpl.
      exists (set_value self0 v), (pre ++ Flush id us :: notify (set_value self0 v)).
      rewrite insert_insert_eq. split; [done|]. split; [done|].
      exists us. rewrite filter_app, Hpre, filter_cons, filter_Flush_notify.
      split; [done|]. split; [done|]. intros t. rewrite Hin.
      rewrite insert_insert_eq.
      apply (reaches_insert h id (NValue self)); [by apply value_at_lookup|done|done]. }
  destruct (_animation self) as [a|] eqn:Ha.
  - destruct (setValue_stop fuel h id self a v Hv Ha) as (hostcalls & Hh & _ & ->).
    apply Hgen; [done|done|]. by apply filter_stop_calls.
  - unfold setValue. rewrite Hv. simpl. rewrite Ha. simpl.
    destruct (Hgen self []) as (self' & out & E & Hc & Hf); [done|done|done|].
    rewrite insert_id in E by by apply value_at_lookup.
    exists self', out. split; [|done].
    destruct (_updateValue fuel h id v) as [[h2 out2]|]; simpl in *; done.
Qed.

(** X19.  [setValue] of an AnimatedVec2 sets the two coordinates one after
    the other, [x] first: its calls are those of [setValue] on [x] in the
    graph as it is, followed by those of [setValue] on [y] in the graph
    that [x.setValue] leaves.  Each coordinate flushes on its own: there is
    one flush for each coordinate whose stored value changes, so that a
    node with [update()] found below both coordinates is updated twice by
    one [setValue] that changes both, and the first of these updates is
    made before [y] is written. *)
Theorem vec2_setValue_flushes_each_coordinate
  fuel h rank (self : Vec2.AnimatedVec2) (sx sy : AnimatedValue) (vx vy : float) :
  value_at h (Vec2.x self) = Some sx → value_at h (Vec2.y self) = Some sy →
  Vec2.x self ≠ Vec2.y self →
  ranked h rank → rank (Vec2.x self) < fuel → rank (Vec2.y self) < fuel →
  ∃ h1 h' out out_x out_y,
    Vec2.setValue fuel h self (vx, vy) = Some (h', out) ∧ out = out_x ++ out_y ∧
    setValue fuel h (Vec2.x self) vx = Some (h1, out_x) ∧
    setValue fuel h1 (Vec2.y self) vy = Some (h', out_y) ∧
    (snd <$> setValue fuel h (Vec2.x self) vx) = Some out_x ∧
    Vec2.flushes_of h (Vec2.x self) sx vx (filter is_Flush out_x) ∧
    Vec2.flushes_of h (Vec2.y self) sy vy (filter is_Flush out_y).
Proof.
  intros Hx Hy Hne Hr Hfx Hfy.
  destruct (setValue_spec fuel h rank (Vec2.x self) sx vx Hx Hr Hfx)
    as (sx' & out_x & Ex & Hcx & Hflx).
  set (h1 := <[Vec2.x self := NValue sx']> h) in *.
  assert (Hy1 : value_at h1 (Vec2.y self) = Some sy).
  { unfold value_at, h1. rewrite lookup_insert_ne by done. exact Hy. }
  assert (Hr1 : ranked h1 rank).
  { eapply ranked_insert; [by apply value_at_lookup|done|done|done]. }
  destruct (setValue_spec fuel h1 rank (Vec2.y self) sy vy Hy1 Hr1 Hfy)
    as (sy' & out_y & Ey & Hcy & Hfly).
  exists h1, (<[Vec2.y self := NValue sy']> h1), (out_x ++ out_y), out_x, out_y.
  split; [|split; [done|split; [done|split; [done|split; [by rewrite Ex|split;
    [done|]]]]]].
  - unfold Vec2.setValue. cbn [fst snd]. rewrite Ex. simpl. by rewrite Ey.
  - unfold Vec2.flushes_of in *. destruct (PrimFloat.eqb vy (_value sy)); [done|].
    destruct Hfly as (us & E & Hnd & Hin). exists us. split; [done|]. split; [done|].
    intros t. rewrite Hin.
    apply (reaches_insert h (Vec2.x self) (NValue sx)); [by apply value_at_lookup|done|done].
Qed.

Lemma vec2_setValue_flushes_each_coordinate_witness :
  ∃ h' out_y us,
    Vec2.setValue 6 Examples.vec2_heap (Vec2.mkVec2 0 1) (7%float, 8%float)
    = Some (h', [Flush 0 [2]] ++ out_y) ∧
    filter is_Flush out_y = [Flush 1 us] ∧ NoDup us ∧
    ∀ t, t ∈ us ↔ reaches Examples.vec2_heap 1 t.
Proof.
  destruct (vec2_setValue_flushes_each_coordinate 6 Examples.vec2_heap
              Examples.example_rank (Vec2.mkVec2 0 1)
              Examples.coordinate Examples.coordinate 7%float 8%float)
    as (h1 & h' & out & out_x & out_y & E & -> & _ & _ & Ex & _ & Hfy).
  - reflexivity.
  - reflexivity.
  - simpl. lia.
  - apply rankedb_ranked. vm_compute. reflexivity.
  - vm_compute. lia.
  - vm_compute. lia.
  - vm_compute in Ex. injection Ex as <-.
    unfold Vec2.flushes_of in Hfy. simpl in Hfy.
    destruct Hfy as (us & Hus & Hnd & Hin).
    exists h', out_y, us. done.
Defined.

End Vec2Facts.

(** ** Wiring: attach and detach keep the graph wired *)

Section WiringLists.
Import Wiring.

Lemma occ_nil x : occ x [] = 0.
Proof. done. Qed.

Lemma occ_app x l1 l2 : occ x (l1 ++ l2) = occ x l1 + occ x l2.
Proof. unfold occ. by rewrite filter_app, length_app. Qed.

Lemma occ_cons x y l : occ x (y :: l) = (if decide (y = x) then 1 else 0) + occ x l.
Proof. unfold occ. rewrite filter_cons. by destruct (decide (y = x)). Qed.

Lemma occ_singleton x y : occ x [y] = if decide (y = x) then 1 else 0.
Proof. rewrite occ_cons, occ_nil. by destruct (decide (y = x)). Qed.

Lemma occ_zero x l : occ x l = 0 ↔ x ∉ l.
Proof.
  induction l as [|y l IH]; [split; [intros _; apply not_elem_of_nil|done]|].
  rewrite occ_cons, not_elem_of_cons. destruct (decide (y = x)) as [->|Hne].
  - split; [lia|]. by intros [? _].
  - rewrite <- IH. split; [intros; split; [congruence|lia]|]. intros [_ ?]. lia.
Qed.

Lemma occ_pos x l : 0 < occ x l ↔ x ∈ l.
Proof.
  destruct (decide (x ∈ l)) as [Hin|Hn].
  - split; [done|]. intros _. destruct (occ x l) eqn:E; [|lia].
    by apply occ_zero in E.
  - split; [|done]. apply occ_zero in Hn. lia.
Qed.

(** Deleting the first occurrence of [c]. *)
Lemma occ_delete_indexOf l c i x :
  WithChildren.indexOf l c = Some i →
  occ x (delete i l) + (if decide (c = x) then 1 else 0) = occ x l.
Proof.
  intros Hi. destruct (indexOf_Some _ _ _ Hi) as (l1 & l2 & -> & _ & _ & ->).
  rewrite !occ_app, occ_cons. lia.
Qed.

Lemma indexOf_is_Some l c : c ∈ l → is_Some (WithChildren.indexOf l c).
Proof.
  intros Hin. destruct (WithChildren.indexOf l c) eqn:E; [done|].
  by apply indexOf_None in E.
Qed.

End WiringLists.

Section WiringHeaps.
Import Wiring.

Lemma children_of_insert (h : heap) p nd q :
  children_of (<[p := nd]> h) q
  = if decide (q = p) then children nd else children_of h q.
Proof.
  unfold children_of. destruct (decide (q = p)) as [->|Hne].
  - by rewrite lookup_insert_eq.
  - by rewrite lookup_insert_ne.
Qed.

Lemma children_of_lookup (h : heap) q nd : h !! q = Some nd → children_of h q = children nd.
Proof. unfold children_of. by intros ->. Qed.

Lemma strip_eq (a b : node) : strip a = strip b → children a = children b → a = b.
Proof. destruct a, b. unfold strip, set_children. simpl. by intros [= -> -> -> ->] ->. Qed.

Lemma strip_set_children nd l : strip (set_children nd l) = strip nd.
Proof. done. Qed.

Lemma same_skeleton_refl h : same_skeleton h h.
Proof. by intros x. Qed.

Lemma same_skeleton_trans h1 h2 h3 :
  same_skeleton h1 h2 → same_skeleton h2 h3 → same_skeleton h1 h3.
Proof. intros H12 H23 x. by rewrite H23, H12. Qed.

Lemma same_skeleton_insert h p nd l :
  h !! p = Some nd → same_skeleton h (<[p := set_children nd l]> h).
Proof.
  intros Hp x. destruct (decide (x = p)) as [->|Hne].
  - by rewrite lookup_insert_eq, Hp.
  - by rewrite lookup_insert_ne.
Qed.

(** A node of [h'] is the node of [h] with another child list. *)
Lemma same_skeleton_lookup h h' x nd :
  same_skeleton h h' → h !! x = Some nd →
  h' !! x = Some (set_children nd (children_of h' x)).
Proof.
  intros Hs Hx. specialize (Hs x). rewrite Hx in Hs. unfold children_of.
  destruct (h' !! x) as [nd'|]; [|done]. simpl in Hs. injection Hs as Hs.
  f_equal. destruct nd, nd'. unfold set_children. simpl in *. congruence.
Qed.

Lemma same_skeleton_lookup_inv h h' x nd' :
  same_skeleton h h' → h' !! x = Some nd' →
  h !! x = Some (set_children nd' (children_of h x)).
Proof.
  intros Hs Hx. specialize (Hs x). rewrite Hx in Hs. unfold children_of.
  destruct (h !! x) as [nd|]; [|done]. simpl in Hs. injection Hs as Hs.
  f_equal. destruct nd, nd'. unfold set_children. simpl in *. congruence.
Qed.

Lemma targets_set_children nd l : targets (set_children nd l) = targets nd.
Proof. done. Qed.

Lemma ranked_skeleton h h' rank :
  ranked h rank → same_skeleton h h' → ranked h' rank.
Proof.
  intros Hr Hs m nd' p Hm Hp.
  pose proof (same_skeleton_lookup_inv _ _ _ _ Hs Hm) as Hm0.
  destruct (Hr m _ p Hm0 Hp) as (Hlt & ndp & Hp0 & Hk).
  split; [done|]. exists (set_children ndp (children_of h' p)).
  split; [by eapply same_skeleton_lookup|done].
Qed.

Lemma no_tracking_skeleton h h' :
  no_tracking h → same_skeleton h h' → no_tracking h'.
Proof.
  intros Hn Hs v nd' Hv.
  pose proof (same_skeleton_lookup_inv _ _ _ _ Hs Hv) as Hv0.
  by apply (Hn v _ Hv0).
Qed.

Lemma has_list_skeleton h h' x : same_skeleton h h' → has_list h' x → has_list h x.
Proof.
  intros Hs (nd & Hx & Hcl). pose proof (same_skeleton_lookup_inv _ _ _ _ Hs Hx) as Hx0.
  by eexists.
Qed.

Lemma touches_below_refl rank k c h : touches_below rank k c h h.
Proof. split; [apply same_skeleton_refl|]. by split. Qed.

Lemma touches_below_trans rank k c h1 h2 h3 :
  touches_below rank k c h1 h2 → touches_below rank k c h2 h3 →
  touches_below rank k c h1 h3.
Proof.
  intros (S1 & C1 & O1) (S2 & C2 & O2). split; [by eapply same_skeleton_trans|].
  split.
  - intros x Hx. by rewrite C2, C1.
  - intros x q Hne Hx. rewrite O2, O1; [done..|].
    destruct Hx as [Hx|Hx]; [by left|right].
    intros Hl. apply Hx. by apply (has_list_skeleton h1 h2).
Qed.

Lemma touches_below_mono rank k k' c c' h h' :
  k ≤ k' → k' ≤ rank c' → (c = c' ∨ (rank c < k' ∧ has_list h c)) →
  touches_below rank k c h h' → touches_below rank k' c' h h'.
Proof.
  intros Hk Hc' Hc (S1 & C1 & O1). split; [done|]. split.
  - intros x Hx. apply C1. lia.
  - intros x q Hne Hx. apply O1.
    + destruct Hc as [->|[Hc Hl]]; [done|]. intros ->.
      destruct Hx as [Hx|Hx]; [lia|done].
    + destruct Hx as [Hx|Hx]; [left; lia|by right].
Qed.

Lemma consistent_node_ext h h' x nd :
  (∀ q, occ x (children_of h' q) = occ x (children_of h q)) →
  consistent_node h x nd → consistent_node h' x nd.
Proof.
  intros Ho. unfold consistent_node, unwired_node, wired_node.
  destruct (children nd); intros Hc q; by rewrite Ho.
Qed.

Lemma wired_below_mono rank k k' h : k' ≤ k → wired_below rank k h → wired_below rank k' h.
Proof. intros Hk Hw m nd Hm Hlt. apply Hw; [done|lia]. Qed.

(** The loop over the inputs, one pass at a time. *)
Lemma forEach_input_acc body ps : ∀ h cs,
  foldl (fun acc p =>
           '(h1, c1) ← acc;
           '(h2, c2) ← body h1 p;
           Some (h2, c1 ++ c2))
        (Some (h, cs)) ps
  = '(h2, c2) ← forEach_input body h ps; Some (h2, cs ++ c2).
Proof.
  unfold forEach_input. induction ps as [|p ps IH]; intros h cs.
  - simpl. by rewrite app_nil_r.
  - cbn [foldl mbind option_bind]. destruct (body h p) as [[h1 c1]|]; cbn [mbind option_bind].
    + rewrite (IH h1 (cs ++ c1)), (IH h1 ([] ++ c1)).
      destruct (foldl _ (Some (h1, [])) ps) as [[h2 c2]|]; cbn [mbind option_bind]; [|done].
      by rewrite app_assoc.
    + assert (Hnone : ∀ ps,
        foldl (fun acc p =>
                 '(h1, c1) ← acc;
                 '(h2, c2) ← body h1 p;
                 Some (h2, c1 ++ c2)) None ps = None) by (by induction ps0).
      by rewrite !Hnone.
Qed.

Lemma forEach_input_cons body h p ps :
  forEach_input body h (p :: ps)
  = '(h1, c1) ← body h p;
    '(h2, c2) ← forEach_input body h1 ps;
    Some (h2, c1 ++ c2).
Proof.
  unfold forEach_input at 1. cbn [foldl mbind option_bind].
  destruct (body h p) as [[h1 c1]|]; cbn [mbind option_bind].
  - apply forEach_input_acc.
  - by induction ps.
Qed.

End WiringHeaps.

Section WiringAttach.
Import Wiring.
Variable rank : node_id → nat.

Lemma attach_S fuel h n :
  attach (S fuel) h n
  = nd ← h !! n;
    match node_kind nd with
    | KValue | KVec2 => Some (h, [])
    | KTracking =>
        forEach_input (fun h1 p => addChild fuel h1 p n)
          (<[n := set_active nd true]> h) (inputs nd)
    | _ => forEach_input (fun h1 p => addChild fuel h1 p n) h (inputs nd)
    end.
Proof. reflexivity. Qed.

Lemma addChild_S fuel h p child :
  addChild (S fuel) h p child
  = nd ← h !! p;
    if has_child_list (node_kind nd)
    then
      '(h1, c1) ← (if length (children nd) =? 0 then attach fuel h p
                   else Some (h, []));
      nd1 ← h1 !! p;
      Some (<[p := set_children nd1 (children nd1 ++ [child])]> h1, c1)
    else Some (h, []).
Proof. reflexivity. Qed.

Lemma set_children_id nd : set_children nd (children nd) = nd.
Proof. by destruct nd. Qed.

(** A node whose child list did not change is the same node. *)
Lemma touches_below_lookup k c h h' x nd :
  touches_below rank k c h h' → k ≤ rank x → h !! x = Some nd → h' !! x = Some nd.
Proof.
  intros (Hs & Hc & _) Hk Hx.
  rewrite (same_skeleton_lookup _ _ _ _ Hs Hx), (Hc x Hk).
  by rewrite (children_of_lookup _ _ _ Hx), set_children_id.
Qed.

Lemma consistent_node_wired (h : heap) m nd :
  children nd ≠ [] → wired_node h m nd → consistent_node h m nd.
Proof. unfold consistent_node. by destruct (children nd). Qed.

Lemma consistent_node_unwired (h : heap) m nd :
  children nd = [] → unwired_node h m → consistent_node h m nd.
Proof. unfold consistent_node. by intros ->. Qed.

Lemma push_occ (g : heap) p nd1 c x q :
  g !! p = Some nd1 →
  occ x (children_of (<[p := set_children nd1 (children nd1 ++ [c])]> g) q)
  = occ x (children_of g q)
    + (if decide (q = p) then if decide (c = x) then 1 else 0 else 0).
Proof.
  intros Hp. rewrite children_of_insert. destruct (decide (q = p)) as [->|Hne].
  - cbn [children set_children]. rewrite occ_app, occ_singleton.
    by rewrite (children_of_lookup _ _ _ Hp).
  - lia.
Qed.

(** Pushing [c] on the child list of [p], in a graph where [p] is wired
    and the other nodes below [k] are in the state their child lists ask
    for. *)
Lemma push_wired_below g p nd1 c k :
  ranked g rank → g !! p = Some nd1 → has_child_list (node_kind nd1) = true →
  rank p < k → k ≤ rank c →
  wired_node g p nd1 →
  (∀ x ndx, g !! x = Some ndx → rank x < k → x ≠ p →
            if has_child_list (node_kind ndx) then consistent_node g x ndx
            else children ndx = []) →
  wired_below rank k (<[p := set_children nd1 (children nd1 ++ [c])]> g).
Proof.
  intros Hr Hp Hcl Hpk Hkc Hwp Hothers x ndx Hx Hxk.
  destruct (decide (x = p)) as [->|Hne].
  - rewrite lookup_insert_eq in Hx. injection Hx as <-. cbn [node_kind set_children].
    rewrite Hcl. apply consistent_node_wired.
    { cbn [children set_children]. by destruct (children nd1). }
    intros q. rewrite push_occ by done. unfold targets. cbn [node_kind inputs set_children].
    fold (targets nd1). rewrite Hwp.
    destruct (decide (q = p)) as [->|?]; [|lia].
    rewrite decide_False; [lia|]. intros ->. lia.
  - rewrite lookup_insert_ne in Hx by done.
    specialize (Hothers x ndx Hx Hxk Hne).
    destruct (has_child_list (node_kind ndx)); [|done].
    eapply consistent_node_ext; [|exact Hothers].
    intros q. rewrite push_occ by done.
    destruct (decide (q = p)); [|lia]. rewrite decide_False; [lia|].
    intros ->. lia.
Qed.

Lemma push_touches_below g p nd1 c k :
  g !! p = Some nd1 → rank p < k →
  touches_below rank k c g (<[p := set_children nd1 (children nd1 ++ [c])]> g).
Proof.
  intros Hp Hpk. split; [by apply same_skeleton_insert|]. split.
  - intros x Hx. rewrite children_of_insert. rewrite decide_False; [done|].
    intros ->. lia.
  - intros x q Hne Hx. rewrite push_occ by done.
    destruct (decide (q = p)); [|lia]. rewrite decide_False; [lia|done].
Qed.

Lemma attach_addChild_spec fuel :
  (∀ g m nd,
     ranked g rank → g !! m = Some nd → node_kind nd ≠ KTracking →
     unwired_node g m → wired_below rank (rank m) g → 2 * rank m < fuel →
     ∃ g', attach fuel g m = Some (g', []) ∧ wired_node g' m nd ∧
           wired_below rank (rank m) g' ∧ touches_below rank (rank m) m g g') ∧
  (∀ g p c k ndp,
     ranked g rank → g !! p = Some ndp → has_child_list (node_kind ndp) = true →
     rank p < k → k ≤ rank c → wired_below rank k g → 2 * rank p + 1 < fuel →
     ∃ g', addChild fuel g p c = Some (g', []) ∧ wired_below rank k g' ∧
           touches_below rank k c g g' ∧
           ∀ q, occ c (children_of g' q)
                = occ c (children_of g q) + (if decide (q = p) then 1 else 0)).
Proof.
  induction fuel as [|fuel [IHatt IHadd]]; [split; intros; lia|]. split.
  - intros g m nd Hr Hm Hkind Hun Hw Hfuel.
    assert (Hloop : ∀ ts done g1,
      targets nd = done ++ ts → ranked g1 rank → g1 !! m = Some nd →
      (∀ q, occ m (children_of g1 q) = occ q done) →
      wired_below rank (rank m) g1 → touches_below rank (rank m) m g g1 →
      ∃ g', forEach_input (fun h1 p => addChild fuel h1 p m) g1 ts = Some (g', []) ∧
            (∀ q, occ m (children_of g' q) = occ q (done ++ ts)) ∧
            wired_below rank (rank m) g' ∧ touches_below rank (rank m) m g g').
    { induction ts as [|p ts IHts]; intros done g1 Hts Hr1 Hm1 Hocc Hw1 Ht1.
      - exists g1. rewrite app_nil_r. done.
      - destruct (Hr1 m nd p Hm1) as (Hlt & ndp & Hp & Hcl).
        { rewrite Hts. apply elem_of_app. right. left. }
        destruct (IHadd g1 p m (rank m) ndp Hr1 Hp Hcl Hlt ltac:(lia) Hw1 ltac:(lia))
          as (g2 & E2 & Hw2 & Ht2 & Hocc2).
        destruct (IHts (done ++ [p]) g2) as (g3 & E3 & Hocc3 & Hw3 & Ht3).
        + by rewrite <- app_assoc.
        + eapply ranked_skeleton; [exact Hr1|apply Ht2].
        + by eapply touches_below_lookup.
        + intros q. rewrite Hocc2, Hocc, occ_app, occ_singleton.
          destruct (decide (q = p)), (decide (p = q)); congruence.
        + done.
        + by eapply touches_below_trans.
        + exists g3. rewrite forEach_input_cons, E2. cbn [mbind option_bind].
          rewrite E3. cbn [mbind option_bind]. rewrite <- app_assoc in Hocc3. done. }
    rewrite attach_S, Hm. cbn [mbind option_bind].
    assert (Hnone : targets nd = [] →
              ∃ g', @Some (heap * list call) (g, []) = Some (g', []) ∧ wired_node g' m nd ∧
                    wired_below rank (rank m) g' ∧ touches_below rank (rank m) m g g').
    { intros Ht. exists g. split; [done|]. split; [|split; [done|apply touches_below_refl]].
      intros q. by rewrite Ht, occ_nil. }
    assert (Hsome : targets nd = inputs nd →
              ∃ g', forEach_input (fun h1 p => addChild fuel h1 p m) g (inputs nd)
                    = Some (g', []) ∧ wired_node g' m nd ∧
                    wired_below rank (rank m) g' ∧ touches_below rank (rank m) m g g').
    { intros Ht. rewrite <- Ht.
      destruct (Hloop (targets nd) [] g eq_refl Hr Hm) as (g' & E & Hocc & Hw' & Ht').
      { intros q. by rewrite occ_nil. }
      { done. }
      { apply touches_below_refl. }
      exists g'. done. }
    destruct (node_kind nd) eqn:Hk; try done;
      try (apply Hnone; unfold targets; by rewrite Hk);
      try (apply Hsome; unfold targets; by rewrite Hk).
  - intros g p c k ndp Hr Hp Hcl Hpk Hkc Hw Hfuel.
    rewrite addChild_S, Hp. cbn [mbind option_bind]. rewrite Hcl.
    pose proof (Hw p ndp Hp Hpk) as Hcons. rewrite Hcl in Hcons.
    assert (Hmid : ∃ g1,
      (if length (children ndp) =? 0 then attach fuel g p else Some (g, []))
      = Some (g1, []) ∧
      ∃ nd1, g1 !! p = Some nd1 ∧ has_child_list (node_kind nd1) = true ∧
      wired_node g1 p nd1 ∧
      (∀ x ndx, g1 !! x = Some ndx → rank x < k → x ≠ p →
                if has_child_list (node_kind ndx) then consistent_node g1 x ndx
                else children ndx = []) ∧
      touches_below rank k c g g1 ∧
      (∀ q, occ c (children_of g1 q) = occ c (children_of g q))).
    { destruct (children ndp) as [|c0 l0] eqn:Hch.
      - cbn [length Nat.eqb].
        assert (Hk1 : node_kind ndp ≠ KTracking) by (by destruct (node_kind ndp)).
        assert (Hun1 : unwired_node g p).
        { unfold consistent_node in Hcons. by rewrite Hch in Hcons. }
        assert (Hwb1 : wired_below rank (rank p) g).
        { eapply wired_below_mono; [|exact Hw]. lia. }
        destruct (IHatt g p ndp Hr Hp Hk1 Hun1 Hwb1 ltac:(lia))
          as (g1 & E1 & Hwn & Hw1 & Ht1).
        exists g1. split; [done|].
          assert (Hp1 : g1 !! p = Some ndp).
          { eapply touches_below_lookup; [exact Ht1|lia|exact Hp]. }
          exists ndp. split; [done|]. split; [done|]. split; [done|]. split.
          * intros x ndx Hx Hxk Hne.
            destruct (decide (rank x < rank p)) as [Hlow|Hhigh].
            -- by apply Hw1.
            -- destruct Ht1 as (Hs1 & Hc1 & Ho1).
               pose proof (same_skeleton_lookup_inv _ _ _ _ Hs1 Hx) as Hx0.
               rewrite <- Hc1 in Hx0 by lia.
               rewrite (children_of_lookup _ _ _ Hx), set_children_id in Hx0.
               pose proof (Hw x ndx Hx0 Hxk) as Hc0.
               destruct (has_child_list (node_kind ndx)); [|done].
               eapply consistent_node_ext; [|exact Hc0].
               intros q. apply Ho1; [done|left; lia].
          * split.
            -- eapply touches_below_mono; [| |right|exact Ht1]; [lia..|].
               split; [lia|by exists ndp].
            -- intros q. destruct Ht1 as (_ & _ & Ho1). apply Ho1; [|left; lia].
               intros ->. lia.
      - cbn [length Nat.eqb]. exists g. split; [done|].
        exists ndp. split; [done|]. split; [done|]. split.
        + unfold consistent_node in Hcons. by rewrite Hch in Hcons.
        + split; [|split; [apply touches_below_refl|done]].
          intros x ndx Hx Hxk _. by apply Hw. }
    destruct Hmid as (g1 & -> & nd1 & Hp1 & Hcl1 & Hwn1 & Hoth1 & Ht1 & Hocc1).
    cbn [mbind option_bind]. rewrite Hp1. cbn [mbind option_bind].
    assert (Hr1 : ranked g1 rank) by (eapply ranked_skeleton; [exact Hr|apply Ht1]).
    eexists. split; [done|]. split; [by apply push_wired_below|]. split.
    + eapply touches_below_trans; [exact Ht1|]. by apply push_touches_below.
    + intros q. rewrite push_occ by done. rewrite Hocc1.
      destruct (decide (q = p)); [|done]. by rewrite decide_True.
Qed.

End WiringAttach.

Section WiringDetach.
Import Wiring.
Variable rank : node_id → nat.

Lemma detach_S fuel h n :
  detach (S fuel) h n
  = nd ← h !! n;
    match node_kind nd with
    | KValue =>
        '(h1, c1) ← match _tracking nd with
                    | Some t => detach fuel h t
                    | None => Some (h, [])
                    end;
        Some (h1, c1 ++ [StopDriver n])
    | KVec2 => Some (h, [])
    | KInterpolation =>
        '(h1, c1) ← forEach_input (fun h1 p => removeChild fuel h1 p n) h (inputs nd);
        Some (h1, c1 ++ (RemoveListener <$> inputs nd))
    | KTracking =>
        '(h1, c1) ← forEach_input (fun h1 p => removeChild fuel h1 p n) h (inputs nd);
        nd1 ← h1 !! n;
        Some (<[n := set_active nd1 false]> h1, c1)
    | _ => forEach_input (fun h1 p => removeChild fuel h1 p n) h (inputs nd)
    end.
Proof. reflexivity. Qed.

Lemma removeChild_S fuel h p child :
  removeChild (S fuel) h p child
  = nd ← h !! p;
    if has_child_list (node_kind nd)
    then
      match WithChildren.indexOf (children nd) child with
      | None => Some (h, [Warn p child])
      | Some index =>
          let children' := delete index (children nd) in
          let h1 := <[p := set_children nd children']> h in
          if length children' =? 0 then detach fuel h1 p else Some (h1, [])
      end
    else Some (h, []).
Proof. reflexivity. Qed.

Lemma no_Warn_app cs1 cs2 : no_Warn cs1 → no_Warn cs2 → no_Warn (cs1 ++ cs2).
Proof. apply Forall_app_2. Qed.

Lemma no_Warn_RemoveListener ps : no_Warn (RemoveListener <$> ps).
Proof. apply Forall_fmap, Forall_true. done. Qed.

Lemma pull_occ (g : heap) p nd c i x q :
  g !! p = Some nd → WithChildren.indexOf (children nd) c = Some i →
  occ x (children_of (<[p := set_children nd (delete i (children nd))]> g) q)
  + (if decide (q = p) then if decide (c = x) then 1 else 0 else 0)
  = occ x (children_of g q).
Proof.
  intros Hp Hi. rewrite children_of_insert. destruct (decide (q = p)) as [->|Hne].
  - cbn [children set_children]. rewrite (children_of_lookup _ _ _ Hp).
    by apply occ_delete_indexOf.
  - lia.
Qed.

Lemma pull_touches_below g p nd c i k :
  g !! p = Some nd → WithChildren.indexOf (children nd) c = Some i → rank p < k →
  touches_below rank k c g (<[p := set_children nd (delete i (children nd))]> g).
Proof.
  intros Hp Hi Hpk. split; [by apply same_skeleton_insert|]. split.
  - intros x Hx. rewrite children_of_insert. rewrite decide_False; [done|].
    intros ->. lia.
  - intros x q Hne Hx. pose proof (pull_occ g p nd c i x q Hp Hi) as Ho.
    destruct (decide (q = p)); [|lia]. rewrite decide_False in Ho; [lia|done].
Qed.

Lemma detach_removeChild_spec fuel :
  (∀ g m nd,
     ranked g rank → no_tracking g → g !! m = Some nd → node_kind nd ≠ KTracking →
     wired_node g m nd → wired_below rank (rank m) g → 2 * rank m < fuel →
     ∃ g' cs, detach fuel g m = Some (g', cs) ∧ no_Warn cs ∧ unwired_node g' m ∧
              wired_below rank (rank m) g' ∧ touches_below rank (rank m) m g g') ∧
  (∀ g p c k ndp,
     ranked g rank → no_tracking g → g !! p = Some ndp →
     has_child_list (node_kind ndp) = true →
     rank p < k → k ≤ rank c → 0 < occ c (children_of g p) →
     wired_below rank k g → 2 * rank p + 1 < fuel →
     ∃ g' cs, removeChild fuel g p c = Some (g', cs) ∧ no_Warn cs ∧
              wired_below rank k g' ∧ touches_below rank k c g g' ∧
              ∀ q, occ c (children_of g' q) + (if decide (q = p) then 1 else 0)
                   = occ c (children_of g q)).
Proof.
  induction fuel as [|fuel [IHdet IHrem]]; [split; intros; lia|]. split.
  - intros g m nd Hr Hnt Hm Hkind Hwn Hw Hfuel.
    assert (Hloop : ∀ ts g1,
      (∀ p, p ∈ ts → p ∈ targets nd) →
      ranked g1 rank → no_tracking g1 → g1 !! m = Some nd →
      (∀ q, occ m (children_of g1 q) = occ q ts) →
      wired_below rank (rank m) g1 → touches_below rank (rank m) m g g1 →
      ∃ g' cs, forEach_input (fun h1 p => removeChild fuel h1 p m) g1 ts = Some (g', cs) ∧
               no_Warn cs ∧ unwired_node g' m ∧
               wired_below rank (rank m) g' ∧ touches_below rank (rank m) m g g').
    { induction ts as [|p ts IHts]; intros g1 Hts Hr1 Hnt1 Hm1 Hocc Hw1 Ht1.
      - exists g1, []. split; [done|]. split; [by constructor|]. split; [|done].
        intros q. by rewrite Hocc, occ_nil.
      - destruct (Hr1 m nd p Hm1) as (Hlt & ndp & Hp & Hcl).
        { apply Hts. left. }
        assert (Hpos : 0 < occ m (children_of g1 p)).
        { rewrite Hocc, occ_cons. rewrite decide_True by done. lia. }
        destruct (IHrem g1 p m (rank m) ndp Hr1 Hnt1 Hp Hcl Hlt ltac:(lia) Hpos Hw1 ltac:(lia))
          as (g2 & cs2 & E2 & Hnw2 & Hw2 & Ht2 & Hocc2).
        destruct (IHts g2) as (g3 & cs3 & E3 & Hnw3 & Hun3 & Hw3 & Ht3).
        + intros p' Hp'. apply Hts. by right.
        + eapply ranked_skeleton; [exact Hr1|apply Ht2].
        + eapply no_tracking_skeleton; [exact Hnt1|apply Ht2].
        + by eapply touches_below_lookup.
        + intros q. specialize (Hocc2 q). rewrite Hocc, occ_cons in Hocc2.
          destruct (decide (q = p)), (decide (p = q)); try congruence; lia.
        + done.
        + by eapply touches_below_trans.
        + exists g3, (cs2 ++ cs3). rewrite forEach_input_cons, E2. cbn [mbind option_bind].
          rewrite E3. cbn [mbind option_bind]. split; [done|].
          split; [by apply no_Warn_app|done]. }
    rewrite detach_S, Hm. cbn [mbind option_bind].
    assert (Hnone : targets nd = [] →
              unwired_node g m ∧ wired_below rank (rank m) g ∧
              touches_below rank (rank m) m g g).
    { intros Ht. split; [|split; [done|apply touches_below_refl]].
      intros q. by rewrite Hwn, Ht, occ_nil. }
    assert (Hsome : targets nd = inputs nd →
              ∃ g' cs, forEach_input (fun h1 p => removeChild fuel h1 p m) g (inputs nd)
                       = Some (g', cs) ∧ no_Warn cs ∧ unwired_node g' m ∧
                       wired_below rank (rank m) g' ∧ touches_below rank (rank m) m g g').
    { intros Ht. rewrite <- Ht. apply Hloop; try done; try apply touches_below_refl. }
    destruct (node_kind nd) eqn:Hk; try done.
    + rewrite (Hnt m nd Hm). cbn [mbind option_bind].
      destruct Hnone as (? & ? & ?); [unfold targets; by rewrite Hk|].
      eexists _, _. split; [done|]. split; [|done].
      apply Forall_app_2; [constructor|]. by repeat constructor.
    + destruct Hnone as (? & ? & ?); [unfold targets; by rewrite Hk|].
      eexists _, _. split; [done|]. split; [by constructor|done].
    + destruct Hsome as (g' & cs & -> & Hnw & ?); [unfold targets; by rewrite Hk|].
      cbn [mbind option_bind]. eexists _, _. split; [done|].
      split; [|done]. apply no_Warn_app; [done|apply no_Warn_RemoveListener].
    + apply Hsome. unfold targets. by rewrite Hk.
    + apply Hsome. unfold targets. by rewrite Hk.
    + apply Hsome. unfold targets. by rewrite Hk.
  - intros g p c k ndp Hr Hnt Hp Hcl Hpk Hkc Hpos Hw Hfuel.
    rewrite removeChild_S, Hp. cbn [mbind option_bind]. rewrite Hcl.
    pose proof (Hw p ndp Hp Hpk) as Hcons. rewrite Hcl in Hcons.
    rewrite (children_of_lookup _ _ _ Hp) in Hpos.
    assert (Hne : children ndp ≠ []) by (intros E; rewrite E in Hpos; by inversion Hpos).
    assert (Hwp : wired_node g p ndp).
    { unfold consistent_node in Hcons. by destruct (children ndp). }
    apply occ_pos in Hpos. destruct (indexOf_is_Some _ _ Hpos) as [i Hi].
    rewrite Hi. cbn zeta.
    set (g1 := <[p := set_children ndp (delete i (children ndp))]> g).
    assert (Hcp : c ≠ p) by (intros ->; lia).
    assert (Ht1 : touches_below rank k c g g1) by (by apply pull_touches_below).
    assert (Hocc1 : ∀ x q, occ x (children_of g1 q)
                          + (if decide (q = p) then if decide (c = x) then 1 else 0 else 0)
                          = occ x (children_of g q)).
    { intros x q. by apply pull_occ. }
    assert (Hsame : ∀ x q, x ≠ c → occ x (children_of g1 q) = occ x (children_of g q)).
    { intros x q Hx. specialize (Hocc1 x q). destruct (decide (q = p)); [|lia].
      rewrite decide_False in Hocc1 by done. lia. }
    assert (Hp1 : g1 !! p = Some (set_children ndp (delete i (children ndp)))).
    { unfold g1. by rewrite lookup_insert_eq. }
    assert (Hr1 : ranked g1 rank) by (eapply ranked_skeleton; [exact Hr|apply Ht1]).
    assert (Hnt1 : no_tracking g1) by (eapply no_tracking_skeleton; [exact Hnt|apply Ht1]).
    assert (Hoth1 : ∀ x ndx, g1 !! x = Some ndx → rank x < k → x ≠ p →
              if has_child_list (node_kind ndx) then consistent_node g1 x ndx
              else children ndx = []).
    { intros x ndx Hx Hxk Hxp. unfold g1 in Hx. rewrite lookup_insert_ne in Hx by done.
      pose proof (Hw x ndx Hx Hxk) as Hc0.
      destruct (has_child_list (node_kind ndx)); [|done].
      eapply consistent_node_ext; [|exact Hc0]. intros q. apply Hsame. intros ->. lia. }
    assert (Hwp1 : wired_node g1 p (set_children ndp (delete i (children ndp)))).
    { intros q. rewrite Hsame by done. rewrite targets_set_children. apply Hwp. }
    destruct (delete i (children ndp)) as [|c0 l0] eqn:Hdel.
    + cbn [length Nat.eqb].
      destruct (IHdet g1 p (set_children ndp []) Hr1 Hnt1 Hp1)
        as (g2 & cs & E2 & Hnw & Hun2 & Hw2 & Ht2).
      { cbn [node_kind set_children]. by destruct (node_kind ndp). }
      { done. }
      { intros x ndx Hx Hxk. destruct (decide (x = p)) as [->|Hxp]; [lia|].
        apply Hoth1; [done|lia|done]. }
      { lia. }
      exists g2, cs. split; [done|]. split; [done|].
      assert (Hp2 : g2 !! p = Some (set_children ndp [])).
      { eapply touches_below_lookup; [exact Ht2|lia|exact Hp1]. }
      split; [|split].
      * intros x ndx Hx Hxk.
        destruct (decide (rank x < rank p)) as [Hlow|Hhigh]; [by apply Hw2|].
        destruct (decide (x = p)) as [->|Hxp].
        -- rewrite Hp2 in Hx. injection Hx as <-. cbn [node_kind set_children].
           rewrite Hcl. by apply consistent_node_unwired.
        -- destruct Ht2 as (Hs2 & Hc2 & Ho2).
           pose proof (same_skeleton_lookup_inv _ _ _ _ Hs2 Hx) as Hx1.
           rewrite <- Hc2 in Hx1 by lia.
           rewrite (children_of_lookup _ _ _ Hx), set_children_id in Hx1.
           pose proof (Hoth1 x ndx Hx1 Hxk Hxp) as Hc1.
           destruct (has_child_list (node_kind ndx)); [|done].
           eapply consistent_node_ext; [|exact Hc1].
           intros q. apply Ho2; [done|left; lia].
      * eapply touches_below_trans; [exact Ht1|].
        eapply touches_below_mono; [| |right|exact Ht2]; [lia..|].
        split; [lia|by eexists].
      * intros q. destruct Ht2 as (_ & _ & Ho2). rewrite Ho2 by (done || left; lia).
        specialize (Hocc1 c q). destruct (decide (q = p)); [|lia].
        rewrite decide_True in Hocc1 by done. lia.
    + cbn [length Nat.eqb]. exists g1, []. split; [done|]. split; [by constructor|].
      split; [|split; [done|]].
      * intros x ndx Hx Hxk. destruct (decide (x = p)) as [->|Hxp].
        -- rewrite Hp1 in Hx. injection Hx as <-. cbn [node_kind set_children].
           rewrite Hcl. by apply consistent_node_wired.
        -- by apply Hoth1.
      * intros q. specialize (Hocc1 c q). destruct (decide (q = p)); [|lia].
        rewrite decide_True in Hocc1 by done. lia.
Qed.

End WiringDetach.

Section WiringRoundTrip.
Import Wiring.

Lemma appended_refl h : appended h h.
Proof. intros q. exists []. by rewrite app_nil_r. Qed.

Lemma appended_trans h1 h2 h3 : appended h1 h2 → appended h2 h3 → appended h1 h3.
Proof.
  intros H12 H23 q. destruct (H12 q) as [A1 E1], (H23 q) as [A2 E2].
  exists (A1 ++ A2). by rewrite E2, E1, app_assoc.
Qed.

(** [attach] and [addChild] put children at the end of child lists, and do
    nothing else to them. *)
Lemma attach_appended fuel :
  (∀ h n h' cs, attach fuel h n = Some (h', cs) → appended h h') ∧
  (∀ h p c h' cs, addChild fuel h p c = Some (h', cs) → appended h h').
Proof.
  induction fuel as [|fuel [IHatt IHadd]]; [done|].
  assert (Hloop : ∀ n ts h h' cs,
    forEach_input (fun h1 p => addChild fuel h1 p n) h ts = Some (h', cs) →
    appended h h').
  { intros n. induction ts as [|p ts IHts]; intros h h' cs.
    - intros [= <- _]. apply appended_refl.
    - rewrite forEach_input_cons.
      destruct (addChild fuel h p n) as [[h1 c1]|] eqn:E1; [|done].
      cbn [mbind option_bind].
      destruct (forEach_input _ h1 ts) as [[h2 c2]|] eqn:E2; [|done].
      cbn [mbind option_bind]. intros [= <- _].
      eapply appended_trans; [by eapply IHadd|by eapply IHts]. }
  split.
  - intros h n h' cs. rewrite attach_S.
    destruct (h !! n) as [nd|] eqn:Hn; [|done]. cbn [mbind option_bind].
    destruct (node_kind nd); try (intros [= <- _]; apply appended_refl);
      try apply Hloop.
    intros E. apply Hloop in E. eapply appended_trans; [|exact E].
    intros q. exists []. rewrite app_nil_r, children_of_insert.
    destruct (decide (q = n)) as [->|]; [|done].
    by rewrite (children_of_lookup _ _ _ Hn).
  - intros h p c h' cs. rewrite addChild_S.
    destruct (h !! p) as [nd|] eqn:Hp; [|done]. cbn [mbind option_bind].
    destruct (has_child_list (node_kind nd)); [|intros [= <- _]; apply appended_refl].
    assert (Hmid : ∀ h1 c1,
      (if length (children nd) =? 0 then attach fuel h p else Some (h, [])) = Some (h1, c1) →
      appended h h1).
    { intros h1 c1. destruct (length (children nd) =? 0).
      - apply IHatt.
      - intros [= <- _]. apply appended_refl. }
    destruct (if length (children nd) =? 0 then attach fuel h p else Some (h, []))
      as [[h1 c1]|]; [|done].
    specialize (Hmid h1 c1 eq_refl). cbn [mbind option_bind].
    destruct (h1 !! p) as [nd1|] eqn:Hp1; [|done]. cbn [mbind option_bind].
    intros [= <- _]. eapply appended_trans; [exact Hmid|].
    intros q. rewrite children_of_insert. destruct (decide (q = p)) as [->|].
    + exists [c]. by rewrite (children_of_lookup _ _ _ Hp1).
    + exists []. by rewrite app_nil_r.
Qed.

(** The first occurrence of a child that is not in [l] is after [l]. *)
Lemma delete_indexOf_app l A c i :
  c ∉ l → WithChildren.indexOf (l ++ A) c = Some i →
  ∃ A', delete i (l ++ A) = l ++ A'.
Proof.
  intros Hc Hi. destruct (indexOf_Some _ _ _ Hi) as (l1 & l2 & E & Hn & _ & ->).
  assert (Hpre : ∀ l l1, c ∉ l → l ++ A = l1 ++ c :: l2 → ∃ A1, l1 = l ++ A1).
  { clear. induction l as [|y l IH]; intros l1 Hc E; [by exists l1|].
    apply not_elem_of_cons in Hc as [Hne Hc]. destruct l1 as [|y1 l1].
    - simpl in E. congruence.
    - simpl in E. injection E as -> E. destruct (IH l1 Hc E) as [A1 ->].
      by exists A1. }
  destruct (Hpre l l1 Hc E) as [A1 ->]. exists (A1 ++ l2). by rewrite app_assoc.
Qed.

Section Base.
Variable g : heap.
Hypothesis g_wired : wired g.
Hypothesis g_no_tracking : no_tracking g.

(** [detach] and [removeChild], started on nodes that are in no child list
    of [g], take from the child lists only children that are not in the
    lists of [g]. *)
Lemma detach_appended fuel :
  (∀ h n nd h' cs,
     same_skeleton g h → appended g h → h !! n = Some nd → node_kind nd ≠ KTracking →
     unwired_node g n → detach fuel h n = Some (h', cs) →
     same_skeleton g h' ∧ appended g h') ∧
  (∀ h p c h' cs,
     same_skeleton g h → appended g h → unwired_node g c →
     removeChild fuel h p c = Some (h', cs) →
     same_skeleton g h' ∧ appended g h').
Proof.
  induction fuel as [|fuel [IHdet IHrem]]; [done|].
  assert (Hloop : ∀ n, unwired_node g n → ∀ ts h h' cs,
    same_skeleton g h → appended g h →
    forEach_input (fun h1 p => removeChild fuel h1 p n) h ts = Some (h', cs) →
    same_skeleton g h' ∧ appended g h').
  { intros n Hun. induction ts as [|p ts IHts]; intros h h' cs Hs Ha.
    - by intros [= <- _].
    - rewrite forEach_input_cons.
      destruct (removeChild fuel h p n) as [[h1 c1]|] eqn:E1; [|done].
      cbn [mbind option_bind].
      destruct (forEach_input _ h1 ts) as [[h2 c2]|] eqn:E2; [|done].
      cbn [mbind option_bind]. intros [= <- _].
      destruct (IHrem h p n h1 c1 Hs Ha Hun E1) as [Hs1 Ha1].
      by eapply IHts. }
  split.
  - intros h n nd h' cs Hs Ha Hn Hkind Hun. rewrite detach_S, Hn.
    cbn [mbind option_bind].
    destruct (node_kind nd) eqn:Hk; try done; try (by apply Hloop).
    + rewrite (no_tracking_skeleton _ _ g_no_tracking Hs n nd Hn).
      cbn [mbind option_bind]. by intros [= <- _].
    + by intros [= <- _].
    + destruct (forEach_input _ h (inputs nd)) as [[h1 c1]|] eqn:E; [|done].
      cbn [mbind option_bind]. intros [= <- _]. by eapply Hloop.
  - intros h p c h' cs Hs Ha Hun. rewrite removeChild_S.
    destruct (h !! p) as [nd|] eqn:Hp; [|done]. cbn [mbind option_bind].
    destruct (has_child_list (node_kind nd)) eqn:Hcl; [|by intros [= <- _]].
    destruct (WithChildren.indexOf (children nd) c) as [i|] eqn:Hi;
      [|by intros [= <- _]].
    cbn zeta. set (h1 := <[p := set_children nd (delete i (children nd))]> h).
    destruct (Ha p) as [A EA]. rewrite (children_of_lookup _ _ _ Hp) in EA.
    rewrite EA in Hi.
    destruct (delete_indexOf_app _ _ _ _ (proj1 (occ_zero _ _) (Hun p)) Hi) as [A' EA'].
    assert (Hs1 : same_skeleton g h1).
    { eapply same_skeleton_trans; [exact Hs|]. by apply same_skeleton_insert. }
    assert (Ha1 : appended g h1).
    { intros q. unfold h1. rewrite children_of_insert.
      destruct (decide (q = p)) as [->|]; [|apply Ha].
      exists A'. cbn [children set_children]. by rewrite EA. }
    destruct (length (delete i (children nd)) =? 0) eqn:Hlen; [|by intros [= <- _]].
    apply (IHdet h1 p (set_children nd (delete i (children nd)))); try done.
    + unfold h1. by rewrite lookup_insert_eq.
    + cbn [node_kind set_children]. by destruct (node_kind nd).
    + apply Nat.eqb_eq, length_zero_iff_nil in Hlen.
      rewrite EA, EA' in Hlen. apply app_eq_nil in Hlen as [Hbase _].
      pose proof (same_skeleton_lookup_inv _ _ _ _ Hs Hp) as Hg.
      pose proof (g_wired p _ Hg) as Hc. cbn [node_kind set_children] in Hc.
      rewrite Hcl in Hc. unfold consistent_node in Hc.
      cbn [children set_children] in Hc. by rewrite Hbase in Hc.
Qed.

End Base.

End WiringRoundTrip.

Section WiringDecided.
Import Wiring.

Lemma forallb_map_to_list {A} (f : node_id * A → bool) (h : gmap node_id A) :
  forallb f (map_to_list h) = true ↔ ∀ k x, h !! k = Some x → f (k, x) = true.
Proof.
  rewrite forallb_forall. split.
  - intros Hf k x Hk. apply Hf, list_elem_of_In. by apply elem_of_map_to_list.
  - intros Hf [k x] Hin. apply Hf. by apply elem_of_map_to_list, list_elem_of_In.
Qed.

Lemma wiring_rankedb_ranked h rank : rankedb h rank = true → ranked h rank.
Proof.
  unfold rankedb. rewrite forallb_map_to_list. intros Hb m nd p Hm Hp.
  specialize (Hb m nd Hm). cbn beta iota in Hb. rewrite forallb_forall in Hb.
  apply list_elem_of_In in Hp. specialize (Hb p Hp).
  apply andb_true_iff in Hb as [H1 H2]. apply Nat.ltb_lt in H1.
  split; [done|]. destruct (h !! p) as [ndp|]; [|done]. by exists ndp.
Qed.

Lemma no_trackingb_no_tracking h : no_trackingb h = true → no_tracking h.
Proof.
  unfold no_trackingb. rewrite forallb_map_to_list. intros Hb v nd Hv.
  specialize (Hb v nd Hv). cbn beta iota in Hb. by apply bool_decide_eq_true in Hb.
Qed.

Lemma unwired_nodeb_unwired_node h m : unwired_nodeb h m = true → unwired_node h m.
Proof.
  unfold unwired_nodeb. rewrite forallb_map_to_list. intros Hb q.
  unfold children_of. destruct (h !! q) as [ndq|] eqn:Hq; [|done].
  specialize (Hb q ndq Hq). cbn beta iota in Hb. by apply Nat.eqb_eq in Hb.
Qed.

Lemma wired_nodeb_wired_node h m nd : wired_nodeb h m nd = true → wired_node h m nd.
Proof.
  unfold wired_nodeb. rewrite andb_true_iff, forallb_map_to_list, forallb_forall.
  intros [Hb Hin] q. unfold children_of. destruct (h !! q) as [ndq|] eqn:Hq.
  - specialize (Hb q ndq Hq). cbn beta iota in Hb. by apply Nat.eqb_eq in Hb.
  - rewrite occ_nil. symmetry. apply occ_zero. intros Hq'.
    apply list_elem_of_In, Hin, bool_decide_eq_true in Hq'. rewrite Hq in Hq'.
    by destruct Hq'.
Qed.

Lemma wiredb_wired h : wiredb h = true → wired h.
Proof.
  unfold wiredb. rewrite forallb_map_to_list. intros Hb m nd Hm.
  specialize (Hb m nd Hm). cbn beta iota in Hb.
  destruct (has_child_list (node_kind nd)); [|by apply bool_decide_eq_true in Hb].
  unfold consistent_node. destruct (children nd).
  - by apply unwired_nodeb_unwired_node.
  - by apply wired_nodeb_wired_node.
Qed.

End WiringDecided.

Section WiringTop.
Import Wiring.
Variable rank : node_id → nat.

(** From the nodes below [m] to the whole graph, for a node [m] without a
    child list. *)
Lemma wired_below_wired h h' m nd :
  wired h → h !! m = Some nd → has_child_list (node_kind nd) = false →
  wired_below rank (rank m) h' → touches_below rank (rank m) m h h' → wired h'.
Proof.
  intros Hw Hm Hcl Hwb (Hs & Hc & Ho) x ndx Hx.
  destruct (decide (rank x < rank m)) as [Hlow|Hhigh]; [by apply Hwb|].
  pose proof (same_skeleton_lookup_inv _ _ _ _ Hs Hx) as Hx0.
  rewrite <- Hc in Hx0 by lia.
  rewrite (children_of_lookup _ _ _ Hx), set_children_id in Hx0.
  pose proof (Hw x ndx Hx0) as Hc0.
  destruct (has_child_list (node_kind ndx)) eqn:Hclx; [|done].
  eapply consistent_node_ext; [|exact Hc0].
  intros q. apply Ho; [|left; lia]. intros ->. congruence.
Qed.

Lemma attach_props_spec h m nd fuel :
  ranked h rank → wired h → h !! m = Some nd → node_kind nd = KProps →
  unwired_node h m → 2 * rank m < fuel →
  ∃ h', attach fuel h m = Some (h', []) ∧ touches_below rank (rank m) m h h' ∧
        appended h h' ∧ wired h' ∧ wired_node h' m nd.
Proof.
  intros Hr Hw Hm Hk Hun Hfuel.
  destruct (proj1 (attach_addChild_spec rank fuel) h m nd Hr Hm)
    as (h' & E & Hwn & Hwb & Ht); try done.
  - by rewrite Hk.
  - intros x ndx Hx _. by apply Hw.
  - exists h'. split; [done|]. split; [done|]. split.
    + by apply (proj1 (attach_appended fuel) h m h' []).
    + split; [|done]. eapply wired_below_wired; try done. by rewrite Hk.
Qed.

Lemma detach_props_spec h m nd fuel :
  ranked h rank → wired h → no_tracking h → h !! m = Some nd → node_kind nd = KProps →
  wired_node h m nd → 2 * rank m < fuel →
  ∃ h' cs, detach fuel h m = Some (h', cs) ∧ no_Warn cs ∧
           touches_below rank (rank m) m h h' ∧ wired h' ∧ unwired_node h' m.
Proof.
  intros Hr Hw Hnt Hm Hk Hwn Hfuel.
  destruct (proj1 (detach_removeChild_spec rank fuel) h m nd Hr Hnt Hm)
    as (h' & cs & E & Hnw & Hun & Hwb & Ht); try done.
  - by rewrite Hk.
  - intros x ndx Hx _. by apply Hw.
  - exists h', cs. split; [done|]. split; [done|]. split; [done|].
    split; [|done]. eapply wired_below_wired; try done. by rewrite Hk.
Qed.

(** Two wired states of a graph, the second with longer child lists but to
    which nothing but [m] and nodes with a child list were added, and with
    [m] in no child list, are the same state. *)
Lemma children_restored g g'' m :
  ranked g rank → wired g → wired g'' →
  touches_below rank (rank m) m g g'' → appended g g'' → unwired_node g'' m →
  ∀ x, children_of g'' x = children_of g x.
Proof.
  intros Hr Hw Hw'' (Hs & Hc & Ho) Ha Hun.
  assert (Hn : ∀ n x, rank m - rank x < n → children_of g'' x = children_of g x).
  { induction n as [|n IH]; intros x Hx; [lia|].
    destruct (Ha x) as [A EA]. destruct A as [|a A]; [by rewrite app_nil_r in EA|].
    exfalso.
    assert (Hdiff : occ a (children_of g x) < occ a (children_of g'' x)).
    { rewrite EA, occ_app, occ_cons. rewrite decide_True by done. lia. }
    destruct (decide (a = m)) as [->|Hne]; [rewrite (Hun x) in Hdiff; lia|].
    destruct (decide (rank m ≤ rank a)) as [Hhigh|Hlow].
    { rewrite (Ho a x Hne) in Hdiff by (by left). lia. }
    destruct (g !! a) as [nda|] eqn:Hga; cycle 1.
    { rewrite (Ho a x Hne) in Hdiff; [lia|]. right. intros (? & ? & _). congruence. }
    destruct (has_child_list (node_kind nda)) eqn:Hcl; cycle 1.
    { rewrite (Ho a x Hne) in Hdiff; [lia|]. right. intros (? & ? & ?). congruence. }
    pose proof (same_skeleton_lookup _ _ _ _ Hs Hga) as Hga''.
    pose proof (Hw'' a _ Hga'') as Hc''. cbn [node_kind set_children] in Hc''.
    rewrite Hcl in Hc''. unfold consistent_node in Hc''.
    cbn [children set_children] in Hc''.
    destruct (children_of g'' a) as [|b l] eqn:Hch''.
    { rewrite (Hc'' x) in Hdiff. lia. }
    specialize (Hc'' x). rewrite targets_set_children in Hc''.
    assert (Hx' : x ∈ targets nda) by (apply occ_pos; lia).
    destruct (Hr a nda x Hga Hx') as [Hlt _].
    pose proof (IH a ltac:(lia)) as Hsame. rewrite Hch'' in Hsame.
    pose proof (Hw a nda Hga) as Hc0. rewrite Hcl in Hc0.
    unfold consistent_node in Hc0.
    rewrite <- (children_of_lookup _ _ _ Hga), <- Hsame in Hc0.
    specialize (Hc0 x). lia. }
  intros x. apply (Hn (S (rank m - rank x))). lia.
Qed.

(** In a wired graph, a wired node is found through the child lists from
    every node it reads, directly or through other nodes, and these nodes
    are wired. *)
Lemma wired_reaches h m nd :
  ranked h rank → wired h → h !! m = Some nd → wired_node h m nd →
  ∀ v, rtc (reads h) m v →
       ∃ ndv, h !! v = Some ndv ∧ wired_node h v ndv ∧ rtc (is_child h) v m.
Proof.
  intros Hr Hw Hm Hwn.
  apply (rtc_ind_r (fun v => ∃ ndv, h !! v = Some ndv ∧ wired_node h v ndv ∧
                                   rtc (is_child h) v m)); [by exists nd|].
  intros x y _ Hxy (ndx & Hx & Hwx & Hcx).
  destruct Hxy as (ndx0 & Hx0 & Hy). rewrite Hx in Hx0. injection Hx0 as <-.
  destruct (Hr x ndx y Hx Hy) as (_ & ndy & Hy0 & Hcl).
  assert (Hin : x ∈ children_of h y).
  { apply occ_pos. rewrite Hwx. by apply occ_pos. }
  exists ndy. split; [done|]. split.
  - pose proof (Hw y _ Hy0) as Hcy. rewrite Hcl in Hcy. unfold consistent_node in Hcy.
    rewrite (children_of_lookup _ _ _ Hy0) in Hin.
    destruct (children ndy); [by apply elem_of_nil in Hin|done].
  - by eapply rtc_l.
Qed.

Lemma reads_skeleton h h' :
  same_skeleton h h' → ∀ m v, rtc (reads h) m v → rtc (reads h') m v.
Proof.
  intros Hs m v. apply rtc_subrel. intros x y (ndx & Hx & Hy).
  exists (set_children ndx (children_of h' x)). split; [by eapply same_skeleton_lookup|done].
Qed.

Lemma same_children_eq (g g'' : heap) :
  same_skeleton g g'' → (∀ x, children_of g'' x = children_of g x) → g'' = g.
Proof.
  intros Hs Hc. apply map_eq. intros x. specialize (Hs x). specialize (Hc x).
  unfold children_of in Hc.
  destruct (g'' !! x) as [nd''|], (g !! x) as [nd|]; try done.
  f_equal. apply strip_eq; [|done]. cbn in Hs. congruence.
Qed.

End WiringTop.

Section WiringClaims.
Import Wiring.

(** X20.  The constructor of AnimatedProps attaches the new node.  On a
    graph in which every node with a child list is in the child lists of
    the nodes it reads exactly when it has a child itself, [attach()]
    returns without a call to the outside, it changes child lists only,
    the new node is then in the child list of each node it reads, once for
    each property that holds it, and the graph is again in such a state:
    every node that got its first child has attached itself. *)
Theorem attach_props_keeps_graph_wired
  (rank : node_id → nat) (h : heap) (m : node_id) (nd : node) (fuel : nat) :
  ranked h rank → wired h → h !! m = Some nd → node_kind nd = KProps →
  unwired_node h m → 2 * rank m < fuel →
  ∃ h', attach fuel h m = Some (h', []) ∧ same_skeleton h h' ∧ appended h h' ∧
        wired h' ∧ wired_node h' m nd.
Proof.
  intros Hr Hw Hm Hk Hun Hfuel.
  destruct (attach_props_spec rank h m nd fuel) as (h' & E & Ht & Ha & Hw' & Hwn);
    try done.
  exists h'. split_and!; try done. apply Ht.
Qed.

Lemma attach_props_keeps_graph_wired_witness :
  attach 11 Examples.wiring_heap 5 = Some (Examples.wiring_heap_attached, []) ∧
  wired Examples.wiring_heap_attached.
Proof.
  destruct (attach_props_keeps_graph_wired Examples.wiring_rank
              Examples.wiring_heap 5
              (mkNode KProps [4; 1] [] false None) 11)
    as (h' & E & _ & _ & Hw & _).
  - apply wiring_rankedb_ranked. vm_compute. reflexivity.
  - apply wiredb_wired. vm_compute. reflexivity.
  - reflexivity.
  - reflexivity.
  - apply unwired_nodeb_unwired_node. vm_compute. reflexivity.
  - vm_compute. lia.
  - assert (h' = Examples.wiring_heap_attached) as ->.
    { vm_compute in E. injection E as <-. vm_compute. reflexivity. }
    split; [|done]. vm_compute. reflexivity.
Defined.

(** X21.  After the [attach()] of an AnimatedProps on such a graph, the
    node is found through the child lists from every node it reads,
    directly or through other nodes: a change of any of them reaches it. *)
Theorem attach_props_reachable
  (rank : node_id → nat) (h : heap) (m : node_id) (nd : node) (fuel : nat) :
  ranked h rank → wired h → h !! m = Some nd → node_kind nd = KProps →
  unwired_node h m → 2 * rank m < fuel →
  ∃ h' cs, attach fuel h m = Some (h', cs) ∧
           ∀ v, rtc (reads h) m v → rtc (is_child h') v m.
Proof.
  intros Hr Hw Hm Hk Hun Hfuel.
  destruct (attach_props_spec rank h m nd fuel) as (h' & E & Ht & Ha & Hw' & Hwn);
    try done.
  exists h', []. split; [done|].
  assert (Hm' : h' !! m = Some nd).
  { eapply touches_below_lookup; [exact Ht|lia|exact Hm]. }
  assert (Hr' : ranked h' rank) by (eapply ranked_skeleton; [exact Hr|apply Ht]).
  intros v Hv. apply (reads_skeleton _ _ (proj1 Ht)) in Hv.
  by destruct (wired_reaches rank h' m nd Hr' Hw' Hm' Hwn v Hv) as (? & _ & _ & ?).
Qed.

Lemma attach_props_reachable_witness :
  ∃ h', attach 11 Examples.wiring_heap 5 = Some (h', []) ∧ rtc (is_child h') 0 5.
Proof.
  destruct (attach_props_reachable Examples.wiring_rank
              Examples.wiring_heap 5
              (mkNode KProps [4; 1] [] false None) 11)
    as (h' & cs & E & Hreach).
  - apply wiring_rankedb_ranked. vm_compute. reflexivity.
  - apply wiredb_wired. vm_compute. reflexivity.
  - reflexivity.
  - reflexivity.
  - apply unwired_nodeb_unwired_node. vm_compute. reflexivity.
  - vm_compute. lia.
  - assert (cs = []) as ->.
    { vm_compute in E. by injection E as _ <-. }
    exists h'. split; [done|]. apply Hreach.
    eapply rtc_l; [exists (mkNode KProps [4; 1] [] false None); split; [reflexivity|left]|].
    eapply rtc_l; [exists (mkNode KStyle [3; 0] [] false None); split;
                   [reflexivity|right; left]|].
    done.
Defined.

(** X22.  [detach()] of an attached AnimatedProps (what
    [componentWillUnmount] and [attachProps] call), on such a graph in
    which no value tracks another node: it returns, it never warns about a
    child that does not exist, the node is then in no child list, and the
    graph is again in such a state: every node that lost its last child has
    detached itself. *)
Theorem detach_props_keeps_graph_wired
  (rank : node_id → nat) (h : heap) (m : node_id) (nd : node) (fuel : nat) :
  ranked h rank → wired h → no_tracking h → h !! m = Some nd → node_kind nd = KProps →
  wired_node h m nd → 2 * rank m < fuel →
  ∃ h' cs, detach fuel h m = Some (h', cs) ∧ no_Warn cs ∧ same_skeleton h h' ∧
           wired h' ∧ unwired_node h' m.
Proof.
  intros Hr Hw Hnt Hm Hk Hwn Hfuel.
  destruct (detach_props_spec rank h m nd fuel) as (h' & cs & E & Hnw & Ht & Hw' & Hun);
    try done.
  exists h', cs. split_and!; try done. apply Ht.
Qed.

Lemma detach_props_keeps_graph_wired_witness :
  ∃ h', detach 11 Examples.wiring_heap_attached 5
        = Some (h', [RemoveListener 0; StopDriver 0; StopDriver 1]) ∧
        unwired_node h' 5.
Proof.
  destruct (detach_props_keeps_graph_wired Examples.wiring_rank
              Examples.wiring_heap_attached 5
              (mkNode KProps [4; 1] [] false None) 11)
    as (h' & cs & E & _ & _ & _ & Hun).
  - apply wiring_rankedb_ranked. vm_compute. reflexivity.
  - apply wiredb_wired. vm_compute. reflexivity.
  - apply no_trackingb_no_tracking. vm_compute. reflexivity.
  - reflexivity.
  - reflexivity.
  - apply wired_nodeb_wired_node. vm_compute. reflexivity.
  - vm_compute. lia.
  - assert (cs = [RemoveListener 0; StopDriver 0; StopDriver 1]) as ->.
    { vm_compute in E. by injection E as _ <-. }
    by exists h'.
Defined.

(** X23.  Mounting and unmounting a component leaves the graph as it was:
    on such a graph in which no value tracks another node, [attach()] of a
    new AnimatedProps followed by its [detach()] gives back every child
    list, in its order, and [detach()] never warns. *)
Theorem attach_detach_props_round_trip
  (rank : node_id → nat) (h : heap) (m : node_id) (nd : node) (fuel fuel' : nat) :
  ranked h rank → wired h → no_tracking h → h !! m = Some nd → node_kind nd = KProps →
  unwired_node h m → 2 * rank m < fuel → 2 * rank m < fuel' →
  ∃ h' cs, attach fuel h m = Some (h', []) ∧ detach fuel' h' m = Some (h, cs) ∧
           no_Warn cs.
Proof.
  intros Hr Hw Hnt Hm Hk Hun Hfuel Hfuel'.
  destruct (attach_props_spec rank h m nd fuel) as (h' & E & Ht & Ha & Hw' & Hwn);
    try done.
  assert (Hm' : h' !! m = Some nd).
  { eapply touches_below_lookup; [exact Ht|lia|exact Hm]. }
  assert (Hr' : ranked h' rank) by (eapply ranked_skeleton; [exact Hr|apply Ht]).
  assert (Hnt' : no_tracking h') by (eapply no_tracking_skeleton; [exact Hnt|apply Ht]).
  destruct (detach_props_spec rank h' m nd fuel')
    as (h'' & cs & E'' & Hnw & Ht'' & Hw'' & Hun''); try done.
  exists h', cs. split; [done|]. split; [|done].
  destruct (proj1 (detach_appended h Hw Hnt fuel') h' m nd h'' cs) as [Hs'' Ha''];
    try done; [apply Ht|by rewrite Hk|].
  assert (h'' = h) as ->; [|done].
  apply same_children_eq; [done|].
  apply (children_restored rank h h'' m); try done.
  by eapply touches_below_trans.
Qed.

Lemma attach_detach_props_round_trip_witness :
  ∃ cs, detach 11 Examples.wiring_heap_attached 5 = Some (Examples.wiring_heap, cs).
Proof.
  destruct (attach_detach_props_round_trip Examples.wiring_rank
              Examples.wiring_heap 5
              (mkNode KProps [4; 1] [] false None) 11 11)
    as (h' & cs & E & E' & _).
  - apply wiring_rankedb_ranked. vm_compute. reflexivity.
  - apply wiredb_wired. vm_compute. reflexivity.
  - apply no_trackingb_no_tracking. vm_compute. reflexivity.
  - reflexivity.
  - reflexivity.
  - apply unwired_nodeb_unwired_node. vm_compute. reflexivity.
  - vm_compute. lia.
  - vm_compute. lia.
  - assert (h' = Examples.wiring_heap_attached) as ->.
    { vm_compute in E. injection E as <-. vm_compute. reflexivity. }
    by exists cs.
Defined.

End WiringClaims.

Section WiringCalls.
Import Wiring.

Lemma is_value_skeleton h h' v : same_skeleton h h' → is_value h' v → is_value h v.
Proof.
  intros Hs (nd & Hv & Hk). pose proof (same_skeleton_lookup_inv _ _ _ _ Hs Hv) as Hv0.
  by eexists.
Qed.

(** The driver of a value is stopped only when the value itself is
    detached or loses its last child; child lists only get shorter. *)
Lemma detach_calls fuel :
  (∀ h n nd h' cs,
     no_tracking h → h !! n = Some nd → node_kind nd ≠ KTracking →
     detach fuel h n = Some (h', cs) →
     same_skeleton h h' ∧ (∀ q, children_of h q = [] → children_of h' q = []) ∧
     ∀ v, StopDriver v ∈ cs → is_value h v ∧ (v = n ∨ children_of h' v = [])) ∧
  (∀ h p c h' cs,
     no_tracking h → removeChild fuel h p c = Some (h', cs) →
     same_skeleton h h' ∧ (∀ q, children_of h q = [] → children_of h' q = []) ∧
     ∀ v, StopDriver v ∈ cs → is_value h v ∧ children_of h' v = []).
Proof.
  induction fuel as [|fuel [IHdet IHrem]]; [done|].
  assert (Hloop : ∀ n ts h h' cs,
    no_tracking h →
    forEach_input (fun h1 p => removeChild fuel h1 p n) h ts = Some (h', cs) →
    same_skeleton h h' ∧ (∀ q, children_of h q = [] → children_of h' q = []) ∧
    ∀ v, StopDriver v ∈ cs → is_value h v ∧ children_of h' v = []).
  { intros n. induction ts as [|p ts IHts]; intros h h' cs Hnt.
    - intros [= <- <-]. split; [apply same_skeleton_refl|]. split; [done|].
      intros v Hv. by apply elem_of_nil in Hv.
    - rewrite forEach_input_cons.
      destruct (removeChild fuel h p n) as [[h1 c1]|] eqn:E1; [|done].
      cbn [mbind option_bind].
      destruct (forEach_input _ h1 ts) as [[h2 c2]|] eqn:E2; [|done].
      cbn [mbind option_bind]. intros [= <- <-].
      destruct (IHrem h p n h1 c1 Hnt E1) as (Hs1 & He1 & Hc1).
      destruct (IHts h1 h2 c2 (no_tracking_skeleton _ _ Hnt Hs1) E2) as (Hs2 & He2 & Hc2).
      split; [by eapply same_skeleton_trans|]. split; [by auto|].
      intros v Hv. apply elem_of_app in Hv as [Hv|Hv].
      + destruct (Hc1 v Hv) as [? ?]. auto.
      + destruct (Hc2 v Hv) as [? ?]. split; [by eapply is_value_skeleton|done]. }
  split.
  - intros h n nd h' cs Hnt Hn Hkind. rewrite detach_S, Hn. cbn [mbind option_bind].
    assert (Hweak : ∀ (h' : heap) (cs : list call),
      (same_skeleton h h' ∧ (∀ q, children_of h q = [] → children_of h' q = []) ∧
       ∀ v, StopDriver v ∈ cs → is_value h v ∧ children_of h' v = []) →
      same_skeleton h h' ∧ (∀ q, children_of h q = [] → children_of h' q = []) ∧
      ∀ v, StopDriver v ∈ cs → is_value h v ∧ (v = n ∨ children_of h' v = [])).
    { intros h0 cs0 (? & ? & Hc). split; [done|]. split; [done|].
      intros v Hv. destruct (Hc v Hv). auto. }
    destruct (node_kind nd) eqn:Hk; try done;
      try (intros E; by apply Hweak, (Hloop n (inputs nd))).
    + rewrite (Hnt n nd Hn). cbn [mbind option_bind]. intros [= <- <-].
      split; [apply same_skeleton_refl|]. split; [done|].
      intros v Hv. apply list_elem_of_singleton in Hv. injection Hv as ->.
      split; [by exists nd|by left].
    + intros [= <- <-]. split; [apply same_skeleton_refl|]. split; [done|].
      intros v Hv. by apply elem_of_nil in Hv.
    + destruct (forEach_input _ h (inputs nd)) as [[h1 c1]|] eqn:E; [|done].
      cbn [mbind option_bind]. intros [= <- <-].
      destruct (Hloop n _ _ _ _ Hnt E) as (Hs & He & Hc). split; [done|]. split; [done|].
      intros v Hv. apply elem_of_app in Hv as [Hv|Hv].
      * destruct (Hc v Hv). auto.
      * apply list_elem_of_fmap in Hv as (? & ? & _). done.
  - intros h p c h' cs Hnt. rewrite removeChild_S.
    destruct (h !! p) as [nd|] eqn:Hp; cbn [mbind option_bind]; [|done].
    assert (Hrefl : ∀ cs : list call, (∀ v, StopDriver v ∉ cs) →
      same_skeleton h h ∧ (∀ q, children_of h q = [] → children_of h q = []) ∧
      ∀ v, StopDriver v ∈ cs → is_value h v ∧ children_of h v = []).
    { intros cs0 Hcs. split; [apply same_skeleton_refl|]. split; [done|].
      intros v Hv. by apply Hcs in Hv. }
    destruct (has_child_list (node_kind nd)) eqn:Hcl; cycle 1.
    { intros [= <- <-]. apply Hrefl. intros v Hv. by apply elem_of_nil in Hv. }
    destruct (WithChildren.indexOf (children nd) c) as [i|] eqn:Hi; cycle 1.
    { intros [= <- <-]. apply Hrefl. intros v Hv.
      apply list_elem_of_singleton in Hv. done. }
    cbn zeta. set (h1 := <[p := set_children nd (delete i (children nd))]> h).
    assert (Hs1 : same_skeleton h h1) by (by apply same_skeleton_insert).
    assert (He1 : ∀ q, children_of h q = [] → children_of h1 q = []).
    { intros q Hq. unfold h1. rewrite children_of_insert.
      destruct (decide (q = p)) as [->|]; [|done].
      rewrite (children_of_lookup _ _ _ Hp) in Hq. cbn [children set_children].
      rewrite Hq. by destruct i. }
    destruct (length (delete i (children nd)) =? 0) eqn:Hlen.
    + intros E. apply Nat.eqb_eq, length_zero_iff_nil in Hlen.
      assert (Hp1 : h1 !! p = Some (set_children nd (delete i (children nd)))).
      { unfold h1. by rewrite lookup_insert_eq. }
      destruct (IHdet h1 p _ h' cs (no_tracking_skeleton _ _ Hnt Hs1) Hp1) as (Hs & He & Hc).
      { cbn [node_kind set_children]. by destruct (node_kind nd). }
      { done. }
      split; [by eapply same_skeleton_trans|]. split; [by auto|].
      intros v Hv. destruct (Hc v Hv) as [Hval Hor].
      split; [by eapply is_value_skeleton|]. destruct Hor as [->|]; [|done].
      apply He. rewrite (children_of_lookup _ _ _ Hp1). done.
    + intros [= <- <-]. split; [done|]. split; [done|].
      intros v Hv. by apply elem_of_nil in Hv.
Qed.

End WiringCalls.

Section WiringRerender.
Import Wiring.

(** A node without a child list has the same fields in two wired states of
    a graph. *)
Lemma wired_lookup_no_list h h' x nd :
  same_skeleton h h' → wired h → wired h' → h !! x = Some nd →
  has_child_list (node_kind nd) = false → h' !! x = Some nd.
Proof.
  intros Hs Hw Hw' Hx Hcl. pose proof (same_skeleton_lookup _ _ _ _ Hs Hx) as Hx'.
  pose proof (Hw x nd Hx) as Hc. rewrite Hcl in Hc.
  pose proof (Hw' x _ Hx') as Hc'. cbn [node_kind set_children] in Hc'.
  rewrite Hcl in Hc'. cbn [children set_children] in Hc'.
  by rewrite Hx', Hc', <- Hc, set_children_id.
Qed.

(** X24.  [attachProps] attaches the new AnimatedProps and THEN detaches
    the old one.  On a graph in the state described for X20, in which no
    value tracks another node: both calls return, nothing warns, the old
    node is then in no child list and the new one is in the child list of
    each node it reads, and no driver is stopped on a value that the new
    props read, directly or through other nodes: the animations of the
    values that stay on the screen go on. *)
Theorem attachProps_keeps_read_values_running
  (rank : node_id → nat) (h : heap) (old new : node_id) (ndo ndn : node) (fuel : nat) :
  ranked h rank → wired h → no_tracking h →
  h !! old = Some ndo → node_kind ndo = KProps → wired_node h old ndo →
  h !! new = Some ndn → node_kind ndn = KProps → unwired_node h new →
  old ≠ new → 2 * rank old < fuel → 2 * rank new < fuel →
  ∃ h' cs, attachProps fuel h (Some old) new = Some (h', cs) ∧ no_Warn cs ∧
           wired h' ∧ unwired_node h' old ∧ wired_node h' new ndn ∧
           ∀ v, rtc (reads h) new v → StopDriver v ∉ cs.
Proof.
  intros Hr Hw Hnt Ho Hko Hwo Hn Hkn Hun Hne Hfo Hfn.
  destruct (attach_props_spec rank h new ndn fuel) as (h1 & E1 & Ht1 & _ & Hw1 & Hwn1);
    try done.
  assert (Hr1 : ranked h1 rank) by (eapply ranked_skeleton; [exact Hr|apply Ht1]).
  assert (Hnt1 : no_tracking h1) by (eapply no_tracking_skeleton; [exact Hnt|apply Ht1]).
  assert (Ho1 : h1 !! old = Some ndo).
  { eapply wired_lookup_no_list; [apply Ht1|done..|by rewrite Hko]. }
  assert (Hn1 : h1 !! new = Some ndn).
  { eapply wired_lookup_no_list; [apply Ht1|done..|by rewrite Hkn]. }
  assert (Hwo1 : wired_node h1 old ndo).
  { intros q. destruct Ht1 as (_ & _ & Hocc). rewrite Hocc; [apply Hwo|done|].
    right. intros (nd & Hnd & Hcl). rewrite Ho in Hnd. injection Hnd as <-.
    by rewrite Hko in Hcl. }
  destruct (detach_props_spec rank h1 old ndo fuel)
    as (h2 & cs & E2 & Hnw & Ht2 & Hw2 & Hun2); try done.
  assert (Hr2 : ranked h2 rank) by (eapply ranked_skeleton; [exact Hr1|apply Ht2]).
  assert (Hn2 : h2 !! new = Some ndn).
  { eapply wired_lookup_no_list; [apply Ht2|done..|by rewrite Hkn]. }
  assert (Hwn2 : wired_node h2 new ndn).
  { intros q. destruct Ht2 as (_ & _ & Hocc). rewrite Hocc; [apply Hwn1|done|].
    right. intros (nd & Hnd & Hcl). rewrite Hn1 in Hnd. injection Hnd as <-.
    by rewrite Hkn in Hcl. }
  exists h2, cs. split.
  { unfold attachProps. rewrite E1. cbn [mbind option_bind]. by rewrite E2. }
  split; [done|]. split; [done|]. split; [done|]. split; [done|].
  intros v Hv Hstop.
  destruct (proj1 (detach_calls fuel) h1 old ndo h2 cs Hnt1 Ho1) as (_ & _ & Hcalls);
    [by rewrite Hko|done|].
  destruct (Hcalls v Hstop) as [(ndv & Hv1 & Hkv) Hor].
  assert (Hv2 : rtc (reads h2) new v).
  { eapply reads_skeleton; [|exact Hv].
    eapply same_skeleton_trans; [apply Ht1|apply Ht2]. }
  destruct (wired_reaches rank h2 new ndn Hr2 Hw2 Hn2 Hwn2 v Hv2) as (_ & _ & _ & Hchild).
  destruct Hor as [->|Hempty]; [congruence|].
  apply rtc_inv in Hchild as [->|(y & Hy & _)]; [congruence|].
  unfold is_child in Hy. rewrite Hempty in Hy. by apply elem_of_nil in Hy.
Qed.

Lemma attachProps_keeps_read_values_running_witness :
  ∃ h', attachProps 19 Examples.wiring_heap_rerender (Some 5) 9 = Some (h', []) ∧
        unwired_node h' 5.
Proof.
  destruct (attachProps_keeps_read_values_running Examples.wiring_rank
              Examples.wiring_heap_rerender 5 9
              (mkNode KProps [4; 1] [] false None)
              (mkNode KProps [8; 1] [] false None) 19)
    as (h' & cs & E & _ & _ & Hun & _).
  - apply wiring_rankedb_ranked. vm_compute. reflexivity.
  - apply wiredb_wired. vm_compute. reflexivity.
  - apply no_trackingb_no_tracking. vm_compute. reflexivity.
  - reflexivity.
  - reflexivity.
  - apply wired_nodeb_wired_node. vm_compute. reflexivity.
  - reflexivity.
  - reflexivity.
  - apply unwired_nodeb_unwired_node. vm_compute. reflexivity.
  - lia.
  - vm_compute. lia.
  - vm_compute. lia.
  - assert (cs = []) as ->.
    { vm_compute in E. by injection E as _ <-. }
    by exists h'.
Defined.

End WiringRerender.

Section WiringTracking.
Import Wiring.

Lemma shrinks_refl h : shrinks h h.
Proof. by intros x. Qed.

Lemma shrinks_trans h1 h2 h3 : shrinks h1 h2 → shrinks h2 h3 → shrinks h1 h3.
Proof.
  intros H12 H23 x. destruct (H12 x) as [E1 C1], (H23 x) as [E2 C2].
  split; [by rewrite E2|auto].
Qed.

Lemma shrinks_insert (h : heap) x nd nd' :
  h !! x = Some nd → constants nd' = constants nd →
  (∀ c, c ∈ children nd' → c ∈ children nd) →
  shrinks h (<[x := nd']> h).
Proof.
  intros Hx Hc Hin y. rewrite children_of_insert. destruct (decide (y = x)) as [->|Hne].
  - rewrite lookup_insert_eq, Hx. cbn. rewrite Hc. split; [done|].
    by rewrite (children_of_lookup _ _ _ Hx).
  - by rewrite lookup_insert_ne.
Qed.

Lemma shrinks_lookup h h' x nd :
  shrinks h h' → h !! x = Some nd →
  ∃ nd', h' !! x = Some nd' ∧ constants nd' = constants nd.
Proof.
  intros Hs Hx. destruct (Hs x) as [E _]. rewrite Hx in E.
  destruct (h' !! x) as [nd'|]; [|done]. exists nd'. split; [done|].
  cbn in E. congruence.
Qed.

(** [detach] and [removeChild] write child lists and [_active] only, and
    add no child. *)
Lemma detach_shrinks fuel :
  (∀ h n h' cs, detach fuel h n = Some (h', cs) → shrinks h h') ∧
  (∀ h p c h' cs, removeChild fuel h p c = Some (h', cs) → shrinks h h').
Proof.
  induction fuel as [|fuel [IHdet IHrem]]; [done|].
  assert (Hloop : ∀ n ts h h' cs,
    forEach_input (fun h1 p => removeChild fuel h1 p n) h ts = Some (h', cs) →
    shrinks h h').
  { intros n. induction ts as [|p ts IHts]; intros h h' cs.
    - intros [= <- _]. apply shrinks_refl.
    - rewrite forEach_input_cons.
      destruct (removeChild fuel h p n) as [[h1 c1]|] eqn:E1; [|done].
      cbn [mbind option_bind].
      destruct (forEach_input _ h1 ts) as [[h2 c2]|] eqn:E2; [|done].
      cbn [mbind option_bind]. intros [= <- _].
      eapply shrinks_trans; [by eapply IHrem|by eapply IHts]. }
  split.
  - intros h n h' cs. rewrite detach_S.
    destruct (h !! n) as [nd|] eqn:Hn; [|done]. cbn [mbind option_bind].
    destruct (node_kind nd); try apply Hloop.
    + destruct (_tracking nd) as [t|].
      * destruct (detach fuel h t) as [[h1 c1]|] eqn:E; [|done].
        cbn [mbind option_bind]. intros [= <- _]. by eapply IHdet.
      * cbn [mbind option_bind]. intros [= <- _]. apply shrinks_refl.
    + intros [= <- _]. apply shrinks_refl.
    + destruct (forEach_input _ h (inputs nd)) as [[h1 c1]|] eqn:E; [|done].
      cbn [mbind option_bind]. intros [= <- _]. by eapply Hloop.
    + destruct (forEach_input _ h (inputs nd)) as [[h1 c1]|] eqn:E; [|done].
      cbn [mbind option_bind].
      destruct (h1 !! n) as [nd1|] eqn:Hn1; [|done]. cbn [mbind option_bind].
      intros [= <- _]. eapply shrinks_trans; [by eapply Hloop|].
      by apply (shrinks_insert h1 n nd1).
  - intros h p c h' cs. rewrite removeChild_S.
    destruct (h !! p) as [nd|] eqn:Hp; [|done]. cbn [mbind option_bind].
    destruct (has_child_list (node_kind nd)); [|intros [= <- _]; apply shrinks_refl].
    destruct (WithChildren.indexOf (children nd) c) as [i|] eqn:Hi;
      [|intros [= <- _]; apply shrinks_refl].
    cbn zeta.
    assert (Hs1 : shrinks h (<[p := set_children nd (delete i (children nd))]> h)).
    { apply (shrinks_insert h p nd); [done|done|]. cbn [children set_children].
      intros x Hx. by eapply list_elem_of_delete_inv. }
    destruct (length (delete i (children nd)) =? 0).
    + intros E. eapply shrinks_trans; [exact Hs1|by eapply IHdet].
    + by intros [= <- _].
Qed.

(** X25.  [stopTracking()] detaches the tracking of a value and leaves it
    in the field [_tracking], so that the next [stopTracking()] (every
    [start()] of [timing], [spring] and [decay] makes one, and [track()]
    another) detaches the same tracking again: the node it follows no
    longer has it as a child, and [removeChild] warns. *)
Theorem stopTracking_again_warns
  (h : heap) (v t p : node_id) (ndv ndt : node) (fuel fuel' : nat)
  (h1 : heap) (cs1 : list call) :
  h !! v = Some ndv → _tracking ndv = Some t →
  h !! t = Some ndt → node_kind ndt = KTracking → inputs ndt = [p] →
  has_list h p → occ t (children_of h p) ≤ 1 →
  stopTracking fuel h v = Some (h1, cs1) → 2 ≤ fuel' →
  ∃ h2, stopTracking fuel' h1 v = Some (h2, [Warn p t]) ∧
        children_of h2 p = children_of h1 p.
Proof.
  intros Hv Htr Ht Hkt Hit (ndp & Hp & Hclp) Hocc E1 Hfuel'.
  unfold stopTracking in E1. rewrite Hv in E1. cbn [mbind option_bind] in E1.
  rewrite Htr in E1.
  pose proof (proj1 (detach_shrinks fuel) _ _ _ _ E1) as Hs.
  assert (Hgone : t ∉ children_of h1 p).
  { destruct fuel as [|fuel]; [done|]. rewrite detach_S, Ht in E1.
    cbn [mbind option_bind] in E1. rewrite Hkt, Hit in E1.
    rewrite forEach_input_cons in E1.
    destruct (removeChild fuel h p t) as [[hA cA]|] eqn:EA; [|done].
    cbn [mbind option_bind forEach_input foldl] in E1.
    destruct (hA !! t) as [ndA|] eqn:HtA; [|done]. cbn [mbind option_bind] in E1.
    injection E1 as <- _.
    assert (HgoneA : t ∉ children_of hA p).
    { destruct fuel as [|fuel]; [done|]. rewrite removeChild_S, Hp in EA.
      cbn [mbind option_bind] in EA. rewrite Hclp in EA.
      rewrite (children_of_lookup _ _ _ Hp) in Hocc.
      destruct (WithChildren.indexOf (children ndp) t) as [i|] eqn:Hi.
      - cbn zeta in EA.
        set (hB := <[p := set_children ndp (delete i (children ndp))]> h) in *.
        assert (HgoneB : t ∉ children_of hB p).
        { unfold hB. rewrite children_of_insert, decide_True by done.
          cbn [children set_children]. apply occ_zero.
          pose proof (occ_delete_indexOf _ _ _ t Hi) as Hd.
          rewrite decide_True in Hd by done. lia. }
        destruct (length (delete i (children ndp)) =? 0).
        + pose proof (proj1 (detach_shrinks fuel) _ _ _ _ EA) as HsB.
          intros Hin. by apply (proj2 (HsB p)) in Hin.
        + by injection EA as <- _.
      - injection EA as <- _. rewrite (children_of_lookup _ _ _ Hp).
        by apply indexOf_None. }
    rewrite children_of_insert. destruct (decide (p = t)) as [->|]; [|done].
    cbn [children set_active]. by rewrite <- (children_of_lookup _ _ _ HtA). }
  destruct (shrinks_lookup _ _ _ _ Hs Hv) as (ndv1 & Hv1 & Hcv).
  destruct (shrinks_lookup _ _ _ _ Hs Ht) as (ndt1 & Ht1 & Hct).
  destruct (shrinks_lookup _ _ _ _ Hs Hp) as (ndp1 & Hp1 & Hcp).
  unfold constants in Hcv, Hct, Hcp.
  injection Hcv as _ _ Htr1. injection Hct as Hkt1 Hit1 _. injection Hcp as Hkp1 _ _.
  rewrite Htr in Htr1. rewrite Hkt in Hkt1. rewrite Hit in Hit1.
  destruct fuel' as [|[|fuel']]; [lia..|].
  unfold stopTracking. rewrite Hv1. cbn [mbind option_bind]. rewrite Htr1.
  rewrite detach_S, Ht1. cbn [mbind option_bind]. rewrite Hkt1, Hit1.
  rewrite forEach_input_cons, removeChild_S, Hp1. cbn [mbind option_bind].
  rewrite Hkp1, Hclp.
  rewrite (children_of_lookup _ _ _ Hp1) in Hgone.
  rewrite (proj2 (indexOf_None _ _) Hgone).
  cbn [mbind option_bind forEach_input foldl]. rewrite Ht1. cbn [mbind option_bind].
  eexists. split; [done|].
  rewrite children_of_insert. destruct (decide (p = t)) as [->|]; [|done].
  cbn [children set_active]. by rewrite (children_of_lookup _ _ _ Ht1).
Qed.

Lemma stopTracking_again_warns_witness :
  ∃ h1 h2,
    stopTracking 3 Examples.tracking_heap 0 = Some (h1, [StopDriver 1]) ∧
    stopTracking 3 h1 0 = Some (h2, [Warn 1 2]).
Proof.
  destruct (stopTracking 3 Examples.tracking_heap 0) as [[h1 cs1]|] eqn:E1;
    [|by vm_compute in E1].
  destruct (stopTracking_again_warns Examples.tracking_heap 0 2 1
              (mkNode KValue [] [] false (Some 2))
              (mkNode KTracking [1] [] true None) 3 3 h1 cs1)
    as (h2 & E2 & _).
  - reflexivity.
  - reflexivity.
  - reflexivity.
  - reflexivity.
  - reflexivity.
  - exists (mkNode KValue [] [2] false None). split; reflexivity.
  - vm_compute. lia.
  - exact E1.
  - lia.
  - assert (cs1 = [StopDriver 1]) as ->.
    { vm_compute in E1. by injection E1 as _ <-. }
    by exists h1, h2.
Defined.

End WiringTracking.

(** ** AnimatedValue: stopAnimation *)

Section StoppingFacts.
Import Graph.

(** X26.  [stopAnimation()] on a value whose driver is running stops the
    driver: the driver cancels what it has scheduled and the completion
    closure of [animate] runs once, with [false]; the closure, not
    [stopAnimation], empties the driver slot.  A second [stopAnimation()]
    then finds no driver and calls nothing. *)
Theorem stopAnimation_stops_once
  fuel h id self (a : Animation) (onEnd : onEndClosure) :
  value_at h id = Some self → _animation self = Some a →
  Animation._onEnd a = Some onEnd →
  ∃ hostcalls h',
    Forall (fun c => Driver.is_OnEnd c = false) hostcalls ∧
    (Animation.stop a).2 = hostcalls ++ [Driver.OnEnd onEnd false] ∧
    Stopping.stopAnimation fuel h id
    = Some (h', (Host <$> hostcalls) ++ [OnEndClosure onEnd false]) ∧
    h' = <[id := NValue (set_animation self None)]> h ∧
    Stopping.stopAnimation fuel h' id = Some (h', []).
Proof.
  intros Hv Ha Hend. destruct (Animation_stop_calls a) as (hostcalls & Hcs & H1 & H2).
  rewrite Hend in Hcs. simpl in Hcs.
  exists hostcalls, (<[id := NValue (set_animation self None)]> h).
  split; [done|]. split; [done|]. split; [|split; [done|]].
  - unfold Stopping.stopAnimation. rewrite Hv. simpl. rewrite Ha.
    destruct (Animation.stop a) as [a' cs]. simpl in Hcs. subst cs.
    rewrite driver_calls_host by done. simpl. rewrite value_at_insert. simpl.
    by rewrite insert_insert_eq.
  - unfold Stopping.stopAnimation. by rewrite value_at_insert.
Qed.

End StoppingFacts.

Lemma stopAnimation_stops_once_witness :
  ∃ h h',
    Examples.animated_heap = Some h ∧
    Stopping.stopAnimation 6 h 0
    = Some (h', [Graph.Host Driver.ClearTimeout; Graph.Host Driver.CancelAnimationFrame;
                 Graph.OnEndClosure (Some 8) false]) ∧
    Stopping.stopAnimation 6 h' 0 = Some (h', []).
Proof.
  eexists. 
  match goal with |- ∃ h', ?hh = Some ?h ∧ _ =>
    assert (Hh : hh = Some h) by (vm_compute; reflexivity)
  end.
  match type of Hh with _ = Some ?h =>
    destruct (stopAnimation_stops_once 6 h 0 _ _ (Some 8)
                ltac:(vm_compute; reflexivity) eq_refl eq_refl)
      as (hostcalls & h' & _ & Hstop & Hrun & _ & Hagain)
  end.
  assert (hostcalls = [Driver.ClearTimeout; Driver.CancelAnimationFrame]) as ->.
  { vm_compute in Hstop. destruct hostcalls as [|? [|? [|? ?]]]; simplify_eq. done. }
  exists h'. split; [exact Hh|]. split; [exact Hrun|exact Hagain].
Defined.

(** ** DecayAnimation: a velocity that is not a number *)

Section DecayNan.
Import Driver Frames.
Context {H : Type}.
Variable Math_exp : float -> float.

Lemma Prim2SF_is_nan (x : float) : Prim2SF x = S754_nan → PrimFloat.is_nan x = true.
Proof.
  intros Hx. unfold PrimFloat.is_nan. rewrite FloatAxioms.eqb_spec, Hx. done.
Qed.

Lemma div_nan_l (x y : float) :
  PrimFloat.is_nan x = true → PrimFloat.is_nan (x / y) = true.
Proof.
  intros Hx%is_nan_Prim2SF. apply Prim2SF_is_nan.
  rewrite FloatAxioms.div_spec, Hx. done.
Qed.

Lemma mul_nan_l (x y : float) :
  PrimFloat.is_nan x = true → PrimFloat.is_nan (x * y) = true.
Proof.
  intros Hx%is_nan_Prim2SF. apply Prim2SF_is_nan.
  rewrite FloatAxioms.mul_spec, Hx. done.
Qed.

Lemma add_nan_r (x y : float) :
  PrimFloat.is_nan y = true → PrimFloat.is_nan (x + y) = true.
Proof.
  intros Hy%is_nan_Prim2SF. apply Prim2SF_is_nan.
  rewrite FloatAxioms.add_spec, Hy. by destruct (Prim2SF x).
Qed.

Lemma ltb_abs_sub_nan_r (x y z : float) :
  PrimFloat.is_nan y = true → PrimFloat.ltb (PrimFloat.abs (x - y)) z = false.
Proof.
  intros Hy%is_nan_Prim2SF.
  rewrite FloatAxioms.ltb_spec, FloatAxioms.abs_spec, FloatAxioms.sub_spec.
  unfold SFltb. rewrite Hy. by destruct (Prim2SF x).
Qed.

Lemma decay_tick_nan_velocity (self : DecayAnimation.DecayAnimation H) now :
  PrimFloat.is_nan (DecayAnimation._velocity self) = true →
  ∃ value,
    PrimFloat.is_nan value = true ∧
    DecayAnimation.onUpdate Math_exp self now
    = (DecayAnimation.set_lastValue self value, [OnUpdate value; RequestAnimationFrame]).
Proof.
  intros Hnan. unfold DecayAnimation.onUpdate. cbv zeta.
  match goal with |- context [PrimFloat.abs (_ - ?v)] => set (value := v) end.
  assert (Hv : PrimFloat.is_nan value = true).
  { unfold value. by apply add_nan_r, mul_nan_l, div_nan_l. }
  exists value. split; [done|]. by rewrite (ltb_abs_sub_nan_r _ _ _ Hv).
Qed.

(** X27.  A DecayAnimation whose velocity is [NaN] (as when [velocity] is
    missing from the configuration) never ends by itself: whatever the
    clock readings and the deceleration, every frame gives [NaN] to
    [onUpdate] and requests another frame, and does nothing else; the
    completion callback is never called by a frame. *)
Theorem decay_nan_velocity_never_ends
  (self : DecayAnimation.DecayAnimation H) (nows : list Z) :
  PrimFloat.is_nan (DecayAnimation._velocity self) = true →
  let cs := (Animation.run Math_exp (Animation.Decay self) (frames nows)).2 in
  (∃ values, length values = length nows ∧
             Forall (fun value => PrimFloat.is_nan value = true) values ∧
             cs = emitting values) ∧
  ends cs = 0 ∧ requests cs = length nows ∧ updates_nan cs.
Proof.
  revert self. induction nows as [|now nows IH]; intros self Hnan.
  { split; [by exists []|]. split; [done|]. split; [done|]. constructor. }
  destruct (decay_tick_nan_velocity self now Hnan) as (value & Hv & Hs).
  change (frames (now :: nows)) with (Animation.Frame now :: frames nows).
  simpl. rewrite Hs.
  specialize (IH (DecayAnimation.set_lastValue self value) Hnan). simpl in IH.
  destruct (Animation.run Math_exp
              (Animation.Decay (DecayAnimation.set_lastValue self value))
              (frames nows)) as [a2 c2].
  simpl in *. destruct IH as ((values & Hlen & Hnans & ->) & IH1 & IH2 & IH3).
  split.
  { exists (value :: values). split; [by rewrite length_cons, Hlen|].
    split; [by constructor|done]. }
  unfold ends, requests in *.
  rewrite !(filter_cons _ (OnUpdate _)), !(filter_cons _ RequestAnimationFrame).
  rewrite !decide_False by (by intros []). rewrite decide_True by done.
  simpl. rewrite IH1, IH2. split; [done|]. split; [done|].
  by repeat constructor.
Qed.

End DecayNan.

Lemma decay_nan_velocity_never_ends_witness :
  Driver.ends
    (Animation.run (H:=nat) (fun x => x)
       (Animation.Decay Examples.aimless_decay)
       (Frames.frames [1016; 1032; 1048]%Z)).2 = 0 ∧
  Frames.requests
    (Animation.run (H:=nat) (fun x => x)
       (Animation.Decay Examples.aimless_decay)
       (Frames.frames [1016; 1032; 1048]%Z)).2 = 3.
Proof.
  destruct (decay_nan_velocity_never_ends (fun x => x) Examples.aimless_decay
              [1016; 1032; 1048]%Z) as (_ & H1 & H2 & _).
  - vm_compute. reflexivity.
  - done.
Defined.
